(** * Verification of the red-black tree of rozmar1n/RB-tree

    The repository holds two generations of [rb::Tree<T>]:
    - [source/rb_tree.hpp]: nodes linked through a per-tree sentinel
      [nil_]; ranks are computed with a recursive [subtree_size];
      this is the tree the command interpreter ([rb::run_cli]) drives.
    - the augmented tree: absent links are [nullptr], every node caches
      the size of its subtree, and an in-order iterator walks the parent
      links.

    Both are embedded as programs over an explicit heap
    ([gmap addr Node]); a failed assertion or a read through a dangling
    or null pointer is [None].  Loops carry a fuel argument; the public
    operations supply a fuel computed from the number of live nodes and
    the theorems show that this fuel always suffices. *)

From stdpp Require Import gmap list numbers strings pretty sorting.
From Stdlib Require Import ZArith Lia Ascii.

(** ** Shared vocabulary *)

Inductive Color := RED | BLACK.

Global Instance Color_eq_dec : EqDecision Color.
Proof. solve_decision. Defined.

Definition addr := positive.

(** A [NodeBase<T>*]. [None] is the absent link: the address of the
    sentinel [&nil_] in the sentinel tree, [nullptr] in the augmented
    tree. *)
Definition ptr := option addr.

Definition is_nil (p : ptr) : bool :=
  match p with None => true | Some _ => false end.

(** [size_t] arithmetic (64 bit, wraps) and [int] arithmetic (32 bit two's
    complement, as the compilers in use wrap it). *)
Definition SIZE_MAX : Z := 2 ^ 64 - 1.
Definition wrap_size (z : Z) : Z := z mod 2 ^ 64.
Definition wrap_int (z : Z) : Z := (z + 2 ^ 31) mod 2 ^ 32 - 2 ^ 31.
Definition INT_MIN : Z := - 2 ^ 31.
Definition INT_MAX : Z := 2 ^ 31 - 1.

Definition assert (b : bool) : option unit := if b then Some tt else None.

(** [Tree::Direction] of the augmented tree; the sentinel tree spells the
    two directions out in [rotate_left]/[rotate_right] and
    [erase_fixup_left]/[erase_fixup_right]. *)
Inductive Direction := LEFT | RIGHT.

Global Instance Direction_eq_dec : EqDecision Direction.
Proof. solve_decision. Defined.

Definition opposite (dir : Direction) : Direction :=
  match dir with LEFT => RIGHT | RIGHT => LEFT end.

(** A sequence of calls of the two modifying operations. *)
Inductive Op := Insert (v : Z) | Erase (v : Z).

(** The values that a sequence of calls leaves in a tree which held the
    values [X]. *)
Fixpoint live (ops : list Op) (X : gset Z) : gset Z :=
  match ops with
  | [] => X
  | Insert v :: ops => live ops ({[v]} ∪ X)
  | Erase v :: ops => live ops (X ∖ {[v]})
  end.

(** [keys] lists, in increasing order, the values that [ops] leaves in a
    tree that was empty. *)
Definition keys_of (ops : list Op) (keys : list Z) : Prop :=
  StronglySorted Z.lt keys ∧ list_to_set keys = live ops ∅.

(** ** The sentinel tree: [source/rb_tree.hpp] *)

Module NilTree.

Record NodeBase := mkBase
  { color_ : Color; left_ : ptr; right_ : ptr; parent_ : ptr }.

Record Node := mkNode { base : NodeBase; value_ : Z }.

(** The members of [Tree<T>] together with the nodes it owns. *)
Record Tree := mkTree
  { nil_ : NodeBase; root_ : ptr; heap : gmap addr Node }.

Definition nil : ptr := None.

Definition load (s : Tree) (p : ptr) : option NodeBase :=
  match p with
  | None => Some (nil_ s)
  | Some a => base <$> heap s !! a
  end.

Definition store (p : ptr) (b : NodeBase) (s : Tree) : option Tree :=
  match p with
  | None => Some (mkTree b (root_ s) (heap s))
  | Some a =>
      n ← heap s !! a;
      Some (mkTree (nil_ s) (root_ s) (<[a := mkNode b (value_ n)]> (heap s)))
  end.

Definition color (s : Tree) (p : ptr) : option Color := color_ <$> load s p.
Definition left_child (s : Tree) (p : ptr) : option ptr := left_ <$> load s p.
Definition right_child (s : Tree) (p : ptr) : option ptr := right_ <$> load s p.
Definition parent (s : Tree) (p : ptr) : option ptr := parent_ <$> load s p.

Definition set_color (p : ptr) (c : Color) (s : Tree) : option Tree :=
  b ← load s p; store p (mkBase c (left_ b) (right_ b) (parent_ b)) s.
Definition set_left_child (p l : ptr) (s : Tree) : option Tree :=
  b ← load s p; store p (mkBase (color_ b) l (right_ b) (parent_ b)) s.
Definition set_right_child (p r : ptr) (s : Tree) : option Tree :=
  b ← load s p; store p (mkBase (color_ b) (left_ b) r (parent_ b)) s.
Definition set_parent (p q : ptr) (s : Tree) : option Tree :=
  b ← load s p; store p (mkBase (color_ b) (left_ b) (right_ b) q) s.

(** [as_node(p)->value()]: the sentinel is a bare [NodeBase] and has no
    value. *)
Definition value (s : Tree) (p : ptr) : option Z :=
  match p with
  | None => None
  | Some a => value_ <$> heap s !! a
  end.

Definition set_root (p : ptr) (s : Tree) : Tree :=
  mkTree (nil_ s) p (heap s).

Definition reset_nil_links (s : Tree) : Tree :=
  mkTree (mkBase BLACK nil nil nil) (root_ s) (heap s).

(** [Tree()] *)
Definition empty_tree : Tree :=
  reset_nil_links (mkTree (mkBase BLACK nil nil nil) nil ∅).

Definition empty (s : Tree) : bool := is_nil (root_ s).

(** Every loop of the class walks one root-to-leaf path, or the parent
    chain of a node; [fuel_of] exceeds the length of both. *)
Definition fuel_of (s : Tree) : nat := 2 + size (heap s).

Definition color_of (s : Tree) (p : ptr) : option Color :=
  if is_nil p then Some BLACK else color s p.

Record LocateResult := mkLocate
  { lr_parent : ptr; lr_exists : bool; lr_go_left : bool }.

Fixpoint locate_loop (fuel : nat) (s : Tree) (v : Z)
    (current par : ptr) (go_left : bool) : option LocateResult :=
  match fuel with
  | O => None
  | S fuel =>
      if is_nil current then Some (mkLocate par false go_left)
      else
        cv ← value s current;
        if (v <? cv)%Z then
          l ← left_child s current; locate_loop fuel s v l current true
        else if (cv <? v)%Z then
          r ← right_child s current; locate_loop fuel s v r current false
        else Some (mkLocate current true false)
  end.

Definition locate (s : Tree) (v : Z) : option LocateResult :=
  locate_loop (fuel_of s) s v (root_ s) nil false.

Definition rotate_left (node : ptr) (s : Tree) : option Tree :=
  pivot ← right_child s node;
  _ ← assert (negb (is_nil pivot));
  np ← parent s node;
  s ← set_parent pivot np s;
  np ← parent s node;
  s ← (if decide (np = nil) then
         set_parent pivot nil (set_root pivot s)
       else
         npl ← left_child s np;
         if decide (node = npl) then set_left_child np pivot s
         else set_right_child np pivot s);
  pl ← left_child s pivot;
  s ← set_right_child node pl s;
  pl ← left_child s pivot;
  s ← (if negb (is_nil pl) then set_parent pl node s else Some s);
  s ← set_left_child pivot node s;
  set_parent node pivot s.

Definition rotate_right (node : ptr) (s : Tree) : option Tree :=
  pivot ← left_child s node;
  _ ← assert (negb (is_nil pivot));
  np ← parent s node;
  s ← set_parent pivot np s;
  np ← parent s node;
  s ← (if decide (np = nil) then
         set_parent pivot nil (set_root pivot s)
       else
         npl ← left_child s np;
         if decide (node = npl) then set_left_child np pivot s
         else set_right_child np pivot s);
  pr ← right_child s pivot;
  s ← set_left_child node pr s;
  pr ← right_child s pivot;
  s ← (if negb (is_nil pr) then set_parent pr node s else Some s);
  s ← set_right_child pivot node s;
  set_parent node pivot s.

Definition grandparent (s : Tree) (node : ptr) : option ptr :=
  p ← parent s node;
  if is_nil p then Some nil else parent s p.

Definition uncle (s : Tree) (node : ptr) : option ptr :=
  grand ← grandparent s node;
  if is_nil grand then Some nil
  else
    p ← parent s node;
    gl ← left_child s grand;
    if decide (p = gl) then right_child s grand else Some gl.

Definition insert_case5 (node : ptr) (s : Tree) : option Tree :=
  p ← parent s node;
  grand ← grandparent s node;
  s ← set_color p BLACK s;
  s ← set_color grand RED s;
  pl ← left_child s p;
  gl ← left_child s grand;
  if bool_decide (node = pl) && bool_decide (p = gl) then rotate_right grand s
  else
    pr ← right_child s p;
    gr ← right_child s grand;
    if bool_decide (node = pr) && bool_decide (p = gr) then rotate_left grand s
    else Some s.

Definition insert_case4 (node : ptr) (s : Tree) : option Tree :=
  p ← parent s node;
  grand ← grandparent s node;
  pr ← right_child s p;
  gl ← left_child s grand;
  if bool_decide (node = pr) && bool_decide (p = gl) then
    s ← rotate_left p s;
    node ← left_child s node;
    insert_case5 node s
  else
    pl ← left_child s p;
    gr ← right_child s grand;
    if bool_decide (node = pl) && bool_decide (p = gr) then
      s ← rotate_right p s;
      node ← right_child s node;
      insert_case5 node s
    else insert_case5 node s.

(** [insert_case3] calls back into [insert_case1]; the recursive call is
    the argument [case1]. *)
Definition insert_case3 (case1 : ptr → Tree → option Tree)
    (node : ptr) (s : Tree) : option Tree :=
  u ← uncle s node;
  red_uncle ←
    (if is_nil u then Some false
     else uc ← color s u; Some (bool_decide (uc = RED)));
  if (red_uncle : bool) then
    p ← parent s node;
    s ← set_color p BLACK s;
    s ← set_color u BLACK s;
    g ← grandparent s node;
    s ← set_color g RED s;
    case1 g s
  else insert_case4 node s.

Definition insert_case2 (case1 : ptr → Tree → option Tree)
    (node : ptr) (s : Tree) : option Tree :=
  p ← parent s node;
  pc ← color s p;
  if decide (pc = BLACK) then Some s else insert_case3 case1 node s.

Fixpoint insert_case1 (fuel : nat) (node : ptr) (s : Tree) : option Tree :=
  match fuel with
  | O => None
  | S fuel =>
      p ← parent s node;
      if decide (p = nil) then
        s ← set_color node BLACK s;
        Some (set_root node s)
      else insert_case2 (insert_case1 fuel) node s
  end.

(** [new Node<T>(...)]: any address that is not live. *)
Definition new_node (s : Tree) (n : Node) : addr * Tree :=
  let a := fresh (dom (heap s)) in
  (a, mkTree (nil_ s) (root_ s) (<[a := n]> (heap s))).

(** [delete as_node(p)] *)
Definition delete_node (p : ptr) (s : Tree) : option Tree :=
  match p with
  | None => None
  | Some a =>
      _ ← heap s !! a;
      Some (mkTree (nil_ s) (root_ s) (delete a (heap s)))
  end.

Definition insert (v : Z) (s : Tree) : option (bool * Tree) :=
  result ← locate s v;
  if lr_exists result then Some (false, s)
  else
    let par := lr_parent result in
    let '(a, s) := new_node s (mkNode (mkBase RED nil nil par) v) in
    let node := Some a in
    s ← (if decide (par = nil) then Some (set_root node s)
         else if lr_go_left result then set_left_child par node s
         else set_right_child par node s);
    s ← insert_case1 (fuel_of s) node s;
    Some (true, s).

Fixpoint minimum (fuel : nat) (s : Tree) (node : ptr) : option ptr :=
  match fuel with
  | O => None
  | S fuel =>
      l ← left_child s node;
      if negb (is_nil l) then minimum fuel s l else Some node
  end.

Definition transplant (u v : ptr) (s : Tree) : option Tree :=
  up ← parent s u;
  s ← (if decide (up = nil) then Some (set_root v s)
       else
         upl ← left_child s up;
         if decide (u = upl) then set_left_child up v s
         else set_right_child up v s);
  up ← parent s u;
  set_parent v up s.

Record EraseContext := mkErase
  { fixup_node : ptr; removed_color : Color }.

Definition detach_erase_target (node : ptr) (s : Tree)
    : option (EraseContext * Tree) :=
  nc ← color s node;
  nl ← left_child s node;
  if is_nil nl then
    nr ← right_child s node;
    s ← transplant node nr s;
    Some (mkErase nr nc, s)
  else
    nr ← right_child s node;
    if is_nil nr then
      s ← transplant node nl s;
      Some (mkErase nl nc, s)
    else
      successor ← minimum (fuel_of s) s nr;
      removed ← color s successor;
      fix_node ← right_child s successor;
      sp ← parent s successor;
      s ← (if decide (sp = node) then set_parent fix_node successor s
           else
             sr ← right_child s successor;
             s ← transplant successor sr s;
             nr ← right_child s node;
             s ← set_right_child successor nr s;
             sr ← right_child s successor;
             if negb (is_nil sr) then set_parent sr successor s
             else Some s);
      s ← transplant node successor s;
      nl ← left_child s node;
      s ← set_left_child successor nl s;
      sl ← left_child s successor;
      s ← (if negb (is_nil sl) then set_parent sl successor s else Some s);
      nc ← color s node;
      s ← set_color successor nc s;
      Some (mkErase fix_node removed, s).

Definition erase_fixup_left (node : ptr) (s : Tree) : option (ptr * Tree) :=
  np ← parent s node;
  sibling ← right_child s np;
  sc ← color_of s sibling;
  '(sibling, s) ←
    (if decide (sc = RED) then
       s ← (if negb (is_nil sibling) then set_color sibling BLACK s
            else Some s);
       np ← parent s node;
       s ← set_color np RED s;
       np ← parent s node;
       s ← rotate_left np s;
       np ← parent s node;
       sibling ← right_child s np;
       Some (sibling, s)
     else Some (sibling, s));
  sl ← left_child s sibling;
  slc ← color_of s sl;
  sr ← right_child s sibling;
  src ← color_of s sr;
  if bool_decide (slc = BLACK) && bool_decide (src = BLACK) then
    s ← (if negb (is_nil sibling) then set_color sibling RED s else Some s);
    np ← parent s node;
    Some (np, s)
  else
    '(sibling, s) ←
      (if decide (src = BLACK) then
         sl ← left_child s sibling;
         s ← (if negb (is_nil sl) then set_color sl BLACK s else Some s);
         s ← (if negb (is_nil sibling) then set_color sibling RED s
              else Some s);
         s ← rotate_right sibling s;
         np ← parent s node;
         sibling ← right_child s np;
         Some (sibling, s)
       else Some (sibling, s));
    np ← parent s node;
    s ← (if negb (is_nil sibling) then
           npc ← color s np; set_color sibling npc s
         else Some s);
    np ← parent s node;
    s ← set_color np BLACK s;
    sr ← right_child s sibling;
    s ← (if negb (is_nil sr) then set_color sr BLACK s else Some s);
    np ← parent s node;
    s ← rotate_left np s;
    Some (root_ s, s).

Definition erase_fixup_right (node : ptr) (s : Tree) : option (ptr * Tree) :=
  np ← parent s node;
  sibling ← left_child s np;
  sc ← color_of s sibling;
  '(sibling, s) ←
    (if decide (sc = RED) then
       s ← (if negb (is_nil sibling) then set_color sibling BLACK s
            else Some s);
       np ← parent s node;
       s ← set_color np RED s;
       np ← parent s node;
       s ← rotate_right np s;
       np ← parent s node;
       sibling ← left_child s np;
       Some (sibling, s)
     else Some (sibling, s));
  sr ← right_child s sibling;
  src ← color_of s sr;
  sl ← left_child s sibling;
  slc ← color_of s sl;
  if bool_decide (src = BLACK) && bool_decide (slc = BLACK) then
    s ← (if negb (is_nil sibling) then set_color sibling RED s else Some s);
    np ← parent s node;
    Some (np, s)
  else
    '(sibling, s) ←
      (if decide (slc = BLACK) then
         sr ← right_child s sibling;
         s ← (if negb (is_nil sr) then set_color sr BLACK s else Some s);
         s ← (if negb (is_nil sibling) then set_color sibling RED s
              else Some s);
         s ← rotate_left sibling s;
         np ← parent s node;
         sibling ← left_child s np;
         Some (sibling, s)
       else Some (sibling, s));
    np ← parent s node;
    s ← (if negb (is_nil sibling) then
           npc ← color s np; set_color sibling npc s
         else Some s);
    np ← parent s node;
    s ← set_color np BLACK s;
    sl ← left_child s sibling;
    s ← (if negb (is_nil sl) then set_color sl BLACK s else Some s);
    np ← parent s node;
    s ← rotate_right np s;
    Some (root_ s, s).

Fixpoint erase_fixup (fuel : nat) (node : ptr) (s : Tree) : option Tree :=
  match fuel with
  | O => None
  | S fuel =>
      continue ←
        (if bool_decide (node = root_ s) then Some false
         else c ← color_of s node; Some (bool_decide (c = BLACK)));
      if (continue : bool) then
        np ← parent s node;
        npl ← left_child s np;
        if decide (node = npl) then
          '(node, s) ← erase_fixup_left node s; erase_fixup fuel node s
        else
          '(node, s) ← erase_fixup_right node s; erase_fixup fuel node s
      else set_color node BLACK s
  end.

Definition finalize_erase (ctx : EraseContext) (s : Tree) : option Tree :=
  s ← (if decide (removed_color ctx = BLACK) then
         erase_fixup (fuel_of s) (fixup_node ctx) s
       else Some s);
  if is_nil (root_ s) then Some (set_root nil s)
  else
    s ← set_parent (root_ s) nil s;
    set_color (root_ s) BLACK s.

Definition erase (v : Z) (s : Tree) : option (bool * Tree) :=
  result ← locate s v;
  if negb (lr_exists result) then Some (false, s)
  else
    let target := lr_parent result in
    '(ctx, s) ← detach_erase_target target s;
    s ← delete_node target s;
    s ← finalize_erase ctx s;
    Some (true, s).

(** [validate_subtree] returns its verdict and writes the black height
    through [black_height_out]; the out-parameter is the second component
    (it keeps the caller's initial [0] when the verdict is [false]). *)
Fixpoint validate_subtree (fuel : nat) (s : Tree) (node : ptr)
    : option (bool * Z) :=
  match fuel with
  | O => None
  | S fuel =>
      if is_nil node then Some (true, 1%Z)
      else
        l ← left_child s node;
        r ← right_child s node;
        c ← color s node;
        lc ← (if is_nil l then Some BLACK else color s l);
        rc ← (if is_nil r then Some BLACK else color s r);
        if bool_decide (c = RED) &&
           ((negb (is_nil l) && bool_decide (lc = RED)) ||
            (negb (is_nil r) && bool_decide (rc = RED)))
        then Some (false, 0%Z)
        else
          '(okl, lbh) ← validate_subtree fuel s l;
          if negb okl then Some (false, 0%Z)
          else
            '(okr, rbh) ← validate_subtree fuel s r;
            if negb okr then Some (false, 0%Z)
            else if negb (bool_decide (lbh = rbh)) then Some (false, 0%Z)
            else
              Some (true,
                    wrap_int (lbh + (if decide (c = BLACK) then 1 else 0)))
  end.

Definition is_valid (s : Tree) : option bool :=
  if is_nil (root_ s) then
    c ← color s (root_ s); Some (bool_decide (c = BLACK))
  else
    c ← color s (root_ s);
    if negb (bool_decide (c = BLACK)) then Some false
    else fst <$> validate_subtree (fuel_of s) s (root_ s).

Fixpoint subtree_size (fuel : nat) (s : Tree) (node : ptr) : option Z :=
  match fuel with
  | O => None
  | S fuel =>
      if is_nil node then Some 0%Z
      else
        l ← left_child s node;
        nl ← subtree_size fuel s l;
        r ← right_child s node;
        nr ← subtree_size fuel s r;
        Some (wrap_size (wrap_size (1 + nl) + nr))
  end.

Definition size (s : Tree) : option Z := subtree_size (fuel_of s) s (root_ s).

Fixpoint order_statistics_loop (fuel : nat) (s : Tree) (target : Z)
    (current : ptr) (count : Z) : option Z :=
  match fuel with
  | O => None
  | S fuel =>
      if is_nil current then Some count
      else
        cv ← value s current;
        if (target <? cv)%Z then
          l ← left_child s current;
          order_statistics_loop fuel s target l count
        else
          l ← left_child s current;
          nl ← subtree_size (fuel_of s) s l;
          if (cv <? target)%Z then
            r ← right_child s current;
            order_statistics_loop fuel s target r
              (wrap_size (count + wrap_size (nl + 1)))
          else Some (wrap_size (count + nl))
  end.

Definition order_statistics (s : Tree) (node : ptr) : option Z :=
  target ← value s node;
  order_statistics_loop (fuel_of s) s target (root_ s) 0%Z.

Fixpoint rank_lower_loop (fuel : nat) (s : Tree) (v : Z)
    (current candidate : ptr) : option ptr :=
  match fuel with
  | O => None
  | S fuel =>
      if is_nil current then Some candidate
      else
        cv ← value s current;
        if (cv <? v)%Z then
          r ← right_child s current; rank_lower_loop fuel s v r candidate
        else
          l ← left_child s current; rank_lower_loop fuel s v l current
  end.

Definition rank_lower_bound (s : Tree) (v : Z) : option Z :=
  candidate ← rank_lower_loop (fuel_of s) s v (root_ s) nil;
  if decide (candidate = nil) then size s
  else order_statistics s candidate.

Fixpoint rank_upper_loop (fuel : nat) (s : Tree) (v : Z)
    (current candidate : ptr) : option ptr :=
  match fuel with
  | O => None
  | S fuel =>
      if is_nil current then Some candidate
      else
        cv ← value s current;
        if (v <? cv)%Z then
          l ← left_child s current; rank_upper_loop fuel s v l current
        else
          r ← right_child s current; rank_upper_loop fuel s v r candidate
  end.

Definition rank_upper_bound (s : Tree) (v : Z) : option Z :=
  candidate ← rank_upper_loop (fuel_of s) s v (root_ s) nil;
  if decide (candidate = nil) then size s
  else order_statistics s candidate.

Definition distance (s : Tree) (first second : Z) : option Z :=
  first_location ← locate s first;
  second_location ← locate s second;
  if negb (lr_exists first_location) || negb (lr_exists second_location) then
    Some SIZE_MAX
  else
    first_rank ← rank_lower_bound s first;
    second_rank ← rank_lower_bound s second;
    if (second_rank <=? first_rank)%Z then Some 0%Z
    else Some (wrap_size (second_rank - first_rank)).

Definition distance_from_root (s : Tree) (v : Z) : option Z :=
  location ← locate s v;
  if negb (lr_exists location) then Some SIZE_MAX
  else rank_lower_bound s v.

Fixpoint clear (fuel : nat) (node : ptr) (s : Tree) : option Tree :=
  match fuel with
  | O => None
  | S fuel =>
      if is_nil node then Some s
      else
        l ← left_child s node;
        s ← clear fuel l s;
        r ← right_child s node;
        s ← clear fuel r s;
        delete_node node s
  end.

(** [~Tree()] *)
Definition destroy (s : Tree) : option Tree :=
  s ← clear (fuel_of s) (root_ s) s;
  Some (set_root nil s).

End NilTree.

(** ** The command interpreter: [rb::run_cli] and [handle_query] *)

Module Cli.
Import NilTree.

(** What [operator>>] extracts from the whitespace-separated input: a
    character or a decimal integer. *)
Inductive token := TChar (c : ascii) | TInt (z : Z).

Definition newline : string := String (ascii_of_nat 10) EmptyString.

(** [input >> key] for an [int]: fails at the end of input, on a token
    that is no number, and on a number outside the range of [int]. *)
Definition read_int (input : list token) : option (Z * list token) :=
  match input with
  | TInt z :: rest =>
      if ((INT_MIN <=? z) && (z <=? INT_MAX))%Z then Some (z, rest) else None
  | _ => None
  end.

(** [input >> action] for a [char]: from a number it takes the first
    character. *)
Definition read_char (input : list token) : option (ascii * list token) :=
  match input with
  | TChar c :: rest => Some (c, rest)
  | TInt z :: rest =>
      match pretty z with
      | String c _ => Some (c, rest)
      | EmptyString => None
      end
  | [] => None
  end.

Definition handle_query (tree : Tree) (left right : Z)
    (first_output : bool) (output : string) : option (bool * string) :=
  result ←
    (if (left <? right)%Z then
       right_rank ← rank_upper_bound tree right;
       left_rank ← rank_upper_bound tree left;
       if (left_rank <? right_rank)%Z then
         Some (wrap_size (right_rank - left_rank))
       else Some 0%Z
     else Some 0%Z);
  let output := if first_output then output else output +:+ " " in
  Some (false, output +:+ pretty result).

(** The result of a run: exit code, [output] and [error]. *)
Record Outcome := mkOutcome
  { exit_code : Z; output : string; error : string }.

Fixpoint run_loop (fuel : nat) (input : list token) (tree : Tree)
    (first_output : bool) (out : string) : option Outcome :=
  match fuel with
  | O => None
  | S fuel =>
      match read_char input with
      | None =>
          Some (mkOutcome 0 (if first_output then out else out +:+ newline) "")
      | Some (action, input) =>
          if decide (action = "k"%char) then
            match read_int input with
            | None =>
                Some (mkOutcome 1 out ("Failed to read key value" +:+ newline))
            | Some (key, input) =>
                '(_, tree) ← insert key tree;
                run_loop fuel input tree first_output out
            end
          else if decide (action = "q"%char) then
            match read_int input with
            | None =>
                Some (mkOutcome 1 out
                        ("Failed to read query bounds" +:+ newline))
            | Some (left_bound, input) =>
                match read_int input with
                | None =>
                    Some (mkOutcome 1 out
                            ("Failed to read query bounds" +:+ newline))
                | Some (right_bound, input) =>
                    '(first_output, out) ←
                      handle_query tree left_bound right_bound first_output out;
                    run_loop fuel input tree first_output out
                end
            end
          else
            Some (mkOutcome 1 out
                    ("Unknown command: " +:+ String action newline))
      end
  end.

(** Every iteration consumes at least one token. *)
Definition run_cli (input : list token) : option Outcome :=
  run_loop (S (length input)) input empty_tree true "".

End Cli.

(** ** The augmented tree: absent links are [nullptr], nodes cache the
       size of their subtree *)

Module SizeTree.

Record NodeBase := mkBase
  { color_ : Color; left_ : ptr; right_ : ptr; parent_ : ptr;
    subtree_size_ : Z }.

Record Node := mkNode { base : NodeBase; value_ : Z }.

Record Tree := mkTree { root_ : ptr; heap : gmap addr Node }.

(** Reading through [nullptr] is undefined. *)
Definition load (s : Tree) (p : ptr) : option NodeBase :=
  match p with
  | None => None
  | Some a => base <$> heap s !! a
  end.

Definition store (p : ptr) (b : NodeBase) (s : Tree) : option Tree :=
  match p with
  | None => None
  | Some a =>
      n ← heap s !! a;
      Some (mkTree (root_ s) (<[a := mkNode b (value_ n)]> (heap s)))
  end.

Definition color (s : Tree) (p : ptr) : option Color := color_ <$> load s p.
Definition left_child (s : Tree) (p : ptr) : option ptr := left_ <$> load s p.
Definition right_child (s : Tree) (p : ptr) : option ptr := right_ <$> load s p.
Definition parent (s : Tree) (p : ptr) : option ptr := parent_ <$> load s p.
Definition subtree_size (s : Tree) (p : ptr) : option Z :=
  subtree_size_ <$> load s p.

Definition set_color (p : ptr) (c : Color) (s : Tree) : option Tree :=
  b ← load s p;
  store p (mkBase c (left_ b) (right_ b) (parent_ b) (subtree_size_ b)) s.
Definition set_left_child (p l : ptr) (s : Tree) : option Tree :=
  b ← load s p;
  store p (mkBase (color_ b) l (right_ b) (parent_ b) (subtree_size_ b)) s.
Definition set_right_child (p r : ptr) (s : Tree) : option Tree :=
  b ← load s p;
  store p (mkBase (color_ b) (left_ b) r (parent_ b) (subtree_size_ b)) s.
Definition set_parent (p q : ptr) (s : Tree) : option Tree :=
  b ← load s p;
  store p (mkBase (color_ b) (left_ b) (right_ b) q (subtree_size_ b)) s.
Definition set_subtree_size (p : ptr) (n : Z) (s : Tree) : option Tree :=
  b ← load s p;
  store p (mkBase (color_ b) (left_ b) (right_ b) (parent_ b) n) s.

Definition value (s : Tree) (p : ptr) : option Z :=
  match p with
  | None => None
  | Some a => value_ <$> heap s !! a
  end.

Definition set_root (p : ptr) (s : Tree) : Tree := mkTree p (heap s).

(** [Tree()] *)
Definition empty_tree : Tree := mkTree None ∅.

Definition empty (s : Tree) : bool := is_nil (root_ s).

Definition fuel_of (s : Tree) : nat := 2 + size (heap s).

Definition color_of (s : Tree) (p : ptr) : option Color :=
  if is_nil p then Some BLACK else color s p.

Definition is_black (s : Tree) (p : ptr) : option bool :=
  c ← color_of s p; Some (bool_decide (c = BLACK)).

Definition is_red (s : Tree) (p : ptr) : option bool :=
  c ← color_of s p; Some (bool_decide (c = RED)).

Definition node_size (s : Tree) (p : ptr) : option Z :=
  if is_nil p then Some 0%Z else subtree_size s p.

Definition recalc_size (node : ptr) (s : Tree) : option Tree :=
  if is_nil node then Some s
  else
    l ← left_child s node;
    nl ← node_size s l;
    r ← right_child s node;
    nr ← node_size s r;
    set_subtree_size node (wrap_size (wrap_size (nl + nr) + 1)) s.

Fixpoint update_size_upwards (fuel : nat) (node : ptr) (s : Tree)
    : option Tree :=
  match fuel with
  | O => None
  | S fuel =>
      if is_nil node then Some s
      else
        s ← recalc_size node s;
        p ← parent s node;
        update_size_upwards fuel p s
  end.

(** [new Node<T>(value, color, left, right, parent)] followed by
    [recalc_size]. *)
Definition make_node (v : Z) (c : Color) (l r p : ptr) (s : Tree)
    : option (ptr * Tree) :=
  let a := fresh (dom (heap s)) in
  let s := mkTree (root_ s) (<[a := mkNode (mkBase c l r p 1) v]> (heap s)) in
  s ← recalc_size (Some a) s;
  Some (Some a, s).

Definition delete_node (p : ptr) (s : Tree) : option Tree :=
  match p with
  | None => Some s
  | Some a =>
      _ ← heap s !! a;
      Some (mkTree (root_ s) (delete a (heap s)))
  end.

Record LocateResult := mkLocate
  { lr_parent : ptr; lr_exists : bool; lr_go_left : bool }.

Fixpoint locate_loop (fuel : nat) (s : Tree) (v : Z)
    (current par : ptr) (go_left : bool) : option LocateResult :=
  match fuel with
  | O => None
  | S fuel =>
      if is_nil current then Some (mkLocate par false go_left)
      else
        cv ← value s current;
        if (v <? cv)%Z then
          l ← left_child s current; locate_loop fuel s v l current true
        else if (cv <? v)%Z then
          r ← right_child s current; locate_loop fuel s v r current false
        else Some (mkLocate current true false)
  end.

Definition locate (s : Tree) (v : Z) : option LocateResult :=
  locate_loop (fuel_of s) s v (root_ s) None false.

Definition rotate (node : ptr) (dir : Direction) (s : Tree) : option Tree :=
  pivot ← (if decide (dir = LEFT) then right_child s node
           else left_child s node);
  _ ← assert (negb (is_nil pivot));
  pivot_parent ← parent s node;
  s ← (if is_nil pivot_parent then
         set_parent pivot None (set_root pivot s)
       else
         s ← set_parent pivot pivot_parent s;
         ppl ← left_child s pivot_parent;
         if decide (node = ppl) then set_left_child pivot_parent pivot s
         else set_right_child pivot_parent pivot s);
  s ← (if decide (dir = LEFT) then
         pl ← left_child s pivot;
         s ← set_right_child node pl s;
         pl ← left_child s pivot;
         s ← (if negb (is_nil pl) then set_parent pl node s else Some s);
         set_left_child pivot node s
       else
         pr ← right_child s pivot;
         s ← set_left_child node pr s;
         pr ← right_child s pivot;
         s ← (if negb (is_nil pr) then set_parent pr node s else Some s);
         set_right_child pivot node s);
  s ← set_parent node pivot s;
  s ← recalc_size node s;
  s ← recalc_size pivot s;
  update_size_upwards (fuel_of s) pivot_parent s.

Definition rotate_left (node : ptr) (s : Tree) : option Tree :=
  rotate node LEFT s.

Definition rotate_right (node : ptr) (s : Tree) : option Tree :=
  rotate node RIGHT s.

Definition grandparent (s : Tree) (node : ptr) : option ptr :=
  p ← parent s node;
  if is_nil p then Some None else parent s p.

Definition uncle (s : Tree) (node : ptr) : option ptr :=
  grand ← grandparent s node;
  if is_nil grand then Some None
  else
    p ← parent s node;
    gl ← left_child s grand;
    if decide (p = gl) then right_child s grand else Some gl.

Definition finalize_insert_rebalance (node : ptr) (s : Tree) : option Tree :=
  p ← parent s node;
  grand ← grandparent s node;
  if is_nil p || is_nil grand then Some s
  else
    s ← set_color p BLACK s;
    s ← set_color grand RED s;
    pl ← left_child s p;
    gl ← left_child s grand;
    if bool_decide (node = pl) && bool_decide (p = gl) then
      rotate_right grand s
    else
      pr ← right_child s p;
      gr ← right_child s grand;
      if bool_decide (node = pr) && bool_decide (p = gr) then
        rotate_left grand s
      else Some s.

Definition fix_insert_inner_child (node : ptr) (s : Tree) : option Tree :=
  p ← parent s node;
  grand ← grandparent s node;
  if is_nil grand || is_nil p then Some s
  else
    pr ← right_child s p;
    gl ← left_child s grand;
    if bool_decide (node = pr) && bool_decide (p = gl) then
      s ← rotate_left p s;
      node ← left_child s node;
      finalize_insert_rebalance node s
    else
      pl ← left_child s p;
      gr ← right_child s grand;
      if bool_decide (node = pl) && bool_decide (p = gr) then
        s ← rotate_right p s;
        node ← right_child s node;
        finalize_insert_rebalance node s
      else finalize_insert_rebalance node s.

(** [fix_insert_red_uncle] calls back into [fix_insert_root]; the
    recursive call is the argument [fix_root]. *)
Definition fix_insert_red_uncle (fix_root : ptr → Tree → option Tree)
    (node : ptr) (s : Tree) : option Tree :=
  u ← uncle s node;
  red_uncle ←
    (if is_nil u then Some false
     else uc ← color s u; Some (bool_decide (uc = RED)));
  if (red_uncle : bool) then
    p ← parent s node;
    s ← set_color p BLACK s;
    s ← set_color u BLACK s;
    g ← grandparent s node;
    if negb (is_nil g) then
      s ← set_color g RED s;
      fix_root g s
    else Some s
  else fix_insert_inner_child node s.

Definition fix_insert_black_parent (fix_root : ptr → Tree → option Tree)
    (node : ptr) (s : Tree) : option Tree :=
  p ← parent s node;
  stop ←
    (if is_nil p then Some true
     else pc ← color s p; Some (bool_decide (pc = BLACK)));
  if (stop : bool) then Some s
  else fix_insert_red_uncle fix_root node s.

Fixpoint fix_insert_root (fuel : nat) (node : ptr) (s : Tree)
    : option Tree :=
  match fuel with
  | O => None
  | S fuel =>
      p ← parent s node;
      if is_nil p then
        s ← set_color node BLACK s;
        Some (set_root node s)
      else fix_insert_black_parent (fix_insert_root fuel) node s
  end.

Definition insert (v : Z) (s : Tree) : option (bool * Tree) :=
  result ← locate s v;
  if lr_exists result then Some (false, s)
  else
    let par := lr_parent result in
    '(node, s) ← make_node v RED None None par s;
    s ← (if is_nil par then Some (set_root node s)
         else if lr_go_left result then set_left_child par node s
         else set_right_child par node s);
    s ← fix_insert_root (fuel_of s) node s;
    s ← update_size_upwards (fuel_of s) node s;
    Some (true, s).

Fixpoint minimum (fuel : nat) (s : Tree) (node : ptr) : option ptr :=
  match fuel with
  | O => None
  | S fuel =>
      if is_nil node then Some node
      else
        l ← left_child s node;
        if negb (is_nil l) then minimum fuel s l else Some node
  end.

Fixpoint maximum (fuel : nat) (s : Tree) (node : ptr) : option ptr :=
  match fuel with
  | O => None
  | S fuel =>
      if is_nil node then Some node
      else
        r ← right_child s node;
        if negb (is_nil r) then maximum fuel s r else Some node
  end.

Fixpoint next_loop (fuel : nat) (s : Tree) (node par : ptr) : option ptr :=
  match fuel with
  | O => None
  | S fuel =>
      if is_nil par then Some par
      else
        pr ← right_child s par;
        if decide (node = pr) then
          pp ← parent s par; next_loop fuel s par pp
        else Some par
  end.

Definition next (s : Tree) (node : ptr) : option ptr :=
  if is_nil node then Some None
  else
    r ← right_child s node;
    if negb (is_nil r) then minimum (fuel_of s) s r
    else
      p ← parent s node;
      next_loop (fuel_of s) s node p.

(** [iterator]: the owner is the tree at hand, [current_] the position;
    [nullptr] is past-the-end. *)
Record iterator := mkIterator { current_ : ptr }.

Definition end_ (s : Tree) : iterator := mkIterator None.

Definition begin (s : Tree) : option iterator :=
  if negb (is_nil (root_ s)) then
    m ← minimum (fuel_of s) s (root_ s); Some (mkIterator m)
  else Some (end_ s).

(** [operator*] and [operator++] *)
Definition deref (s : Tree) (it : iterator) : option Z :=
  _ ← assert (negb (is_nil (current_ it)));
  value s (current_ it).

Definition incr (s : Tree) (it : iterator) : option iterator :=
  _ ← assert (negb (is_nil (current_ it)));
  n ← next s (current_ it);
  Some (mkIterator n).

Fixpoint prev_loop (fuel : nat) (s : Tree) (node par : ptr) : option ptr :=
  match fuel with
  | O => None
  | S fuel =>
      if is_nil par then Some par
      else
        pl ← left_child s par;
        if decide (node = pl) then
          pp ← parent s par; prev_loop fuel s par pp
        else Some par
  end.

Definition prev (s : Tree) (node : ptr) : option ptr :=
  if is_nil node then Some None
  else
    l ← left_child s node;
    if negb (is_nil l) then maximum (fuel_of s) s l
    else
      p ← parent s node;
      prev_loop (fuel_of s) s node p.

(** [operator--] *)
Definition decr (s : Tree) (it : iterator) : option iterator :=
  cur ←
    (if is_nil (current_ it) then maximum (fuel_of s) s (root_ s)
     else prev s (current_ it));
  _ ← assert (negb (is_nil cur));
  Some (mkIterator cur).

Definition transplant (u v : ptr) (s : Tree) : option Tree :=
  par ← parent s u;
  s ← (if is_nil par then Some (set_root v s)
       else
         pl ← left_child s par;
         if decide (u = pl) then set_left_child par v s
         else set_right_child par v s);
  s ← (if negb (is_nil v) then set_parent v par s else Some s);
  update_size_upwards (fuel_of s) par s.

Record DetachResult := mkDetach
  { fixup : ptr; fixup_parent : ptr; removed_color : Color }.

Definition detach_node_with_single_child (z child : ptr) (s : Tree)
    : option (DetachResult * Tree) :=
  par ← parent s z;
  let replacement := child in
  s ← transplant z replacement s;
  fp ← (if negb (is_nil replacement) then parent s replacement
        else Some par);
  zc ← color s z;
  Some (mkDetach replacement fp zc, s).

Definition detach_node_with_successor (z : ptr) (s : Tree)
    : option (DetachResult * Tree) :=
  zr ← right_child s z;
  successor ← minimum (fuel_of s) s zr;
  x ← right_child s successor;
  removed ← color s successor;
  sp ← parent s successor;
  let successor_parent_is_z := bool_decide (sp = z) in
  '(x_parent, s) ←
    (if negb successor_parent_is_z then
       x_parent ← parent s successor;
       sr ← right_child s successor;
       s ← transplant successor sr s;
       zr ← right_child s z;
       s ← set_right_child successor zr s;
       sr ← right_child s successor;
       s ← (if negb (is_nil sr) then set_parent sr successor s else Some s);
       Some (x_parent, s)
     else
       s ← (if negb (is_nil x) then set_parent x successor s else Some s);
       Some (successor, s));
  s ← transplant z successor s;
  zl ← left_child s z;
  s ← set_left_child successor zl s;
  sl ← left_child s successor;
  s ← (if negb (is_nil sl) then set_parent sl successor s else Some s);
  zc ← color s z;
  s ← set_color successor zc s;
  s ← recalc_size successor s;
  s ← update_size_upwards (fuel_of s) successor s;
  x_parent ←
    (if negb (is_nil x) then parent s x
     else if successor_parent_is_z then Some successor
     else Some x_parent);
  Some (mkDetach x x_parent removed, s).

Definition detach_node (z : ptr) (s : Tree) : option (DetachResult * Tree) :=
  zl ← left_child s z;
  if is_nil zl then
    zr ← right_child s z; detach_node_with_single_child z zr s
  else
    zr ← right_child s z;
    if is_nil zr then detach_node_with_single_child z zl s
    else detach_node_with_successor z s.

Definition paint (node : ptr) (c : Color) (s : Tree) : option Tree :=
  if negb (is_nil node) then set_color node c s else Some s.

(** The reference parameters [parent] and [sibling] are returned. *)
Definition ensure_black_sibling (par sibling : ptr) (dir : Direction)
    (s : Tree) : option (ptr * ptr * Tree) :=
  red ← is_red s sibling;
  if (red : bool) then
    s ← paint sibling BLACK s;
    s ← paint par RED s;
    s ← rotate par dir s;
    sibling ← (if decide (dir = LEFT) then right_child s par
               else left_child s par);
    Some (par, sibling, s)
  else Some (par, sibling, s).

Definition fetch_sibling_children (s : Tree) (sibling : ptr)
    (dir : Direction) : option (ptr * ptr) :=
  if is_nil sibling then Some (None, None)
  else
    l ← left_child s sibling;
    r ← right_child s sibling;
    if decide (dir = LEFT) then Some (l, r) else Some (r, l).

Definition apply_outer_rotation (node par sibling sibling_outer : ptr)
    (dir : Direction) (s : Tree) : option (ptr * ptr * Tree) :=
  pc ← (if negb (is_nil par) then color s par else Some BLACK);
  s ← paint sibling pc s;
  s ← paint par BLACK s;
  s ← paint sibling_outer BLACK s;
  s ← rotate par dir s;
  Some (root_ s, None, s).

Definition erase_fixup_direction (node par : ptr) (dir : Direction)
    (s : Tree) : option (ptr * ptr * Tree) :=
  if is_nil par then Some (root_ s, par, s)
  else
    sibling ← (if decide (dir = LEFT) then right_child s par
               else left_child s par);
    '(par, sibling, s) ← ensure_black_sibling par sibling dir s;
    '(sibling_inner, sibling_outer) ← fetch_sibling_children s sibling dir;
    inner_black ← is_black s sibling_inner;
    outer_black ← is_black s sibling_outer;
    if inner_black && outer_black then
      s ← paint sibling RED s;
      pp ← parent s par;
      Some (par, pp, s)
    else
      '(sibling, sibling_outer, s) ←
        (if (outer_black : bool) then
           s ← paint sibling_inner BLACK s;
           s ← paint sibling RED s;
           s ← rotate sibling (opposite dir) s;
           sibling ← (if decide (dir = LEFT) then right_child s par
                      else left_child s par);
           '(_, sibling_outer) ← fetch_sibling_children s sibling dir;
           Some (sibling, sibling_outer, s)
         else Some (sibling, sibling_outer, s));
      apply_outer_rotation node par sibling sibling_outer dir s.

Fixpoint erase_fixup (fuel : nat) (node par : ptr) (s : Tree)
    : option Tree :=
  match fuel with
  | O => None
  | S fuel =>
      continue ←
        (if bool_decide (node = root_ s) then Some false
         else is_black s node);
      if (continue : bool) then
        is_left ←
          (if is_nil par then Some false
           else pl ← left_child s par; Some (bool_decide (node = pl)));
        '(node, par, s) ←
          erase_fixup_direction node par
            (if (is_left : bool) then LEFT else RIGHT) s;
        erase_fixup fuel node par s
      else paint node BLACK s
  end.

Definition erase (v : Z) (s : Tree) : option (bool * Tree) :=
  result ← locate s v;
  if negb (lr_exists result) then Some (false, s)
  else
    let z := lr_parent result in
    '(detach, s) ← detach_node z s;
    s ← delete_node z s;
    s ← (if decide (removed_color detach = BLACK) then
           erase_fixup (fuel_of s) (fixup detach) (fixup_parent detach) s
         else Some s);
    Some (true, s).

Fixpoint validate_subtree (fuel : nat) (s : Tree) (node : ptr)
    : option (bool * Z) :=
  match fuel with
  | O => None
  | S fuel =>
      if is_nil node then Some (true, 1%Z)
      else
        l ← left_child s node;
        r ← right_child s node;
        c ← color s node;
        lc ← (if is_nil l then Some BLACK else color s l);
        rc ← (if is_nil r then Some BLACK else color s r);
        if bool_decide (c = RED) &&
           ((negb (is_nil l) && bool_decide (lc = RED)) ||
            (negb (is_nil r) && bool_decide (rc = RED)))
        then Some (false, 0%Z)
        else
          '(okl, lbh) ← validate_subtree fuel s l;
          if negb okl then Some (false, 0%Z)
          else
            '(okr, rbh) ← validate_subtree fuel s r;
            if negb okr then Some (false, 0%Z)
            else if negb (bool_decide (lbh = rbh)) then Some (false, 0%Z)
            else
              Some (true,
                    wrap_int (lbh + (if decide (c = BLACK) then 1 else 0)))
  end.

Definition is_valid (s : Tree) : option bool :=
  if is_nil (root_ s) then Some true
  else
    c ← color s (root_ s);
    if negb (bool_decide (c = BLACK)) then Some false
    else fst <$> validate_subtree (fuel_of s) s (root_ s).

Definition size (s : Tree) : option Z := node_size s (root_ s).

Definition compare_lower_bound (first second : Z) : bool :=
  (first <? second)%Z.

Definition compare_upper_bound (first second : Z) : bool :=
  (first <=? second)%Z.

Fixpoint rank_comp_loop (fuel : nat) (s : Tree) (v : Z)
    (cmp : Z → Z → bool) (current : ptr) (result : Z) : option Z :=
  match fuel with
  | O => None
  | S fuel =>
      if is_nil current then Some result
      else
        cv ← value s current;
        if cmp cv v then
          l ← left_child s current;
          nl ← node_size s l;
          r ← right_child s current;
          rank_comp_loop fuel s v cmp r
            (wrap_size (result + wrap_size (nl + 1)))
        else
          l ← left_child s current;
          rank_comp_loop fuel s v cmp l result
  end.

Definition rank_comp_bound (s : Tree) (v : Z) (cmp : Z → Z → bool)
    : option Z :=
  rank_comp_loop (fuel_of s) s v cmp (root_ s) 0%Z.

(** The two ranks [distance] computes, before its assertion. *)
Definition distance_ranks (s : Tree) (first second : Z) : option (Z * Z) :=
  first_rank ← rank_comp_bound s first compare_lower_bound;
  second_rank ← rank_comp_bound s second compare_upper_bound;
  Some (first_rank, second_rank).

Definition distance (s : Tree) (first second : Z) : option Z :=
  if (second <? first)%Z then Some 0%Z
  else
    '(first_rank, second_rank) ← distance_ranks s first second;
    _ ← assert (first_rank <=? second_rank)%Z;
    Some (wrap_size (second_rank - first_rank)).

Definition distance_from_root (s : Tree) (v : Z) : option Z :=
  location ← locate s v;
  if negb (lr_exists location) then Some SIZE_MAX
  else rank_comp_bound s v compare_lower_bound.

Fixpoint bound_node_loop (fuel : nat) (s : Tree) (v : Z)
    (go_left : Z → Z → bool) (current result : ptr) : option ptr :=
  match fuel with
  | O => None
  | S fuel =>
      if is_nil current then Some result
      else
        cv ← value s current;
        if go_left v cv then
          l ← left_child s current;
          bound_node_loop fuel s v go_left l current
        else
          r ← right_child s current;
          bound_node_loop fuel s v go_left r result
  end.

Definition bound_node (s : Tree) (v : Z) (go_left : Z → Z → bool)
    : option ptr :=
  bound_node_loop (fuel_of s) s v go_left (root_ s) None.

(** The two lambdas: [candidate >= target] and [candidate > target]. *)
Definition lower_bound_node (s : Tree) (v : Z) : option ptr :=
  bound_node s v (λ target candidate, (target <=? candidate)%Z).

Definition upper_bound_node (s : Tree) (v : Z) : option ptr :=
  bound_node s v (λ target candidate, (target <? candidate)%Z).

Definition lower_bound (s : Tree) (v : Z) : option iterator :=
  mkIterator <$> lower_bound_node s v.

Definition upper_bound (s : Tree) (v : Z) : option iterator :=
  mkIterator <$> upper_bound_node s v.

(** [clear]: the [std::vector] used as a stack is a list whose head is
    its back. *)
Fixpoint clear_loop (fuel : nat) (stack : list ptr) (s : Tree)
    : option Tree :=
  match fuel with
  | O => None
  | S fuel =>
      match stack with
      | [] => Some s
      | current :: stack =>
          l ← left_child s current;
          let stack := if negb (is_nil l) then l :: stack else stack in
          r ← right_child s current;
          let stack := if negb (is_nil r) then r :: stack else stack in
          s ← delete_node current s;
          clear_loop fuel stack s
      end
  end.

Definition clear (node : ptr) (s : Tree) : option Tree :=
  if is_nil node then Some s
  else clear_loop (fuel_of s) [node] s.

(** [~Tree()] *)
Definition destroy (s : Tree) : option Tree := clear (root_ s) s.

End SizeTree.

(** ** Abstract trees

    The heap of either tree is read back as an inductive tree whose nodes
    carry their address and every field of the node.  A position in the
    tree is a zipper: the subtree at the position and the list of frames
    from its parent up to the root. *)

Module Abs.

Inductive tree :=
  | E
  | T (c : Color) (a : addr) (n : Z) (l : tree) (v : Z) (r : tree).

(** One step of the path to the root: the parent node, with the side
    [fdir] on which the hole sits and the subtree on the other side. *)
Record frame := F
  { fdir : Direction; fc : Color; fa : addr; fn : Z; fv : Z; fsib : tree }.

Abbreviation ctx := (list frame).

Definition fill (f : frame) (t : tree) : tree :=
  match fdir f with
  | LEFT => T (fc f) (fa f) (fn f) t (fv f) (fsib f)
  | RIGHT => T (fc f) (fa f) (fn f) (fsib f) (fv f) t
  end.

Fixpoint plug (t : tree) (k : ctx) : tree :=
  match k with
  | [] => t
  | f :: k => plug (fill f t) k
  end.

Definition ptr_of (t : tree) : ptr :=
  match t with E => None | T _ a _ _ _ _ => Some a end.

Definition hole_par (k : ctx) : ptr :=
  match k with [] => None | f :: _ => Some (fa f) end.

Definition color_of (t : tree) : Color :=
  match t with E => BLACK | T c _ _ _ _ _ => c end.

Definition n_of (t : tree) : Z :=
  match t with E => 0%Z | T _ _ n _ _ _ => n end.

Definition paint (c : Color) (t : tree) : tree :=
  match t with E => E | T _ a n l v r => T c a n l v r end.

Definition fpaint (c : Color) (f : frame) : frame :=
  F (fdir f) c (fa f) (fn f) (fv f) (fsib f).

Definition fsibling (w : tree) (f : frame) : frame :=
  F (fdir f) (fc f) (fa f) (fn f) (fv f) w.

Definition child (d : Direction) (t : tree) : tree :=
  match t with
  | E => E
  | T _ _ _ l _ r => match d with LEFT => l | RIGHT => r end
  end.

Definition paint_child (d : Direction) (c : Color) (t : tree) : tree :=
  match t with
  | E => E
  | T c0 a n l v r =>
      match d with
      | LEFT => T c0 a n (paint c l) v r
      | RIGHT => T c0 a n l v (paint c r)
      end
  end.

Definition down (d : Direction) (t : tree) : option (tree * frame) :=
  match t with
  | E => None
  | T c a n l v r =>
      Some (match d with
            | LEFT => (l, F LEFT c a n v r)
            | RIGHT => (r, F RIGHT c a n v l)
            end)
  end.

(** The addresses of the nodes of a tree, and the trees in which no
    address occurs twice. *)
Fixpoint addrs (t : tree) : gset addr :=
  match t with
  | E => ∅
  | T _ a _ l _ r => {[a]} ∪ addrs l ∪ addrs r
  end.

Fixpoint wf (t : tree) : Prop :=
  match t with
  | E => True
  | T _ a _ l _ r =>
      a ∉ addrs l ∧ a ∉ addrs r ∧ addrs l ## addrs r ∧ wf l ∧ wf r
  end.

Fixpoint addrs_k (k : ctx) : gset addr :=
  match k with
  | [] => ∅
  | f :: k => {[fa f]} ∪ addrs (fsib f) ∪ addrs_k k
  end.

Fixpoint wf_k (k : ctx) : Prop :=
  match k with
  | [] => True
  | f :: k =>
      fa f ∉ addrs (fsib f) ∧ wf (fsib f) ∧
      fa f ∉ addrs_k k ∧ addrs (fsib f) ## addrs_k k ∧ wf_k k
  end.

Fixpoint elements (t : tree) : list Z :=
  match t with
  | E => []
  | T _ _ _ l v r => elements l ++ v :: elements r
  end.

Fixpoint count (t : tree) : nat :=
  match t with
  | E => 0
  | T _ _ _ l _ r => S (count l + count r)
  end.

Fixpoint height (t : tree) : nat :=
  match t with
  | E => 0
  | T _ _ _ l _ r => S (height l `max` height r)
  end.

Section Ops.

(** [aug] tells the two trees apart: the augmented tree recomputes the
    cached size from the children, the sentinel tree has no such field
    (the component [n] is then carried along unchanged). *)
Variable aug : bool.

Definition upd (n nl nr : Z) : Z :=
  if aug then wrap_size (wrap_size (nl + nr) + 1) else n.

Definition resize (t : tree) : tree :=
  match t with
  | E => E
  | T c a n l v r => T c a (upd n (n_of l) (n_of r)) l v r
  end.

(** The sizes of the ancestors, recomputed bottom-up from the size [nc]
    now found at the hole. *)
Fixpoint up (k : ctx) (nc : Z) : ctx :=
  match k with
  | [] => []
  | f :: k =>
      let n' :=
        match fdir f with
        | LEFT => upd (fn f) nc (n_of (fsib f))
        | RIGHT => upd (fn f) (n_of (fsib f)) nc
        end in
      F (fdir f) (fc f) (fa f) n' (fv f) (fsib f) :: up k n'
  end.

Definition rot (d : Direction) (t : tree) : option tree :=
  match d, t with
  | LEFT, T c a n l v (T c' a' n' l' v' r') =>
      Some (resize (T c' a' n' (resize (T c a n l v l')) v' r'))
  | RIGHT, T c a n (T c' a' n' l' v' r') v r =>
      Some (resize (T c' a' n' l' v' (resize (T c a n r' v r))))
  | _, _ => None
  end.

Fixpoint descend (v : Z) (t : tree) (k : ctx) : tree * ctx :=
  match t with
  | E => (E, k)
  | T c a n l w r =>
      if (v <? w)%Z then descend v l (F LEFT c a n w r :: k)
      else if (w <? v)%Z then descend v r (F RIGHT c a n w l :: k)
      else (t, k)
  end.

(** Red parent [f1], black uncle: the rotations of the insertion. *)
Definition rebalance (t : tree) (f1 f2 : frame) (k2 : ctx) : option tree :=
  '(p, k1) ←
    (if decide (fdir f1 = fdir f2) then Some (fill f1 t, f2 :: k2)
     else p ← rot (fdir f2) (fill f1 t); Some (p, up (f2 :: k2) (n_of p)));
  match k1 with
  | [] => None
  | g :: k2 =>
      t' ← rot (opposite (fdir g)) (fill (fpaint RED g) (paint BLACK p));
      Some (plug t' (up k2 (n_of t')))
  end.

Fixpoint insert_fix (k : ctx) (t : tree) : option tree :=
  match k with
  | [] => Some (paint BLACK t)
  | f1 :: k1 =>
      if decide (fc f1 = BLACK) then Some (plug t k)
      else
        match k1 with
        | [] => None
        | f2 :: k2 =>
            match fsib f2 with
            | T RED ua un ul uv ur =>
                insert_fix k2
                  (fill (fsibling (T BLACK ua un ul uv ur) (fpaint RED f2))
                     (fill (fpaint BLACK f1) t))
            | _ => rebalance t f1 f2 k2
            end
        end
  end.

Definition insert_tree (v : Z) (a : addr) (t : tree) : option tree :=
  match descend v t [] with
  | (E, k) => insert_fix k (resize (T RED a 1 E v E))
  | _ => None
  end.

Fixpoint find_z (a : addr) (t : tree) (k : ctx) : option (tree * ctx) :=
  match t with
  | E => None
  | T c b n l v r =>
      if decide (a = b) then Some (t, k)
      else
        match find_z a l (F LEFT c b n v r :: k) with
        | Some z => Some z
        | None => find_z a r (F RIGHT c b n v l :: k)
        end
  end.

(** [update_size_upwards] from the node at address [a]. *)
Definition fix_sizes (a : addr) (t : tree) : option tree :=
  '(t, k) ← find_z a t [];
  let t' := resize t in
  Some (plug t' (up k (n_of t'))).

Fixpoint leftmost (t : tree) (k : ctx) : tree * ctx :=
  match t with
  | T c a n (T _ _ _ _ _ _ as l) v r => leftmost l (F LEFT c a n v r :: k)
  | _ => (t, k)
  end.

(** Unlinking the node at the root of [z]: the subtree that takes the
    place of the node structurally removed, its position, and the colour
    removed. *)
Definition detach (z : tree) (k : ctx) : option (tree * ctx * Color) :=
  match z with
  | E => None
  | T c a n E v r => Some (r, up k (n_of r), c)
  | T c a n l v E => Some (l, up k (n_of l), c)
  | T c a n l v r =>
      match leftmost r [] with
      | (T yc ya yn _ yv yr, ky) =>
          let ky' := up ky (n_of yr) in
          let y' := resize (T c ya yn l yv (plug yr ky')) in
          Some (yr,
                ky' ++ F RIGHT c ya (n_of y') yv l :: up k (n_of y'),
                yc)
      | _ => None
      end
  end.

(** A red sibling is turned into a black one; the position of [x] after
    the rotation. *)
Definition fix_sibling (x : tree) (f : frame) (k : ctx)
    : option (tree * frame * ctx) :=
  p ← rot (fdir f) (fill (fsibling (paint BLACK (fsib f)) (fpaint RED f)) x);
  '(q, g) ← down (fdir f) p;
  '(x', f') ← down (fdir f) q;
  Some (x', f', g :: up k (n_of p)).

(** One round of the deletion fix-up below a black sibling: the whole
    tree when the round ends the loop, the subtree of the parent when the
    missing black moves up. *)
Definition fix_step (x : tree) (f : frame) (k : ctx)
    : option (tree + tree) :=
  let d := fdir f in
  let w := fsib f in
  if bool_decide (color_of (child d w) = BLACK) &&
     bool_decide (color_of (child (opposite d) w) = BLACK) then
    Some (inr (fill (fsibling (paint RED w) f) x))
  else
    '(f, k) ←
      (if decide (color_of (child (opposite d) w) = BLACK) then
         w' ← rot (opposite d) (paint RED (paint_child d BLACK w));
         match up (F (opposite d) (fc f) (fa f) (fn f) (fv f) x :: k)
                 (n_of w') with
         | g :: k => Some (F d (fc g) (fa g) (fn g) (fv g) w', k)
         | [] => None
         end
       else Some (f, k));
    let w := paint_child (opposite d) BLACK (paint (fc f) (fsib f)) in
    t' ← rot d (fill (fsibling w (fpaint BLACK f)) x);
    Some (inl (plug t' (up k (n_of t')))).

Fixpoint erase_fix (k : ctx) (x : tree) : option tree :=
  match k with
  | [] => Some (paint BLACK x)
  | f :: k' =>
      if decide (color_of x = RED) then Some (plug (paint BLACK x) k)
      else if decide (color_of (fsib f) = RED) then
        '(x1, f1, k1) ← fix_sibling x f k';
        r ← fix_step x1 f1 k1;
        match r with
        | inl t => Some (paint BLACK t)
        | inr x2 =>
            if decide (color_of x2 = RED) then Some (plug (paint BLACK x2) k1)
            else None
        end
      else
        r ← fix_step x f k';
        match r with
        | inl t => Some (paint BLACK t)
        | inr x2 => erase_fix k' x2
        end
  end.

(** The tree after [erase] unlinked the node holding [v] and rebalanced;
    [None] when [v] is not stored. *)
Definition erase_tree (v : Z) (t : tree) : option tree :=
  match descend v t [] with
  | (E, _) => None
  | (z, k) =>
      '(x, kx, removed) ← detach z k;
      if decide (removed = BLACK) then erase_fix kx x
      else Some (plug x kx)
  end.

End Ops.

End Abs.

(** ** Reading a heap as a tree *)

Import Abs.

Section Rep.

(** [mk c l r p n v] is the node record with those fields; the sentinel
    tree ignores [n]. *)
Context {node : Type} (mk : Color → ptr → ptr → ptr → Z → Z → node).

Implicit Types (h : gmap addr node) (t : tree) (k : ctx) (f : frame).

(** The subtree [t] is laid out in [h] below the parent link [par]. *)
Fixpoint rep_t h (par : ptr) t : Prop :=
  match t with
  | E => True
  | T c a n l v r =>
      h !! a = Some (mk c (ptr_of l) (ptr_of r) par n v) ∧
      rep_t h (Some a) l ∧ rep_t h (Some a) r
  end.

Definition frame_node f (child par : ptr) : node :=
  match fdir f with
  | LEFT => mk (fc f) child (ptr_of (fsib f)) par (fn f) (fv f)
  | RIGHT => mk (fc f) (ptr_of (fsib f)) child par (fn f) (fv f)
  end.

(** The path [k] is laid out in [h] around a hole filled by the link
    [child]. *)
Fixpoint rep_k h k (child : ptr) : Prop :=
  match k with
  | [] => True
  | f :: k =>
      h !! fa f = Some (frame_node f child (hole_par k)) ∧
      rep_t h (Some (fa f)) (fsib f) ∧
      rep_k h k (Some (fa f))
  end.

End Rep.

(** ** Invariants of the abstract trees *)

Fixpoint lefts (k : ctx) : list Z :=
  match k with
  | [] => []
  | f :: k =>
      lefts k ++
      match fdir f with LEFT => [] | RIGHT => elements (fsib f) ++ [fv f] end
  end.

Fixpoint rights (k : ctx) : list Z :=
  match k with
  | [] => []
  | f :: k =>
      match fdir f with LEFT => fv f :: elements (fsib f) | RIGHT => [] end
      ++ rights k
  end.

Definition blk (c : Color) : nat :=
  match c with BLACK => 1 | RED => 0 end.

Fixpoint bh (t : tree) : nat :=
  match t with
  | E => 0
  | T c _ _ l _ _ => bh l + blk c
  end.

Fixpoint rbt (t : tree) : Prop :=
  match t with
  | E => True
  | T c _ _ l _ r =>
      rbt l ∧ rbt r ∧ bh l = bh r ∧
      (c = RED → color_of l = BLACK ∧ color_of r = BLACK)
  end.

Definition rbtree (t : tree) : Prop := color_of t = BLACK ∧ rbt t.

Definition top_black (k : ctx) : Prop :=
  match k with [] => False | f :: _ => fc f = BLACK end.

(** The path [k] is that of a red-black tree around a hole of black
    height [h]. *)
Fixpoint ctxrb (k : ctx) (h : nat) : Prop :=
  match k with
  | [] => True
  | f :: k =>
      rbt (fsib f) ∧ bh (fsib f) = h ∧
      (fc f = RED → color_of (fsib f) = BLACK ∧ top_black k) ∧
      ctxrb k (h + blk (fc f))
  end.

Definition bst (t : tree) : Prop := StronglySorted Z.lt (elements t).

(** [t'] holds the nodes and the values of [t], in the same order. *)
Definition same (t t' : tree) : Prop :=
  elements t' = elements t ∧ addrs t' = addrs t ∧ (wf t → wf t').

(** [t'] is [t] without the node at [a], which held [v]. *)
Definition removed (a : addr) (v : Z) (t t' : tree) : Prop :=
  (∃ l1 l2, elements t = l1 ++ v :: l2 ∧ elements t' = l1 ++ l2) ∧
  addrs t = {[a]} ∪ addrs t' ∧
  (wf t → wf t' ∧ a ∉ addrs t').

(** What the red-black conditions on a path read of a frame. *)
Definition look (f : frame) : Color * tree := (fc f, fsib f).

Definition go_top (k : ctx) : bool :=
  match k with
  | [] => false
  | f :: _ => match fdir f with LEFT => true | RIGHT => false end
  end.

Definition lt_count (v : Z) (l : list Z) : nat :=
  length (filter (λ x, (x < v)%Z) l).
Definition le_count (v : Z) (l : list Z) : nat :=
  length (filter (λ x, (x ≤ v)%Z) l).

(** The in-order list of the nodes of a tree. *)
Fixpoint nodes (t : tree) : list (addr * Z) :=
  match t with
  | E => []
  | T _ a _ l v r => nodes l ++ (a, v) :: nodes r
  end.

(** The candidates of [rank_lower_bound] and [rank_upper_bound]. *)
Fixpoint lb (v : Z) (t : tree) (c : option (addr * Z)) : option (addr * Z) :=
  match t with
  | E => c
  | T _ a _ l w r =>
      if (w <? v)%Z then lb v r c else lb v l (Some (a, w))
  end.

Fixpoint ub (v : Z) (t : tree) (c : option (addr * Z)) : option (addr * Z) :=
  match t with
  | E => c
  | T _ a _ l w r =>
      if (v <? w)%Z then ub v l (Some (a, w)) else ub v r c
  end.

(** The size found at the top of a path whose hole holds [n]. *)
Definition top_n (k : ctx) (n : Z) : Z :=
  match last k with None => n | Some f => fn f end.

(** Every node caches the size computed from the caches of its children. *)
Fixpoint lsized (t : tree) : Prop :=
  match t with
  | E => True
  | T _ _ n l _ r => n = upd true n (n_of l) (n_of r) ∧ lsized l ∧ lsized r
  end.

(** The same, the nodes above the node at address [a] excepted: these
    are stale while an insertion is under way. *)
Fixpoint lsized_off (a : addr) (t : tree) : Prop :=
  match t with
  | E => True
  | T _ b n l _ r =>
      (a ∈ ({[b]} ∪ addrs l ∪ addrs r : gset addr) ∨
       n = upd true n (n_of l) (n_of r)) ∧
      lsized_off a l ∧ lsized_off a r
  end.

Definition sized_k (k : ctx) : Prop := Forall (λ f, lsized (fsib f)) k.

Definition sized_off_k (a : addr) (k : ctx) : Prop :=
  Forall (λ f, lsized_off a (fsib f)) k.

(** The position that follows [x] in order, going up: the first ancestor
    that has [x] in its left subtree. *)
Fixpoint climb (x : tree) (k : ctx) : option (tree * ctx) :=
  match k with
  | [] => None
  | f :: k' =>
      match fdir f with
      | LEFT => Some (fill f x, k')
      | RIGHT => climb (fill f x) k'
      end
  end.

(** The position after the node at the root of [z], in order. *)
Definition succ_pos (z : tree) (k : ctx) : option (tree * ctx) :=
  match z with
  | E => None
  | T c a n l v r =>
      match r with
      | E => climb z k
      | _ => Some (leftmost r (F RIGHT c a n v l :: k))
      end
  end.

Fixpoint rightmost (t : tree) (k : ctx) : tree * ctx :=
  match t with
  | T c a n l v (T _ _ _ _ _ _ as r) => rightmost r (F RIGHT c a n v l :: k)
  | _ => (t, k)
  end.

(** The position that precedes [x] in order, going up: the first
    ancestor that has [x] in its right subtree. *)
Fixpoint climb_left (x : tree) (k : ctx) : option (tree * ctx) :=
  match k with
  | [] => None
  | f :: k' =>
      match fdir f with
      | RIGHT => Some (fill f x, k')
      | LEFT => climb_left (fill f x) k'
      end
  end.

(** The position before the node at the root of [z], in order. *)
Definition pred_pos (z : tree) (k : ctx) : option (tree * ctx) :=
  match z with
  | E => None
  | T c a n l v r =>
      match l with
      | E => climb_left z k
      | _ => Some (rightmost l (F LEFT c a n v r :: k))
      end
  end.

(** The nodes of a list of trees, no node in two of them. *)
Fixpoint addrs_forest (ts : list tree) : gset addr :=
  match ts with
  | [] => ∅
  | t :: ts => addrs t ∪ addrs_forest ts
  end.

Fixpoint wf_forest (ts : list tree) : Prop :=
  match ts with
  | [] => True
  | t :: ts => wf t ∧ addrs t ## addrs_forest ts ∧ wf_forest ts
  end.

Fixpoint count_forest (ts : list tree) : nat :=
  match ts with
  | [] => 0
  | t :: ts => count t + count_forest ts
  end.

(** The non-empty trees that [clear] pushes on its stack. *)
Definition cons_ne (t : tree) (ts : list tree) : list tree :=
  match t with E => ts | _ => t :: ts end.

(** The elements that a comparator of [rank_comp_bound] accepts. *)
Definition cmp_count (cmp : Z → Z → bool) (v : Z) (l : list Z) : nat :=
  length (filter (λ x, cmp x v = true) l).

Definition downward (cmp : Z → Z → bool) : Prop :=
  ∀ x y v, (x < y)%Z → cmp y v = true → cmp x v = true.

(** ** The layout of the sentinel tree, and its states *)

Module NilRep.
Import NilTree.

Definition mk (c : Color) (l r p : ptr) (n v : Z) : Node :=
  mkNode (mkBase c l r p) v.

Definition nil_ok (b : NodeBase) : Prop :=
  color_ b = BLACK ∧ left_ b = None ∧ right_ b = None.

Definition Rep (s : Tree) (t : tree) : Prop :=
  root_ s = ptr_of t ∧ wf t ∧ rep_t mk (heap s) None t ∧ nil_ok (nil_ s).

Definition put (s : Tree) (a : addr) (nd : Node) (b : NodeBase) : Tree :=
  mkTree (nil_ s) (root_ s) (<[a := mkNode b (value_ nd)]> (heap s)).

Definition locate_result (t : tree) (k : ctx) : LocateResult :=
  match t with
  | E => mkLocate (hole_par k) false (go_top k)
  | T _ a _ _ _ _ => mkLocate (Some a) true false
  end.

(** The operations write only to live nodes. *)
Definition same_dom (s s' : Tree) : Prop := dom (heap s') = dom (heap s).

(** The state of a tree between two public operations: its heap is the
    layout of [t] and holds no other node. *)
Definition Inv (s : Tree) (t : tree) : Prop :=
  Rep s t ∧ dom (heap s) = addrs t.

(** The state during the deletion fix-up: [x] sits at the position [k],
    and when [x] is empty the sentinel's parent link names the parent of
    that position. *)
Definition RepX (s : Tree) (x : tree) (k : ctx) : Prop :=
  Rep s (plug x k) ∧ (x = E → parent_ (nil_ s) = hole_par k).

(** The part of [erase_fixup_left] below a black sibling. *)
Definition efl_rest (node sibling : ptr) (s : Tree) : option (ptr * Tree) :=
  sl ← left_child s sibling;
  slc ← NilTree.color_of s sl;
  sr ← right_child s sibling;
  src ← NilTree.color_of s sr;
  if bool_decide (slc = BLACK) && bool_decide (src = BLACK) then
    s ← (if negb (is_nil sibling) then set_color sibling RED s else Some s);
    np ← parent s node;
    Some (np, s)
  else
    '(sibling, s) ←
      (if decide (src = BLACK) then
         sl ← left_child s sibling;
         s ← (if negb (is_nil sl) then set_color sl BLACK s else Some s);
         s ← (if negb (is_nil sibling) then set_color sibling RED s
              else Some s);
         s ← rotate_right sibling s;
         np ← parent s node;
         sibling ← right_child s np;
         Some (sibling, s)
       else Some (sibling, s));
    np ← parent s node;
    s ← (if negb (is_nil sibling) then
           npc ← color s np; set_color sibling npc s
         else Some s);
    np ← parent s node;
    s ← set_color np BLACK s;
    sr ← right_child s sibling;
    s ← (if negb (is_nil sr) then set_color sr BLACK s else Some s);
    np ← parent s node;
    s ← rotate_left np s;
    Some (root_ s, s).

(** The part of [erase_fixup_right] below a black sibling. *)
Definition efr_rest (node sibling : ptr) (s : Tree) : option (ptr * Tree) :=
  sr ← right_child s sibling;
  src ← NilTree.color_of s sr;
  sl ← left_child s sibling;
  slc ← NilTree.color_of s sl;
  if bool_decide (src = BLACK) && bool_decide (slc = BLACK) then
    s ← (if negb (is_nil sibling) then set_color sibling RED s else Some s);
    np ← parent s node;
    Some (np, s)
  else
    '(sibling, s) ←
      (if decide (slc = BLACK) then
         sr ← right_child s sibling;
         s ← (if negb (is_nil sr) then set_color sr BLACK s else Some s);
         s ← (if negb (is_nil sibling) then set_color sibling RED s
              else Some s);
         s ← rotate_left sibling s;
         np ← parent s node;
         sibling ← left_child s np;
         Some (sibling, s)
       else Some (sibling, s));
    np ← parent s node;
    s ← (if negb (is_nil sibling) then
           npc ← color s np; set_color sibling npc s
         else Some s);
    np ← parent s node;
    s ← set_color np BLACK s;
    sl ← left_child s sibling;
    s ← (if negb (is_nil sl) then set_color sl BLACK s else Some s);
    np ← parent s node;
    s ← rotate_right np s;
    Some (root_ s, s).

Definition finalize_root (s : Tree) : option Tree :=
  if is_nil (root_ s) then Some (set_root nil s)
  else
    s ← set_parent (root_ s) nil s;
    set_color (root_ s) BLACK s.

(** The values stored, read off the heap in order. *)
Fixpoint inorder (fuel : nat) (s : Tree) (p : ptr) : option (list Z) :=
  match fuel with
  | O => None
  | S fuel =>
      match p with
      | None => Some []
      | Some a =>
          nd ← heap s !! a;
          l ← inorder fuel s (left_ (base nd));
          r ← inorder fuel s (right_ (base nd));
          Some (l ++ value_ nd :: r)
      end
  end.

Definition contents (s : Tree) : list Z :=
  default [] (inorder (fuel_of s) s (root_ s)).

Definition apply_op (o : Op) (s : Tree) : option (bool * Tree) :=
  match o with
  | Insert v => insert v s
  | Erase v => erase v s
  end.

Fixpoint run (ops : list Op) (s : Tree) : option Tree :=
  match ops with
  | [] => Some s
  | o :: ops => '(_, s) ← apply_op o s; run ops s
  end.

(** The state of a tree between two public operations. *)
Definition Good (s : Tree) (t : tree) : Prop :=
  Inv s t ∧ rbtree t ∧ bst t.

(** Nodes reached from the root through child links. *)
Inductive reachable (s : Tree) : ptr → Prop :=
  | reach_root : reachable s (root_ s)
  | reach_left p q :
      reachable s p → p ≠ nil → left_child s p = Some q → reachable s q
  | reach_right p q :
      reachable s p → p ≠ nil → right_child s p = Some q → reachable s q.

End NilRep.

(** ** The interpreter over a list of keys *)

Module CliSpec.
Import NilTree NilRep Cli.

(** What a query prints: the number of keys in the half-open range
    [(left, right]], and 0 for an empty or reversed range. *)
Definition query_count (keys : list Z) (left_bound right_bound : Z) : Z :=
  if (left_bound <? right_bound)%Z then
    Z.of_nat (length (filter (λ x, (left_bound < x ≤ right_bound)%Z) keys))
  else 0%Z.

Definition in_int (x : Z) : Prop := (INT_MIN ≤ x ≤ INT_MAX)%Z.

(** The trees that the interpreter builds. *)
Definition CliGood (s : Tree) (t : tree) : Prop :=
  Good s t ∧ Forall in_int (elements t).

(** The interpreter over a plain list of keys: [k] adds a key that is
    not yet in the list, [q] prints [query_count]. *)
Fixpoint spec_loop (fuel : nat) (input : list token) (keys : list Z)
    (first_output : bool) (out : string) : Outcome :=
  match fuel with
  | O => mkOutcome 0 out ""
  | S fuel =>
      match read_char input with
      | None => mkOutcome 0 (if first_output then out else out +:+ newline) ""
      | Some (action, input) =>
          if decide (action = "k"%char) then
            match read_int input with
            | None => mkOutcome 1 out ("Failed to read key value" +:+ newline)
            | Some (key, input) =>
                spec_loop fuel input
                  (if decide (key ∈ keys) then keys else key :: keys)
                  first_output out
            end
          else if decide (action = "q"%char) then
            match read_int input with
            | None =>
                mkOutcome 1 out ("Failed to read query bounds" +:+ newline)
            | Some (left_bound, input) =>
                match read_int input with
                | None =>
                    mkOutcome 1 out ("Failed to read query bounds" +:+ newline)
                | Some (right_bound, input) =>
                    spec_loop fuel input keys false
                      ((if first_output then out else out +:+ " ") +:+
                       pretty (query_count keys left_bound right_bound))
                end
            end
          else
            mkOutcome 1 out ("Unknown command: " +:+ String action newline)
      end
  end.

Definition spec_cli (input : list token) : Outcome :=
  spec_loop (S (length input)) input [] true "".

(** The inputs of the two tests of [tests/rb_cli_test.cpp]. *)
Definition sample_input : list token :=
  [TChar "k"; TInt 10; TChar "k"; TInt 20; TChar "q"; TInt 8; TInt 31;
   TChar "q"; TInt 6; TInt 9; TChar "k"; TInt 30; TChar "k"; TInt 40;
   TChar "q"; TInt 15; TInt 40].

Definition descending_input : list token :=
  [TChar "k"; TInt 10; TChar "q"; TInt 2; TInt 7; TChar "q"; TInt 3; TInt 9;
   TChar "k"; TInt 1; TChar "k"; TInt 2; TChar "k"; TInt 0; TChar "k"; TInt 6;
   TChar "q"; TInt 7; TInt 2; TChar "k"; TInt 10; TChar "q"; TInt 3; TInt 1;
   TChar "q"; TInt 5; TInt 3; TChar "q"; TInt 9; TInt 4; TChar "k"; TInt 2;
   TChar "q"; TInt 7; TInt 8; TChar "k"; TInt 2; TChar "k"; TInt 3;
   TChar "k"; TInt 1; TChar "q"; TInt 2; TInt 3; TChar "q"; TInt 6; TInt 1;
   TChar "q"; TInt 2; TInt 9].

End CliSpec.

(** ** The layout of the augmented tree, and its states *)

Module SizeRep.
Import SizeTree.

Definition mk (c : Color) (l r p : ptr) (n v : Z) : Node :=
  mkNode (mkBase c l r p n) v.

Definition Rep (s : Tree) (t : tree) : Prop :=
  root_ s = ptr_of t ∧ wf t ∧ rep_t mk (heap s) None t.

Definition put (s : Tree) (a : addr) (nd : Node) (b : NodeBase) : Tree :=
  mkTree (root_ s) (<[a := mkNode b (value_ nd)]> (heap s)).

Definition locate_result (t : tree) (k : ctx) : LocateResult :=
  match t with
  | E => mkLocate (hole_par k) false (go_top k)
  | T _ a _ _ _ _ => mkLocate (Some a) true false
  end.

Definition same_dom (s s' : Tree) : Prop := dom (heap s') = dom (heap s).

(** The state of a tree between two public operations: its heap is the
    layout of [t] and holds no other node. *)
Definition Inv (s : Tree) (t : tree) : Prop :=
  Rep s t ∧ dom (heap s) = addrs t.

(** The part of [erase_fixup_direction] below a black sibling. *)
Definition efd_rest (node par sibling : ptr) (dir : Direction) (s : Tree)
    : option (ptr * ptr * Tree) :=
  '(sibling_inner, sibling_outer) ← fetch_sibling_children s sibling dir;
  inner_black ← is_black s sibling_inner;
  outer_black ← is_black s sibling_outer;
  if inner_black && outer_black then
    s ← SizeTree.paint sibling RED s;
    pp ← parent s par;
    Some (par, pp, s)
  else
    '(sibling, sibling_outer, s) ←
      (if (outer_black : bool) then
         s ← SizeTree.paint sibling_inner BLACK s;
         s ← SizeTree.paint sibling RED s;
         s ← rotate sibling (opposite dir) s;
         sibling ← (if decide (dir = LEFT) then right_child s par
                    else left_child s par);
         '(_, sibling_outer) ← fetch_sibling_children s sibling dir;
         Some (sibling, sibling_outer, s)
       else Some (sibling, sibling_outer, s));
    apply_outer_rotation node par sibling sibling_outer dir s.

(** The loop [for (it = begin(); it != end(); ++it)] that collects
    [*it]. *)
Fixpoint iterate (fuel : nat) (s : Tree) (it : iterator)
    : option (list Z) :=
  match fuel with
  | O => None
  | S fuel =>
      if bool_decide (current_ it = current_ (end_ s)) then Some []
      else
        v ← deref s it;
        it ← incr s it;
        rest ← iterate fuel s it;
        Some (v :: rest)
  end.

Definition traverse (s : Tree) : option (list Z) :=
  it ← begin s; iterate (fuel_of s) s it.

(** The loop [for (it = end(); it != begin(); ) { --it; ... *it ... }]. *)
Fixpoint iterate_back (fuel : nat) (s : Tree) (first it : iterator)
    : option (list Z) :=
  match fuel with
  | O => None
  | S fuel =>
      if bool_decide (current_ it = current_ first) then Some []
      else
        it ← decr s it;
        v ← deref s it;
        rest ← iterate_back fuel s first it;
        Some (v :: rest)
  end.

Definition traverse_back (s : Tree) : option (list Z) :=
  first ← begin s; iterate_back (fuel_of s) s first (end_ s).

(** The values from a position to the end. *)
Definition traverse_from (s : Tree) (it : iterator) : option (list Z) :=
  iterate (fuel_of s) s it.

Definition apply_op (o : Op) (s : Tree) : option (bool * Tree) :=
  match o with
  | Insert v => insert v s
  | Erase v => erase v s
  end.

Fixpoint run (ops : list Op) (s : Tree) : option Tree :=
  match ops with
  | [] => Some s
  | o :: ops => '(_, s) ← apply_op o s; run ops s
  end.

(** The state of a tree between two public operations. *)
Definition Good (s : Tree) (t : tree) : Prop :=
  Inv s t ∧ rbtree t ∧ bst t ∧ lsized t.

(** Nodes reached from the root through child links. *)
Inductive reachable (s : Tree) : ptr → Prop :=
  | reach_root : reachable s (root_ s)
  | reach_left p q :
      reachable s p → p ≠ None → left_child s p = Some q → reachable s q
  | reach_right p q :
      reachable s p → p ≠ None → right_child s p = Some q → reachable s q.

End SizeRep.

(** * Facts about the abstract trees *)

(** *** Positions and footprints *)

Lemma plug_app t k1 k2 : plug t (k1 ++ k2) = plug (plug t k1) k2.
Proof. revert t. induction k1 as [|f k1 IH]; intros t; simpl; auto. Qed.

Lemma addrs_fill f t : addrs (fill f t) = {[fa f]} ∪ addrs (fsib f) ∪ addrs t.
Proof. destruct f as [[] c a n v w]; unfold fill; simpl; set_solver. Qed.

Lemma addrs_plug t k : addrs (plug t k) = addrs t ∪ addrs_k k.
Proof.
  revert t. induction k as [|f k IH]; intros t; simpl.
  - set_solver.
  - rewrite IH, addrs_fill. set_solver.
Qed.

Lemma wf_fill f t :
  wf (fill f t) ↔
  wf t ∧ wf (fsib f) ∧ fa f ∉ addrs (fsib f) ∧ fa f ∉ addrs t ∧
  addrs t ## addrs (fsib f).
Proof. destruct f as [[] c a n v w]; unfold fill; simpl; set_solver. Qed.

Lemma wf_plug t k :
  wf (plug t k) ↔ wf t ∧ wf_k k ∧ addrs t ## addrs_k k.
Proof.
  revert t. induction k as [|f k IH]; intros t; simpl.
  - set_solver.
  - rewrite IH, wf_fill, addrs_fill. set_solver.
Qed.

Lemma addrs_k_app k1 k2 : addrs_k (k1 ++ k2) = addrs_k k1 ∪ addrs_k k2.
Proof. induction k1 as [|f k1 IH]; simpl; [|rewrite IH]; set_solver. Qed.

Lemma wf_k_app k1 k2 :
  wf_k (k1 ++ k2) ↔ wf_k k1 ∧ wf_k k2 ∧ addrs_k k1 ## addrs_k k2.
Proof.
  induction k1 as [|f k1 IH]; simpl.
  - set_solver.
  - rewrite IH, addrs_k_app. set_solver.
Qed.

Lemma ptr_of_fill f t : ptr_of (fill f t) = Some (fa f).
Proof. by destruct f as [[] c a n v w]. Qed.

(** Above the hole, the root of the tree does not depend on what is
    plugged in. *)
Lemma ptr_of_plug_cons t t' f k :
  ptr_of (plug t (f :: k)) = ptr_of (plug t' (f :: k)).
Proof.
  revert t t' f. induction k as [|g k IH]; intros t t' f.
  - simpl. by rewrite !ptr_of_fill.
  - apply (IH (fill f t) (fill f t') g).
Qed.

Lemma count_addrs t : wf t → size (addrs t) = count t.
Proof.
  induction t as [|c a n l IHl v r IHr]; simpl; [done|].
  intros (Hl & Hr & Hlr & Hwl & Hwr).
  rewrite !size_union, size_singleton, IHl, IHr by set_solver. done.
Qed.

Lemma height_le_count t : height t ≤ count t.
Proof. induction t; simpl; lia. Qed.

(** ** Reading a heap as a tree *)

Section RepFacts.

Context {node : Type} (mk : Color → ptr → ptr → ptr → Z → Z → node).

Implicit Types (h : gmap addr node) (t : tree) (k : ctx) (f : frame).

Lemma rep_fill h par f t :
  rep_t mk h par (fill f t) ↔
  h !! fa f = Some (frame_node mk f (ptr_of t) par) ∧
  rep_t mk h (Some (fa f)) (fsib f) ∧ rep_t mk h (Some (fa f)) t.
Proof.
  destruct f as [[] c a n v w]; unfold fill, frame_node; simpl; tauto.
Qed.

Lemma rep_plug h t k :
  rep_t mk h None (plug t k) ↔ rep_t mk h (hole_par k) t ∧ rep_k mk h k (ptr_of t).
Proof.
  revert t. induction k as [|f k IH]; intros t; simpl.
  - tauto.
  - rewrite IH, rep_fill, ptr_of_fill. tauto.
Qed.

Lemma rep_t_agree h h' par t :
  (∀ a, a ∈ addrs t → h' !! a = h !! a) → rep_t mk h par t → rep_t mk h' par t.
Proof.
  revert par. induction t as [|c a n l IHl v r IHr]; intros par Hag; simpl.
  - done.
  - intros (Ha & Hl & Hr). split_and!.
    + rewrite Hag; [done|]. simpl. set_solver.
    + apply IHl; [|done]. intros b Hb. apply Hag. simpl. set_solver.
    + apply IHr; [|done]. intros b Hb. apply Hag. simpl. set_solver.
Qed.

Lemma rep_k_agree h h' k child :
  (∀ a, a ∈ addrs_k k → h' !! a = h !! a) → rep_k mk h k child → rep_k mk h' k child.
Proof.
  revert child. induction k as [|f k IH]; intros child Hag; simpl.
  - done.
  - intros (Ha & Hs & Hk). split_and!.
    + rewrite Hag; [done|]. simpl. set_solver.
    + eapply rep_t_agree; [|done]. intros b Hb. apply Hag. simpl. set_solver.
    + apply IH; [|done]. intros b Hb. apply Hag. simpl. set_solver.
Qed.

Lemma rep_t_insert_ne h par t a x :
  a ∉ addrs t → rep_t mk h par t → rep_t mk (<[a := x]> h) par t.
Proof.
  intros Ha. apply rep_t_agree. intros b Hb.
  apply lookup_insert_ne. set_solver.
Qed.

Lemma rep_k_insert_ne h k child a x :
  a ∉ addrs_k k → rep_k mk h k child → rep_k mk (<[a := x]> h) k child.
Proof.
  intros Ha. apply rep_k_agree. intros b Hb.
  apply lookup_insert_ne. set_solver.
Qed.

Lemma rep_t_delete_ne h par t a :
  a ∉ addrs t → rep_t mk h par t → rep_t mk (delete a h) par t.
Proof.
  intros Ha. apply rep_t_agree. intros b Hb.
  apply lookup_delete_ne. set_solver.
Qed.

Lemma rep_k_delete_ne h k child a :
  a ∉ addrs_k k → rep_k mk h k child → rep_k mk (delete a h) k child.
Proof.
  intros Ha. apply rep_k_agree. intros b Hb.
  apply lookup_delete_ne. set_solver.
Qed.

(** Every address of a laid-out tree is live. *)
Lemma rep_t_dom h par t : rep_t mk h par t → addrs t ⊆ dom h.
Proof.
  revert par. induction t as [|c a n l IHl v r IHr]; intros par; simpl.
  - set_solver.
  - intros (Ha & Hl & Hr). apply IHl in Hl. apply IHr in Hr.
    assert (a ∈ dom h) by (apply elem_of_dom; eauto). set_solver.
Qed.

End RepFacts.

(** Footprint facts are kept as atoms: [x ≠ y], [x ∉ addrs t],
    [addrs t ## addrs t']. *)
Ltac atomize :=
  repeat match goal with
  | H : _ ∧ _ |- _ => destruct H
  | H : True |- _ => clear H
  | H : _ ∉ ∅ |- _ => clear H
  | H : ∅ ## _ |- _ => clear H
  | H : _ ## ∅ |- _ => clear H
  | H : _ ∉ _ ∪ _ |- _ => apply not_elem_of_union in H
  | H : _ ∪ _ ## _ |- _ => apply disjoint_union_l in H
  | H : _ ## _ ∪ _ |- _ => apply disjoint_union_r in H
  | H : {[_]} ## _ |- _ => apply disjoint_singleton_l in H
  | H : _ ## {[_]} |- _ => apply disjoint_singleton_r in H
  | H : _ ∉ {[_]} |- _ => apply not_elem_of_singleton in H
  end.

Ltac atom :=
  first [ assumption | apply not_eq_sym; assumption | symmetry; assumption
        | apply not_elem_of_empty | apply disjoint_empty_l | apply disjoint_empty_r
        | exact I ].

Ltac solve_atoms :=
  simpl;
  repeat match goal with
  | |- _ ∧ _ => split
  | |- _ ∉ _ ∪ _ => apply not_elem_of_union
  | |- _ ∪ _ ## _ => apply disjoint_union_l
  | |- _ ## _ ∪ _ => apply disjoint_union_r
  | |- {[_]} ## _ => apply disjoint_singleton_l
  | |- _ ## {[_]} => apply disjoint_singleton_r
  | |- _ ∉ {[_]} => apply not_elem_of_singleton
  end; atom.

Ltac wf_tac :=
  let Hw := fresh "Hw" in
  intros Hw; simpl in Hw |- *; clear -Hw; atomize; solve_atoms.

(** *** In-order contents *)

Lemma elements_plug t k :
  elements (plug t k) = lefts k ++ elements t ++ rights k.
Proof.
  revert t. induction k as [|[[] c a n v w] k IH]; intros t; simpl.
  - by rewrite app_nil_r.
  - rewrite IH. simpl. by rewrite app_nil_r, <- !app_assoc.
  - rewrite IH. simpl. by rewrite <- !app_assoc.
Qed.

Lemma elements_paint c t : elements (paint c t) = elements t.
Proof. by destruct t. Qed.

Lemma addrs_paint c t : addrs (paint c t) = addrs t.
Proof. by destruct t. Qed.

Lemma wf_paint c t : wf (paint c t) ↔ wf t.
Proof. by destruct t. Qed.

Lemma ptr_of_paint c t : ptr_of (paint c t) = ptr_of t.
Proof. by destruct t. Qed.

(** *** Red-black shape *)

Lemma bh_fill f t : bh (fsib f) = bh t → bh (fill f t) = bh t + blk (fc f).
Proof. destruct f as [[] c a n v w]; unfold fill; simpl; lia. Qed.

Lemma plug_rb k : ∀ t h,
  ctxrb k h → rbt t → bh t = h → (color_of t = RED → top_black k) →
  rbtree (plug t k).
Proof.
  induction k as [|f k IH]; intros t h Hk Ht Hh Hc; simpl in *.
  - split; [|done]. destruct (color_of t); [by destruct Hc|done].
  - destruct Hk as (Hs & Hsh & Hred & Hk).
    apply (IH _ (h + blk (fc f))); [done| |by rewrite bh_fill; congruence|].
    + assert (fc f = RED → color_of t = BLACK) as Hct.
      { intros Hf. destruct (color_of t) eqn:Hct; [|done].
        specialize (Hc eq_refl). simpl in Hc. congruence. }
      destruct f as [[] c a n v w]; unfold fill; simpl in *;
        (split_and!; [done|done|congruence|]);
        intros Hr; destruct (Hred Hr); auto.
    + destruct f as [[] c a n v w]; unfold fill; simpl in *; intros ->;
        by destruct (Hred eq_refl).
Qed.

Lemma unplug_rb k : ∀ t,
  rbtree (plug t k) →
  ctxrb k (bh t) ∧ rbt t ∧ (color_of t = RED → top_black k).
Proof.
  induction k as [|f k IH]; intros t H; simpl in *.
  - destruct H as [Hc Ht]. split_and!; [done|done|congruence].
  - apply IH in H as (Hk & Ht & Hc).
    destruct f as [[] c a n v w]; unfold fill in *; simpl in *;
      destruct Ht as (Hl & Hr & Hb & Hred); rewrite ?Hb in Hk;
      (split_and!; try done; try congruence);
      intros Hx;
      first [ by (split; [apply Hred|apply Hc])
            | destruct c; [destruct (Hred eq_refl); congruence|done] ].
Qed.

Ltac list_norm :=
  simpl; repeat (progress (rewrite <- ?app_assoc; simpl)); try reflexivity.

Section OpsFacts.

Variable aug : bool.

Lemma up_frames k n :
  Forall2 (λ f g, fdir g = fdir f ∧ fc g = fc f ∧ fa g = fa f ∧
                  fv g = fv f ∧ fsib g = fsib f) k (up aug k n).
Proof.
  revert n. induction k as [|f k IH]; intros n; simpl; constructor; auto.
Qed.

Lemma lefts_up k n : lefts (up aug k n) = lefts k.
Proof. revert n. induction k as [|f k IH]; intros n; simpl; by rewrite ?IH. Qed.

Lemma rights_up k n : rights (up aug k n) = rights k.
Proof. revert n. induction k as [|f k IH]; intros n; simpl; by rewrite ?IH. Qed.

Lemma addrs_k_up k n : addrs_k (up aug k n) = addrs_k k.
Proof. revert n. induction k as [|f k IH]; intros n; simpl; by rewrite ?IH. Qed.

Lemma wf_k_up k n : wf_k (up aug k n) ↔ wf_k k.
Proof.
  revert n. induction k as [|f k IH]; intros n; simpl; [done|].
  by rewrite IH, addrs_k_up.
Qed.

Lemma top_black_up k n : top_black (up aug k n) ↔ top_black k.
Proof. by destruct k. Qed.

Lemma ctxrb_up k n h : ctxrb (up aug k n) h ↔ ctxrb k h.
Proof.
  revert n h. induction k as [|f k IH]; intros n h; simpl; [done|].
  by rewrite IH, top_black_up.
Qed.

Lemma hole_par_up k n : hole_par (up aug k n) = hole_par k.
Proof. by destruct k. Qed.

Lemma length_up k n : length (up aug k n) = length k.
Proof. revert n. induction k as [|f k IH]; intros n; simpl; by rewrite ?IH. Qed.

Lemma elements_plug_up t k n :
  elements (plug t (up aug k n)) = elements (plug t k).
Proof. by rewrite !elements_plug, lefts_up, rights_up. Qed.

Lemma addrs_plug_up t k n : addrs (plug t (up aug k n)) = addrs (plug t k).
Proof. by rewrite !addrs_plug, addrs_k_up. Qed.

Lemma wf_plug_up t k n : wf (plug t (up aug k n)) ↔ wf (plug t k).
Proof. by rewrite !wf_plug, wf_k_up, addrs_k_up. Qed.

Lemma elements_resize t : elements (resize aug t) = elements t.
Proof. by destruct t. Qed.

Lemma rot_elements d t t' : rot aug d t = Some t' → elements t' = elements t.
Proof.
  destruct d, t as [|c a n [|c1 a1 n1 l1 v1 r1] v [|c2 a2 n2 l2 v2 r2]];
    simpl; intros; simplify_eq; simpl; by rewrite <- ?app_assoc.
Qed.

Lemma rot_addrs d t t' : rot aug d t = Some t' → addrs t' = addrs t.
Proof.
  destruct d, t as [|c a n [|c1 a1 n1 l1 v1 r1] v [|c2 a2 n2 l2 v2 r2]];
    simpl; intros; simplify_eq; simpl; set_solver.
Qed.

Lemma rot_wf d t t' : rot aug d t = Some t' → wf t → wf t'.
Proof.
  destruct d, t as [|c a n [|c1 a1 n1 l1 v1 r1] v [|c2 a2 n2 l2 v2 r2]];
    simpl; intros; simplify_eq; revert select (_ ∧ _); wf_tac.
Qed.

Lemma ctx_ind2 (P : ctx → Prop) :
  P [] → (∀ f, P [f]) → (∀ f1 f2 k, P k → P (f1 :: f2 :: k)) → ∀ k, P k.
Proof.
  intros H0 H1 H2 k. cut (P k ∧ ∀ f, P (f :: k)); [by intros []|].
  induction k as [|g k [IH1 IH2]]; split; auto.
Qed.

Lemma insert_fix_ok k : ∀ t h,
  color_of t = RED → t ≠ E → rbt t → bh t = h → ctxrb k h →
  ∃ t', insert_fix aug k t = Some t' ∧ rbtree t' ∧
        elements t' = elements (plug t k) ∧
        addrs t' = addrs (plug t k) ∧
        (wf (plug t k) → wf t').
Proof.
  induction k as [|f1|f1 f2 k2 IH] using ctx_ind2; intros t h Hc Hne Ht Hh Hk.
  - exists (paint BLACK t). destruct t; simpl in *; [done|].
    split_and!; try done. split; [done|]. simpl. naive_solver.
  - simpl. case_decide as Hf1.
    + eexists; split_and!; try done. by apply (plug_rb [f1] t h).
    + destruct Hk as (Hs & Hsh & Hred & _).
      destruct (fc f1); [by destruct (Hred eq_refl)|done].
  - cbn [insert_fix]. case_decide as Hf1.
    { eexists; split_and!; try done.
      by apply (plug_rb (f1 :: f2 :: k2) t h). }
    destruct Hk as (Hs1 & Hsh1 & Hred1 & Hs2 & Hsh2 & Hred2 & Hk2).
    destruct (fc f1) eqn:Hc1; [|done]. destruct (Hred1 eq_refl) as [Hcs1 Hc2].
    simpl in Hc2, Hsh2, Hk2. rewrite Hc2 in Hk2. simpl in Hk2.
    rewrite Nat.add_0_r in Hk2, Hsh2.
    destruct t as [|c a n l v r]; [done|]. simpl in Hc. subst c.
    destruct Ht as (Hl & Hr & Hb & Hcc). destruct (Hcc eq_refl) as [Hcl Hcr].
    assert (fsib f2 = E ∨ (∃ ua un ul uv ur, fsib f2 = T BLACK ua un ul uv ur) ∨
            (∃ ua un ul uv ur, fsib f2 = T RED ua un ul uv ur)) as [Hu|[Hu|Hu]].
    { destruct (fsib f2) as [|[] ua un ul uv ur]; eauto 10. }
    3:{ destruct Hu as (ua & un & ul & uv & ur & Hu). rewrite Hu in *.
        destruct Hs2 as (Hul & Hur & Hub & _).
        set (t0 := fill (fsibling (T BLACK ua un ul uv ur) (fpaint RED f2))
                     (fill (fpaint BLACK f1) (T RED a n l v r))).
        assert (color_of t0 = RED) as H1 by (by destruct f2 as [[] ????]).
        assert (t0 ≠ E) as H2 by (by destruct f2 as [[] ????]).
        assert (rbt t0) as H3.
        { destruct f1 as [[] c1 a1 n1 v1 w1], f2 as [[] c2 a2 n2 v2 w2];
            simpl in *; subst; unfold t0, fill; simpl; split_and!; auto; try lia;
            try congruence. }
        assert (bh t0 = h + 1) as H4.
        { destruct f1 as [[] c1 a1 n1 v1 w1], f2 as [[] c2 a2 n2 v2 w2];
            simpl in *; subst; unfold t0, fill; simpl; lia. }
        destruct (IH t0 (h + 1) H1 H2 H3 H4 Hk2)
          as (t' & Hfix & Hrb & Hel & Had & Hwf).
        unfold t0 in *. clear t0.
        exists t'. split_and!; try done.
          + rewrite Hel, !elements_plug.
            destruct f1 as [[] c1 a1 n1 v1 w1], f2 as [[] c2 a2 n2 v2 w2];
              simpl in *; subst; unfold fill; by list_norm.
          + rewrite Had, !addrs_plug. clear -Hu.
            destruct f1 as [[] c1 a1 n1 v1 w1], f2 as [[] c2 a2 n2 v2 w2];
              simpl in *; subst; unfold fill; simpl; set_solver.
          + intros Hw. apply Hwf. revert Hw. rewrite !wf_plug. clear -Hu.
            destruct f1 as [[] c1 a1 n1 v1 w1], f2 as [[] c2 a2 n2 v2 w2];
              simpl in *; subst; unfold fill; wf_tac. }
    all: try destruct Hu as (ua & un & ul & uv & ur & Hu).
    all: assert (insert_fix aug (f1 :: f2 :: k2) (T RED a n l v r)
                 = rebalance aug (T RED a n l v r) f1 f2 k2) as Hins
           by (cbn [insert_fix]; rewrite decide_False by congruence; by rewrite Hu).
    all: cbn [insert_fix] in Hins; rewrite decide_False in Hins by congruence;
         rewrite Hins; clear Hins.
    all: assert (color_of (fsib f2) = BLACK) as Hcu by (by rewrite Hu).
    all: clear Hu.
    all: destruct f1 as [[] c1 a1 n1 v1 w1], f2 as [[] c2 a2 n2 v2 w2];
           simpl in *; subst; unfold rebalance, fill; simpl.
    all: eexists; split; [reflexivity|].
    all: split; [eapply plug_rb;
                 [rewrite !ctxrb_up; exact Hk2
                 |simpl; split_and!; auto; try lia; try congruence|simpl; lia|done]|].
    all: rewrite !elements_plug_up, !addrs_plug_up, !wf_plug_up, !elements_plug, !addrs_plug, !wf_plug.
    all: simpl; split_and!; [by list_norm | clear; set_solver | wf_tac].
Qed.

End OpsFacts.

Lemma sorted_mid (l1 l2 : list Z) (x : Z) :
  StronglySorted Z.lt (l1 ++ x :: l2) ↔
  StronglySorted Z.lt (l1 ++ l2) ∧
  Forall (λ y, (y < x)%Z) l1 ∧ Forall (λ y, (x < y)%Z) l2.
Proof.
  rewrite !StronglySorted_app, StronglySorted_cons, !Forall_forall.
  split.
  - intros (H1 & H2 & H3 & H4). split_and!; auto.
    + intros a b Ha Hb. apply H1; [done|]. set_solver.
    + intros y Hy. apply H1; [done|]. set_solver.
  - intros ((H1 & H2 & H3) & H4 & H5). split_and!; auto.
    intros a b Ha Hb. apply elem_of_cons in Hb as [->|Hb]; auto.
Qed.

Section Descend.

Variable aug : bool.

Lemma descend_plug v t : ∀ k t' k',
  descend v t k = (t', k') → plug t' k' = plug t k.
Proof.
  induction t as [|c a n l IHl w r IHr]; intros k t' k' H; simpl in H.
  - by simplify_eq.
  - repeat case_match; simplify_eq; auto.
    + by rewrite (IHl _ _ _ H).
    + by rewrite (IHr _ _ _ H).
Qed.

Lemma descend_length v t : ∀ k t' k',
  descend v t k = (t', k') → length k' + height t' ≤ length k + height t.
Proof.
  induction t as [|c a n l IHl w r IHr]; intros k t' k' H; simpl in H.
  - simplify_eq. lia.
  - repeat case_match; simplify_eq; auto.
    + apply IHl in H. simpl in *. lia.
    + apply IHr in H. simpl in *. lia.
Qed.

Lemma descend_found v t : ∀ k t' k',
  descend v t k = (t', k') →
  t' = E ∨ ∃ c a n l r, t' = T c a n l v r.
Proof.
  induction t as [|c a n l IHl w r IHr]; intros k t' k' H; simpl in H.
  - simplify_eq. auto.
  - repeat case_match; simplify_eq; eauto.
    right. assert (v = w) as -> by lia. eauto 10.
Qed.

Lemma descend_bounds v t : ∀ k t' k',
  descend v t k = (t', k') →
  bst (plug t k) →
  Forall (λ y, (y < v)%Z) (lefts k) → Forall (λ y, (v < y)%Z) (rights k) →
  Forall (λ y, (y < v)%Z) (lefts k') ∧ Forall (λ y, (v < y)%Z) (rights k').
Proof.
  induction t as [|c a n l IHl w r IHr]; intros k t' k' H Hs Hl Hr; simpl in H.
  - by simplify_eq.
  - unfold bst in *. repeat case_match; simplify_eq; auto.
    + assert (Forall (λ y, (v < y)%Z) (elements r)) as Hr'.
      { rewrite elements_plug in Hs. simpl in Hs.
        rewrite <- app_assoc in Hs. simpl in Hs.
        apply StronglySorted_app in Hs as (_ & _ & Hs).
        apply StronglySorted_app in Hs as (_ & _ & Hs).
        apply StronglySorted_cons in Hs as [Hs _].
        apply Forall_app in Hs as [Hs _].
        eapply Forall_impl; [exact Hs|]. simpl. lia. }
      eapply (IHl _ _ _ H); simpl; [exact Hs|by rewrite app_nil_r|].
      constructor; [lia|]. by apply Forall_app.
    + assert (Forall (λ y, (y < v)%Z) (elements l)) as Hl'.
      { rewrite elements_plug in Hs. simpl in Hs.
        rewrite <- app_assoc in Hs. simpl in Hs.
        apply StronglySorted_app in Hs as (_ & _ & Hs).
        apply sorted_mid in Hs as (_ & Hs & _).
        eapply Forall_impl; [exact Hs|]. simpl. lia. }
      eapply (IHr _ _ _ H); simpl; [exact Hs| |done].
      apply Forall_app. split; [done|].
      apply Forall_app. split; [done|]. constructor; [lia|done].
Qed.

(** Searching a search tree finds the value exactly when it is stored. *)
Lemma descend_mem v t t' k' :
  bst t → descend v t [] = (t', k') → (t' ≠ E ↔ v ∈ elements t).
Proof.
  intros Hs H.
  pose proof (descend_plug _ _ _ _ _ H) as Hp. simpl in Hp.
  destruct (descend_bounds _ _ _ _ _ H Hs) as [Hl Hr]; [by constructor..|].
  rewrite <- Hp, elements_plug.
  destruct (descend_found _ _ _ _ _ H) as [->|(c & a & n & l & r & ->)].
  - simpl. split; [done|]. intros [Hin|Hin]%elem_of_app.
    + rewrite Forall_forall in Hl. apply Hl in Hin. lia.
    + rewrite Forall_forall in Hr. apply Hr in Hin. lia.
  - split; [|done]. intros _. simpl. set_solver.
Qed.

Lemma insert_tree_ok v a t :
  rbtree t → wf t → bst t → v ∉ elements t → a ∉ addrs t →
  ∃ t', insert_tree aug v a t = Some t' ∧
        rbtree t' ∧ wf t' ∧ bst t' ∧
        addrs t' = {[a]} ∪ addrs t ∧
        (∀ x, x ∈ elements t' ↔ x = v ∨ x ∈ elements t) ∧
        length (elements t') = S (length (elements t)).
Proof.
  intros Hrb Hwf Hs Hv Ha. unfold insert_tree.
  destruct (descend v t []) as [t0 k] eqn:Hd.
  pose proof (descend_plug _ _ _ _ _ Hd) as Hp. simpl in Hp.
  destruct (descend_bounds _ _ _ _ _ Hd Hs) as [Hl Hr]; [by constructor..|].
  assert (t0 = E) as ->.
  { destruct t0; [done|]. exfalso. apply Hv.
    by apply (descend_mem _ _ _ _ Hs Hd). }
  subst t. apply unplug_rb in Hrb as (Hk & _ & _). simpl in Hk.
  destruct (insert_fix_ok aug k (resize aug (T RED a 1 E v E)) 0)
    as (t' & Hfix & Hrb' & Hel & Had & Hwf'); simpl; auto.
  exists t'. split; [done|]. split; [done|]. unfold bst in *.
  rewrite elements_plug in Hs, Hv. simpl in *.
  rewrite Hel, Had, elements_plug, !addrs_plug. simpl.
  rewrite addrs_plug in Ha.
  split_and!.
  - apply Hwf'. revert Hwf Ha. rewrite !wf_plug. simpl. clear. set_solver.
  - by apply sorted_mid.
  - clear. set_solver.
  - intros x. rewrite (elements_plug E k). simpl.
    rewrite !elem_of_app, elem_of_cons. tauto.
  - rewrite (elements_plug E k), !length_app. simpl. lia.
Qed.

End Descend.

Lemma same_refl t : same t t.
Proof. by split_and!. Qed.

Lemma same_trans t1 t2 t3 : same t1 t2 → same t2 t3 → same t1 t3.
Proof. intros (?&?&?) (?&?&?). split_and!; try congruence. auto. Qed.

Lemma same_plug t t' k : same t t' → same (plug t k) (plug t' k).
Proof.
  intros (He & Ha & Hw). split_and!.
  - by rewrite !elements_plug, He.
  - by rewrite !addrs_plug, Ha.
  - rewrite !wf_plug, Ha. tauto.
Qed.

Lemma same_paint c t : same t (paint c t).
Proof. destruct t; by split_and!. Qed.

Ltac same_tac :=
  unfold fill; simpl;
  split_and!; [by list_norm | clear; simpl; set_solver | wf_tac].

Ltac ctx_eq :=
  match goal with
  | H : ctxrb ?k ?n |- ctxrb ?k ?m => replace m with n by lia; exact H
  end.

Ltac rb_tac :=
  simpl in *; try done; destruct_and?; split_and?; auto; try lia;
  try congruence.

Section Erase.

Variable aug : bool.

Lemma same_up t k n : same (plug t k) (plug t (up aug k n)).
Proof.
  split_and!; [apply elements_plug_up|apply addrs_plug_up|by rewrite wf_plug_up].
Qed.

Lemma rbtree_paint t : rbtree t → paint BLACK t = t.
Proof. destruct t as [|[] ?????]; unfold rbtree; simpl; intros [??]; congruence. Qed.

(** A node of positive black height is not a leaf. *)
Lemma bh_pos_node t h : bh t = S h → ∃ c a n l v r, t = T c a n l v r.
Proof. destruct t; [done|eauto 10]. Qed.

Lemma fix_step_ok x f k h :
  rbt x → bh x = h → color_of x = BLACK →
  rbt (fsib f) → bh (fsib f) = S h → color_of (fsib f) = BLACK →
  (fc f = RED → top_black k) → ctxrb k (S h + blk (fc f)) →
  ∃ r, fix_step aug x f k = Some r ∧
       match r with
       | inl t => rbtree t ∧ same (plug (fill f x) k) t
       | inr x2 =>
           rbt (paint BLACK x2) ∧ bh x2 = h + blk (fc f) ∧
           color_of x2 = fc f ∧ x2 ≠ E ∧
           same (fill f x) x2
       end.
Proof.
  intros Hx Hh Hcx Hw Hwh Hwc Htop Hk.
  destruct f as [d c a n v w]. simpl in *.
  destruct w as [|wc wa wn wl wv wr]; [done|]. simpl in Hwc. subst wc.
  simpl in Hwh. destruct Hw as (Hwl & Hwr & Hwb & _).
  assert (bh wl = h) as Hbl by lia. assert (bh wr = h) as Hbr by lia.
  unfold fix_step. cbn [fdir fsib].
  destruct d; cbn [child opposite].
  - (* x is the left child *)
    destruct (color_of wl) eqn:Hcl, (color_of wr) eqn:Hcr; simpl.
    + (* both red: outer rotation *)
      destruct wr as [|[] ra rn rl rv rr]; try done. simpl in *.
      eexists; split; [reflexivity|]. simpl. split.
      * eapply plug_rb; [rewrite ctxrb_up; exact Hk| | |].
        -- simpl. destruct x, wl as [|[] ??????]; rb_tac.
        -- simpl. lia.
        -- simpl. rewrite ?top_black_up. exact Htop.
      * eapply same_trans; [|apply same_up]. apply same_plug. same_tac.
    + (* inner red, outer black: double rotation *)
      destruct wl as [|[] la ln ll lv lr]; try done. simpl in *.
      eexists; split; [reflexivity|]. simpl. split.
      * eapply plug_rb; [rewrite !ctxrb_up; exact Hk| | |].
        -- simpl. destruct x, wr as [|[] ??????]; rb_tac.
        -- simpl. lia.
        -- simpl. rewrite ?top_black_up. exact Htop.
      * eapply same_trans; [|apply same_up]. eapply same_trans; [|apply same_up].
        apply same_plug. same_tac.
    + destruct wr as [|[] ra rn rl rv rr]; try done. simpl in *.
      eexists; split; [reflexivity|]. simpl. split.
      * eapply plug_rb; [rewrite ctxrb_up; exact Hk| | |].
        -- simpl. destruct x, wl as [|[] ??????]; rb_tac.
        -- simpl. lia.
        -- simpl. rewrite ?top_black_up. exact Htop.
      * eapply same_trans; [|apply same_up]. apply same_plug. same_tac.
    + eexists; split; [reflexivity|]. simpl.
      split; [rb_tac|]. split; [lia|]. split; [done|]. split; [done|].
      same_tac.
  - (* x is the right child *)
    destruct (color_of wr) eqn:Hcr, (color_of wl) eqn:Hcl; simpl.
    + destruct wl as [|[] la ln ll lv lr]; try done. simpl in *.
      eexists; split; [reflexivity|]. simpl. split.
      * eapply plug_rb; [rewrite ctxrb_up; exact Hk| | |].
        -- simpl. destruct x, wr as [|[] ??????]; rb_tac.
        -- simpl. lia.
        -- simpl. rewrite ?top_black_up. exact Htop.
      * eapply same_trans; [|apply same_up]. apply same_plug. same_tac.
    + destruct wr as [|[] ra rn rl rv rr]; try done. simpl in *.
      eexists; split; [reflexivity|]. simpl. split.
      * eapply plug_rb; [rewrite !ctxrb_up; exact Hk| | |].
        -- simpl. destruct x, wl as [|[] ??????]; rb_tac.
        -- simpl. lia.
        -- simpl. rewrite ?top_black_up. exact Htop.
      * eapply same_trans; [|apply same_up]. eapply same_trans; [|apply same_up].
        apply same_plug. same_tac.
    + destruct wl as [|[] la ln ll lv lr]; try done. simpl in *.
      eexists; split; [reflexivity|]. simpl. split.
      * eapply plug_rb; [rewrite ctxrb_up; exact Hk| | |].
        -- simpl. destruct x, wr as [|[] ??????]; rb_tac.
        -- simpl. lia.
        -- simpl. rewrite ?top_black_up. exact Htop.
      * eapply same_trans; [|apply same_up]. apply same_plug. same_tac.
    + eexists; split; [reflexivity|]. simpl.
      split; [rb_tac|]. split; [lia|]. split; [done|]. split; [done|].
      same_tac.
Qed.

Lemma paint_black_id t : color_of t = BLACK → paint BLACK t = t.
Proof. destruct t; simpl; congruence. Qed.

Lemma color_not_red t : color_of t ≠ RED → color_of t = BLACK.
Proof. by destruct (color_of t). Qed.

Lemma bh_paint_red t : color_of t = RED → bh (paint BLACK t) = S (bh t).
Proof. destruct t as [|[] ?????]; simpl; try done; lia. Qed.

Lemma erase_fix_ok k : ∀ x h,
  ctxrb k (S h) → rbt (paint BLACK x) → bh x = h →
  ∃ t', erase_fix aug k x = Some t' ∧ rbtree t' ∧ same (plug x k) t'.
Proof.
  induction k as [|f k' IH]; intros x h Hk Hx Hh.
  - exists (paint BLACK x). split; [done|]. split.
    + split; [by destruct x|done].
    + apply same_paint.
  - cbn [erase_fix]. case_decide as Hcx.
    { eexists; split; [reflexivity|]. split.
      - eapply plug_rb; [exact Hk|done|rewrite bh_paint_red; auto|by destruct x].
      - apply same_plug, same_paint. }
    apply color_not_red in Hcx. rewrite paint_black_id in Hx by done.
    destruct Hk as (Hw & Hwh & Hred & Hk').
    case_decide as Hcw.
    + (* red sibling *)
      destruct f as [d c a n v w]. simpl in *.
      destruct w as [|[] wa wn wl wv wr]; try done.
      destruct c; [by destruct (Hred eq_refl)|]. clear Hred.
      simpl in Hwh, Hk'. destruct Hw as (Hwl & Hwr & Hwb & Hwc).
      destruct (Hwc eq_refl) as [Hcl Hcr]. clear Hwc.
      assert (bh wr = S h) as Hbr by lia. rewrite Nat.add_0_r in Hwh.
      destruct (bh_pos_node _ _ Hwh) as (lc & la & ln & ll & lv & lr & ->).
      destruct (bh_pos_node _ _ Hbr) as (rc & ra & rn & rl & rv & rr & ->).
      simpl in Hcl, Hcr. subst lc rc.
      destruct d; unfold fix_sibling; simpl.
      * edestruct (fix_step_ok x (F LEFT RED a
                     (upd aug n (n_of x) ln) v (T BLACK la ln ll lv lr))
                     (F LEFT BLACK wa (upd aug wn (upd aug n (n_of x) ln) rn)
                        wv (T BLACK ra rn rl rv rr) ::
                      up aug k' (upd aug wn (upd aug n (n_of x) ln) rn)) h)
          as (r & Hstep & Hr); simpl; auto.
        { rewrite ctxrb_up. rb_tac; ctx_eq. }
        rewrite Hstep. simpl. destruct r as [t|x2].
        -- destruct Hr as [Hrb Hsame]. eexists; split; [reflexivity|].
           rewrite rbtree_paint by done. split; [done|].
           eapply same_trans; [|exact Hsame]. simpl.
           eapply same_trans; [|apply same_up]. apply same_plug. same_tac.
        -- destruct Hr as (Hrb & Hbh & Hc2 & Hne & Hsame). simpl in *.
           case_decide; [|done]. eexists; split; [reflexivity|]. split.
           ++ eapply (plug_rb (_ :: _) (paint BLACK x2) (S h));
                [|done| |by destruct x2].
              ** simpl. rewrite ctxrb_up. rb_tac; ctx_eq.
              ** rewrite bh_paint_red by done. simpl in Hbh. lia.
           ++ eapply same_trans;
                [|refine (same_plug x2 _ (_ :: _) (same_paint _ _))].
              eapply same_trans;
                [|refine (same_plug _ _ (_ :: _) Hsame)]. simpl.
              eapply same_trans; [|apply same_up]. apply same_plug. same_tac.
      * edestruct (fix_step_ok x (F RIGHT RED a
                     (upd aug n rn (n_of x)) v (T BLACK ra rn rl rv rr))
                     (F RIGHT BLACK wa (upd aug wn ln (upd aug n rn (n_of x)))
                        wv (T BLACK la ln ll lv lr) ::
                      up aug k' (upd aug wn ln (upd aug n rn (n_of x)))) h)
          as (r & Hstep & Hr); simpl; auto.
        { rewrite ctxrb_up. rb_tac; ctx_eq. }
        rewrite Hstep. simpl. destruct r as [t|x2].
        -- destruct Hr as [Hrb Hsame]. eexists; split; [reflexivity|].
           rewrite rbtree_paint by done. split; [done|].
           eapply same_trans; [|exact Hsame]. simpl.
           eapply same_trans; [|apply same_up]. apply same_plug. same_tac.
        -- destruct Hr as (Hrb & Hbh & Hc2 & Hne & Hsame). simpl in *.
           case_decide; [|done]. eexists; split; [reflexivity|]. split.
           ++ eapply (plug_rb (_ :: _) (paint BLACK x2) (S h));
                [|done| |by destruct x2].
              ** simpl. rewrite ctxrb_up. rb_tac; ctx_eq.
              ** rewrite bh_paint_red by done. simpl in Hbh. lia.
           ++ eapply same_trans;
                [|refine (same_plug x2 _ (_ :: _) (same_paint _ _))].
              eapply same_trans;
                [|refine (same_plug _ _ (_ :: _) Hsame)]. simpl.
              eapply same_trans; [|apply same_up]. apply same_plug. same_tac.
    + (* black sibling *)
      apply color_not_red in Hcw.
      destruct (fix_step_ok x f k' h) as (r & Hstep & Hr); auto.
      { intros Hf. by destruct (Hred Hf). }
      rewrite Hstep. simpl. destruct r as [t|x2].
      * destruct Hr as [Hrb Hsame]. eexists; split; [reflexivity|].
        rewrite rbtree_paint by done. done.
      * destruct Hr as (Hrb & Hbh & Hc2 & Hne & Hsame).
        destruct (IH x2 (h + blk (fc f))) as (t' & Hfix & Hrb' & Hsame');
          auto.
        exists t'. split_and!; auto.
        eapply same_trans; [|exact Hsame']. by apply same_plug.
Qed.

End Erase.

Lemma removed_same a v t t1 t2 : removed a v t t1 → same t1 t2 → removed a v t t2.
Proof.
  intros ((l1 & l2 & He & He1) & Ha & Hw) (He2 & Ha2 & Hw2). split_and!.
  - exists l1, l2. split; congruence.
  - congruence.
  - intros H. destruct (Hw H). split; [auto|congruence].
Qed.

Lemma lefts_app k1 k2 : lefts (k1 ++ k2) = lefts k2 ++ lefts k1.
Proof.
  induction k1 as [|f k1 IH]; simpl; [by rewrite app_nil_r|].
  by rewrite IH, app_assoc.
Qed.

Lemma rights_app k1 k2 : rights (k1 ++ k2) = rights k1 ++ rights k2.
Proof.
  induction k1 as [|f k1 IH]; simpl; [done|]. by rewrite IH, app_assoc.
Qed.

Lemma ctxrb_ext k : ∀ k' h, map look k = map look k' → ctxrb k h → ctxrb k' h.
Proof.
  induction k as [|f k IH]; intros [|f' k'] h Hm; simpl in *; try done.
  injection Hm as Hc Hs Hm. intros (Hw & Hh & Hred & Hk).
  rewrite <- Hc, <- Hs. split_and!; eauto.
  intros Hf. destruct (Hred Hf) as [? Htop]. split; [done|].
  destruct k, k'; simpl in *; try done. unfold look in Hm. congruence.
Qed.

Lemma top_black_ext k k' : map look k = map look k' → top_black k → top_black k'.
Proof.
  destruct k, k'; simpl; try done. unfold look. intros; simplify_eq. congruence.
Qed.

Lemma rbt_paint_black t : rbt t → rbt (paint BLACK t).
Proof. destruct t; simpl; [done|]. intros (?&?&?&?). split_and!; done. Qed.

Section Detach.

Variable aug : bool.

Ltac foot_tac :=
  repeat (progress (simpl; rewrite ?wf_plug, ?addrs_plug, ?wf_k_app,
                      ?addrs_k_app, ?(wf_k_up aug), ?(addrs_k_up aug)));
  wf_tac.

Lemma map_look_up k n : map look (up aug k n) = map look k.
Proof. revert n. induction k as [|f k IH]; intros n; simpl; [done|]. by rewrite IH. Qed.

Lemma leftmost_spec t : ∀ k, t ≠ E →
  ∃ yc ya yn yv yr ky,
    leftmost t k = (T yc ya yn E yv yr, ky ++ k) ∧
    plug (T yc ya yn E yv yr) ky = t ∧ lefts ky = [].
Proof.
  induction t as [|c a n l IHl v r _]; intros k Hne; [done|].
  destruct l as [|lc la ln ll lv lr].
  - exists c, a, n, v, r, []. done.
  - destruct (IHl (F LEFT c a n v r :: k)) as
      (yc & ya & yn & yv & yr & ky & Hl & Hp & Hlf); [done|].
    exists yc, ya, yn, yv, yr, (ky ++ [F LEFT c a n v r]).
    split_and!.
    + rewrite <- app_assoc. exact Hl.
    + rewrite plug_app, Hp. done.
    + rewrite lefts_app, Hlf. done.
Qed.

Lemma detach_ok c a n l v r k :
  rbtree (plug (T c a n l v r) k) →
  ∃ x kx rc, detach aug (T c a n l v r) k = Some (x, kx, rc) ∧
    removed a v (plug (T c a n l v r) k) (plug x kx) ∧
    (rc = RED → rbtree (plug x kx)) ∧
    (rc = BLACK → ctxrb kx (S (bh x)) ∧ rbt (paint BLACK x)).
Proof.
  intros Hrb.
  destruct l as [|lc la ln ll lv lr].
  { (* no left child *)
    apply unplug_rb in Hrb. destruct Hrb as (Hk & (_ & Hr & Hb & Hc) & Htop).
    simpl in *.
    exists r, (up aug k (n_of r)), c. split; [done|]. split_and!.
    - split_and!.
      + exists (lefts k), (elements r ++ rights k).
        rewrite elements_plug_up, !elements_plug. by list_norm.
      + rewrite addrs_plug_up, !addrs_plug. simpl. set_solver.
      + foot_tac.
    - intros ->. destruct (Hc eq_refl) as [_ Hcr].
      eapply plug_rb; [rewrite ctxrb_up; exact Hk|done|simpl; lia|].
      rewrite Hcr. done.
    - intros ->. rewrite ctxrb_up. split.
      + simpl in *. ctx_eq.
      + by apply rbt_paint_black. }
  destruct r as [|rc ra rn rl rv rr].
  { (* no right child *)
    apply unplug_rb in Hrb. destruct Hrb as (Hk & (Hl & _ & Hb & Hc) & Htop).
    set (l := T lc la ln ll lv lr) in *.
    exists l, (up aug k (n_of l)), c. split; [done|]. split_and!.
    - split_and!.
      + exists (lefts k ++ elements l), (rights k).
        rewrite elements_plug_up, !elements_plug. by list_norm.
      + rewrite addrs_plug_up, !addrs_plug. simpl. set_solver.
      + foot_tac.
    - intros ->. destruct (Hc eq_refl) as [Hcl _].
      eapply plug_rb; [rewrite ctxrb_up; exact Hk|done|simpl in *; lia|].
      rewrite Hcl. done.
    - intros ->. rewrite ctxrb_up. split.
      + simpl in *. ctx_eq.
      + by apply rbt_paint_black. }
  (* two children: the successor takes the place of the node *)
  set (l := T lc la ln ll lv lr) in *. set (r := T rc ra rn rl rv rr) in *.
  destruct (leftmost_spec r []) as
    (yc & ya & yn & yv & yr & ky & Hlm & Hp & Hlf); [done|].
  rewrite app_nil_r in Hlm.
  assert (plug (T c a n l v r) k =
          plug (T yc ya yn E yv yr) (ky ++ F RIGHT c a n v l :: k)) as Ht.
  { rewrite plug_app, Hp. done. }
  rewrite Ht in Hrb |- *.
  apply unplug_rb in Hrb. destruct Hrb as (Hk & (_ & Hyr & Hb & Hc) & Htop).
  eexists yr, _, yc. split.
  { unfold detach. subst l r. cbv zeta. fold (leftmost (T rc ra rn rl rv rr) []).
    rewrite Hlm. reflexivity. }
  set (ky' := up aug ky (n_of yr)). set (n' := n_of (resize aug _)).
  assert (map look (ky' ++ F RIGHT c ya n' yv l :: up aug k n') =
          map look (ky ++ F RIGHT c a n v l :: k)) as Hlook.
  { rewrite !map_app. simpl. unfold ky'. by rewrite !map_look_up. }
  split_and!.
  - split_and!.
    + exists (lefts k ++ elements l), (yv :: elements yr ++ rights ky ++ rights k).
      rewrite !elements_plug, !lefts_app, !rights_app. simpl.
      unfold ky'. rewrite ?lefts_up, ?rights_up, ?Hlf. by list_norm.
    + rewrite !addrs_plug, !addrs_k_app. simpl. unfold ky'.
      rewrite !addrs_k_up. set_solver.
    + unfold ky'. foot_tac.
  - intros ->. destruct (Hc eq_refl) as [_ Hcr]. simpl in *.
    eapply plug_rb; [eapply ctxrb_ext; [symmetry; exact Hlook|exact Hk]
                    |done|lia|].
    rewrite Hcr. done.
  - intros ->. simpl in *. split.
    + eapply ctxrb_ext; [symmetry; exact Hlook|].
      simpl in *. ctx_eq.
    + by apply rbt_paint_black.
Qed.

Lemma sorted_remove (l1 l2 : list Z) v :
  StronglySorted Z.lt (l1 ++ v :: l2) →
  StronglySorted Z.lt (l1 ++ l2) ∧ v ∉ l1 ++ l2 ∧
  ∀ x, x ∈ l1 ++ l2 ↔ x ∈ l1 ++ v :: l2 ∧ x ≠ v.
Proof.
  rewrite sorted_mid. intros (Hs & H1 & H2).
  rewrite Forall_forall in H1, H2.
  assert (v ∉ l1 ++ l2) as Hv.
  { rewrite elem_of_app. intros [H|H]; [apply H1 in H|apply H2 in H]; lia. }
  split_and!; [done..|].
  intros x. rewrite !elem_of_app, elem_of_cons. split.
  - intros H. split; [tauto|]. intros ->. apply Hv, elem_of_app. done.
  - tauto.
Qed.

Lemma erase_tree_ok v t :
  rbtree t → bst t → v ∈ elements t →
  ∃ t' z k a, descend v t [] = (z, k) ∧ ptr_of z = Some a ∧
    erase_tree aug v t = Some t' ∧ rbtree t' ∧ removed a v t t'.
Proof.
  intros Hrb Hs Hv.
  destruct (descend v t []) as [z k] eqn:Hd.
  pose proof (descend_plug _ _ _ _ _ Hd) as Hp. simpl in Hp.
  apply (descend_mem _ _ _ _ Hs Hd) in Hv.
  destruct (descend_found _ _ _ _ _ Hd) as [->|(c & a & n & l & r & ->)];
    [done|].
  rewrite <- Hp in Hrb.
  destruct (detach_ok _ _ _ _ _ _ _ Hrb) as (x & kx & rc & Hdet & Hrem & Hr & Hb).
  unfold erase_tree. rewrite Hd, Hdet. simpl. rewrite Hp in Hrem.
  destruct rc.
  - rewrite decide_False by done.
    eexists _, _, _, a. split_and!; try done. by apply Hr.
  - rewrite decide_True by done. destruct (Hb eq_refl) as [Hk Hx].
    destruct (erase_fix_ok aug kx x (bh x)) as (t' & Hfix & Hrb' & Hsame);
      auto.
    exists t', (T c a n l v r), k, a. split_and!; try done.
    eapply removed_same; eauto.
Qed.

Lemma erase_tree_absent v t :
  bst t → v ∉ elements t → erase_tree aug v t = None.
Proof.
  intros Hs Hv. destruct (descend v t []) as [z k] eqn:Hd.
  unfold erase_tree. rewrite Hd.
  destruct z; [done|]. exfalso. apply Hv.
  by apply (descend_mem _ _ _ _ Hs Hd).
Qed.

End Detach.

Lemma plug_cons t f k : plug t (f :: k) = plug (fill f t) k.
Proof. done. Qed.

Lemma ptr_of_plug_eq t t' k :
  ptr_of t = ptr_of t' → ptr_of (plug t k) = ptr_of (plug t' k).
Proof.
  destruct k as [|f k]; [done|]. intros _. apply ptr_of_plug_cons.
Qed.

Lemma not_in_ptr_of a t : a ∉ addrs t → Some a ≠ ptr_of t.
Proof. destruct t; simpl; [done|]. set_solver. Qed.

Module NilRep1.
Import NilTree NilRep.
Local Arguments plug : simpl never.

Section Prims.
Context (s : Tree) (a : addr) (nd : Node) (Hnd : heap s !! a = Some nd).

Lemma load_heap : load s (Some a) = Some (base nd).
Proof. unfold load. by rewrite Hnd. Qed.
Lemma color_heap : color s (Some a) = Some (color_ (base nd)).
Proof. unfold color. by rewrite load_heap. Qed.
Lemma left_child_heap : left_child s (Some a) = Some (left_ (base nd)).
Proof. unfold left_child. by rewrite load_heap. Qed.
Lemma right_child_heap : right_child s (Some a) = Some (right_ (base nd)).
Proof. unfold right_child. by rewrite load_heap. Qed.
Lemma parent_heap : parent s (Some a) = Some (parent_ (base nd)).
Proof. unfold parent. by rewrite load_heap. Qed.
Lemma value_heap : value s (Some a) = Some (value_ nd).
Proof. unfold value. by rewrite Hnd. Qed.

Lemma store_heap b : store (Some a) b s = Some (put s a nd b).
Proof. unfold store. by rewrite Hnd. Qed.
Lemma set_color_heap c :
  set_color (Some a) c s =
  Some (put s a nd (mkBase c (left_ (base nd)) (right_ (base nd)) (parent_ (base nd)))).
Proof. unfold set_color, load, store, put. by rewrite Hnd. Qed.
Lemma set_left_child_heap p :
  set_left_child (Some a) p s =
  Some (put s a nd (mkBase (color_ (base nd)) p (right_ (base nd)) (parent_ (base nd)))).
Proof. unfold set_left_child, load, store, put. by rewrite Hnd. Qed.
Lemma set_right_child_heap p :
  set_right_child (Some a) p s =
  Some (put s a nd (mkBase (color_ (base nd)) (left_ (base nd)) p (parent_ (base nd)))).
Proof. unfold set_right_child, load, store, put. by rewrite Hnd. Qed.
Lemma set_parent_heap p :
  set_parent (Some a) p s =
  Some (put s a nd (mkBase (color_ (base nd)) (left_ (base nd)) (right_ (base nd)) p)).
Proof. unfold set_parent, load, store, put. by rewrite Hnd. Qed.
End Prims.

Global Arguments load : simpl never.
Global Arguments store : simpl never.
Global Arguments color : simpl never.
Global Arguments left_child : simpl never.
Global Arguments right_child : simpl never.
Global Arguments parent : simpl never.
Global Arguments value : simpl never.
Global Arguments set_color : simpl never.
Global Arguments set_left_child : simpl never.
Global Arguments set_right_child : simpl never.
Global Arguments set_parent : simpl never.
Global Arguments fuel_of : simpl never.

Ltac ne_tac := first [ assumption | apply not_eq_sym; assumption ].

Ltac ptr_ne :=
  solve [ discriminate
        | apply not_in_ptr_of; atom
        | apply not_eq_sym, not_in_ptr_of; atom
        | let HH := fresh in intros [= HH]; revert HH; ne_tac ].

Ltac lookup_tac :=
  simpl;
  repeat first [ rewrite lookup_insert_eq; reflexivity
               | rewrite lookup_insert_ne by ne_tac ];
  first [ reflexivity | eassumption ].

Ltac prim_step :=
  first
  [ erewrite left_child_heap by lookup_tac
  | erewrite right_child_heap by lookup_tac
  | erewrite parent_heap by lookup_tac
  | erewrite color_heap by lookup_tac
  | erewrite value_heap by lookup_tac
  | erewrite set_color_heap by lookup_tac
  | erewrite set_left_child_heap by lookup_tac
  | erewrite set_right_child_heap by lookup_tac
  | erewrite set_parent_heap by lookup_tac
  | rewrite decide_True by reflexivity
  | rewrite decide_False by ptr_ne
  | rewrite bool_decide_eq_true_2 by reflexivity
  | rewrite bool_decide_eq_false_2 by ptr_ne ];
  unfold put; simpl.

Ltac frame_rep :=
  repeat first [ apply rep_t_insert_ne; [atom|]
               | apply rep_k_insert_ne; [atom|] ];
  assumption.

Ltac solve_rep :=
  simpl; repeat split;
  first [ done | solve [lookup_tac] | frame_rep ].

Ltac rep_open H :=
  let Hroot := fresh "Hroot" in
  let Hwf := fresh "Hwf" in
  let Hrep := fresh "Hrep" in
  let Hnil := fresh "Hnil" in
  destruct H as (Hroot & Hwf & Hrep & Hnil);
  apply rep_plug in Hrep; apply wf_plug in Hwf;
  simpl in Hwf, Hrep; unfold frame_node in Hrep; simpl in Hrep;
  atomize.

Ltac rep_close0 :=
  split; [first [done | simpl; etrans; [eassumption|]; rewrite ?plug_cons; apply ptr_of_plug_eq; reflexivity]|];
  split; [apply wf_plug; solve_atoms|];
  split; [|done];
  apply rep_plug; unfold frame_node; solve_rep.

Ltac rep_close :=
  lazymatch goal with
  | |- Rep _ (plug _ _) => rep_close0
  | |- Rep ?s ?t => change (Rep s (plug t [])); rep_close0
  end.

Lemma rotate_left_spec s c a n l v c' a' n' l' v' r' k :
  Rep s (plug (T c a n l v (T c' a' n' l' v' r')) k) →
  ∃ s', rotate_left (Some a) s = Some s' ∧
        Rep s' (plug (T c' a' n' (T c a n l v l') v' r') k) ∧
        nil_ s' = nil_ s.
Proof.
  intros H. destruct s as [nl rt h].
  destruct k as [|[d pc pa pn pv ps] k]; destruct l' as [|lc la ln ll lv lr].
  all: rep_open H.
  all: unfold rotate_left; simpl.
  all: try destruct d; simpl in *.
  all: repeat prim_step.
  all: eexists; split; [reflexivity|]; split; [|done].
  all: rep_close.
Qed.
Lemma rotate_right_spec s c a n r v c' a' n' l' v' r' k :
  Rep s (plug (T c a n (T c' a' n' l' v' r') v r) k) →
  ∃ s', rotate_right (Some a) s = Some s' ∧
        Rep s' (plug (T c' a' n' l' v' (T c a n r' v r)) k) ∧
        nil_ s' = nil_ s.
Proof.
  intros H. destruct s as [nl rt h].
  destruct k as [|[d pc pa pn pv ps] k]; destruct r' as [|lc la ln ll lv lr].
  all: rep_open H.
  all: unfold rotate_right; simpl.
  all: try destruct d; simpl in *.
  all: repeat prim_step.
  all: eexists; split; [reflexivity|]; split; [|done].
  all: rep_close.
Qed.

End NilRep1.

Lemma up_false k n : up false k n = k.
Proof.
  revert n. induction k as [|[d c a m v w] k IH]; intros n; simpl; [done|].
  destruct d; simpl; by rewrite IH.
Qed.

Module NilRep2.
Import NilTree NilRep NilRep1.
Local Arguments plug : simpl never.

Lemma locate_loop_spec s v t : ∀ k fuel t' k',
  rep_t mk (heap s) (hole_par k) t →
  descend v t k = (t', k') → height t < fuel →
  locate_loop fuel s v (ptr_of t) (hole_par k) (go_top k)
  = Some (locate_result t' k').
Proof.
  induction t as [|c a n l IHl w r IHr]; intros k fuel t' k' Hrep Hd Hf;
    (destruct fuel as [|fuel]; [lia|]); simpl in *.
  - by simplify_eq.
  - destruct Hrep as (Ha & Hl & Hr).
    erewrite value_heap by eassumption. simpl.
    destruct (v <? w)%Z eqn:Hlt.
    { erewrite left_child_heap by eassumption. simpl.
      apply (IHl (F LEFT c a n w r :: k)); [done|done|lia]. }
    destruct (w <? v)%Z eqn:Hgt.
    { erewrite right_child_heap by eassumption. simpl.
      apply (IHr (F RIGHT c a n w l :: k)); [done|done|lia]. }
    by simplify_eq.
Qed.

Lemma store_dom p b s s' : store p b s = Some s' → same_dom s s'.
Proof.
  unfold store, same_dom. destruct p as [a|]; [|by intros [= <-]].
  destruct (heap s !! a) eqn:Ha; simpl; [|done]. intros [= <-]. simpl.
  apply dom_insert_lookup_L. eauto.
Qed.

Lemma set_color_dom p c s s' : set_color p c s = Some s' → same_dom s s'.
Proof.
  unfold set_color. destruct (load s p); simpl; [|done]. apply store_dom.
Qed.
Lemma set_left_child_dom p c s s' :
  set_left_child p c s = Some s' → same_dom s s'.
Proof.
  unfold set_left_child. destruct (load s p); simpl; [|done]. apply store_dom.
Qed.
Lemma set_right_child_dom p c s s' :
  set_right_child p c s = Some s' → same_dom s s'.
Proof.
  unfold set_right_child. destruct (load s p); simpl; [|done]. apply store_dom.
Qed.
Lemma set_parent_dom p c s s' : set_parent p c s = Some s' → same_dom s s'.
Proof.
  unfold set_parent. destruct (load s p); simpl; [|done]. apply store_dom.
Qed.
Lemma set_root_dom p s : same_dom s (set_root p s).
Proof. done. Qed.

Ltac dom_step :=
  match goal with
  | H : Some _ = Some _ |- _ => injection H as H; try subst
  | H : None = Some _ |- _ => discriminate H
  | H : (_ ≫= _) = Some _ |- _ =>
      let x := fresh "x" in let Hx := fresh "Hx" in
      apply bind_Some in H as (x & Hx & H)
  | H : (let '(_, _) := ?p in _) = Some _ |- _ => destruct p
  | H : (match ?b with _ => _ end) = Some _ |- _ => destruct b
  | H : set_color _ _ _ = Some _ |- _ => apply set_color_dom in H
  | H : set_left_child _ _ _ = Some _ |- _ => apply set_left_child_dom in H
  | H : set_right_child _ _ _ = Some _ |- _ => apply set_right_child_dom in H
  | H : set_parent _ _ _ = Some _ |- _ => apply set_parent_dom in H
  end.

Ltac dom_tac := repeat dom_step; unfold same_dom, set_root in *; simpl in *; congruence.

Lemma rotate_left_dom p s s' : rotate_left p s = Some s' → same_dom s s'.
Proof. unfold rotate_left. intros H. dom_tac. Qed.

Lemma rotate_right_dom p s s' : rotate_right p s = Some s' → same_dom s s'.
Proof. unfold rotate_right. intros H. dom_tac. Qed.

End NilRep2.

Module NilRep3.
Import NilTree NilRep NilRep1 NilRep2.
Local Arguments plug : simpl never.

Lemma Rep_dom s t : Rep s t → addrs t ⊆ dom (heap s).
Proof. intros (_ & _ & H & _). by eapply rep_t_dom. Qed.

Ltac rep_copy H := let H' := fresh "H" in pose proof H as H'; rep_open H'.

(** Apply the specification of a rotation to the state at hand, laid out
    as [plug t k]. *)
Ltac rot_left_at t k :=
  match goal with
  | |- context [rotate_left (Some _) ?S] =>
      let Hmid := fresh "Hmid" in
      assert (Hmid : Rep S (plug t k)) by rep_close;
      let s1 := fresh "s" in
      let Hr := fresh "Hrot" in
      let H1 := fresh "HRep" in
      let Hn := fresh "Hnil" in
      destruct (rotate_left_spec _ _ _ _ _ _ _ _ _ _ _ _ _ Hmid)
        as (s1 & Hr & H1 & Hn);
      rewrite Hr; simpl in Hn |- *; clear Hmid Hr
  end.

Ltac rot_right_at t k :=
  match goal with
  | |- context [rotate_right (Some _) ?S] =>
      let Hmid := fresh "Hmid" in
      assert (Hmid : Rep S (plug t k)) by rep_close;
      let s1 := fresh "s" in
      let Hr := fresh "Hrot" in
      let H1 := fresh "HRep" in
      let Hn := fresh "Hnil" in
      destruct (rotate_right_spec _ _ _ _ _ _ _ _ _ _ _ _ _ Hmid)
        as (s1 & Hr & H1 & Hn);
      rewrite Hr; simpl in Hn |- *; clear Hmid Hr
  end.

Lemma insert_case4_spec s c a n l v r f1 f2 k2 t' :
  Rep s (plug (T c a n l v r) (f1 :: f2 :: k2)) →
  rebalance false (T c a n l v r) f1 f2 k2 = Some t' →
  ∃ s', insert_case4 (Some a) s = Some s' ∧ Rep s' t' ∧ nil_ s' = nil_ s.
Proof.
  intros H Hreb. destruct s as [nl rt h].
  destruct f1 as [d1 c1 a1 n1 v1 w1], f2 as [d2 c2 a2 n2 v2 w2].
  destruct d1, d2; unfold rebalance in Hreb; simpl in Hreb;
    rewrite ?up_false in Hreb; simplify_eq.
  all: rep_copy H.
  all: unfold insert_case4, grandparent; simpl.
  all: repeat prim_step.
  - unfold insert_case5, grandparent; simpl. repeat prim_step.
    rot_right_at (T RED a2 n2 (T BLACK a1 n1 (T c a n l v r) v1 w1) v2 w2) k2.
    eauto.
  - rot_right_at (T c1 a1 n1 (T c a n l v r) v1 w1) (F RIGHT c2 a2 n2 v2 w2 :: k2).
    destruct s as [nl1 rt1 h1]. rep_copy HRep. simpl in *.
    repeat prim_step.
    unfold insert_case5, grandparent; simpl. repeat prim_step.
    rot_left_at (T RED a2 n2 w2 v2 (T BLACK a n l v (T c1 a1 n1 r v1 w1))) k2.
    eexists; split_and!; [done|done|congruence].
  - rot_left_at (T c1 a1 n1 w1 v1 (T c a n l v r)) (F LEFT c2 a2 n2 v2 w2 :: k2).
    destruct s as [nl1 rt1 h1]. rep_copy HRep. simpl in *.
    repeat prim_step.
    unfold insert_case5, grandparent; simpl. repeat prim_step.
    rot_right_at (T RED a2 n2 (T BLACK a n (T c1 a1 n1 w1 v1 l) v r) v2 w2) k2.
    eexists; split_and!; [done|done|congruence].
  - unfold insert_case5, grandparent; simpl. repeat prim_step.
    rot_left_at (T RED a2 n2 w2 v2 (T BLACK a1 n1 w1 v1 (T c a n l v r))) k2.
    eauto.
Qed.

End NilRep3.

Module NilRep4.
Import NilTree NilRep NilRep1 NilRep2 NilRep3.
Local Arguments plug : simpl never.

Lemma insert_case1_spec k : ∀ fuel s c a n l v r t',
  Rep s (plug (T c a n l v r) k) →
  insert_fix false k (T c a n l v r) = Some t' →
  length k < fuel →
  ∃ s', insert_case1 fuel (Some a) s = Some s' ∧ Rep s' t' ∧ nil_ s' = nil_ s.
Proof.
  induction k as [|f1|f1 f2 k2 IH] using ctx_ind2;
    intros fuel s c a n l v r t' H Hfix Hfuel;
    (destruct fuel as [|fuel]; [simpl in Hfuel; lia|]);
    destruct s as [nl rt h].
  - simpl in Hfix. simplify_eq. rep_copy H.
    simpl. repeat prim_step.
    eexists; split; [reflexivity|]. split; [|done]. unfold set_root; simpl.
    rep_close.
  - destruct f1 as [d1 [] a1 n1 v1 w1]; simpl in Hfix; [done|]. simplify_eq.
    rep_copy H. destruct d1; simpl in *.
    all: unfold insert_case2; repeat prim_step; eauto.
  - destruct f1 as [d1 [] a1 n1 v1 w1]; cbn [insert_fix] in Hfix; simpl in Hfix.
    2:{ simplify_eq. rep_copy H. destruct d1; simpl in *.
        all: unfold insert_case2; repeat prim_step; eauto. }
    destruct f2 as [d2 c2 a2 n2 v2 w2]. simpl in Hfix.
    destruct w2 as [|[] ua un ul uv ur].
    + (* no uncle *)
      destruct (insert_case4_spec _ _ _ _ _ _ _ _ _ _ _ H Hfix)
        as (s' & Hc4 & HRep & Hn).
      exists s'. split; [|done]. rewrite <- Hc4. clear Hc4 HRep.
      rep_copy H. destruct d1, d2; simpl in *.
      all: unfold insert_case2, insert_case3, uncle, grandparent;
        repeat prim_step; done.
    + (* red uncle *)
      rep_copy H. destruct d1, d2; simpl in *.
      all: unfold insert_case2, insert_case3, uncle, grandparent;
        repeat prim_step.
      all: eapply IH; [|exact Hfix|simpl in Hfuel; lia].
      all: unfold fill; simpl; rep_close.
    + (* black uncle *)
      destruct (insert_case4_spec _ _ _ _ _ _ _ _ _ _ _ H Hfix)
        as (s' & Hc4 & HRep & Hn).
      exists s'. split; [|done]. rewrite <- Hc4. clear Hc4 HRep.
      rep_copy H. destruct d1, d2; simpl in *.
      all: unfold insert_case2, insert_case3, uncle, grandparent;
        repeat prim_step; done.
Qed.

End NilRep4.

Module NilRep5.
Import NilTree NilRep NilRep1 NilRep2 NilRep3 NilRep4.
Local Arguments plug : simpl never.
Local Arguments fuel_of : simpl never.

Lemma Inv_fuel s t : Inv s t → height t < fuel_of s.
Proof.
  intros [(_ & Hwf & _) Hdom]. unfold fuel_of.
  pose proof (height_le_count t). rewrite <- (count_addrs t Hwf), <- Hdom, size_dom in H.
  lia.
Qed.

Lemma insert_case5_dom p s s' : insert_case5 p s = Some s' → same_dom s s'.
Proof.
  unfold insert_case5. intros H. repeat dom_step.
  all: try match goal with H : rotate_right _ _ = _ |- _ => apply rotate_right_dom in H end.
  all: try match goal with H : rotate_left _ _ = _ |- _ => apply rotate_left_dom in H end.
  all: dom_tac.
Qed.

Lemma insert_case4_dom p s s' : insert_case4 p s = Some s' → same_dom s s'.
Proof.
  unfold insert_case4. intros H. repeat dom_step.
  all: try match goal with H : rotate_right _ _ = _ |- _ => apply rotate_right_dom in H end.
  all: try match goal with H : rotate_left _ _ = _ |- _ => apply rotate_left_dom in H end.
  all: try match goal with H : insert_case5 _ _ = _ |- _ => apply insert_case5_dom in H end.
  all: dom_tac.
Qed.

Lemma insert_case1_dom fuel : ∀ p s s',
  insert_case1 fuel p s = Some s' → same_dom s s'.
Proof.
  induction fuel as [|fuel IH]; intros p s s' H; simpl in H; [done|].
  unfold insert_case2, insert_case3 in H. repeat dom_step.
  all: try match goal with H : insert_case1 _ _ _ = _ |- _ => apply IH in H end.
  all: try match goal with H : insert_case4 _ _ = _ |- _ => apply insert_case4_dom in H end.
  all: dom_tac.
Qed.

Lemma insert_present s t v :
  Inv s t → bst t → v ∈ elements t → insert v s = Some (false, s).
Proof.
  intros HI Hs Hv. pose proof (Inv_fuel _ _ HI) as Hf.
  destruct HI as [HR Hdom]. destruct HR as (Hroot & Hwf & Hrep & Hnil).
  unfold insert, locate.
  destruct (descend v t []) as [t0 k] eqn:Hd.
  rewrite Hroot.
  pose proof (locate_loop_spec s v t [] _ t0 k Hrep Hd Hf) as Hloc.
  cbn [hole_par go_top] in Hloc. unfold nil. rewrite Hloc. simpl.
  apply (descend_mem _ _ _ _ Hs Hd) in Hv. by destruct t0.
Qed.

Lemma link_spec s k a v :
  Rep s (plug E k) → a ∉ dom (heap s) →
  ∃ s1,
    (let s0 := mkTree (nil_ s) (root_ s)
                 (<[a := mkNode (mkBase RED nil nil (hole_par k)) v]> (heap s)) in
     if decide (hole_par k = nil) then Some (set_root (Some a) s0)
     else if go_top k then set_left_child (hole_par k) (Some a) s0
     else set_right_child (hole_par k) (Some a) s0) = Some s1 ∧
    Rep s1 (plug (T RED a 1 E v E) k) ∧
    dom (heap s1) = {[a]} ∪ dom (heap s).
Proof.
  intros H Ha. pose proof (Rep_dom _ _ H) as Hsub.
  rewrite addrs_plug in Hsub. destruct s as [nl rt h].
  destruct k as [|[d c1 a1 n1 v1 w1] k]; simpl in *.
  - rep_copy H. try rewrite decide_True by done.
    eexists; split; [reflexivity|]. unfold set_root; simpl.
    split; [|by rewrite dom_insert_L]. rep_close.
  - assert (a ∉ {[a1]} ∪ addrs w1 ∪ addrs_k k) as Ha' by set_solver.
    clear Hsub. rep_copy H. try rewrite decide_False by done.
    destruct d; simpl in *; repeat prim_step.
    all: eexists; split; [reflexivity|]; simpl.
    all: split; [rep_close|].
    all: rewrite dom_insert_lookup_L by (by rewrite lookup_insert_ne by atom).
    all: by rewrite dom_insert_L.
Qed.

Lemma insert_absent s t v :
  Inv s t → rbtree t → bst t → v ∉ elements t →
  ∃ s' t', insert v s = Some (true, s') ∧
           insert_tree false v (fresh (dom (heap s))) t = Some t' ∧
           Inv s' t'.
Proof.
  intros HI Hrb Hs Hv. pose proof (Inv_fuel _ _ HI) as Hf.
  destruct HI as [HR Hdom].
  set (a := fresh (dom (heap s))).
  assert (a ∉ addrs t) as Ha by (rewrite <- Hdom; apply is_fresh).
  destruct (insert_tree_ok false v a t) as (t' & Hins & _ & _ & _ & Had & _);
    [apply Hrb|apply HR|done..|].
  unfold insert_tree in Hins.
  destruct (descend v t []) as [t0 k] eqn:Hd.
  assert (t0 = E) as ->.
  { destruct t0; [done|]. exfalso. apply Hv.
    by apply (descend_mem _ _ _ _ Hs Hd). }
  pose proof (descend_plug _ _ _ _ _ Hd) as Hp.
  change (plug t []) with t in Hp.
  pose proof (descend_length _ _ _ _ _ Hd) as Hlen. simpl in Hlen.
  pose proof HR as (Hroot & Hwf & Hrep & Hnil).
  pose proof (locate_loop_spec s v t [] _ E k Hrep Hd Hf) as Hloc.
  cbn [hole_par go_top locate_result] in Hloc.
  rewrite <- Hp in HR.
  destruct (link_spec s k a v HR) as (s1 & Hlink & HR1 & Hdom1);
    [apply is_fresh|].
  assert (length k < fuel_of s1) as Hf1.
  { unfold fuel_of in *. rewrite <- size_dom, Hdom1.
    rewrite size_union, size_singleton, size_dom by (pose proof (is_fresh (dom (heap s))); set_solver).
    lia. }
  simpl in Hins.
  destruct (insert_case1_spec k _ s1 _ _ _ _ _ _ t' HR1 Hins Hf1)
    as (s' & Hfix & HR' & _).
  exists s', t'. split; [|split; [by unfold insert_tree; rewrite Hd|]].
  - unfold insert.
    assert (locate s v = Some (mkLocate (hole_par k) false (go_top k))) as ->
      by (unfold locate; rewrite Hroot; exact Hloc).
    match goal with |- (Some ?x ≫= ?f) = ?y => change (f x = y) end.
    unfold new_node. fold a. cbn [lr_exists lr_parent lr_go_left].
    cbv beta iota zeta in Hlink |- *.
    rewrite Hlink.
    match goal with |- (Some ?x ≫= ?f) = ?y => change (f x = y) end.
    cbv beta. by rewrite Hfix.
  - split; [done|]. apply insert_case1_dom in Hfix. unfold same_dom in Hfix.
    rewrite Hfix, Hdom1, Had, Hdom. done.
Qed.

End NilRep5.

Module NilRep6.
Import NilTree NilRep NilRep1 NilRep2 NilRep3 NilRep4 NilRep5.
Local Arguments plug : simpl never.
Local Arguments fuel_of : simpl never.

(** Reads and writes through the sentinel. *)
Lemma parent_nil s : parent s None = Some (parent_ (nil_ s)).
Proof. done. Qed.
Lemma left_child_nil s : left_child s None = Some (left_ (nil_ s)).
Proof. done. Qed.
Lemma right_child_nil s : right_child s None = Some (right_ (nil_ s)).
Proof. done. Qed.
Lemma color_nil s : color s None = Some (color_ (nil_ s)).
Proof. done. Qed.
Lemma set_parent_nil q s :
  set_parent None q s =
  Some (mkTree (mkBase (color_ (nil_ s)) (left_ (nil_ s)) (right_ (nil_ s)) q)
          (root_ s) (heap s)).
Proof. done. Qed.
Lemma set_color_nil c s :
  set_color None c s =
  Some (mkTree (mkBase c (left_ (nil_ s)) (right_ (nil_ s)) (parent_ (nil_ s)))
          (root_ s) (heap s)).
Proof. done. Qed.

Ltac nil_step :=
  first [ rewrite parent_nil | rewrite left_child_nil | rewrite right_child_nil
        | rewrite color_nil | rewrite set_parent_nil | rewrite set_color_nil ];
  simpl.

Ltac step := first [ prim_step | nil_step ].

Lemma Rep_fuel s t : Rep s t → height t < fuel_of s.
Proof.
  intros H. pose proof (Rep_dom _ _ H) as Hd. destruct H as (_ & Hwf & _).
  apply subseteq_size in Hd. rewrite (count_addrs t Hwf), size_dom in Hd.
  pose proof (height_le_count t). unfold fuel_of. lia.
Qed.

Lemma minimum_spec s t : ∀ par k fuel,
  rep_t mk (heap s) par t → t ≠ E → height t ≤ fuel →
  minimum fuel s (ptr_of t) = Some (ptr_of (leftmost t k).1).
Proof.
  induction t as [|c a n l IHl v r _]; intros par k fuel Hrep Hne Hf; [done|].
  destruct fuel as [|fuel]; [simpl in Hf; lia|].
  destruct Hrep as (Ha & Hl & Hr). simpl.
  erewrite left_child_heap by eassumption. simpl.
  destruct l as [|lc la ln ll lv lr]; [done|].
  apply (IHl (Some a)); [done|done|simpl in *; lia].
Qed.

Lemma transplant_dom u v s s' : transplant u v s = Some s' → same_dom s s'.
Proof. unfold transplant. intros H. dom_tac. Qed.

(** [transplant(u, u->right)] for a node without left child, and the
    mirror image: the child takes the place of the node, which stays in
    the heap with its fields. *)
Lemma transplant_right_spec s c a n v r k :
  Rep s (plug (T c a n E v r) k) →
  ∃ s', transplant (Some a) (ptr_of r) s = Some s' ∧
        Rep s' (plug r k) ∧ (r = E → parent_ (nil_ s') = hole_par k) ∧
        heap s' !! a = Some (mk c None (ptr_of r) (hole_par k) n v).
Proof.
  intros H. destruct s as [nl rt h].
  destruct k as [|[d pc pa pn pv ps] k]; destruct r as [|rc ra rn rl rv rr].
  all: rep_open H.
  all: unfold transplant; simpl.
  all: try destruct d; simpl in *.
  all: repeat step.
  all: eexists; split; [reflexivity|].
  all: split; [rep_close|]; split; [done|lookup_tac].
Qed.

Lemma transplant_left_spec s c a n v l k :
  Rep s (plug (T c a n l v E) k) →
  ∃ s', transplant (Some a) (ptr_of l) s = Some s' ∧
        Rep s' (plug l k) ∧ (l = E → parent_ (nil_ s') = hole_par k) ∧
        heap s' !! a = Some (mk c (ptr_of l) None (hole_par k) n v).
Proof.
  intros H. destruct s as [nl rt h].
  destruct k as [|[d pc pa pn pv ps] k]; destruct l as [|rc ra rn rl rv rr].
  all: rep_open H.
  all: unfold transplant; simpl.
  all: try destruct d; simpl in *.
  all: repeat step.
  all: eexists; split; [reflexivity|].
  all: split; [rep_close|]; split; [done|lookup_tac].
Qed.

Lemma rep_t_fuel s par t :
  rep_t mk (heap s) par t → wf t → height t < fuel_of s.
Proof.
  intros Hrep Hwf. apply rep_t_dom in Hrep. apply subseteq_size in Hrep.
  rewrite (count_addrs t Hwf), size_dom in Hrep.
  pose proof (height_le_count t). unfold fuel_of. lia.
Qed.

Lemma detach_erase_target_dom p s ctx s' :
  detach_erase_target p s = Some (ctx, s') → same_dom s s'.
Proof.
  unfold detach_erase_target. intros H. repeat dom_step.
  all: repeat match goal with
         | H : transplant _ _ _ = _ |- _ => apply transplant_dom in H
         end.
  all: dom_tac.
Qed.

(** The three shapes of [detach_erase_target]. *)
Lemma detach_no_left s c a n v r k :
  Rep s (plug (T c a n E v r) k) →
  ∃ s', detach_erase_target (Some a) s = Some (mkErase (ptr_of r) c, s') ∧
        Rep s' (plug r k) ∧ (r = E → parent_ (nil_ s') = hole_par k).
Proof.
  intros H. destruct (transplant_right_spec _ _ _ _ _ _ _ H)
    as (s' & Htr & HR & Hnil & _).
  destruct s as [nl rt h]. rep_open H.
  unfold detach_erase_target. repeat step. rewrite Htr. simpl. eauto.
Qed.

Lemma detach_no_right s c a n v lc la ln ll lv lr k :
  Rep s (plug (T c a n (T lc la ln ll lv lr) v E) k) →
  ∃ s', detach_erase_target (Some a) s
          = Some (mkErase (Some la) c, s') ∧
        Rep s' (plug (T lc la ln ll lv lr) k).
Proof.
  intros H. destruct (transplant_left_spec _ _ _ _ _ _ _ H)
    as (s' & Htr & HR & Hnil & _).
  destruct s as [nl rt h]. rep_open H.
  unfold detach_erase_target. repeat step. simpl in Htr. rewrite Htr. simpl. eauto.
Qed.

Lemma detach_direct s c a n lc la ln ll lv lr v yc ya yn yv yr k :
  Rep s (plug (T c a n (T lc la ln ll lv lr) v (T yc ya yn E yv yr)) k) →
  ∃ s', detach_erase_target (Some a) s = Some (mkErase (ptr_of yr) yc, s') ∧
        Rep s' (plug yr (F RIGHT c ya yn yv (T lc la ln ll lv lr) :: k)) ∧
        (yr = E → parent_ (nil_ s') = Some ya).
Proof.
  intros H. pose proof H as (_ & Hwf & Hrep & _).
  apply rep_plug in Hrep as [Hrep _]. apply wf_plug in Hwf as (Hwf & _).
  destruct Hrep as (_ & _ & Hr).
  assert (minimum (fuel_of s) s (Some ya) = Some (Some ya)) as Hmin.
  { pose proof (minimum_spec s _ _ [] (fuel_of s) Hr) as Hm. simpl in Hm.
    apply Hm; [done|]. apply Nat.lt_le_incl, (rep_t_fuel _ _ _ Hr).
    by destruct Hwf as (_ & _ & _ & _ & ?). }
  clear Hwf Hr.
  destruct s as [nl rt h].
  destruct k as [|[d pc pa pn pv ps] k]; destruct yr as [|rc ra rn rl rv rr].
  all: rep_open H.
  all: unfold detach_erase_target; simpl.
  all: repeat step.
  all: try (rewrite Hmin; simpl).
  all: unfold transplant; simpl.
  all: try destruct d; simpl in *.
  all: repeat step.
  all: eexists; split; [reflexivity|].
  all: split; [rep_close|done].
Qed.

Lemma plug_cons_node t f k : ∃ c a n l v r, plug t (f :: k) = T c a n l v r.
Proof.
  revert t f. induction k as [|g k IH]; intros t f.
  - destruct f as [[] c a n v w]; cbn; eauto 10.
  - rewrite plug_cons. apply IH.
Qed.

Lemma detach_deep s c a n lc la ln ll lv lr v yc ya yn yv yr f1 ky1 k :
  let l := T lc la ln ll lv lr in
  let y := T yc ya yn E yv yr in
  Rep s (plug y (f1 :: ky1 ++ F RIGHT c a n v l :: k)) →
  fdir f1 = LEFT →
  (leftmost (plug y (f1 :: ky1)) []).1 = y →
  ∃ s', detach_erase_target (Some a) s = Some (mkErase (ptr_of yr) yc, s') ∧
        Rep s' (plug yr (f1 :: ky1 ++ F RIGHT c ya yn yv l :: k)) ∧
        (yr = E → parent_ (nil_ s') = Some (fa f1)).
Proof.
  intros l y H Hf1 Hlm.
  destruct (transplant_right_spec _ _ _ _ _ _ _ H)
    as (s1 & Htr & HR1 & Hnil1 & Hy1).
  pose proof H as Hz.
  rewrite app_comm_cons, plug_app, plug_cons in Hz, HR1.
  destruct (plug_cons_node y f1 ky1) as (rc & ra & rn & rl & rv & rr & Hr).
  destruct (plug_cons_node yr f1 ky1) as (rc1 & ra1 & rn1 & rl1 & rv1 & rr1 & Hr1).
  assert (minimum (fuel_of s) s (Some ra) = Some (Some ya)) as Hmin.
  { pose proof Hz as (_ & Hwf & Hrep & _).
    apply rep_plug in Hrep as [Hrep _]. apply wf_plug in Hwf as (Hwf & _).
    unfold fill in Hrep, Hwf. cbn [fdir fc fa fn fv fsib] in Hrep, Hwf.
    destruct Hrep as (_ & _ & Hrr). destruct Hwf as (_ & _ & _ & _ & Hwr).
    pose proof (minimum_spec s _ _ [] (fuel_of s) Hrr) as Hm.
    rewrite Hlm, Hr in Hm. apply Hm; [done|].
    rewrite <- Hr. apply Nat.lt_le_incl, (rep_t_fuel _ _ _ Hrr Hwr). }
  assert (ya ∉ addrs (plug (fill (F RIGHT c a n v l) (plug yr (f1 :: ky1))) k) ∧
          fa f1 ≠ a ∧
          heap s !! ya = Some (mk yc None (ptr_of yr) (Some (fa f1)) yn yv))
    as (Hya & Hfa & Hy).
  { pose proof H as (_ & Hwf & Hrep & _).
    apply rep_plug in Hrep as [(Hy & _) _]. apply wf_plug in Hwf.
    rewrite <- plug_cons, <- plug_app, <- app_comm_cons, addrs_plug.
    simpl in Hwf. rewrite addrs_k_app in Hwf. simpl in Hwf.
    split_and!; [|clear -Hwf; atomize; done|done].
    clear -Hwf. atomize. simpl. rewrite addrs_k_app. solve_atoms. }
  rewrite Hr in Hz. rewrite Hr1 in HR1, Hya. clear Hr Hlm H.
  unfold fill in Hz, HR1, Hya. cbn [fdir fc fa fn fv fsib] in Hz, HR1, Hya.
  rewrite addrs_plug in Hya. cbn [addrs] in Hya. subst l.
  destruct s as [nl rt h].
  unfold detach_erase_target. remember (fuel_of _) as fu eqn:Hfu. clear Hfu.
  rep_open Hz. simpl in Hy.
  repeat step. rewrite Hmin. simpl. repeat step. rewrite Htr. simpl.
  clear Htr Hmin.
  destruct s1 as [nl1 rt1 h1]. simpl in *.
  destruct k as [|[d pc pa pn pv ps] k].
  all: rep_open HR1.
  all: unfold transplant; simpl.
  all: try destruct d; simpl in *; atomize.
  all: repeat step.
  all: eexists; split; [reflexivity|].
  all: split; [|done].
  all: rewrite app_comm_cons, plug_app, plug_cons.
  all: rewrite Hr1; clear Hr1.
  all: unfold fill; cbn [fdir fc fa fn fv fsib].
  all: rep_close.
Qed.

Lemma lefts_nil_left f k : lefts (f :: k) = [] → fdir f = LEFT.
Proof.
  simpl. destruct (fdir f); [done|]. intros H.
  apply app_eq_nil in H as [_ H]. by apply app_eq_nil in H as [_ H].
Qed.

(** [detach_erase_target] carries out [detach]; the node detached stays
    in the heap, and the sentinel's parent link is that of the hole when
    the subtree put in its place is empty. *)
Lemma detach_spec s c a n l v r k x kx rc :
  Rep s (plug (T c a n l v r) k) →
  detach false (T c a n l v r) k = Some (x, kx, rc) →
  ∃ s', detach_erase_target (Some a) s = Some (mkErase (ptr_of x) rc, s') ∧
        Rep s' (plug x kx) ∧ (x = E → parent_ (nil_ s') = hole_par kx).
Proof.
  intros H Hd.
  destruct l as [|lc la ln ll lv lr].
  { simpl in Hd. rewrite up_false in Hd. simplify_eq.
    exact (detach_no_left _ _ _ _ _ _ _ H). }
  destruct r as [|rc' ra rn rl rv rr].
  { simpl in Hd. rewrite up_false in Hd. simplify_eq.
    destruct (detach_no_right _ _ _ _ _ _ _ _ _ _ _ _ H) as (s' & ? & ?).
    exists s'. split_and!; done. }
  destruct (leftmost_spec (T rc' ra rn rl rv rr) [])
    as (yc & ya & yn & yv & yr & ky & Hlm & Hp & Hlf); [done|].
  rewrite app_nil_r in Hlm.
  unfold detach in Hd. fold (leftmost (T rc' ra rn rl rv rr) []) in Hd.
  rewrite Hlm in Hd. cbv zeta in Hd. rewrite !up_false in Hd.
  simpl in Hd. simplify_eq.
  destruct ky as [|f1 ky1].
  - unfold plug in Hp. simplify_eq. eapply detach_direct, H.
  - simpl. eapply (detach_deep _ c a n _ _ _ _ _ _ v).
    + rewrite app_comm_cons, plug_app, Hp. exact H.
    + by apply lefts_nil_left in Hlf.
    + rewrite Hp, Hlm. done.
Qed.

Lemma delete_node_spec s a x k :
  Rep s (plug x k) → a ∉ addrs (plug x k) → is_Some (heap s !! a) →
  ∃ s', delete_node (Some a) s = Some s' ∧ Rep s' (plug x k) ∧
        nil_ s' = nil_ s ∧ heap s' = delete a (heap s).
Proof.
  intros (Hroot & Hwf & Hrep & Hnil) Ha [nd Hnd]. unfold delete_node.
  rewrite Hnd. simpl. eexists; split; [done|]. split_and!; try done.
  split_and!; try done. simpl. by apply rep_t_delete_ne.
Qed.

End NilRep6.

Module NilRep7.
Import NilTree NilRep NilRep1 NilRep2 NilRep3 NilRep4 NilRep5 NilRep6.
Local Arguments plug : simpl never.
Local Arguments fuel_of : simpl never.

Lemma parent_hole s x p :
  rep_t mk (heap s) p x → (x = E → parent_ (nil_ s) = p) →
  parent s (ptr_of x) = Some p.
Proof.
  destruct x as [|c a n l v r]; simpl.
  - intros _ H. rewrite parent_nil, H; done.
  - intros (Ha & _) _. by erewrite parent_heap by eassumption.
Qed.

Lemma color_of_rep s p t :
  rep_t mk (heap s) p t → NilTree.color_of s (ptr_of t) = Some (Abs.color_of t).
Proof.
  destruct t as [|c a n l v r]; simpl; [done|].
  intros (Ha & _). unfold NilTree.color_of. simpl.
  by erewrite color_heap by eassumption.
Qed.

Lemma erase_fixup_left_eq node s :
  erase_fixup_left node s =
  np ← parent s node;
  sibling ← right_child s np;
  sc ← NilTree.color_of s sibling;
  '(sibling, s) ←
    (if decide (sc = RED) then
       s ← (if negb (is_nil sibling) then set_color sibling BLACK s
            else Some s);
       np ← parent s node;
       s ← set_color np RED s;
       np ← parent s node;
       s ← rotate_left np s;
       np ← parent s node;
       sibling ← right_child s np;
       Some (sibling, s)
     else Some (sibling, s));
  efl_rest node sibling s.
Proof. reflexivity. Qed.

Ltac eframe_rep :=
  repeat first [ apply rep_t_insert_ne; [atom|]
               | apply rep_k_insert_ne; [atom|] ];
  eassumption.

Ltac hole_step :=
  first
  [ erewrite parent_hole by (simpl; first [eframe_rep | eassumption | done])
  | erewrite color_of_rep by (simpl; eframe_rep) ];
  simpl.

Ltac xstep := first [ step | hole_step ].

Lemma efl_rest_spec s x c a n v wa wn wl wv wr k r :
  RepX s x (F LEFT c a n v (T BLACK wa wn wl wv wr) :: k) →
  fix_step false x (F LEFT c a n v (T BLACK wa wn wl wv wr)) k = Some r →
  ∃ s' node', efl_rest (ptr_of x) (Some wa) s = Some (node', s') ∧
    match r with
    | inl t => Rep s' t ∧ node' = root_ s'
    | inr x2 => Rep s' (plug x2 k) ∧ node' = ptr_of x2 ∧ x2 ≠ E
    end.
Proof.
  intros [H Hx] Hstep. destruct s as [nl rt h]. simpl in Hx.
  unfold fix_step in Hstep. simpl in Hstep.
  destruct (Abs.color_of wl) eqn:Hcl, (Abs.color_of wr) eqn:Hcr;
    simpl in Hstep; rewrite ?up_false in Hstep.
  - (* both red *)
    destruct wr as [|[] ra rn rl rv rr]; try done. simpl in Hstep.
    rewrite ?up_false in Hstep. simplify_eq.
    rep_copy H. unfold efl_rest. repeat xstep. rewrite Hcl. simpl.
    unfold NilTree.color_of. simpl. repeat xstep.
    rot_left_at (T BLACK a n x v (T c wa wn wl wv (T BLACK ra rn rl rv rr))) k.
    eexists _, _. split; [reflexivity|]. simpl in *. rewrite ?up_false. done.
  - (* near red, far black *)
    destruct wl as [|[] la ln ll lv lr]; try done. simpl in Hstep.
    rewrite ?up_false in Hstep. simplify_eq.
    rep_copy H. unfold efl_rest. repeat xstep.
    unfold NilTree.color_of at 1. simpl. repeat xstep. rewrite Hcr. simpl.
    repeat xstep.
    rot_right_at (T RED wa wn (T BLACK la ln ll lv lr) wv wr)
      (F RIGHT c a n v x :: k).
    destruct s as [nl1 rt1 h1]. simpl in Hnil0. subst nl1.
    rep_copy HRep. simpl in *. repeat xstep.
    rot_left_at (T BLACK a n x v (T c la ln ll lv (T BLACK wa wn lr wv wr))) k.
    eexists _, _. split; [reflexivity|]. simpl in *. rewrite ?up_false. done.
  - (* far red *)
    destruct wr as [|[] ra rn rl rv rr]; try done. simpl in Hstep.
    rewrite ?up_false in Hstep. simplify_eq.
    rep_copy H. unfold efl_rest. repeat xstep. rewrite Hcl. simpl.
    unfold NilTree.color_of. simpl. repeat xstep.
    rot_left_at (T BLACK a n x v (T c wa wn wl wv (T BLACK ra rn rl rv rr))) k.
    eexists _, _. split; [reflexivity|]. simpl in *. rewrite ?up_false. done.
  - (* both black *)
    simplify_eq. rep_copy H. unfold efl_rest. repeat xstep.
    rewrite Hcl. repeat xstep. rewrite Hcr. simpl. repeat xstep.
    eexists _, _. split; [reflexivity|]. split_and!; [|done|done].
    unfold fill. simpl. rep_close.
Qed.

Lemma erase_fixup_left_black s x c a n v wa wn wl wv wr k r :
  RepX s x (F LEFT c a n v (T BLACK wa wn wl wv wr) :: k) →
  fix_step false x (F LEFT c a n v (T BLACK wa wn wl wv wr)) k = Some r →
  ∃ s' node', erase_fixup_left (ptr_of x) s = Some (node', s') ∧
    match r with
    | inl t => Rep s' t ∧ node' = root_ s'
    | inr x2 => Rep s' (plug x2 k) ∧ node' = ptr_of x2 ∧ x2 ≠ E
    end.
Proof.
  intros HX Hstep.
  destruct (efl_rest_spec _ _ _ _ _ _ _ _ _ _ _ _ _ HX Hstep)
    as (s' & node' & Hrest & Hpost).
  exists s', node'. split; [|done]. rewrite <- Hrest. clear Hrest Hpost Hstep.
  destruct HX as [H Hx]. destruct s as [nl rt h]. simpl in Hx.
  rep_open H. rewrite erase_fixup_left_eq. repeat xstep.
  unfold NilTree.color_of. simpl. repeat xstep. done.
Qed.

Lemma erase_fixup_left_red s x c a n v wa wn la ln ll lv lr wv wr k r :
  let wl := T BLACK la ln ll lv lr in
  RepX s x (F LEFT c a n v (T RED wa wn wl wv wr) :: k) →
  fix_step false x (F LEFT RED a n v wl) (F LEFT BLACK wa wn wv wr :: k)
    = Some r →
  ∃ s' node', erase_fixup_left (ptr_of x) s = Some (node', s') ∧
    match r with
    | inl t => Rep s' t ∧ node' = root_ s'
    | inr x2 =>
        Rep s' (plug x2 (F LEFT BLACK wa wn wv wr :: k)) ∧
        node' = ptr_of x2 ∧ x2 ≠ E
    end.
Proof.
  intros wl [H Hx] Hstep. subst wl. destruct s as [nl rt h]. simpl in Hx.
  rep_copy H. rewrite erase_fixup_left_eq. repeat xstep.
  unfold NilTree.color_of. simpl. repeat xstep.
  rot_left_at (T RED a n x v (T BLACK wa wn (T BLACK la ln ll lv lr) wv wr)) k.
  destruct s as [nl1 rt1 h1]. simpl in Hnil0. subst nl1.
  assert (RepX (mkTree nl rt1 h1) x
            (F LEFT RED a n v (T BLACK la ln ll lv lr) ::
             F LEFT BLACK wa wn wv wr :: k)) as HX by (split; done).
  destruct (efl_rest_spec _ _ _ _ _ _ _ _ _ _ _ _ _ HX Hstep)
    as (s' & node' & Hrest & Hpost).
  exists s', node'. split; [|done]. rewrite <- Hrest.
  rep_copy HRep. simpl in *. repeat xstep. done.
Qed.

Lemma erase_fixup_right_eq node s :
  erase_fixup_right node s =
  np ← parent s node;
  sibling ← left_child s np;
  sc ← NilTree.color_of s sibling;
  '(sibling, s) ←
    (if decide (sc = RED) then
       s ← (if negb (is_nil sibling) then set_color sibling BLACK s
            else Some s);
       np ← parent s node;
       s ← set_color np RED s;
       np ← parent s node;
       s ← rotate_right np s;
       np ← parent s node;
       sibling ← left_child s np;
       Some (sibling, s)
     else Some (sibling, s));
  efr_rest node sibling s.
Proof. reflexivity. Qed.

Lemma efr_rest_spec s x c a n v wa wn wl wv wr k r :
  RepX s x (F RIGHT c a n v (T BLACK wa wn wl wv wr) :: k) →
  fix_step false x (F RIGHT c a n v (T BLACK wa wn wl wv wr)) k = Some r →
  ∃ s' node', efr_rest (ptr_of x) (Some wa) s = Some (node', s') ∧
    match r with
    | inl t => Rep s' t ∧ node' = root_ s'
    | inr x2 => Rep s' (plug x2 k) ∧ node' = ptr_of x2 ∧ x2 ≠ E
    end.
Proof.
  intros [H Hx] Hstep. destruct s as [nl rt h]. simpl in Hx.
  unfold fix_step in Hstep. simpl in Hstep.
  destruct (Abs.color_of wr) eqn:Hcr, (Abs.color_of wl) eqn:Hcl;
    simpl in Hstep; rewrite ?up_false in Hstep.
  - (* both red *)
    destruct wl as [|[] la ln ll lv lr]; try done. simpl in Hstep.
    rewrite ?up_false in Hstep. simplify_eq.
    rep_copy H. unfold efr_rest. repeat xstep. rewrite Hcr. simpl.
    unfold NilTree.color_of. simpl. repeat xstep.
    rot_right_at (T BLACK a n (T c wa wn (T BLACK la ln ll lv lr) wv wr) v x) k.
    eexists _, _. split; [reflexivity|]. simpl in *. rewrite ?up_false. done.
  - (* near red, far black *)
    destruct wr as [|[] ra rn rl rv rr]; try done. simpl in Hstep.
    rewrite ?up_false in Hstep. simplify_eq.
    rep_copy H. unfold efr_rest. repeat xstep.
    unfold NilTree.color_of at 1. simpl. repeat xstep. rewrite Hcl. simpl.
    repeat xstep.
    rot_left_at (T RED wa wn wl wv (T BLACK ra rn rl rv rr))
      (F LEFT c a n v x :: k).
    destruct s as [nl1 rt1 h1]. simpl in Hnil0. subst nl1.
    rep_copy HRep. simpl in *. repeat xstep.
    rot_right_at (T BLACK a n (T c ra rn (T BLACK wa wn wl wv rl) rv rr) v x) k.
    eexists _, _. split; [reflexivity|]. simpl in *. rewrite ?up_false. done.
  - (* far red *)
    destruct wl as [|[] la ln ll lv lr]; try done. simpl in Hstep.
    rewrite ?up_false in Hstep. simplify_eq.
    rep_copy H. unfold efr_rest. repeat xstep. rewrite Hcr. simpl.
    unfold NilTree.color_of. simpl. repeat xstep.
    rot_right_at (T BLACK a n (T c wa wn (T BLACK la ln ll lv lr) wv wr) v x) k.
    eexists _, _. split; [reflexivity|]. simpl in *. rewrite ?up_false. done.
  - (* both black *)
    simplify_eq. rep_copy H. unfold efr_rest. repeat xstep.
    rewrite Hcr. repeat xstep. rewrite Hcl. simpl. repeat xstep.
    eexists _, _. split; [reflexivity|]. split_and!; [|done|done].
    unfold fill. simpl. rep_close.
Qed.

Lemma erase_fixup_right_black s x c a n v wa wn wl wv wr k r :
  RepX s x (F RIGHT c a n v (T BLACK wa wn wl wv wr) :: k) →
  fix_step false x (F RIGHT c a n v (T BLACK wa wn wl wv wr)) k = Some r →
  ∃ s' node', erase_fixup_right (ptr_of x) s = Some (node', s') ∧
    match r with
    | inl t => Rep s' t ∧ node' = root_ s'
    | inr x2 => Rep s' (plug x2 k) ∧ node' = ptr_of x2 ∧ x2 ≠ E
    end.
Proof.
  intros HX Hstep.
  destruct (efr_rest_spec _ _ _ _ _ _ _ _ _ _ _ _ _ HX Hstep)
    as (s' & node' & Hrest & Hpost).
  exists s', node'. split; [|done]. rewrite <- Hrest. clear Hrest Hpost Hstep.
  destruct HX as [H Hx]. destruct s as [nl rt h]. simpl in Hx.
  rep_open H. rewrite erase_fixup_right_eq. repeat xstep.
  unfold NilTree.color_of. simpl. repeat xstep. done.
Qed.

Lemma erase_fixup_right_red s x c a n v wa wn wl wv ra rn rl rv rr k r :
  let wr := T BLACK ra rn rl rv rr in
  RepX s x (F RIGHT c a n v (T RED wa wn wl wv wr) :: k) →
  fix_step false x (F RIGHT RED a n v wr) (F RIGHT BLACK wa wn wv wl :: k)
    = Some r →
  ∃ s' node', erase_fixup_right (ptr_of x) s = Some (node', s') ∧
    match r with
    | inl t => Rep s' t ∧ node' = root_ s'
    | inr x2 =>
        Rep s' (plug x2 (F RIGHT BLACK wa wn wv wl :: k)) ∧
        node' = ptr_of x2 ∧ x2 ≠ E
    end.
Proof.
  intros wr [H Hx] Hstep. subst wr. destruct s as [nl rt h]. simpl in Hx.
  rep_copy H. rewrite erase_fixup_right_eq. repeat xstep.
  unfold NilTree.color_of. simpl. repeat xstep.
  rot_right_at (T RED a n (T BLACK wa wn wl wv (T BLACK ra rn rl rv rr)) v x) k.
  destruct s as [nl1 rt1 h1]. simpl in Hnil0. subst nl1.
  assert (RepX (mkTree nl rt1 h1) x
            (F RIGHT RED a n v (T BLACK ra rn rl rv rr) ::
             F RIGHT BLACK wa wn wv wl :: k)) as HX by (split; done).
  destruct (efr_rest_spec _ _ _ _ _ _ _ _ _ _ _ _ _ HX Hstep)
    as (s' & node' & Hrest & Hpost).
  exists s', node'. split; [|done]. rewrite <- Hrest.
  rep_copy HRep. simpl in *. repeat xstep. done.
Qed.

End NilRep7.

Lemma root_in_ctx k : ∀ f t,
  ∃ b, ptr_of (plug t (f :: k)) = Some b ∧ b ∈ addrs_k (f :: k).
Proof.
  induction k as [|g k IH]; intros f t.
  - exists (fa f). cbn. rewrite ptr_of_fill. split; [done|]. set_solver.
  - destruct (IH g (fill f t)) as (b & Hb & Hin). exists b. split; [done|].
    simpl in *. set_solver.
Qed.

Lemma hole_not_root t f k :
  wf (plug t (f :: k)) → ptr_of t ≠ ptr_of (plug t (f :: k)).
Proof.
  intros Hwf. apply wf_plug in Hwf as (_ & _ & Hd).
  destruct (root_in_ctx k f t) as (b & -> & Hb).
  destruct t as [|c a n l v r]; [done|]. simpl in *. intros [= ->]. set_solver.
Qed.

Lemma height_plug k : ∀ t, length k + height t ≤ height (plug t k).
Proof.
  induction k as [|f k IH]; intros t; simpl; [done|].
  etrans; [|apply IH]. destruct f as [[] c a n v w]; unfold fill; simpl; lia.
Qed.

Module NilRep8.
Import NilTree NilRep NilRep1 NilRep2 NilRep3 NilRep4 NilRep5 NilRep6 NilRep7.
Local Arguments plug : simpl never.
Local Arguments fuel_of : simpl never.

Lemma erase_fixup_S fuel node s :
  erase_fixup (S fuel) node s =
  continue ←
    (if bool_decide (node = root_ s) then Some false
     else c ← NilTree.color_of s node; Some (bool_decide (c = BLACK)));
  if (continue : bool) then
    np ← parent s node;
    npl ← left_child s np;
    if decide (node = npl) then
      '(node, s) ← erase_fixup_left node s; erase_fixup fuel node s
    else
      '(node, s) ← erase_fixup_right node s; erase_fixup fuel node s
  else set_color node BLACK s.
Proof. reflexivity. Qed.

Lemma paint_hole_spec s x k :
  Rep s (plug x k) → (k = [] ∨ Abs.color_of x = RED) →
  ∃ s', set_color (ptr_of x) BLACK s = Some s' ∧
        Rep s' (plug (paint BLACK x) k).
Proof.
  intros H Hor. destruct s as [nl rt h].
  destruct x as [|c a n l v r].
  - destruct Hor as [->|]; [|done]. simpl. rewrite set_color_nil.
    eexists; split; [done|]. destruct H as (? & ? & ? & ? & ? & ?).
    split_and!; done.
  - rep_open H. simpl. repeat step. eexists; split; [done|]. rep_close.
Qed.

(** The iteration that leaves the loop. *)
Lemma erase_fixup_stop s x k fuel :
  Rep s (plug x k) → (k = [] ∨ Abs.color_of x = RED) →
  ∃ s', erase_fixup (S fuel) (ptr_of x) s = Some s' ∧
        Rep s' (plug (paint BLACK x) k).
Proof.
  intros H Hor. rewrite erase_fixup_S.
  destruct (paint_hole_spec _ _ _ H Hor) as (s' & Hset & HR).
  exists s'. split; [|done]. rewrite <- Hset.
  pose proof H as (Hroot & Hwf & Hrep & _).
  destruct k as [|f k].
  - rewrite bool_decide_eq_true_2 by done. done.
  - destruct Hor as [|Hc]; [done|].
    rewrite bool_decide_eq_false_2
      by (rewrite Hroot; by apply hole_not_root).
    apply rep_plug in Hrep as [Hx _].
    rewrite (color_of_rep _ _ _ Hx), Hc. done.
Qed.

Lemma erase_fixup_left_dom p s q s' :
  erase_fixup_left p s = Some (q, s') → same_dom s s'.
Proof.
  unfold erase_fixup_left. intros H. repeat dom_step.
  all: repeat match goal with
         | H : rotate_right _ _ = _ |- _ => apply rotate_right_dom in H
         | H : rotate_left _ _ = _ |- _ => apply rotate_left_dom in H
         end.
  all: dom_tac.
Qed.

Lemma erase_fixup_right_dom p s q s' :
  erase_fixup_right p s = Some (q, s') → same_dom s s'.
Proof.
  unfold erase_fixup_right. intros H. repeat dom_step.
  all: repeat match goal with
         | H : rotate_right _ _ = _ |- _ => apply rotate_right_dom in H
         | H : rotate_left _ _ = _ |- _ => apply rotate_left_dom in H
         end.
  all: dom_tac.
Qed.

Lemma erase_fixup_dom fuel : ∀ p s s',
  erase_fixup fuel p s = Some s' → same_dom s s'.
Proof.
  induction fuel as [|fuel IH]; intros p s s' H; [done|].
  rewrite erase_fixup_S in H. repeat dom_step.
  all: repeat match goal with
         | H : erase_fixup_left _ _ = _ |- _ => apply erase_fixup_left_dom in H
         | H : erase_fixup_right _ _ = _ |- _ => apply erase_fixup_right_dom in H
         | H : erase_fixup _ _ _ = _ |- _ => apply IH in H
         end.
  all: dom_tac.
Qed.

Lemma RepX_node s x k : Rep s (plug x k) → x ≠ E → RepX s x k.
Proof. by split. Qed.

(** [erase_fixup] carries out [erase_fix]. *)
Lemma erase_fixup_spec k : ∀ x s fuel h,
  RepX s x k → ctxrb k (S h) → rbt (paint BLACK x) → bh x = h →
  length k < fuel →
  ∃ s' t', erase_fix false k x = Some t' ∧
           erase_fixup fuel (ptr_of x) s = Some s' ∧ Rep s' t'.
Proof.
  induction k as [|f k' IH]; intros x s fuel h HX Hk Hrx Hh Hfuel;
    (destruct fuel as [|fuel]; [simpl in Hfuel; lia|]).
  { destruct HX as [H _].
    destruct (erase_fixup_stop _ _ _ fuel H) as (s' & Hfix & HR); [by left|].
    exists s', (paint BLACK x). done. }
  destruct fuel as [|fuel]; [simpl in Hfuel; lia|].
  cbn [erase_fix]. case_decide as Hcx.
  { destruct HX as [H _].
    destruct (erase_fixup_stop _ _ _ (S fuel) H) as (s' & Hfix & HR);
      [by right|].
    exists s', (plug (paint BLACK x) (f :: k')). done. }
  apply color_not_red in Hcx. rewrite paint_black_id in Hrx by done.
  pose proof HX as [H Hx]. pose proof H as (Hroot & Hwf & Hrep & _).
  apply rep_plug in Hrep as [Hrx' Hrk].
  rewrite erase_fixup_S.
  rewrite bool_decide_eq_false_2 by (rewrite Hroot; by apply hole_not_root).
  rewrite (color_of_rep _ _ _ Hrx'), Hcx.
  rewrite (parent_hole _ _ _ Hrx' Hx).
  destruct f as [d c a n v w]. destruct Hk as (Hw & Hwh & Hred & Hk').
  cbn [fsib fc] in *.
  destruct (bh_pos_node _ _ Hwh) as (wc & wa & wn & wl & wv & wr & ->).
  destruct Hrk as (Ha & Hrw & Hrk). unfold frame_node in Ha.
  cbn [fdir fc fa fn fv fsib hole_par] in Ha.
  assert (ptr_of x ≠ Some wa) as Hxw.
  { apply wf_plug in Hwf as (_ & _ & Hd). simpl in Hd.
    destruct x; [done|]. simpl in *. intros [= ->]. set_solver. }
  assert (∀ fu r s1 node1 kk,
    match r with
    | inl t => Rep s1 t ∧ node1 = root_ s1
    | inr x2 => Rep s1 (plug x2 kk) ∧ node1 = ptr_of x2 ∧ x2 ≠ E
    end →
    (∀ x2, r = inr x2 → Abs.color_of x2 = RED) →
    ∃ s' t',
      match r with
      | inl t => Some (paint BLACK t)
      | inr x2 =>
          if decide (Abs.color_of x2 = RED) then Some (plug (paint BLACK x2) kk)
          else None
      end = Some t' ∧
      erase_fixup (S fu) node1 s1 = Some s' ∧ Rep s' t') as Hlast.
  { intros fu r s1 node1 kk Hpost Hc2. destruct r as [t|x2].
    - destruct Hpost as [HR ->]. pose proof HR as (Hroot1 & _).
      rewrite Hroot1.
      destruct (erase_fixup_stop _ t [] fu HR) as (s' & Hfix & HR');
        [by left|].
      eauto.
    - destruct Hpost as (HR & -> & Hne). rewrite decide_True by eauto.
      destruct (erase_fixup_stop _ _ _ fu HR) as (s' & Hfix & HR');
        [right; eauto|].
      eauto. }
  simpl. case_decide as Hcw.
  - (* red sibling *)
    simpl in Hcw. subst wc.
    destruct c; [by destruct (Hred eq_refl)|]. clear Hred.
    simpl in Hwh, Hk'. destruct Hw as (Hwl & Hwr & Hwb & Hwc).
    destruct (Hwc eq_refl) as [Hcl Hcr]. clear Hwc.
    assert (bh wr = S h) as Hbr by lia. rewrite Nat.add_0_r in Hwh.
    destruct (bh_pos_node _ _ Hwh) as (lc & la & ln & ll & lv & lr & ->).
    destruct (bh_pos_node _ _ Hbr) as (rc & ra & rn & rl & rv & rr & ->).
    simpl in Hcl, Hcr. subst lc rc.
    destruct d; unfold fix_sibling; simpl; rewrite ?up_false.
    + erewrite left_child_heap by eassumption. simpl.
      rewrite decide_True by done.
      edestruct (fix_step_ok false x (F LEFT RED a n v (T BLACK la ln ll lv lr))
                   (F LEFT BLACK wa wn wv (T BLACK ra rn rl rv rr) :: k') h)
        as (r & Hstep & Hr); simpl; auto.
      { rb_tac; ctx_eq. }
      destruct (erase_fixup_left_red _ _ _ _ _ _ _ _ _ _ _ _ _ _ _ _ _ HX Hstep)
        as (s1 & node1 & Hl & Hpost).
      rewrite Hstep, Hl. simpl.
      apply (Hlast fuel r s1 node1 _ Hpost).
      intros x2 ->. apply Hr.
    + erewrite left_child_heap by eassumption. simpl.
      rewrite decide_False by done.
      edestruct (fix_step_ok false x (F RIGHT RED a n v (T BLACK ra rn rl rv rr))
                   (F RIGHT BLACK wa wn wv (T BLACK la ln ll lv lr) :: k') h)
        as (r & Hstep & Hr); simpl; auto.
      { rb_tac; ctx_eq. }
      destruct (erase_fixup_right_red _ _ _ _ _ _ _ _ _ _ _ _ _ _ _ _ _ HX Hstep)
        as (s1 & node1 & Hl & Hpost).
      rewrite Hstep, Hl. simpl.
      apply (Hlast fuel r s1 node1 _ Hpost).
      intros x2 ->. apply Hr.
  - (* black sibling *)
    destruct wc; [done|]. clear Hcw.
    destruct (fix_step_ok false x (F d c a n v (T BLACK wa wn wl wv wr)) k' h)
      as (r & Hstep & Hr); auto.
    { intros Hf. by destruct (Hred Hf). }
    assert (∀ s1 node1,
      match r with
      | inl t => Rep s1 t ∧ node1 = root_ s1
      | inr x2 => Rep s1 (plug x2 k') ∧ node1 = ptr_of x2 ∧ x2 ≠ E
      end →
      ∃ s' t',
        match r with
        | inl t => Some (paint BLACK t)
        | inr x2 => erase_fix false k' x2
        end = Some t' ∧
        erase_fixup (S fuel) node1 s1 = Some s' ∧ Rep s' t') as Hnext.
    { intros s1 node1 Hpost. destruct r as [t|x2].
      - apply (Hlast fuel (inl t) s1 node1 [] Hpost). done.
      - destruct Hpost as (HR & -> & Hne).
        destruct Hr as (Hrb & Hbh & Hc2 & _ & _).
        apply (IH x2 s1 (S fuel) (h + blk c)); auto.
        + by apply RepX_node.
        + simpl in Hfuel |- *. lia. }
    rewrite Hstep. simpl.
    destruct d.
    + erewrite left_child_heap by eassumption. simpl.
      rewrite decide_True by done.
      destruct (erase_fixup_left_black _ _ _ _ _ _ _ _ _ _ _ _ _ HX Hstep)
        as (s1 & node1 & Hl & Hpost).
      rewrite Hl. simpl. by apply Hnext.
    + erewrite left_child_heap by eassumption. simpl.
      rewrite decide_False by done.
      destruct (erase_fixup_right_black _ _ _ _ _ _ _ _ _ _ _ _ _ HX Hstep)
        as (s1 & node1 & Hl & Hpost).
      rewrite Hl. simpl. by apply Hnext.
Qed.

End NilRep8.

Module NilRep9.
Import NilTree NilRep NilRep1 NilRep2 NilRep3 NilRep4 NilRep5 NilRep6 NilRep7 NilRep8.
Local Arguments plug : simpl never.
Local Arguments fuel_of : simpl never.

Ltac bind_some := cbn [mbind option_bind].

Lemma finalize_root_dom s s' : finalize_root s = Some s' → same_dom s s'.
Proof. unfold finalize_root. intros H. dom_tac. Qed.

Lemma finalize_root_spec s t :
  Rep s t → ∃ s', finalize_root s = Some s' ∧ Rep s' (paint BLACK t).
Proof.
  intros H. destruct s as [nl rt h]. unfold finalize_root.
  destruct t as [|c a n l v r].
  - destruct H as (Hroot & ? & ? & ?). simpl in *. subst rt. simpl.
    eexists; split; [done|]. split_and!; done.
  - change (Rep (mkTree nl rt h) (plug (T c a n l v r) [])) in H.
    rep_open H. simpl in Hroot. subst rt. simpl. repeat step.
    eexists; split; [done|]. rep_close.
Qed.

Lemma finalize_erase_eq ctx s :
  finalize_erase ctx s =
  s ← (if decide (removed_color ctx = BLACK) then
         erase_fixup (fuel_of s) (fixup_node ctx) s
       else Some s);
  finalize_root s.
Proof. reflexivity. Qed.

Lemma erase_absent s t v :
  Inv s t → bst t → v ∉ elements t → erase v s = Some (false, s).
Proof.
  intros HI Hs Hv. pose proof (Inv_fuel _ _ HI) as Hf.
  destruct HI as [HR Hdom]. destruct HR as (Hroot & Hwf & Hrep & Hnil).
  unfold erase, locate.
  destruct (descend v t []) as [t0 k] eqn:Hd.
  rewrite Hroot.
  pose proof (locate_loop_spec s v t [] _ t0 k Hrep Hd Hf) as Hloc.
  cbn [hole_par go_top] in Hloc. unfold nil. rewrite Hloc. simpl.
  destruct t0; [done|]. exfalso. apply Hv.
  by apply (descend_mem _ _ _ _ Hs Hd).
Qed.

Lemma erase_present s t v :
  Inv s t → rbtree t → bst t → v ∈ elements t →
  ∃ s' t', erase v s = Some (true, s') ∧
           erase_tree false v t = Some t' ∧ Inv s' t'.
Proof.
  intros HI Hrb Hs Hv. pose proof (Inv_fuel _ _ HI) as Hf.
  destruct HI as [HR Hdom].
  destruct (descend v t []) as [z k] eqn:Hd.
  pose proof (descend_plug _ _ _ _ _ Hd) as Hp.
  change (plug t []) with t in Hp.
  pose proof (proj2 (descend_mem _ _ _ _ Hs Hd) Hv) as Hz.
  destruct (descend_found _ _ _ _ _ Hd) as [->|(c & a & n & l & r & ->)];
    [done|]. clear Hz.
  pose proof HR as (Hroot & Hwf & Hrep & Hnil).
  pose proof (locate_loop_spec s v t [] _ _ k Hrep Hd Hf) as Hloc.
  cbn [hole_par go_top locate_result] in Hloc.
  assert (locate s v = Some (mkLocate (Some a) true false)) as Hlocate
    by (unfold locate; rewrite Hroot; exact Hloc).
  rewrite <- Hp in Hrb, HR, Hwf, Hdom.
  destruct (detach_ok false _ _ _ _ _ _ _ Hrb)
    as (x & kx & rc & Hdet & Hrem & Hr & Hb).
  destruct (detach_spec _ _ _ _ _ _ _ _ _ _ _ HR Hdet)
    as (s1 & Hdt & HR1 & Hnil1).
  pose proof (detach_erase_target_dom _ _ _ _ Hdt) as Hdom1.
  destruct Hrem as (_ & Haddrs & Hwf').
  destruct (Hwf' Hwf) as [Hwfx Hax].
  destruct (delete_node_spec s1 a x kx HR1 Hax) as (s2 & Hdel & HR2 & Hnil2 & Hh2).
  { apply elem_of_dom. rewrite Hdom1, Hdom, Haddrs. set_solver. }
  assert (dom (heap s2) = addrs (plug x kx)) as Hdom2.
  { rewrite Hh2, dom_delete_L, Hdom1, Hdom, Haddrs. set_solver. }
  assert (∃ s3 t', erase_tree false v t = Some t' ∧
            (if decide (rc = BLACK) then
               erase_fixup (fuel_of s2) (ptr_of x) s2
             else Some s2) = Some s3 ∧ Rep s3 t' ∧ rbtree t' ∧
            addrs t' = addrs (plug x kx)) as (s3 & t' & Het & Hfix & HR3 & Hrb3 & Ha3).
  { unfold erase_tree. rewrite Hd, Hdet. simpl. destruct rc.
    - rewrite !decide_False by done. exists s2, (plug x kx). split_and!; auto.
    - rewrite !decide_True by done. destruct (Hb eq_refl) as [Hk Hx].
      destruct (erase_fixup_spec kx x s2 (fuel_of s2) (bh x))
        as (s3 & t' & Hef & Hfix & HR3); auto.
      { split; [done|]. rewrite Hnil2. done. }
      { pose proof (height_plug kx x). pose proof (Rep_fuel _ _ HR2). lia. }
      destruct (erase_fix_ok false kx x (bh x)) as (t'' & Hef' & Hrb'' & Hsame);
        auto.
      rewrite Hef in Hef'. simplify_eq.
      exists s3, t''. split_and!; auto. apply Hsame. }
  destruct (finalize_root_spec _ _ HR3) as (s4 & Hfin & HR4).
  rewrite rbtree_paint in HR4 by done.
  exists s4, t'. split_and!; [|done|split; [done|]].
  - unfold erase. rewrite Hlocate. bind_some.
    cbn [lr_exists lr_parent negb]. rewrite Hdt. bind_some.
    rewrite Hdel. bind_some. rewrite finalize_erase_eq.
    cbn [removed_color fixup_node]. rewrite Hfix. bind_some.
    rewrite Hfin. done.
  - apply finalize_root_dom in Hfin. unfold same_dom in Hfin.
    rewrite Hfin, Ha3, <- Hdom2.
    destruct rc.
    + rewrite decide_False in Hfix by done. by simplify_eq.
    + rewrite decide_True in Hfix by done.
      apply erase_fixup_dom in Hfix. done.
Qed.

End NilRep9.

Module NilTop.
Import NilTree NilRep NilRep1 NilRep2 NilRep3 NilRep4 NilRep5 NilRep6 NilRep7 NilRep8 NilRep9.
Local Arguments plug : simpl never.
Local Arguments fuel_of : simpl never.

Lemma inorder_rep s par t : ∀ fuel,
  rep_t mk (heap s) par t → height t < fuel →
  inorder fuel s (ptr_of t) = Some (elements t).
Proof.
  revert par. induction t as [|c a n l IHl v r IHr]; intros par fuel Hrep Hf;
    (destruct fuel as [|fuel]; [lia|]); simpl in *; [done|].
  destruct Hrep as (Ha & Hl & Hr). rewrite Ha. simpl.
  rewrite (IHl (Some a)) by (done || lia). simpl.
  rewrite (IHr (Some a)) by (done || lia). done.
Qed.

Lemma contents_rep s t : Rep s t → contents s = elements t.
Proof.
  intros H. pose proof (Rep_fuel _ _ H) as Hf.
  destruct H as (Hroot & _ & Hrep & _). unfold contents.
  rewrite Hroot, (inorder_rep _ _ _ _ Hrep Hf). done.
Qed.

Lemma Good_empty : Good empty_tree E.
Proof.
  split_and!; [|done|constructor].
  split; [by repeat split|]. simpl. apply dom_empty_L.
Qed.

Lemma Good_insert s t v :
  Good s t →
  ∃ b s' t', insert v s = Some (b, s') ∧ Good s' t' ∧
    (v ∈ elements t → b = false ∧ s' = s) ∧
    (v ∉ elements t → b = true ∧
       (∀ x, x ∈ elements t' ↔ x = v ∨ x ∈ elements t) ∧
       length (elements t') = S (length (elements t))).
Proof.
  intros (HI & Hrb & Hs).
  destruct (decide (v ∈ elements t)) as [Hv|Hv].
  - exists false, s, t. split_and!; try done.
    by apply (insert_present s t).
  - destruct (insert_absent s t v HI Hrb Hs Hv) as (s' & t' & Hins & Hit & HI').
    destruct (insert_tree_ok false v (fresh (dom (heap s))) t)
      as (t'' & Hit' & Hrb' & Hwf' & Hs' & _ & Hel & Hlen); auto.
    { apply HI. }
    { destruct HI as [_ <-]. apply is_fresh. }
    rewrite Hit in Hit'. simplify_eq.
    exists true, s', t''. split_and!; try done.
Qed.

Lemma Good_erase s t v :
  Good s t →
  ∃ b s' t', erase v s = Some (b, s') ∧ Good s' t' ∧
    (v ∉ elements t → b = false ∧ s' = s) ∧
    (v ∈ elements t → b = true ∧
       (∀ x, x ∈ elements t' ↔ x ∈ elements t ∧ x ≠ v) ∧
       S (length (elements t')) = length (elements t)).
Proof.
  intros (HI & Hrb & Hs).
  destruct (decide (v ∈ elements t)) as [Hv|Hv].
  - destruct (erase_present s t v HI Hrb Hs Hv) as (s' & t' & Her & Het & HI').
    destruct (erase_tree_ok false v t Hrb Hs Hv)
      as (t'' & z & k & a & _ & _ & Het' & Hrb' & (l1 & l2 & He & He') & _).
    rewrite Het in Het'. simplify_eq.
    unfold bst in Hs. rewrite He in Hs.
    destruct (sorted_remove _ _ _ Hs) as (Hs' & Hnv & Hel).
    exists true, s', t''. split; [done|]. split; [|split; [done|]].
    + split_and!; [done|done|]. unfold bst. by rewrite He'.
    + intros _. split_and!; [done| |].
      * rewrite He, He'. done.
      * rewrite He, He', !length_app. simpl. lia.
  - exists false, s, t. split_and!; try done.
    by apply (erase_absent s t).
Qed.

Lemma Good_run ops : ∀ s t,
  Good s t → ∃ s' t', run ops s = Some s' ∧ Good s' t'.
Proof.
  induction ops as [|o ops IH]; intros s t HG; cbn [run]; [eauto|].
  destruct o as [v|v]; cbn [apply_op].
  - destruct (Good_insert s t v HG) as (b & s' & t' & -> & HG' & _).
    cbn [mbind option_bind]. eauto.
  - destruct (Good_erase s t v HG) as (b & s' & t' & -> & HG' & _).
    cbn [mbind option_bind]. eauto.
Qed.

Lemma run_empty_good ops s :
  run ops empty_tree = Some s → ∃ t, Good s t.
Proof.
  intros H. destruct (Good_run ops _ _ Good_empty) as (s' & t & Hr & HG).
  rewrite H in Hr. simplify_eq. eauto.
Qed.

End NilTop.

Lemma wrap_int_add x y : wrap_int (wrap_int x + y) = wrap_int (x + y).
Proof.
  unfold wrap_int.
  replace ((x + 2 ^ 31) mod 2 ^ 32 - 2 ^ 31 + y + 2 ^ 31)%Z
    with ((x + 2 ^ 31) mod 2 ^ 32 + y)%Z by lia.
  rewrite Zplus_mod_idemp_l. f_equal. f_equal. lia.
Qed.

Module NilValid.
Import NilTree NilRep NilRep1 NilRep2 NilRep3 NilRep4 NilRep5 NilRep6 NilRep7 NilRep8 NilRep9 NilTop.
Local Arguments plug : simpl never.
Local Arguments fuel_of : simpl never.

Lemma color_or_black s p t :
  rep_t mk (heap s) p t →
  (if is_nil (ptr_of t) then Some BLACK else color s (ptr_of t))
  = Some (Abs.color_of t).
Proof. apply color_of_rep. Qed.

(** On a red-black subtree [validate_subtree] succeeds and reports the
    black height, counted with the sentinel, in [int] arithmetic. *)
Lemma validate_rbt s t : ∀ par fuel,
  rep_t mk (heap s) par t → rbt t → height t < fuel →
  validate_subtree fuel s (ptr_of t)
  = Some (true, wrap_int (1 + Z.of_nat (bh t))).
Proof.
  induction t as [|c a n l IHl v r IHr]; intros par fuel Hrep Hrb Hf;
    (destruct fuel as [|fuel]; [lia|]); [done|].
  destruct Hrep as (Ha & Hl & Hr). destruct Hrb as (Hbl & Hbr & Hbh & Hc).
  cbn [validate_subtree ptr_of is_nil].
  erewrite left_child_heap, right_child_heap, color_heap by eassumption.
  cbn [mbind option_bind base color_ left_ right_ mk].
  rewrite (color_or_black _ _ _ Hl), (color_or_black _ _ _ Hr).
  cbn [mbind option_bind].
  assert (bool_decide (c = RED) &&
          (negb (is_nil (ptr_of l)) && bool_decide (Abs.color_of l = RED)
           || negb (is_nil (ptr_of r)) && bool_decide (Abs.color_of r = RED))
          = false) as ->.
  { destruct c; [|done]. destruct (Hc eq_refl) as [-> ->].
    simpl. by rewrite !andb_false_r. }
  simpl in Hf.
  rewrite (IHl (Some a)) by (done || lia). cbn [mbind option_bind negb].
  rewrite (IHr (Some a)) by (done || lia). cbn [mbind option_bind negb].
  rewrite Hbh, bool_decide_eq_true_2 by done. cbn [negb].
  rewrite wrap_int_add. do 3 f_equal.
  destruct c; cbn [bh blk]; [rewrite decide_False by done|rewrite decide_True by done];
    lia.
Qed.

Lemma is_valid_rep s t : Rep s t → rbtree t → is_valid s = Some true.
Proof.
  intros H [Hc Hrb]. pose proof (Rep_fuel _ _ H) as Hf.
  destruct H as (Hroot & Hwf & Hrep & Hnil). unfold is_valid. rewrite Hroot.
  destruct t as [|c a n l v r].
  - simpl. destruct Hnil as (-> & _). done.
  - simpl in Hc. subst c.
    pose proof (validate_rbt s _ None _ Hrep Hrb Hf) as Hv.
    destruct Hrep as (Ha & _). cbn [ptr_of is_nil] in *.
    erewrite color_heap by eassumption. cbn [mbind option_bind].
    rewrite Hv. done.
Qed.

Lemma reachable_pos s t p :
  Rep s t → reachable s p → ∃ t0 k, plug t0 k = t ∧ ptr_of t0 = p.
Proof.
  intros H Hp. pose proof H as (Hroot & _ & Hrep & _).
  induction Hp as [|p q Hp IH Hne Hq|p q Hp IH Hne Hq].
  - exists t, []. done.
  - destruct IH as (t0 & k & Hpl & <-).
    destruct t0 as [|c a n l v r]; [done|].
    rewrite <- Hpl in Hrep. apply rep_plug in Hrep as [(Ha & _) _].
    simpl in Hq. erewrite left_child_heap in Hq by eassumption.
    simpl in Hq. simplify_eq.
    exists l, (F LEFT c a n v r :: k). done.
  - destruct IH as (t0 & k & Hpl & <-).
    destruct t0 as [|c a n l v r]; [done|].
    rewrite <- Hpl in Hrep. apply rep_plug in Hrep as [(Ha & _) _].
    simpl in Hq. erewrite right_child_heap in Hq by eassumption.
    simpl in Hq. simplify_eq.
    exists r, (F RIGHT c a n v l :: k). done.
Qed.

Lemma links_rep s t p :
  Rep s t → reachable s p → p ≠ nil →
  (∀ q, left_child s p = Some q → q ≠ nil → parent s q = Some p) ∧
  (∀ q, right_child s p = Some q → q ≠ nil → parent s q = Some p) ∧
  (parent s p = Some nil ↔ p = root_ s).
Proof.
  intros H Hp Hne. destruct (reachable_pos _ _ _ H Hp) as (t0 & k & Hpl & <-).
  destruct H as (Hroot & Hwf & Hrep & _). rewrite <- Hpl in Hrep, Hroot, Hwf.
  destruct t0 as [|c a n l v r]; [done|].
  apply rep_plug in Hrep as [(Ha & Hl & Hr) _]. simpl.
  erewrite left_child_heap, right_child_heap, parent_heap by eassumption.
  simpl. split_and!.
  - intros q [= <-] Hq. destruct l; [done|]. destruct Hl as [Hla _].
    simpl. by erewrite parent_heap by eassumption.
  - intros q [= <-] Hq. destruct r; [done|]. destruct Hr as [Hra _].
    simpl. by erewrite parent_heap by eassumption.
  - rewrite Hroot. destruct k as [|f k]; [done|]. split.
    + by intros [= ?].
    + intros Heq. exfalso. by apply (hole_not_root _ _ _ Hwf).
Qed.

End NilValid.

(** *** Counting in sorted lists *)

Lemma filter_all {A} (P : A → Prop) `{∀ x, Decision (P x)} (l : list A) :
  Forall P l → filter P l = l.
Proof.
  induction 1 as [|x l Hx Hl IH]; [done|].
  rewrite filter_cons, decide_True by done. by rewrite IH.
Qed.

Lemma filter_none {A} (P : A → Prop) `{∀ x, Decision (P x)} (l : list A) :
  Forall (λ x, ¬ P x) l → filter P l = [].
Proof.
  induction 1 as [|x l Hx Hl IH]; [done|].
  by rewrite filter_cons, decide_False.
Qed.

Lemma filter_agree {A} (P Q : A → Prop)
    `{∀ x, Decision (P x)} `{∀ x, Decision (Q x)} (l : list A) :
  (∀ x, x ∈ l → P x ↔ Q x) → filter P l = filter Q l.
Proof.
  induction l as [|x l IH]; intros Hpq; [done|].
  rewrite !filter_cons. rewrite IH by (intros; apply Hpq; by right).
  destruct (decide (P x)) as [Hp|Hp], (decide (Q x)) as [Hq|Hq]; try done.
  - exfalso. apply Hq, Hpq; [by left|done].
  - exfalso. apply Hp, Hpq; [by left|done].
Qed.

Lemma wrap_size_add_l x y : wrap_size (wrap_size x + y) = wrap_size (x + y).
Proof. unfold wrap_size. apply Zplus_mod_idemp_l. Qed.

Lemma wrap_size_add_r x y : wrap_size (x + wrap_size y) = wrap_size (x + y).
Proof. unfold wrap_size. apply Zplus_mod_idemp_r. Qed.

Lemma wrap_size_small z : (0 ≤ z < 2 ^ 64)%Z → wrap_size z = z.
Proof. intros. unfold wrap_size. by apply Z.mod_small. Qed.

Lemma wrap_size_idem z : wrap_size (wrap_size z) = wrap_size z.
Proof. unfold wrap_size. apply Z.mod_mod. lia. Qed.

Lemma count_elements t : count t = length (elements t).
Proof.
  induction t as [|c a n l IHl v r IHr]; simpl; [done|].
  rewrite length_app. simpl. lia.
Qed.

Section Counting.
Context (l1 l2 : list Z) (w : Z).
Hypothesis Hsorted : StronglySorted Z.lt (l1 ++ w :: l2).

Lemma sorted_parts :
  Forall (λ y, (y < w)%Z) l1 ∧ Forall (λ y, (w < y)%Z) l2.
Proof. apply sorted_mid in Hsorted. tauto. Qed.

Lemma lt_count_left v : (v ≤ w)%Z → lt_count v (l1 ++ w :: l2) = lt_count v l1.
Proof.
  intros Hv. destruct sorted_parts as [_ H2]. unfold lt_count.
  rewrite filter_app, filter_cons, decide_False by lia.
  rewrite (filter_none _ l2), app_nil_r; [done|].
  eapply Forall_impl; [exact H2|]. simpl. lia.
Qed.

Lemma lt_count_right v :
  (w < v)%Z → lt_count v (l1 ++ w :: l2) = length l1 + 1 + lt_count v l2.
Proof.
  intros Hv. destruct sorted_parts as [H1 _]. unfold lt_count.
  rewrite filter_app, filter_cons, decide_True by lia.
  rewrite (filter_all _ l1), length_app; [simpl; lia|].
  eapply Forall_impl; [exact H1|]. simpl. lia.
Qed.

Lemma lt_count_mid : lt_count w (l1 ++ w :: l2) = length l1.
Proof.
  rewrite lt_count_left by lia. destruct sorted_parts as [H1 _].
  unfold lt_count. by rewrite filter_all.
Qed.

End Counting.

Lemma lt_count_all v l : Forall (λ x, (x < v)%Z) l → lt_count v l = length l.
Proof. intros. unfold lt_count. by rewrite filter_all. Qed.

Lemma le_count_all v l : Forall (λ x, (x ≤ v)%Z) l → le_count v l = length l.
Proof. intros. unfold le_count. by rewrite filter_all. Qed.

Lemma nodes_elements t : (nodes t).*2 = elements t.
Proof.
  induction t as [|c a n l IHl v r IHr]; simpl; [done|].
  by rewrite fmap_app, fmap_cons, IHl, IHr.
Qed.

Lemma nodes_value a w t : (a, w) ∈ nodes t → w ∈ elements t.
Proof.
  intros H. rewrite <- nodes_elements. apply list_elem_of_fmap.
  by exists (a, w).
Qed.

Lemma lb_spec v t : ∀ c,
  bst t →
  (lb v t c = c ∧ Forall (λ x, (x < v)%Z) (elements t)) ∨
  (∃ a w, lb v t c = Some (a, w) ∧ (a, w) ∈ nodes t ∧ (v ≤ w)%Z ∧
          ∀ x, x ∈ elements t → (x < w)%Z → (x < v)%Z).
Proof.
  induction t as [|c0 a n l IHl w r IHr]; intros c Hs; simpl.
  { left. split; [done|constructor]. }
  unfold bst in Hs. simpl in Hs.
  pose proof (sorted_parts _ _ _ Hs) as [H1 H2].
  apply sorted_mid in Hs as (Hs & _ & _).
  apply StronglySorted_app in Hs as (_ & Hsl & Hsr).
  rewrite Forall_forall in H1, H2.
  destruct (w <? v)%Z eqn:Hw; [apply Z.ltb_lt in Hw|apply Z.ltb_ge in Hw].
  - destruct (IHr c Hsr) as [[-> Hall]|(a' & w' & -> & Hin & Hv & Hmin)].
    + left. split; [done|]. rewrite Forall_forall in Hall |- *.
      intros x. rewrite elem_of_app, elem_of_cons.
      intros [Hx|[->|Hx]]; [apply H1 in Hx; lia|lia|by apply Hall].
    + right. exists a', w'. split_and!; auto.
      * rewrite elem_of_app, elem_of_cons. auto.
      * intros x. rewrite elem_of_app, elem_of_cons.
        intros [Hx|[->|Hx]] Hlt; [apply H1 in Hx; lia|lia|by apply Hmin].
  - destruct (IHl (Some (a, w)) Hsl) as [[-> Hall]|(a' & w' & -> & Hin & Hv & Hmin)].
    + right. exists a, w. split_and!; auto.
      * rewrite elem_of_app, elem_of_cons. auto.
      * rewrite Forall_forall in Hall. intros x.
        rewrite elem_of_app, elem_of_cons.
        intros [Hx|[->|Hx]] Hlt; [by apply Hall|lia|apply H2 in Hx; lia].
    + right. exists a', w'. split_and!; auto.
      * rewrite elem_of_app. auto.
      * pose proof (nodes_value _ _ _ Hin) as Hw'. apply H1 in Hw'.
        intros x. rewrite elem_of_app, elem_of_cons.
        intros [Hx|[->|Hx]] Hlt; [by apply Hmin|lia|apply H2 in Hx; lia].
Qed.

Lemma ub_spec v t : ∀ c,
  bst t →
  (ub v t c = c ∧ Forall (λ x, (x ≤ v)%Z) (elements t)) ∨
  (∃ a w, ub v t c = Some (a, w) ∧ (a, w) ∈ nodes t ∧ (v < w)%Z ∧
          ∀ x, x ∈ elements t → (x < w)%Z → (x ≤ v)%Z).
Proof.
  induction t as [|c0 a n l IHl w r IHr]; intros c Hs; simpl.
  { left. split; [done|constructor]. }
  unfold bst in Hs. simpl in Hs.
  pose proof (sorted_parts _ _ _ Hs) as [H1 H2].
  apply sorted_mid in Hs as (Hs & _ & _).
  apply StronglySorted_app in Hs as (_ & Hsl & Hsr).
  rewrite Forall_forall in H1, H2.
  destruct (v <? w)%Z eqn:Hw; [apply Z.ltb_lt in Hw|apply Z.ltb_ge in Hw].
  - destruct (IHl (Some (a, w)) Hsl) as [[-> Hall]|(a' & w' & -> & Hin & Hv & Hmin)].
    + right. exists a, w. split_and!; auto.
      * rewrite elem_of_app, elem_of_cons. auto.
      * rewrite Forall_forall in Hall. intros x.
        rewrite elem_of_app, elem_of_cons.
        intros [Hx|[->|Hx]] Hlt; [by apply Hall|lia|apply H2 in Hx; lia].
    + right. exists a', w'. split_and!; auto.
      * rewrite elem_of_app. auto.
      * pose proof (nodes_value _ _ _ Hin) as Hw'. apply H1 in Hw'.
        intros x. rewrite elem_of_app, elem_of_cons.
        intros [Hx|[->|Hx]] Hlt; [by apply Hmin|lia|apply H2 in Hx; lia].
  - destruct (IHr c Hsr) as [[-> Hall]|(a' & w' & -> & Hin & Hv & Hmin)].
    + left. split; [done|]. rewrite Forall_forall in Hall |- *.
      intros x. rewrite elem_of_app, elem_of_cons.
      intros [Hx|[->|Hx]]; [apply H1 in Hx; lia|lia|by apply Hall].
    + right. exists a', w'. split_and!; auto.
      * rewrite elem_of_app, elem_of_cons. auto.
      * intros x. rewrite elem_of_app, elem_of_cons.
        intros [Hx|[->|Hx]] Hlt; [apply H1 in Hx; lia|lia|by apply Hmin].
Qed.

Module NilQuery.
Import NilTree NilRep NilRep1 NilRep2 NilRep3 NilRep4 NilRep5 NilRep6 NilRep7 NilRep8 NilRep9 NilTop.
Local Arguments plug : simpl never.
Local Arguments fuel_of : simpl never.

Lemma wrap_size_node x y :
  wrap_size (wrap_size (1 + wrap_size x) + wrap_size y) = wrap_size (1 + x + y).
Proof.
  rewrite wrap_size_add_l, wrap_size_add_r.
  replace (1 + wrap_size x + y)%Z with (wrap_size x + (1 + y))%Z by lia.
  rewrite wrap_size_add_l. f_equal. lia.
Qed.

Lemma wrap_size_step c x y :
  wrap_size (wrap_size (c + wrap_size (x + 1)) + y) = wrap_size (c + x + 1 + y).
Proof.
  rewrite wrap_size_add_l.
  replace (c + wrap_size (x + 1) + y)%Z with (c + y + wrap_size (x + 1))%Z by lia.
  rewrite wrap_size_add_r. f_equal. lia.
Qed.

Lemma subtree_size_rep s t : ∀ par fuel,
  rep_t mk (heap s) par t → height t < fuel →
  subtree_size fuel s (ptr_of t) = Some (wrap_size (Z.of_nat (count t))).
Proof.
  induction t as [|c a n l IHl v r IHr]; intros par fuel Hrep Hf;
    (destruct fuel as [|fuel]; [lia|]); [done|].
  destruct Hrep as (Ha & Hl & Hr). simpl in Hf.
  cbn [subtree_size ptr_of is_nil].
  erewrite left_child_heap, right_child_heap by eassumption.
  cbn [mbind option_bind base left_ right_ mk].
  rewrite (IHl (Some a)) by (done || lia). cbn [mbind option_bind].
  rewrite (IHr (Some a)) by (done || lia). cbn [mbind option_bind].
  f_equal. rewrite wrap_size_node. f_equal. simpl. lia.
Qed.

Lemma size_rep s t :
  Rep s t → size s = Some (wrap_size (Z.of_nat (length (elements t)))).
Proof.
  intros H. pose proof (Rep_fuel _ _ H) as Hf.
  destruct H as (Hroot & _ & Hrep & _). unfold size.
  rewrite Hroot, (subtree_size_rep _ _ _ _ Hrep Hf), count_elements. done.
Qed.

Lemma order_statistics_loop_rep s target t : ∀ par fuel cnt,
  rep_t mk (heap s) par t → wf t → bst t → height t < fuel →
  wrap_size cnt = cnt →
  order_statistics_loop fuel s target (ptr_of t) cnt
  = Some (wrap_size (cnt + Z.of_nat (lt_count target (elements t)))).
Proof.
  induction t as [|c a n l IHl w r IHr];
    intros par fuel cnt Hrep Hwf Hs Hf Hcnt;
    (destruct fuel as [|fuel]; [lia|]).
  { cbn. by rewrite Z.add_0_r, Hcnt. }
  destruct Hrep as (Ha & Hl & Hr). simpl in Hf.
  destruct Hwf as (_ & _ & _ & Hwl & Hwr).
  unfold bst in Hs. simpl in Hs.
  pose proof Hs as Hs0.
  apply sorted_mid in Hs0 as (Hs0 & _ & _).
  apply StronglySorted_app in Hs0 as (_ & Hsl & Hsr).
  cbn [order_statistics_loop ptr_of is_nil elements].
  erewrite value_heap by eassumption. cbn [mbind option_bind value_ mk].
  erewrite left_child_heap by eassumption.
  cbn [mbind option_bind base left_ right_ mk].
  destruct (target <? w)%Z eqn:Hlt; [apply Z.ltb_lt in Hlt|apply Z.ltb_ge in Hlt].
  { rewrite (IHl (Some a)) by (done || lia).
    rewrite (lt_count_left _ _ _ Hs) by lia. done. }
  rewrite (subtree_size_rep _ _ _ _ Hl) by (by eapply rep_t_fuel).
  cbn [mbind option_bind]. rewrite count_elements.
  destruct (w <? target)%Z eqn:Hgt; [apply Z.ltb_lt in Hgt|apply Z.ltb_ge in Hgt].
  - erewrite right_child_heap by eassumption.
    cbn [mbind option_bind base left_ right_ mk].
    rewrite (IHr (Some a)) by (done || lia || apply wrap_size_idem).
    rewrite (lt_count_right _ _ _ Hs) by lia.
    f_equal. rewrite (wrap_size_add_l (Z.of_nat _) 1), wrap_size_step.
    f_equal. lia.
  - assert (target = w) as -> by lia.
    rewrite (lt_count_mid _ _ _ Hs). f_equal. by rewrite wrap_size_add_r.
Qed.

(** Every node of the tree is in the heap with its value. *)
Lemma nodes_rep s par t a w :
  rep_t mk (heap s) par t → (a, w) ∈ nodes t → value s (Some a) = Some w.
Proof.
  revert par. induction t as [|c b n l IHl v r IHr]; intros par Hrep Hin;
    simpl in *.
  - by apply elem_of_nil in Hin.
  - destruct Hrep as (Hb & Hl & Hr).
    apply elem_of_app in Hin as [Hin|Hin]; [by eapply IHl|].
    apply elem_of_cons in Hin as [[= -> ->]|Hin]; [|by eapply IHr].
    by erewrite value_heap by eassumption.
Qed.

Lemma order_statistics_rep s t a w :
  Rep s t → bst t → (a, w) ∈ nodes t →
  order_statistics s (Some a)
  = Some (wrap_size (Z.of_nat (lt_count w (elements t)))).
Proof.
  intros H Hs Hin. pose proof (Rep_fuel _ _ H) as Hf.
  destruct H as (Hroot & Hwf & Hrep & _). unfold order_statistics.
  rewrite (nodes_rep _ _ _ _ _ Hrep Hin). cbn [mbind option_bind].
  rewrite Hroot.
  rewrite (order_statistics_loop_rep _ _ _ _ _ _ Hrep Hwf Hs Hf) by done.
  done.
Qed.

Lemma rank_lower_loop_rep s v t : ∀ par fuel c,
  rep_t mk (heap s) par t → height t < fuel →
  rank_lower_loop fuel s v (ptr_of t) (fst <$> c) = Some (fst <$> lb v t c).
Proof.
  induction t as [|c0 a n l IHl w r IHr]; intros par fuel c Hrep Hf;
    (destruct fuel as [|fuel]; [lia|]); [done|].
  destruct Hrep as (Ha & Hl & Hr). simpl in Hf.
  cbn [rank_lower_loop ptr_of is_nil lb].
  erewrite value_heap by eassumption. cbn [mbind option_bind value_ mk].
  destruct (w <? v)%Z.
  - erewrite right_child_heap by eassumption.
    cbn [mbind option_bind base left_ right_ mk].
    apply (IHr (Some a)); [done|lia].
  - erewrite left_child_heap by eassumption.
    cbn [mbind option_bind base left_ right_ mk].
    apply (IHl (Some a) fuel (Some (a, w))); [done|lia].
Qed.

Lemma rank_upper_loop_rep s v t : ∀ par fuel c,
  rep_t mk (heap s) par t → height t < fuel →
  rank_upper_loop fuel s v (ptr_of t) (fst <$> c) = Some (fst <$> ub v t c).
Proof.
  induction t as [|c0 a n l IHl w r IHr]; intros par fuel c Hrep Hf;
    (destruct fuel as [|fuel]; [lia|]); [done|].
  destruct Hrep as (Ha & Hl & Hr). simpl in Hf.
  cbn [rank_upper_loop ptr_of is_nil ub].
  erewrite value_heap by eassumption. cbn [mbind option_bind value_ mk].
  destruct (v <? w)%Z.
  - erewrite left_child_heap by eassumption.
    cbn [mbind option_bind base left_ right_ mk].
    apply (IHl (Some a) fuel (Some (a, w))); [done|lia].
  - erewrite right_child_heap by eassumption.
    cbn [mbind option_bind base left_ right_ mk].
    apply (IHr (Some a)); [done|lia].
Qed.

Lemma rank_lower_bound_rep s t v :
  Rep s t → bst t →
  rank_lower_bound s v
  = Some (wrap_size (Z.of_nat (lt_count v (elements t)))).
Proof.
  intros H Hs. pose proof (Rep_fuel _ _ H) as Hf.
  pose proof H as (Hroot & Hwf & Hrep & _). unfold rank_lower_bound.
  rewrite Hroot.
  pose proof (rank_lower_loop_rep s v t None _ None Hrep Hf) as Hloop.
  cbn [fmap option_fmap option_map] in Hloop. unfold nil. rewrite Hloop.
  cbn [mbind option_bind].
  destruct (lb_spec v t None Hs) as [[-> Hall]|(a & w & -> & Hin & Hv & Hmin)].
  - cbn. rewrite (size_rep _ _ H), lt_count_all by done. done.
  - cbn [fmap option_fmap option_map fst].
    rewrite decide_False by done.
    rewrite (order_statistics_rep _ _ _ _ H Hs Hin). do 3 f_equal.
    unfold lt_count. f_equal. apply filter_agree. intros x Hx.
    split; [by apply Hmin|lia].
Qed.

Lemma rank_upper_bound_rep s t v :
  Rep s t → bst t →
  rank_upper_bound s v
  = Some (wrap_size (Z.of_nat (le_count v (elements t)))).
Proof.
  intros H Hs. pose proof (Rep_fuel _ _ H) as Hf.
  pose proof H as (Hroot & Hwf & Hrep & _). unfold rank_upper_bound.
  rewrite Hroot.
  pose proof (rank_upper_loop_rep s v t None _ None Hrep Hf) as Hloop.
  cbn [fmap option_fmap option_map] in Hloop. unfold nil. rewrite Hloop.
  cbn [mbind option_bind].
  destruct (ub_spec v t None Hs) as [[-> Hall]|(a & w & -> & Hin & Hv & Hmin)].
  - cbn. rewrite (size_rep _ _ H), le_count_all by done. done.
  - cbn [fmap option_fmap option_map fst].
    rewrite decide_False by done.
    rewrite (order_statistics_rep _ _ _ _ H Hs Hin). do 3 f_equal.
    unfold lt_count, le_count. f_equal. apply filter_agree. intros x Hx.
    split; [by apply Hmin|lia].
Qed.

Lemma locate_rep s t v :
  Rep s t → bst t →
  ∃ r, locate s v = Some r ∧ lr_exists r = bool_decide (v ∈ elements t).
Proof.
  intros H Hs. pose proof (Rep_fuel _ _ H) as Hf.
  destruct H as (Hroot & Hwf & Hrep & _). unfold locate.
  destruct (descend v t []) as [t0 k] eqn:Hd. rewrite Hroot.
  pose proof (locate_loop_spec s v t [] _ t0 k Hrep Hd Hf) as Hloc.
  cbn [hole_par go_top] in Hloc. unfold nil. rewrite Hloc.
  eexists; split; [done|].
  pose proof (descend_mem _ _ _ _ Hs Hd) as Hm.
  destruct t0; simpl.
  - rewrite bool_decide_eq_false_2; [done|]. intros Hv. by apply Hm in Hv.
  - rewrite bool_decide_eq_true_2; [done|]. by apply Hm.
Qed.

Lemma distance_rep s t first second :
  Rep s t → bst t →
  distance s first second =
  Some (if bool_decide (first ∈ elements t) && bool_decide (second ∈ elements t)
        then
          let r1 := wrap_size (Z.of_nat (lt_count first (elements t))) in
          let r2 := wrap_size (Z.of_nat (lt_count second (elements t))) in
          if (r2 <=? r1)%Z then 0%Z else wrap_size (r2 - r1)
        else SIZE_MAX).
Proof.
  intros H Hs. unfold distance.
  destruct (locate_rep s t first H Hs) as (r1 & -> & He1).
  destruct (locate_rep s t second H Hs) as (r2 & -> & He2).
  cbn [mbind option_bind]. rewrite He1, He2.
  rewrite !(rank_lower_bound_rep _ _ _ H Hs).
  destruct (bool_decide (first ∈ elements t)),
    (bool_decide (second ∈ elements t)); cbn; try done.
  by case_match.
Qed.

Lemma distance_from_root_rep s t v :
  Rep s t → bst t →
  distance_from_root s v =
  Some (if bool_decide (v ∈ elements t)
        then wrap_size (Z.of_nat (lt_count v (elements t)))
        else SIZE_MAX).
Proof.
  intros H Hs. unfold distance_from_root.
  destruct (locate_rep s t v H Hs) as (r1 & -> & He1).
  cbn [mbind option_bind]. rewrite He1.
  rewrite !(rank_lower_bound_rep _ _ _ H Hs).
  by destruct (bool_decide (v ∈ elements t)).
Qed.

End NilQuery.

(** A strictly sorted list of integers of a range is no longer than the
    range. *)
Lemma sorted_length_bound (l : list Z) : ∀ lo hi,
  StronglySorted Z.lt l → Forall (λ x, (lo ≤ x ≤ hi)%Z) l →
  (Z.of_nat (length l) ≤ Z.max 0 (hi - lo + 1))%Z.
Proof.
  induction l as [|x l IH]; intros lo hi Hs Hb; simpl; [lia|].
  apply StronglySorted_inv in Hs as [Hs Hx].
  apply Forall_cons in Hb as [Hxb Hb].
  assert (Forall (λ y, (x + 1 ≤ y ≤ hi)%Z) l) as Hb'.
  { rewrite Forall_forall in Hx, Hb |- *. intros y Hy.
    specialize (Hx y Hy). specialize (Hb y Hy). lia. }
  specialize (IH (x + 1)%Z hi Hs Hb'). lia.
Qed.

Lemma le_count_range (l : list Z) (lo hi : Z) :
  (lo ≤ hi)%Z →
  le_count hi l = le_count lo l + length (filter (λ x, (lo < x ≤ hi)%Z) l).
Proof.
  intros Hle. unfold le_count. induction l as [|x l IH]; [done|].
  rewrite !filter_cons.
  destruct (decide (x ≤ hi)%Z), (decide (x ≤ lo)%Z),
    (decide (lo < x ≤ hi)%Z); simpl; lia.
Qed.

Lemma sorted_NoDup (l : list Z) : StronglySorted Z.lt l → NoDup l.
Proof.
  induction 1 as [|x l Hs IH Hx]; constructor; [|done].
  rewrite Forall_forall in Hx. intros Hin. apply Hx in Hin. lia.
Qed.

Module CliFacts.
Import NilTree NilRep NilRep1 NilRep5 NilTop NilQuery Cli CliSpec.
Local Arguments fuel_of : simpl never.

Lemma read_int_range input z rest :
  read_int input = Some (z, rest) → in_int z ∧ length rest < length input.
Proof.
  destruct input as [|[c|z'] input]; simpl; try done.
  destruct (_ && _) eqn:Hr; [|done]. intros [= -> ->].
  apply andb_prop in Hr as [H1 H2]. unfold in_int. simpl. lia.
Qed.

Lemma read_char_length input c rest :
  read_char input = Some (c, rest) → length rest < length input.
Proof.
  destruct input as [|[c'|z'] input]; simpl; try done.
  - intros [= -> ->]. lia.
  - destruct (pretty z'); [done|]. intros [= -> ->]. lia.
Qed.

Lemma CliGood_insert s t key :
  CliGood s t → in_int key →
  ∃ b s' t', insert key s = Some (b, s') ∧ CliGood s' t' ∧
             ∀ x, x ∈ elements t' ↔ x = key ∨ x ∈ elements t.
Proof.
  intros [HG Hb] Hk.
  destruct (Good_insert s t key HG) as (b & s' & t' & Hins & HG' & Hp & Ha).
  destruct (decide (key ∈ elements t)) as [Hin|Hin].
  - destruct (Hp Hin) as [-> ->]. exists false, s, t. split_and!; try done.
    intros x. split; [auto|]. by intros [->|].
  - destruct (Ha Hin) as (-> & Hel & _). exists true, s', t'.
    split; [done|]. split; [|done]. split; [done|].
    rewrite Forall_forall in Hb |- *.
    intros x Hx. apply Hel in Hx as [->|Hx]; auto.
Qed.

Lemma handle_query_good s t left_bound right_bound first_output out :
  CliGood s t →
  handle_query s left_bound right_bound first_output out =
  Some (false,
        (if first_output then out else out +:+ " ") +:+
        pretty (query_count (elements t) left_bound right_bound)).
Proof.
  intros [(HI & Hrb & Hs) Hb]. destruct HI as [HR _].
  unfold handle_query, query_count.
  assert (∀ v, (0 ≤ Z.of_nat (le_count v (elements t)) < 2 ^ 64)%Z) as Hsmall.
  { intros v. pose proof (sorted_length_bound _ _ _ Hs Hb) as Hlen.
    assert (le_count v (elements t) ≤ length (elements t)) as Hle
      by apply length_filter.
    unfold INT_MIN, INT_MAX in Hlen. lia. }
  destruct (left_bound <? right_bound)%Z eqn:Hlt; [|done].
  apply Z.ltb_lt in Hlt.
  rewrite !(rank_upper_bound_rep _ _ _ HR Hs). cbn [mbind option_bind].
  rewrite !wrap_size_small by apply Hsmall.
  rewrite (le_count_range _ left_bound right_bound) by lia.
  set (m := le_count left_bound _). set (d := length _).
  destruct (Z.of_nat m <? Z.of_nat (m + d))%Z eqn:Hd;
    [apply Z.ltb_lt in Hd|apply Z.ltb_ge in Hd]; cbn [mbind option_bind].
  - rewrite wrap_size_small.
    + do 4 f_equal. lia.
    + specialize (Hsmall right_bound).
      rewrite (le_count_range _ left_bound right_bound) in Hsmall by lia.
      fold m d in Hsmall. lia.
  - do 4 f_equal. lia.
Qed.

Lemma CliGood_empty : CliGood empty_tree E.
Proof. split; [apply Good_empty|constructor]. Qed.

Lemma run_inserts_good keys : ∀ s t,
  CliGood s t → Forall in_int keys →
  ∃ s' t', run (Insert <$> keys) s = Some s' ∧ CliGood s' t'.
Proof.
  induction keys as [|key keys IH]; intros s t HG Hk; [by exists s, t|].
  apply Forall_cons in Hk as [Hkey Hk].
  destruct (CliGood_insert s t key HG Hkey) as (b & s1 & t1 & Hins & HG1 & _).
  destruct (IH s1 t1 HG1 Hk) as (s' & t' & Hrun & HG').
  exists s', t'. split; [|done]. cbn [fmap list_fmap run apply_op].
  rewrite Hins. exact Hrun.
Qed.

Lemma query_count_perm keys keys' left_bound right_bound :
  keys ≡ₚ keys' →
  query_count keys left_bound right_bound
  = query_count keys' left_bound right_bound.
Proof. intros Hp. unfold query_count. by rewrite Hp. Qed.

Lemma run_loop_spec fuel : ∀ input s t keys first_output out,
  CliGood s t → keys ≡ₚ elements t → length input < fuel →
  run_loop fuel input s first_output out
  = Some (spec_loop fuel input keys first_output out).
Proof.
  induction fuel as [|fuel IH]; intros input s t keys fo out HG Hp Hf; [lia|].
  cbn [run_loop spec_loop].
  destruct (read_char input) as [[action input1]|] eqn:Hc; [|done].
  apply read_char_length in Hc.
  destruct (decide (action = "k"%char)) as [_|_].
  { destruct (read_int input1) as [[key input2]|] eqn:Hk; [|done].
    apply read_int_range in Hk as [Hkey Hlen].
    destruct (CliGood_insert s t key HG Hkey) as (b & s1 & t1 & -> & HG1 & Hel).
    cbn [mbind option_bind]. apply (IH _ _ t1); [done| |lia].
    destruct HG as [(_ & _ & Hs) _]. destruct HG1 as [(_ & _ & Hs1) _].
    apply NoDup_Permutation.
    - case_decide; [by rewrite Hp; apply sorted_NoDup|].
      apply NoDup_cons. split; [done|]. rewrite Hp. by apply sorted_NoDup.
    - by apply sorted_NoDup.
    - intros x. rewrite Hel. case_decide as Hin.
      + rewrite Hp. split; [auto|]. intros [->|]; [by rewrite <- Hp|done].
      + rewrite elem_of_cons, Hp. done. }
  destruct (decide (action = "q"%char)) as [_|_]; [|done].
  destruct (read_int input1) as [[left_bound input2]|] eqn:Hl; [|done].
  apply read_int_range in Hl as [_ Hlen2].
  destruct (read_int input2) as [[right_bound input3]|] eqn:Hr; [|done].
  apply read_int_range in Hr as [_ Hlen3].
  rewrite (handle_query_good _ _ _ _ _ _ HG). cbn [mbind option_bind].
  rewrite (query_count_perm _ _ _ _ Hp).
  apply (IH _ _ t); [done|done|lia].
Qed.

Lemma run_cli_spec input : run_cli input = Some (spec_cli input).
Proof.
  unfold run_cli, spec_cli.
  apply (run_loop_spec _ _ _ E); [apply CliGood_empty|done|lia].
Qed.

End CliFacts.

Lemma up_up aug k n1 n2 : up aug (up aug k n1) n2 = up aug k n2.
Proof.
  revert n1 n2. induction k as [|[d c a m v w] k IH]; intros n1 n2; simpl;
    [done|].
  destruct aug, d; simpl; by rewrite IH.
Qed.

Module SizeRep1.
Import SizeTree SizeRep.
Local Arguments plug : simpl never.

Section Prims.
Context (s : Tree) (a : addr) (nd : Node) (Hnd : heap s !! a = Some nd).

Lemma sz_load_heap : load s (Some a) = Some (base nd).
Proof. unfold load. by rewrite Hnd. Qed.
Lemma sz_color_heap : color s (Some a) = Some (color_ (base nd)).
Proof. unfold color. by rewrite sz_load_heap. Qed.
Lemma sz_left_child_heap : left_child s (Some a) = Some (left_ (base nd)).
Proof. unfold left_child. by rewrite sz_load_heap. Qed.
Lemma sz_right_child_heap : right_child s (Some a) = Some (right_ (base nd)).
Proof. unfold right_child. by rewrite sz_load_heap. Qed.
Lemma sz_parent_heap : parent s (Some a) = Some (parent_ (base nd)).
Proof. unfold parent. by rewrite sz_load_heap. Qed.
Lemma sz_subtree_size_heap :
  subtree_size s (Some a) = Some (subtree_size_ (base nd)).
Proof. unfold subtree_size. by rewrite sz_load_heap. Qed.
Lemma sz_value_heap : value s (Some a) = Some (value_ nd).
Proof. unfold value. by rewrite Hnd. Qed.

Lemma sz_set_color_heap c :
  set_color (Some a) c s =
  Some (put s a nd (mkBase c (left_ (base nd)) (right_ (base nd))
                      (parent_ (base nd)) (subtree_size_ (base nd)))).
Proof. unfold set_color, load, store, put. by rewrite Hnd. Qed.
Lemma sz_set_left_child_heap p :
  set_left_child (Some a) p s =
  Some (put s a nd (mkBase (color_ (base nd)) p (right_ (base nd))
                      (parent_ (base nd)) (subtree_size_ (base nd)))).
Proof. unfold set_left_child, load, store, put. by rewrite Hnd. Qed.
Lemma sz_set_right_child_heap p :
  set_right_child (Some a) p s =
  Some (put s a nd (mkBase (color_ (base nd)) (left_ (base nd)) p
                      (parent_ (base nd)) (subtree_size_ (base nd)))).
Proof. unfold set_right_child, load, store, put. by rewrite Hnd. Qed.
Lemma sz_set_parent_heap p :
  set_parent (Some a) p s =
  Some (put s a nd (mkBase (color_ (base nd)) (left_ (base nd))
                      (right_ (base nd)) p (subtree_size_ (base nd)))).
Proof. unfold set_parent, load, store, put. by rewrite Hnd. Qed.
Lemma sz_set_subtree_size_heap n :
  set_subtree_size (Some a) n s =
  Some (put s a nd (mkBase (color_ (base nd)) (left_ (base nd))
                      (right_ (base nd)) (parent_ (base nd)) n)).
Proof. unfold set_subtree_size, load, store, put. by rewrite Hnd. Qed.
End Prims.

Global Arguments load : simpl never.
Global Arguments store : simpl never.
Global Arguments color : simpl never.
Global Arguments left_child : simpl never.
Global Arguments right_child : simpl never.
Global Arguments parent : simpl never.
Global Arguments subtree_size : simpl never.
Global Arguments value : simpl never.
Global Arguments set_color : simpl never.
Global Arguments set_left_child : simpl never.
Global Arguments set_right_child : simpl never.
Global Arguments set_parent : simpl never.
Global Arguments set_subtree_size : simpl never.
Global Arguments fuel_of : simpl never.
Global Arguments update_size_upwards : simpl never.

Lemma node_size_rep s p t :
  rep_t mk (heap s) p t → node_size s (ptr_of t) = Some (n_of t).
Proof.
  destruct t as [|c a n l v r]; [done|]. intros (Ha & _).
  unfold node_size. simpl. by erewrite sz_subtree_size_heap by eassumption.
Qed.

Lemma sz_color_of_rep s p t :
  rep_t mk (heap s) p t → color_of s (ptr_of t) = Some (Abs.color_of t).
Proof.
  destruct t as [|c a n l v r]; [done|]. intros (Ha & _).
  unfold color_of. simpl. by erewrite sz_color_heap by eassumption.
Qed.

Lemma node_size_some s a : node_size s (Some a) = subtree_size s (Some a).
Proof. done. Qed.
Lemma node_size_none s : node_size s None = Some 0%Z.
Proof. done. Qed.

Ltac ne_tac := first [ assumption | apply not_eq_sym; assumption ].

Ltac ptr_ne :=
  solve [ discriminate
        | apply not_in_ptr_of; atom
        | apply not_eq_sym, not_in_ptr_of; atom
        | let HH := fresh in intros [= HH]; revert HH; ne_tac ].

Ltac lookup_tac :=
  simpl;
  repeat first [ rewrite lookup_insert_eq; reflexivity
               | rewrite lookup_insert_ne by ne_tac ];
  first [ reflexivity | eassumption ].

Ltac eframe_rep :=
  repeat first [ apply rep_t_insert_ne; [atom|]
               | apply rep_k_insert_ne; [rewrite ?(addrs_k_up true); atom|] ];
  eassumption.

Ltac prim_step :=
  first
  [ erewrite sz_left_child_heap by lookup_tac
  | erewrite sz_right_child_heap by lookup_tac
  | erewrite sz_parent_heap by lookup_tac
  | erewrite sz_color_heap by lookup_tac
  | erewrite sz_value_heap by lookup_tac
  | erewrite sz_subtree_size_heap by lookup_tac
  | erewrite sz_set_color_heap by lookup_tac
  | erewrite sz_set_left_child_heap by lookup_tac
  | erewrite sz_set_right_child_heap by lookup_tac
  | erewrite sz_set_parent_heap by lookup_tac
  | erewrite sz_set_subtree_size_heap by lookup_tac
  | erewrite node_size_rep by (simpl; eframe_rep)
  | rewrite node_size_some
  | rewrite node_size_none
  | rewrite decide_True by reflexivity
  | rewrite decide_False by ptr_ne
  | rewrite bool_decide_eq_true_2 by reflexivity
  | rewrite bool_decide_eq_false_2 by ptr_ne ];
  unfold put; simpl.

Ltac solve_rep :=
  simpl; repeat split;
  first [ done | solve [lookup_tac] | eframe_rep ].

Ltac rep_open H :=
  let Hroot := fresh "Hroot" in
  let Hwf := fresh "Hwf" in
  let Hrep := fresh "Hrep" in
  destruct H as (Hroot & Hwf & Hrep);
  apply rep_plug in Hrep; apply wf_plug in Hwf;
  simpl in Hwf, Hrep; unfold frame_node in Hrep; simpl in Hrep;
  rewrite ?(addrs_k_up true), ?(wf_k_up true) in Hwf;
  rewrite ?(hole_par_up true) in Hrep;
  atomize.

Ltac rep_copy H := let H' := fresh "H" in pose proof H as H'; rep_open H'.

Ltac rep_close0 :=
  split; [first [done | simpl; etrans; [eassumption|]; rewrite ?plug_cons; apply ptr_of_plug_eq; reflexivity]|];
  split; [apply wf_plug; simpl;
          rewrite ?(addrs_k_up true), ?(wf_k_up true); solve_atoms|];
  apply rep_plug; unfold frame_node; simpl; rewrite ?(hole_par_up true);
  solve_rep.

Ltac rep_close :=
  lazymatch goal with
  | |- Rep _ (plug _ _) => rep_close0
  | |- Rep ?s ?t => change (Rep s (plug t [])); rep_close0
  end.

Lemma sz_Rep_dom s t : Rep s t → addrs t ⊆ dom (heap s).
Proof. intros (_ & _ & H). by eapply rep_t_dom. Qed.

Lemma sz_Rep_fuel s t : Rep s t → height t < fuel_of s.
Proof.
  intros H. pose proof (sz_Rep_dom _ _ H) as Hd. destruct H as (_ & Hwf & _).
  apply subseteq_size in Hd. rewrite (count_addrs t Hwf), size_dom in Hd.
  pose proof (height_le_count t). unfold fuel_of. lia.
Qed.

Lemma update_size_upwards_S fuel node s :
  update_size_upwards (S fuel) node s =
  if is_nil node then Some s
  else
    s ← recalc_size node s;
    p ← parent s node;
    update_size_upwards fuel p s.
Proof. reflexivity. Qed.

(** [update_size_upwards] from the parent of a position recomputes the
    sizes along the path to the root. *)
Lemma update_size_upwards_spec k : ∀ t s fuel,
  Rep s (plug t k) → length k < fuel →
  ∃ s', update_size_upwards fuel (hole_par k) s = Some s' ∧
        Rep s' (plug t (up true k (n_of t))) ∧ root_ s' = root_ s ∧
        ∀ b, b ∉ addrs_k k → heap s' !! b = heap s !! b.
Proof.
  induction k as [|[d c a n v w] k IH]; intros t s fuel H Hf;
    (destruct fuel as [|fuel]; [simpl in Hf; lia|]);
    rewrite update_size_upwards_S.
  { simpl. eauto. }
  simpl in Hf. cbn [hole_par is_nil fa]. destruct s as [rt h].
  rep_copy H. unfold recalc_size. simpl.
  destruct d; simpl in *.
  - repeat prim_step.
    match goal with
    | |- context [update_size_upwards fuel (hole_par k) ?S] =>
        destruct (IH (T c a (upd true n (n_of t) (n_of w)) t v w) S fuel)
          as (s' & Hup & HR & Hroot' & Hfr); [rep_close|lia|]
    end.
    exists s'. split; [done|]. split; [|split; [by rewrite Hroot'|]].
    + rewrite plug_cons. exact HR.
    + intros b Hb. rewrite Hfr by set_solver. simpl.
      rewrite lookup_insert_ne; [done|]. set_solver.
  - repeat prim_step.
    match goal with
    | |- context [update_size_upwards fuel (hole_par k) ?S] =>
        destruct (IH (T c a (upd true n (n_of w) (n_of t)) w v t) S fuel)
          as (s' & Hup & HR & Hroot' & Hfr); [rep_close|lia|]
    end.
    exists s'. split; [done|]. split; [|split; [by rewrite Hroot'|]].
    + rewrite plug_cons. exact HR.
    + intros b Hb. rewrite Hfr by set_solver. simpl.
      rewrite lookup_insert_ne; [done|]. set_solver.
Qed.

Lemma update_size_upwards_rep k t s :
  Rep s (plug t k) →
  ∃ s', update_size_upwards (fuel_of s) (hole_par k) s = Some s' ∧
        Rep s' (plug t (up true k (n_of t))) ∧ root_ s' = root_ s ∧
        ∀ b, b ∉ addrs_k k → heap s' !! b = heap s !! b.
Proof.
  intros H. apply update_size_upwards_spec; [done|].
  pose proof (sz_Rep_fuel _ _ H). pose proof (height_plug k t). lia.
Qed.

(** Run [update_size_upwards] on the state at hand, laid out as
    [plug t k]. *)
Ltac upd_at t k :=
  match goal with
  | |- context [update_size_upwards (fuel_of ?S) _ ?S] =>
      let Hmid := fresh "Hmid" in
      assert (Hmid : Rep S (plug t k)) by rep_close;
      let s1 := fresh "s" in
      let Hu := fresh "Hup" in
      let H1 := fresh "HRep" in
      let Hr := fresh "Hroot" in
      let Hf := fresh "Hframe" in
      destruct (update_size_upwards_rep k t S Hmid)
        as (s1 & Hu & H1 & Hr & Hf);
      simpl in Hu, Hr, Hf; rewrite Hu; simpl; clear Hmid Hu
  end.

Lemma sz_rotate_spec s d t t' k a :
  Rep s (plug t k) → ptr_of t = Some a → rot true d t = Some t' →
  ∃ s', rotate (Some a) d s = Some s' ∧
        Rep s' (plug t' (up true k (n_of t'))).
Proof.
  intros H Ha Hrot. destruct s as [rt h].
  destruct d, t as [|c a0 n [|c1 a1 n1 l1 v1 r1] v [|c2 a2 n2 l2 v2 r2]];
    simpl in Hrot, Ha; simplify_eq.
  - (* left, no left child *)
    destruct k as [|[d pc pa pn pv ps] k]; destruct l2 as [|lc la ln ll lv lr].
    all: rep_copy H.
    all: unfold rotate, recalc_size; simpl.
    all: try destruct d; simpl in *.
    all: repeat prim_step.
    all: match goal with
         | H : Rep _ (plug _ ?K) |- context [Rep _ (plug ?T _)] => upd_at T K
         end.
    all: eauto.
  - destruct k as [|[d pc pa pn pv ps] k]; destruct l2 as [|lc la ln ll lv lr].
    all: rep_copy H.
    all: unfold rotate, recalc_size; simpl.
    all: try destruct d; simpl in *.
    all: repeat prim_step.
    all: match goal with
         | H : Rep _ (plug _ ?K) |- context [Rep _ (plug ?T _)] => upd_at T K
         end.
    all: eauto.
  - destruct k as [|[d pc pa pn pv ps] k]; destruct r1 as [|lc la ln ll lv lr].
    all: rep_copy H.
    all: unfold rotate, recalc_size; simpl.
    all: try destruct d; simpl in *.
    all: repeat prim_step.
    all: match goal with
         | H : Rep _ (plug _ ?K) |- context [Rep _ (plug ?T _)] => upd_at T K
         end.
    all: eauto.
  - destruct k as [|[d pc pa pn pv ps] k]; destruct r1 as [|lc la ln ll lv lr].
    all: rep_copy H.
    all: unfold rotate, recalc_size; simpl.
    all: try destruct d; simpl in *.
    all: repeat prim_step.
    all: match goal with
         | H : Rep _ (plug _ ?K) |- context [Rep _ (plug ?T _)] => upd_at T K
         end.
    all: eauto.
Qed.

End SizeRep1.

Module SizeRep2.
Import SizeTree SizeRep SizeRep1.
Local Arguments plug : simpl never.

(** Apply the specification of [rotate] to the state at hand, laid out
    as [plug t k]. *)
Ltac rot_at t k :=
  match goal with
  | |- context [rotate (Some ?a) ?d ?S] =>
      let Hmid := fresh "Hmid" in
      assert (Hmid : Rep S (plug t k)) by rep_close;
      let s1 := fresh "s" in
      let Hr := fresh "Hrot" in
      let H1 := fresh "HRep" in
      destruct (sz_rotate_spec S d t _ k a Hmid eq_refl eq_refl)
        as (s1 & Hr & H1);
      rewrite Hr; simpl in H1 |- *; clear Hmid Hr
  end.

Lemma fix_insert_inner_child_spec s c a n l v r f1 f2 k2 t' :
  Rep s (plug (T c a n l v r) (f1 :: f2 :: k2)) →
  rebalance true (T c a n l v r) f1 f2 k2 = Some t' →
  ∃ s', fix_insert_inner_child (Some a) s = Some s' ∧ Rep s' t'.
Proof.
  intros H Hreb. destruct s as [rt h].
  destruct f1 as [d1 c1 a1 n1 v1 w1], f2 as [d2 c2 a2 n2 v2 w2].
  destruct d1, d2; unfold rebalance in Hreb; simpl in Hreb; simplify_eq.
  all: rep_copy H.
  all: unfold fix_insert_inner_child, grandparent; simpl.
  all: repeat prim_step.
  - unfold finalize_insert_rebalance, grandparent, rotate_right; simpl.
    repeat prim_step.
    rot_at (T RED a2 n2 (T BLACK a1 n1 (T c a n l v r) v1 w1) v2 w2) k2.
    eauto.
  - unfold rotate_right.
    rot_at (T c1 a1 n1 (T c a n l v r) v1 w1) (F RIGHT c2 a2 n2 v2 w2 :: k2).
    destruct s as [rt1 h1]. rep_copy HRep. simpl in *.
    repeat prim_step.
    unfold finalize_insert_rebalance, grandparent, rotate_left; simpl.
    repeat prim_step.
    match goal with
    | H : Rep _ (plug ?T (?F :: ?K)) |- _ =>
        rot_at (fill (fpaint RED F) (Abs.paint BLACK T)) K
    end.
    eauto.
  - unfold rotate_left.
    rot_at (T c1 a1 n1 w1 v1 (T c a n l v r)) (F LEFT c2 a2 n2 v2 w2 :: k2).
    destruct s as [rt1 h1]. rep_copy HRep. simpl in *.
    repeat prim_step.
    unfold finalize_insert_rebalance, grandparent, rotate_right; simpl.
    repeat prim_step.
    match goal with
    | H : Rep _ (plug ?T (?F :: ?K)) |- _ =>
        rot_at (fill (fpaint RED F) (Abs.paint BLACK T)) K
    end.
    eauto.
  - unfold finalize_insert_rebalance, grandparent, rotate_left; simpl.
    repeat prim_step.
    rot_at (T RED a2 n2 w2 v2 (T BLACK a1 n1 w1 v1 (T c a n l v r))) k2.
    eauto.
Qed.

Lemma fix_insert_root_spec k : ∀ fuel s c a n l v r t',
  Rep s (plug (T c a n l v r) k) →
  insert_fix true k (T c a n l v r) = Some t' →
  length k < fuel →
  ∃ s', fix_insert_root fuel (Some a) s = Some s' ∧ Rep s' t'.
Proof.
  induction k as [|f1|f1 f2 k2 IH] using ctx_ind2;
    intros fuel s c a n l v r t' H Hfix Hfuel;
    (destruct fuel as [|fuel]; [simpl in Hfuel; lia|]);
    destruct s as [rt h].
  - simpl in Hfix. simplify_eq. rep_copy H.
    simpl. repeat prim_step.
    eexists; split; [reflexivity|]. unfold set_root; simpl.
    rep_close.
  - destruct f1 as [d1 [] a1 n1 v1 w1]; simpl in Hfix; [done|]. simplify_eq.
    rep_copy H. destruct d1; simpl in *.
    all: unfold fix_insert_black_parent; repeat prim_step; eauto.
  - destruct f1 as [d1 [] a1 n1 v1 w1]; cbn [insert_fix] in Hfix; simpl in Hfix.
    2:{ simplify_eq. rep_copy H. destruct d1; simpl in *.
        all: unfold fix_insert_black_parent; repeat prim_step; eauto. }
    destruct f2 as [d2 c2 a2 n2 v2 w2]. simpl in Hfix.
    destruct w2 as [|[] ua un ul uv ur].
    + (* no uncle *)
      destruct (fix_insert_inner_child_spec _ _ _ _ _ _ _ _ _ _ _ H Hfix)
        as (s' & Hc4 & HRep).
      exists s'. split; [|done]. rewrite <- Hc4. clear Hc4 HRep.
      rep_copy H. destruct d1, d2; simpl in *.
      all: unfold fix_insert_black_parent, fix_insert_red_uncle, uncle,
             grandparent;
        repeat prim_step; done.
    + (* red uncle *)
      rep_copy H. destruct d1, d2; simpl in *.
      all: unfold fix_insert_black_parent, fix_insert_red_uncle, uncle,
             grandparent;
        repeat prim_step.
      all: eapply IH; [|exact Hfix|simpl in Hfuel; lia].
      all: unfold fill; simpl; rep_close.
    + (* black uncle *)
      destruct (fix_insert_inner_child_spec _ _ _ _ _ _ _ _ _ _ _ H Hfix)
        as (s' & Hc4 & HRep).
      exists s'. split; [|done]. rewrite <- Hc4. clear Hc4 HRep.
      rep_copy H. destruct d1, d2; simpl in *.
      all: unfold fix_insert_black_parent, fix_insert_red_uncle, uncle,
             grandparent;
        repeat prim_step; done.
Qed.

End SizeRep2.

Lemma find_z_none a t : ∀ k, a ∉ addrs t → find_z a t k = None.
Proof.
  induction t as [|c b n l IHl v r IHr]; intros k Ha; simpl in *; [done|].
  rewrite decide_False by set_solver.
  rewrite IHl by set_solver. apply IHr. set_solver.
Qed.

Lemma find_z_some a t : ∀ k0,
  a ∈ addrs t →
  ∃ ta ka, find_z a t k0 = Some (ta, ka ++ k0) ∧ plug ta ka = t ∧
           ptr_of ta = Some a.
Proof.
  induction t as [|c b n l IHl v r IHr]; intros k0 Ha; simpl in *.
  { set_solver. }
  case_decide as Hab.
  { subst b. exists (T c a n l v r), []. done. }
  destruct (decide (a ∈ addrs l)) as [Hl|Hl].
  - destruct (IHl (F LEFT c b n v r :: k0) Hl) as (ta & ka & -> & Hp & Hpt).
    exists ta, (ka ++ [F LEFT c b n v r]). rewrite <- app_assoc.
    split; [done|]. split; [|done]. rewrite plug_app, Hp. done.
  - assert (a ∈ addrs r) as Hr by set_solver.
    destruct (IHr (F RIGHT c b n v l :: k0) Hr) as (ta & ka & Hf & Hp & Hpt).
    rewrite find_z_none by done. rewrite Hf.
    exists ta, (ka ++ [F RIGHT c b n v l]). rewrite <- app_assoc.
    split; [done|]. split; [|done]. rewrite plug_app, Hp. done.
Qed.

Module SizeRep3.
Import SizeTree SizeRep SizeRep1 SizeRep2.
Local Arguments plug : simpl never.
Local Arguments fuel_of : simpl never.

Lemma sz_locate_loop_spec s v t : ∀ k fuel t' k',
  rep_t mk (heap s) (hole_par k) t →
  descend v t k = (t', k') → height t < fuel →
  locate_loop fuel s v (ptr_of t) (hole_par k) (go_top k)
  = Some (locate_result t' k').
Proof.
  induction t as [|c a n l IHl w r IHr]; intros k fuel t' k' Hrep Hd Hf;
    (destruct fuel as [|fuel]; [lia|]); simpl in *.
  - by simplify_eq.
  - destruct Hrep as (Ha & Hl & Hr).
    erewrite sz_value_heap by eassumption. simpl.
    destruct (v <? w)%Z eqn:Hlt.
    { erewrite sz_left_child_heap by eassumption. simpl.
      apply (IHl (F LEFT c a n w r :: k)); [done|done|lia]. }
    destruct (w <? v)%Z eqn:Hgt.
    { erewrite sz_right_child_heap by eassumption. simpl.
      apply (IHr (F RIGHT c a n w l :: k)); [done|done|lia]. }
    by simplify_eq.
Qed.

Lemma sz_store_dom p b s s' : store p b s = Some s' → same_dom s s'.
Proof.
  unfold store, same_dom. destruct p as [a|]; [|done].
  destruct (heap s !! a) eqn:Ha; simpl; [|done]. intros [= <-]. simpl.
  apply dom_insert_lookup_L. eauto.
Qed.

Lemma sz_set_color_dom p c s s' : set_color p c s = Some s' → same_dom s s'.
Proof.
  unfold set_color. destruct (load s p); simpl; [|done]. apply sz_store_dom.
Qed.
Lemma sz_set_left_child_dom p c s s' :
  set_left_child p c s = Some s' → same_dom s s'.
Proof.
  unfold set_left_child. destruct (load s p); simpl; [|done]. apply sz_store_dom.
Qed.
Lemma sz_set_right_child_dom p c s s' :
  set_right_child p c s = Some s' → same_dom s s'.
Proof.
  unfold set_right_child. destruct (load s p); simpl; [|done]. apply sz_store_dom.
Qed.
Lemma sz_set_parent_dom p c s s' : set_parent p c s = Some s' → same_dom s s'.
Proof.
  unfold set_parent. destruct (load s p); simpl; [|done]. apply sz_store_dom.
Qed.
Lemma sz_set_subtree_size_dom p c s s' :
  set_subtree_size p c s = Some s' → same_dom s s'.
Proof.
  unfold set_subtree_size. destruct (load s p); simpl; [|done].
  apply sz_store_dom.
Qed.

Ltac dom_step :=
  match goal with
  | H : Some _ = Some _ |- _ => injection H as H; try subst
  | H : None = Some _ |- _ => discriminate H
  | H : (_ ≫= _) = Some _ |- _ =>
      let x := fresh "x" in let Hx := fresh "Hx" in
      apply bind_Some in H as (x & Hx & H)
  | H : (let '(_, _) := ?p in _) = Some _ |- _ => destruct p
  | H : (match ?b with _ => _ end) = Some _ |- _ => destruct b
  | H : set_color _ _ _ = Some _ |- _ => apply sz_set_color_dom in H
  | H : set_left_child _ _ _ = Some _ |- _ => apply sz_set_left_child_dom in H
  | H : set_right_child _ _ _ = Some _ |- _ => apply sz_set_right_child_dom in H
  | H : set_parent _ _ _ = Some _ |- _ => apply sz_set_parent_dom in H
  | H : set_subtree_size _ _ _ = Some _ |- _ =>
      apply sz_set_subtree_size_dom in H
  end.

Ltac dom_tac :=
  repeat dom_step; unfold same_dom, set_root in *; simpl in *; congruence.

Lemma recalc_size_dom p s s' : recalc_size p s = Some s' → same_dom s s'.
Proof. unfold recalc_size. intros H. dom_tac. Qed.

Lemma update_size_upwards_dom fuel : ∀ p s s',
  update_size_upwards fuel p s = Some s' → same_dom s s'.
Proof.
  induction fuel as [|fuel IH]; intros p s s' H; [done|].
  rewrite update_size_upwards_S in H. repeat dom_step.
  all: repeat match goal with
         | H : recalc_size _ _ = _ |- _ => apply recalc_size_dom in H
         | H : update_size_upwards _ _ _ = _ |- _ => apply IH in H
         end.
  all: dom_tac.
Qed.

Ltac dom_known :=
  repeat match goal with
    | H : recalc_size _ _ = _ |- _ => apply recalc_size_dom in H
    | H : update_size_upwards _ _ _ = _ |- _ =>
        apply update_size_upwards_dom in H
    end.

Lemma rotate_dom p d s s' : rotate p d s = Some s' → same_dom s s'.
Proof.
  unfold rotate. intros H. repeat dom_step. all: dom_known. all: dom_tac.
Qed.

Lemma finalize_insert_rebalance_dom p s s' :
  finalize_insert_rebalance p s = Some s' → same_dom s s'.
Proof.
  unfold finalize_insert_rebalance, rotate_left, rotate_right. intros H.
  repeat dom_step.
  all: repeat match goal with
         | H : rotate _ _ _ = _ |- _ => apply rotate_dom in H
         end.
  all: dom_tac.
Qed.

Lemma fix_insert_inner_child_dom p s s' :
  fix_insert_inner_child p s = Some s' → same_dom s s'.
Proof.
  unfold fix_insert_inner_child, rotate_left, rotate_right. intros H.
  repeat dom_step.
  all: repeat match goal with
         | H : rotate _ _ _ = _ |- _ => apply rotate_dom in H
         | H : finalize_insert_rebalance _ _ = _ |- _ =>
             apply finalize_insert_rebalance_dom in H
         end.
  all: dom_tac.
Qed.

Lemma fix_insert_root_dom fuel : ∀ p s s',
  fix_insert_root fuel p s = Some s' → same_dom s s'.
Proof.
  induction fuel as [|fuel IH]; intros p s s' H; simpl in H; [done|].
  unfold fix_insert_black_parent, fix_insert_red_uncle in H. repeat dom_step.
  all: repeat match goal with
         | H : fix_insert_root _ _ _ = _ |- _ => apply IH in H
         | H : fix_insert_inner_child _ _ = _ |- _ =>
             apply fix_insert_inner_child_dom in H
         end.
  all: dom_tac.
Qed.

Lemma sz_Inv_fuel s t : Inv s t → height t < fuel_of s.
Proof. intros [H _]. by apply sz_Rep_fuel. Qed.

Lemma sz_insert_present s t v :
  Inv s t → bst t → v ∈ elements t → insert v s = Some (false, s).
Proof.
  intros HI Hs Hv. pose proof (sz_Inv_fuel _ _ HI) as Hf.
  destruct HI as [HR Hdom]. destruct HR as (Hroot & Hwf & Hrep).
  unfold insert, locate.
  destruct (descend v t []) as [t0 k] eqn:Hd.
  rewrite Hroot.
  pose proof (sz_locate_loop_spec s v t [] _ t0 k Hrep Hd Hf) as Hloc.
  cbn [hole_par go_top] in Hloc. rewrite Hloc. simpl.
  apply (descend_mem _ _ _ _ Hs Hd) in Hv. by destruct t0.
Qed.

Lemma sz_link_spec s k a v :
  Rep s (plug E k) → a ∉ dom (heap s) →
  ∃ s1,
    (s0 ← recalc_size (Some a)
            (mkTree (root_ s)
               (<[a := mkNode (mkBase RED None None (hole_par k) 1) v]>
                  (heap s)));
     if is_nil (hole_par k) then Some (set_root (Some a) s0)
     else if go_top k then set_left_child (hole_par k) (Some a) s0
     else set_right_child (hole_par k) (Some a) s0) = Some s1 ∧
    Rep s1 (plug (resize true (T RED a 1 E v E)) k) ∧
    dom (heap s1) = {[a]} ∪ dom (heap s).
Proof.
  intros H Ha. pose proof (sz_Rep_dom _ _ H) as Hsub.
  rewrite addrs_plug in Hsub. destruct s as [rt h].
  unfold recalc_size.
  destruct k as [|[d c1 a1 n1 v1 w1] k]; simpl in *.
  - rep_copy H. repeat prim_step.
    eexists; split; [reflexivity|]. unfold set_root; simpl.
    split; [rep_close|].
    rewrite !dom_insert_L. set_solver.
  - assert (a ∉ {[a1]} ∪ addrs w1 ∪ addrs_k k) as Ha' by set_solver.
    clear Hsub. rep_copy H.
    destruct d; simpl in *; repeat prim_step.
    all: eexists; split; [reflexivity|]; simpl.
    all: split; [rep_close|].
    all: rewrite !dom_insert_L.
    all: assert (a1 ∈ dom h) by (apply elem_of_dom; eauto).
    all: set_solver.
Qed.

Lemma sz_insert_absent s t v :
  Inv s t → rbtree t → bst t → v ∉ elements t →
  ∃ s' t1 t',
    insert v s = Some (true, s') ∧
    insert_tree true v (fresh (dom (heap s))) t = Some t1 ∧
    fix_sizes true (fresh (dom (heap s))) t1 = Some t' ∧
    Inv s' t'.
Proof.
  intros HI Hrb Hs Hv. pose proof (sz_Inv_fuel _ _ HI) as Hf.
  destruct HI as [HR Hdom].
  set (a := fresh (dom (heap s))).
  assert (a ∉ addrs t) as Ha by (rewrite <- Hdom; apply is_fresh).
  destruct (insert_tree_ok true v a t) as (t1 & Hins & _ & Hwf1 & _ & Had & _);
    [apply Hrb|apply HR|done..|].
  pose proof Hins as Hins0.
  unfold insert_tree in Hins.
  destruct (descend v t []) as [t0 k] eqn:Hd.
  assert (t0 = E) as ->.
  { destruct t0; [done|]. exfalso. apply Hv.
    by apply (descend_mem _ _ _ _ Hs Hd). }
  pose proof (descend_plug _ _ _ _ _ Hd) as Hp.
  change (plug t []) with t in Hp.
  pose proof (descend_length _ _ _ _ _ Hd) as Hlen. simpl in Hlen.
  pose proof HR as (Hroot & Hwf & Hrep).
  pose proof (sz_locate_loop_spec s v t [] _ E k Hrep Hd Hf) as Hloc.
  cbn [hole_par go_top locate_result] in Hloc.
  rewrite <- Hp in HR.
  destruct (sz_link_spec s k a v HR) as (s1 & Hlink & HR1 & Hdom1);
    [apply is_fresh|].
  assert (length k < fuel_of s1) as Hf1.
  { unfold fuel_of in *. rewrite <- size_dom, Hdom1.
    rewrite size_union, size_singleton, size_dom
      by (pose proof (is_fresh (dom (heap s))); set_solver).
    lia. }
  destruct (fix_insert_root_spec k _ s1 _ _ _ _ _ _ t1 HR1 Hins Hf1)
    as (s2 & Hfix & HR2).
  assert (a ∈ addrs t1) as Hin by (rewrite Had; set_solver).
  destruct (find_z_some a t1 [] Hin) as (ta & ka & Hfz & Hpl & Hpt).
  rewrite app_nil_r in Hfz.
  destruct ta as [|ca a' na la va ra]; [done|]. simpl in Hpt.
  injection Hpt as ->. subst t1.
  destruct (update_size_upwards_rep (F LEFT ca a na va ra :: ka) la s2)
    as (s3 & Hup & HR3 & _ & _); [exact HR2|].
  eexists s3, (plug (T ca a na la va ra) ka), _.
  split; [|split; [done|split]].
  - unfold insert.
    assert (locate s v = Some (mkLocate (hole_par k) false (go_top k))) as ->
      by (unfold locate; rewrite Hroot; exact Hloc).
    cbn [mbind option_bind lr_exists lr_parent lr_go_left].
    unfold make_node. fold a. cbv zeta.
    destruct (recalc_size _ _) as [s0|] eqn:Hrc; [|done].
    cbn [mbind option_bind] in Hlink |- *.
    rewrite Hlink. cbn [mbind option_bind]. rewrite Hfix.
    cbn [mbind option_bind]. cbn [hole_par fa] in Hup. rewrite Hup. done.
  - unfold fix_sizes. rewrite Hfz. reflexivity.
  - split; [exact HR3|].
    apply update_size_upwards_dom in Hup.
    apply fix_insert_root_dom in Hfix. unfold same_dom in *.
    rewrite Hup, Hfix, Hdom1, Hdom, <- Had.
    rewrite (addrs_plug_up true), !addrs_plug. simpl. set_solver.
Qed.

End SizeRep3.

Lemma top_n_cons f k n : top_n (f :: k) n = top_n k (fn f).
Proof.
  unfold top_n. destruct k as [|g k]; [done|].
  change (last (f :: g :: k)) with (last (g :: k)).
  by destruct (last (g :: k)) eqn:Hl; [|apply last_None in Hl].
Qed.

Lemma up_app aug k1 : ∀ k2 n,
  up aug (k1 ++ k2) n = up aug k1 n ++ up aug k2 (top_n (up aug k1 n) n).
Proof.
  induction k1 as [|f k1 IH]; intros k2 n; [done|].
  simpl. rewrite IH, top_n_cons. done.
Qed.

Lemma n_of_plug t k : n_of (plug t k) = top_n k (n_of t).
Proof.
  revert t. induction k as [|f k IH]; intros t; [done|].
  rewrite plug_cons, IH, top_n_cons. by destruct f as [[] ?????].
Qed.

Module SizeRep4.
Import SizeTree SizeRep SizeRep1 SizeRep2 SizeRep3.
Local Arguments plug : simpl never.
Local Arguments fuel_of : simpl never.

Lemma sz_rep_t_fuel s par t :
  rep_t mk (heap s) par t → wf t → height t < fuel_of s.
Proof.
  intros Hrep Hwf. apply rep_t_dom in Hrep. apply subseteq_size in Hrep.
  rewrite (count_addrs t Hwf), size_dom in Hrep.
  pose proof (height_le_count t). unfold fuel_of. lia.
Qed.

Lemma sz_minimum_spec s t : ∀ par k fuel,
  rep_t mk (heap s) par t → t ≠ E → height t ≤ fuel →
  minimum fuel s (ptr_of t) = Some (ptr_of (leftmost t k).1).
Proof.
  induction t as [|c a n l IHl v r _]; intros par k fuel Hrep Hne Hf; [done|].
  destruct fuel as [|fuel]; [simpl in Hf; lia|].
  destruct Hrep as (Ha & Hl & Hr). simpl.
  erewrite sz_left_child_heap by eassumption. simpl.
  destruct l as [|lc la ln ll lv lr]; [done|].
  apply (IHl (Some a)); [done|done|simpl in *; lia].
Qed.

Lemma sz_transplant_dom u v s s' : transplant u v s = Some s' → same_dom s s'.
Proof.
  unfold transplant. intros H. repeat dom_step. all: dom_known. all: dom_tac.
Qed.

(** [transplant(u, u->right)] for a node without left child, and the
    mirror image. *)
Lemma sz_transplant_right_spec s c a n v r k :
  Rep s (plug (T c a n E v r) k) →
  ∃ s', transplant (Some a) (ptr_of r) s = Some s' ∧
        Rep s' (plug r (up true k (n_of r))) ∧
        heap s' !! a = Some (mk c None (ptr_of r) (hole_par k) n v).
Proof.
  intros H. destruct s as [rt h].
  destruct k as [|[d pc pa pn pv ps] k]; destruct r as [|rc ra rn rl rv rr].
  all: rep_copy H.
  all: unfold transplant; simpl.
  all: try destruct d; simpl in *.
  all: repeat prim_step.
  all: match goal with
       | H : Rep _ (plug _ ?K) |- context [Rep _ (plug ?T _)] => upd_at T K
       end.
  all: eexists; split; [reflexivity|]; split; [done|].
  all: rewrite Hframe by solve_atoms; lookup_tac.
Qed.

Lemma sz_transplant_left_spec s c a n v l k :
  Rep s (plug (T c a n l v E) k) →
  ∃ s', transplant (Some a) (ptr_of l) s = Some s' ∧
        Rep s' (plug l (up true k (n_of l))) ∧
        heap s' !! a = Some (mk c (ptr_of l) None (hole_par k) n v).
Proof.
  intros H. destruct s as [rt h].
  destruct k as [|[d pc pa pn pv ps] k]; destruct l as [|rc ra rn rl rv rr].
  all: rep_copy H.
  all: unfold transplant; simpl.
  all: try destruct d; simpl in *.
  all: repeat prim_step.
  all: match goal with
       | H : Rep _ (plug _ ?K) |- context [Rep _ (plug ?T _)] => upd_at T K
       end.
  all: eexists; split; [reflexivity|]; split; [done|].
  all: rewrite Hframe by solve_atoms; lookup_tac.
Qed.

Lemma detach_node_with_single_child_dom z c s r s' :
  detach_node_with_single_child z c s = Some (r, s') → same_dom s s'.
Proof.
  unfold detach_node_with_single_child. intros H. repeat dom_step.
  all: repeat match goal with
         | H : transplant _ _ _ = _ |- _ => apply sz_transplant_dom in H
         end.
  all: dom_tac.
Qed.

Lemma detach_node_with_successor_dom z s r s' :
  detach_node_with_successor z s = Some (r, s') → same_dom s s'.
Proof.
  unfold detach_node_with_successor. intros H. repeat dom_step.
  all: repeat match goal with
         | H : transplant _ _ _ = _ |- _ => apply sz_transplant_dom in H
         end.
  all: dom_known.
  all: dom_tac.
Qed.

Lemma detach_node_dom z s r s' :
  detach_node z s = Some (r, s') → same_dom s s'.
Proof.
  unfold detach_node. intros H. repeat dom_step.
  all: repeat match goal with
         | H : detach_node_with_single_child _ _ _ = _ |- _ =>
             apply detach_node_with_single_child_dom in H
         | H : detach_node_with_successor _ _ = _ |- _ =>
             apply detach_node_with_successor_dom in H
         end.
  all: dom_tac.
Qed.

(** The shapes of [detach_node]. *)
Lemma sz_detach_no_left s c a n v r k :
  Rep s (plug (T c a n E v r) k) →
  ∃ s', detach_node (Some a) s
          = Some (mkDetach (ptr_of r) (hole_par k) c, s') ∧
        Rep s' (plug r (up true k (n_of r))).
Proof.
  intros H. destruct (sz_transplant_right_spec _ _ _ _ _ _ _ H)
    as (s' & Htr & HR & Ha).
  exists s'. split; [|done].
  destruct s as [rt h]. rep_copy H.
  unfold detach_node, detach_node_with_single_child. repeat prim_step.
  rewrite Htr. destruct s' as [rt' h']. simpl in *.
  destruct r as [|rc ra rn rl rv rr]; simpl.
  - repeat prim_step. done.
  - apply proj2, proj2 in HR. apply rep_plug in HR as [(Hra & _) _].
    repeat prim_step. by rewrite hole_par_up.
Qed.

Lemma sz_detach_no_right s c a n v lc la ln ll lv lr k :
  Rep s (plug (T c a n (T lc la ln ll lv lr) v E) k) →
  ∃ s', detach_node (Some a) s = Some (mkDetach (Some la) (hole_par k) c, s') ∧
        Rep s' (plug (T lc la ln ll lv lr) (up true k ln)).
Proof.
  intros H. destruct (sz_transplant_left_spec _ _ _ _ _ _ _ H)
    as (s' & Htr & HR & Ha).
  exists s'. split; [|done].
  destruct s as [rt h]. rep_copy H.
  unfold detach_node, detach_node_with_single_child. repeat prim_step.
  simpl in Htr. rewrite Htr. destruct s' as [rt' h']. simpl in *.
  apply proj2, proj2 in HR. apply rep_plug in HR as [(Hra & _) _].
  repeat prim_step. by rewrite hole_par_up.
Qed.

End SizeRep4.

Module SizeRep5.
Import SizeTree SizeRep SizeRep1 SizeRep2 SizeRep3 SizeRep4.
Local Arguments plug : simpl never.
Local Arguments fuel_of : simpl never.

(** A subtree outside the path keeps its layout. *)
Lemma rep_t_frame h h' (X : gset addr) par t :
  (∀ b, b ∉ X → h' !! b = h !! b) → addrs t ## X →
  rep_t mk h par t → rep_t mk h' par t.
Proof.
  intros Hf Hd. apply rep_t_agree. intros b Hb. apply Hf. set_solver.
Qed.

(** After [update_size_upwards] along [K]: the facts about the nodes off
    the path are carried over to the new heap. *)
Ltac carry_lookup :=
  repeat match goal with
    | Hf : ∀ b, b ∉ _ → ?h1 !! b = _ |- ?h1 !! ?x = _ =>
        rewrite Hf by (simpl; rewrite ?(addrs_k_up true); solve_atoms)
    end;
  lookup_tac.

Ltac carry_rep :=
  match goal with
  | Hf : ∀ b, b ∉ ?X → ?h1 !! b = _ |- rep_t mk ?h1 _ _ =>
      eapply (rep_t_frame _ h1 X); [exact Hf| |eframe_rep];
      simpl; rewrite ?(addrs_k_up true); solve_atoms
  end.

Lemma sz_detach_direct s c a n lc la ln ll lv lr v yc ya yn yv yr k :
  let l := T lc la ln ll lv lr in
  Rep s (plug (T c a n l v (T yc ya yn E yv yr)) k) →
  ∃ s', detach_node (Some a) s
          = Some (mkDetach (ptr_of yr) (Some ya) yc, s') ∧
        Rep s' (plug (resize true (T c ya yn l yv yr))
                  (up true k (n_of (resize true (T c ya yn l yv yr))))).
Proof.
  intros l H. subst l.
  destruct s as [rt h].
  unfold detach_node, detach_node_with_successor.
  remember (fuel_of _) as fu eqn:Hfu.
  assert (2 ≤ fu) as Hfu2 by (subst fu; unfold fuel_of; lia). clear Hfu.
  destruct fu as [|[|fu]]; [lia..|]. clear Hfu2.
  destruct k as [|[d pc pa pn pv ps] k].
  - (* the node is the root *)
    destruct yr as [|rc ra rn rl rv rr].
    all: rep_copy H.
    all: simpl.
    all: repeat prim_step.
    all: unfold transplant; simpl.
    all: repeat prim_step.
    all: unfold recalc_size; simpl.
    all: repeat prim_step.
    + upd_at (T lc la ln ll lv lr) [F LEFT c ya (upd true yn ln 0) yv E].
      eexists; split; [reflexivity|]. exact HRep.
    + upd_at (T lc la ln ll lv lr)
        [F LEFT c ya (upd true yn ln rn) yv (T rc ra rn rl rv rr)].
      destruct s as [rt1 h1]. rep_copy HRep. simpl in *. repeat prim_step.
      eexists; split; [reflexivity|]. exact HRep.
  - destruct yr as [|rc ra rn rl rv rr].
    all: rep_copy H.
    all: simpl.
    all: repeat prim_step.
    all: unfold transplant; simpl.
    all: destruct d; simpl in *.
    all: repeat prim_step.
    all: match goal with
         | H : Rep _ (plug _ ?K) |- context [update_size_upwards _ _ _] =>
             first [ upd_at (T yc ya yn E yv E) K
                   | upd_at (T yc ya yn E yv (T rc ra rn rl rv rr)) K ]
         end.
    all: destruct s as [rt1 h1]; simpl in *.
    all: assert (h1 !! a = Some (mk c (Some la) (Some ya) (Some pa) n v))
           as Hza by carry_lookup.
    all: assert (h1 !! la = Some (mk lc (ptr_of ll) (ptr_of lr) (Some a) ln lv))
           as Hla by carry_lookup.
    all: assert (rep_t mk h1 (Some la) ll) as Hll by carry_rep.
    all: assert (rep_t mk h1 (Some la) lr) as Hlr by carry_rep.
    all: clear Hframe.
    all: rep_copy HRep.
    all: repeat prim_step.
    all: unfold recalc_size; simpl.
    all: repeat prim_step.
    all: match goal with
         | H : Rep _ (plug (T _ _ _ _ _ ?YR) ?K1)
           |- context [update_size_upwards _ _ _] =>
             upd_at (T lc la ln ll lv lr)
               (F LEFT c ya (upd true yn ln (n_of YR)) yv YR :: K1)
         end.
    all: try (destruct s as [rt2 h2]; rep_copy HRep0; simpl in *;
              repeat prim_step).
    all: eexists; split; [reflexivity|].
    all: simpl in HRep0; rewrite ?up_up in HRep0; exact HRep0.
Qed.

Lemma sz_parent_hole s x k :
  Rep s (plug x k) → x ≠ E → parent s (ptr_of x) = Some (hole_par k).
Proof.
  intros (_ & _ & Hrep) Hx. apply rep_plug in Hrep as [Hrep _].
  destruct x as [|c a n l v r]; [done|]. destruct Hrep as (Ha & _).
  simpl. by erewrite sz_parent_heap by eassumption.
Qed.

Lemma sz_detach_deep s c a n lc la ln ll lv lr v yc ya yn yv yr f1 ky1 k :
  let l := T lc la ln ll lv lr in
  let y := T yc ya yn E yv yr in
  let ky' := up true (f1 :: ky1) (n_of yr) in
  let n' := upd true yn ln (n_of (plug yr ky')) in
  Rep s (plug y (f1 :: ky1 ++ F RIGHT c a n v l :: k)) →
  fdir f1 = LEFT →
  (leftmost (plug y (f1 :: ky1)) []).1 = y →
  ∃ s', detach_node (Some a) s
          = Some (mkDetach (ptr_of yr) (Some (fa f1)) yc, s') ∧
        Rep s' (plug yr (ky' ++ F RIGHT c ya n' yv l :: up true k n')).
Proof.
  intros l y ky' n' H Hf1 Hlm.
  destruct (sz_transplant_right_spec _ _ _ _ _ _ _ H)
    as (s1 & Htr & HR1 & Hy1).
  pose proof H as Hz.
  rewrite app_comm_cons, plug_app, plug_cons in Hz.
  rewrite app_comm_cons, up_app, plug_app in HR1. fold ky' in HR1.
  destruct (NilRep6.plug_cons_node y f1 ky1)
    as (rc & ra & rn & rl & rv & rr & Hr).
  assert (∃ rc1 ra1 rn1 rl1 rv1 rr1, plug yr ky' = T rc1 ra1 rn1 rl1 rv1 rr1)
    as (rc1 & ra1 & rn1 & rl1 & rv1 & rr1 & Hr1).
  { unfold ky'. destruct f1 as [d1 c1 a1 n1 v1 w1].
    cbn [up]. apply NilRep6.plug_cons_node. }
  assert (minimum (fuel_of s) s (Some ra) = Some (Some ya)) as Hmin.
  { pose proof Hz as (_ & Hwf & Hrep).
    apply rep_plug in Hrep as [Hrep _]. apply wf_plug in Hwf as (Hwf & _).
    unfold fill in Hrep, Hwf. cbn [fdir fc fa fn fv fsib] in Hrep, Hwf.
    destruct Hrep as (_ & _ & Hrr). destruct Hwf as (_ & _ & _ & _ & Hwr).
    pose proof (sz_minimum_spec s _ _ [] (fuel_of s) Hrr) as Hm.
    rewrite Hlm, Hr in Hm. apply Hm; [done|].
    rewrite <- Hr. apply Nat.lt_le_incl, (sz_rep_t_fuel _ _ _ Hrr Hwr). }
  assert (ya ∉ addrs (plug (plug yr ky')
                        (up true (F RIGHT c a n v l :: k)
                           (top_n ky' (n_of yr)))) ∧
          fa f1 ≠ a ∧
          heap s !! ya = Some (mk yc None (ptr_of yr) (Some (fa f1)) yn yv))
    as (Hya & Hfa & Hy).
  { pose proof H as (_ & Hwf & Hrep).
    apply rep_plug in Hrep as [(Hy & _) _]. apply wf_plug in Hwf.
    rewrite <- plug_app, addrs_plug, addrs_k_app. unfold ky'.
    rewrite !addrs_k_up.
    simpl in Hwf. rewrite addrs_k_app in Hwf. simpl in Hwf.
    split_and!; [|clear -Hwf; atomize; done|done].
    clear -Hwf. atomize. solve_atoms. }
  set (kx := ky' ++ F RIGHT c ya n' yv l :: up true k n').
  assert (hole_par kx = Some (fa f1)) as Hkx.
  { unfold kx, ky'. by destruct f1 as [[] ?????]. }
  assert (plug yr kx =
          plug (T c ya (upd true yn ln rn1) l yv (T rc1 ra1 rn1 rl1 rv1 rr1))
            (up true k (upd true yn ln rn1))) as Hfin.
  { unfold kx. rewrite plug_app, plug_cons. unfold n'. rewrite Hr1. done. }
  clearbody kx. clear n'.
  rewrite Hr in Hz. rewrite Hr1 in HR1, Hya.
  assert (top_n ky' (n_of yr) = rn1) as Htop.
  { rewrite <- n_of_plug, Hr1. done. }
  rewrite Htop in HR1, Hya. clear Htop Hr Hr1 Hlm H. clearbody ky'.
  cbn [up fdir fc fa fn fv fsib] in HR1, Hya.
  rewrite plug_cons in HR1, Hya.
  unfold fill in Hz, HR1, Hya. cbn [fdir fc fa fn fv fsib] in Hz, HR1, Hya.
  rewrite addrs_plug, addrs_k_up in Hya. cbn [addrs] in Hya. subst l y.
  destruct s as [rt h].
  unfold detach_node, detach_node_with_successor.
  remember (fuel_of _) as fu eqn:Hfu. clear Hfu.
  rep_open Hz. simpl in Hy.
  repeat prim_step. rewrite Hmin. simpl. repeat prim_step. rewrite Htr. simpl.
  clear Htr Hmin.
  destruct s1 as [rt1 h1]. simpl in *.
  set (n1 := upd true n ln rn1) in *.
  assert (∀ s3,
    Rep s3 (plug (T c ya (upd true yn ln rn1) (T lc la ln ll lv lr) yv
                    (T rc1 ra1 rn1 rl1 rv1 rr1))
              (up true k (upd true yn ln rn1))) →
    (if negb (is_nil (ptr_of yr)) then parent s3 (ptr_of yr)
     else @Some ptr (Some (fa f1))) = Some (Some (fa f1)) ∧
    Rep s3 (plug yr kx)) as Hend.
  { intros s3 HR3.
    assert (Rep s3 (plug yr kx)) as HR3' by (rewrite Hfin; exact HR3).
    split; [|done].
    destruct yr as [|? ? ? ? ? ?]; [done|].
    rewrite (sz_parent_hole _ _ _ HR3') by done. by rewrite Hkx. }
  clear Hfin Hkx.
  destruct k as [|[d pc pa pn pv ps] k].
  - rep_copy HR1.
    repeat prim_step.
    unfold transplant; simpl.
    repeat prim_step.
    unfold recalc_size; simpl. repeat prim_step.
    upd_at (T lc la ln ll lv lr)
      [F LEFT c ya (upd true yn ln rn1) yv (T rc1 ra1 rn1 rl1 rv1 rr1)].
    destruct (Hend _ HRep) as [Hxp HRend].
    eexists; split; [by rewrite Hxp|done].
  - rep_copy HR1.
    repeat prim_step.
    unfold transplant; simpl.
    destruct d; simpl in *; atomize.
    all: repeat prim_step.
    all: match goal with
         | H : Rep _ (plug _ ?K) |- context [update_size_upwards _ _ _] =>
             upd_at (T yc ya yn E yv (T rc1 ra1 rn1 rl1 rv1 rr1)) K
         end.
    all: destruct s as [rt2 h2]; simpl in *.
    all: assert (h2 !! a = Some (mk c (Some la) (Some ra1) (Some pa) n1 v))
           as Hza by carry_lookup.
    all: assert (h2 !! la = Some (mk lc (ptr_of ll) (ptr_of lr) (Some a) ln lv))
           as Hla by carry_lookup.
    all: assert (rep_t mk h2 (Some la) ll) as Hll by carry_rep.
    all: assert (rep_t mk h2 (Some la) lr) as Hlr by carry_rep.
    all: clear Hframe.
    all: rep_copy HRep.
    all: repeat prim_step.
    all: unfold recalc_size; simpl.
    all: repeat prim_step.
    all: match goal with
         | H : Rep _ (plug (T _ _ _ _ _ ?YR) ?K1)
           |- context [update_size_upwards _ _ _] =>
             upd_at (T lc la ln ll lv lr)
               (F LEFT c ya (upd true yn ln (n_of YR)) yv YR :: K1)
         end.
    all: simpl in HRep0; rewrite ?up_up in HRep0.
    all: destruct (Hend _ HRep0) as [Hxp HRend].
    all: eexists; split; [by rewrite Hxp|done].
Qed.

(** [detach_node] carries out [detach]; the node detached stays in the
    heap. *)
Lemma sz_detach_spec s c a n l v r k x kx rc :
  Rep s (plug (T c a n l v r) k) →
  detach true (T c a n l v r) k = Some (x, kx, rc) →
  ∃ s', detach_node (Some a) s
          = Some (mkDetach (ptr_of x) (hole_par kx) rc, s') ∧
        Rep s' (plug x kx).
Proof.
  intros H Hd.
  destruct l as [|lc la ln ll lv lr].
  { simpl in Hd. simplify_eq. rewrite hole_par_up.
    exact (sz_detach_no_left _ _ _ _ _ _ _ H). }
  destruct r as [|rc' ra rn rl rv rr].
  { simpl in Hd. simplify_eq. rewrite hole_par_up.
    exact (sz_detach_no_right _ _ _ _ _ _ _ _ _ _ _ _ H). }
  destruct (leftmost_spec (T rc' ra rn rl rv rr) [])
    as (yc & ya & yn & yv & yr & ky & Hlm & Hp & Hlf); [done|].
  rewrite app_nil_r in Hlm.
  unfold detach in Hd. fold (leftmost (T rc' ra rn rl rv rr) []) in Hd.
  rewrite Hlm in Hd. cbv zeta in Hd. simplify_eq.
  destruct ky as [|f1 ky1].
  - unfold plug in Hp. simplify_eq.
    destruct (sz_detach_direct _ _ _ _ _ _ _ _ _ _ _ _ _ _ _ _ _ H)
      as (s' & Hdn & HR).
    exists s'. split; [exact Hdn|exact HR].
  - destruct (sz_detach_deep s c a n lc la ln ll lv lr v rc ya yn yv x f1 ky1 k)
      as (s' & Hdn & HR);
      [rewrite app_comm_cons, plug_app, Hp; exact H
      |by apply NilRep6.lefts_nil_left in Hlf
      |rewrite Hp, Hlm; done|].
    exists s'. split; [|exact HR]. rewrite Hdn. do 3 f_equal.
    all: by destruct f1 as [[] ?????].
Qed.

Lemma sz_delete_node_spec s a x k :
  Rep s (plug x k) → a ∉ addrs (plug x k) → is_Some (heap s !! a) →
  ∃ s', delete_node (Some a) s = Some s' ∧ Rep s' (plug x k) ∧
        heap s' = delete a (heap s).
Proof.
  intros (Hroot & Hwf & Hrep) Ha [nd Hnd]. unfold delete_node.
  rewrite Hnd. simpl. eexists; split; [done|]. split; [|done].
  split_and!; try done. simpl. by apply rep_t_delete_ne.
Qed.

End SizeRep5.

Module SizeRep6.
Import SizeTree SizeRep SizeRep1 SizeRep2 SizeRep3 SizeRep4 SizeRep5.
Local Arguments plug : simpl never.
Local Arguments fuel_of : simpl never.

Lemma erase_fixup_direction_eq node a dir s :
  erase_fixup_direction node (Some a) dir s =
  sibling ← (if decide (dir = LEFT) then right_child s (Some a)
             else left_child s (Some a));
  '(par, sibling, s) ← ensure_black_sibling (Some a) sibling dir s;
  efd_rest node par sibling dir s.
Proof. reflexivity. Qed.

Ltac color_step :=
  first
  [ erewrite sz_color_of_rep by (simpl; eframe_rep)
  | progress (unfold SizeTree.color_of; simpl) ].

Ltac xstep := first [ prim_step | color_step ].

Lemma efd_rest_spec s x d c a n v wa wn wl wv wr k r :
  Rep s (plug x (F d c a n v (T BLACK wa wn wl wv wr) :: k)) →
  fix_step true x (F d c a n v (T BLACK wa wn wl wv wr)) k = Some r →
  ∃ s' node' par',
    efd_rest (ptr_of x) (Some a) (Some wa) d s = Some (node', par', s') ∧
    match r with
    | inl t => Rep s' t ∧ node' = root_ s' ∧ par' = None
    | inr x2 =>
        Rep s' (plug x2 k) ∧ node' = ptr_of x2 ∧ par' = hole_par k ∧ x2 ≠ E
    end.
Proof.
  intros H Hstep. destruct s as [rt h].
  unfold fix_step in Hstep. simpl in Hstep.
  destruct d; simpl in Hstep.
  - destruct (Abs.color_of wl) eqn:Hcl, (Abs.color_of wr) eqn:Hcr;
      simpl in Hstep.
    + (* both red *)
      destruct wr as [|[] ra rn rl rv rr]; try done. simpl in Hstep.
      simplify_eq.
      rep_copy H. unfold efd_rest, fetch_sibling_children, is_black.
      simpl. repeat xstep. rewrite Hcl. simpl.
      unfold apply_outer_rotation, SizeTree.paint. simpl. repeat xstep.
      rot_at (T BLACK a n x v (T c wa wn wl wv (T BLACK ra rn rl rv rr))) k.
      eexists _, _, _. split; [reflexivity|]. done.
    + (* inner red, outer black *)
      destruct wl as [|[] la ln ll lv lr]; try done. simpl in Hstep.
      simplify_eq.
      rep_copy H. unfold efd_rest, fetch_sibling_children, is_black.
      simpl. repeat xstep. rewrite Hcr. simpl.
      unfold SizeTree.paint. simpl. repeat xstep.
      rot_at (T RED wa wn (T BLACK la ln ll lv lr) wv wr)
        (F RIGHT c a n v x :: k).
      destruct s as [rt1 h1]. rep_copy HRep. simpl in *. repeat xstep.
      unfold apply_outer_rotation, SizeTree.paint. simpl. repeat xstep.
      match type of HRep with
      | Rep _ (plug ?W (?G :: ?K)) =>
          rot_at (fill (fpaint BLACK G)
                    (paint_child RIGHT BLACK (Abs.paint c W))) K
      end.
      eexists _, _, _. split; [reflexivity|]. done.
    + (* outer red *)
      destruct wr as [|[] ra rn rl rv rr]; try done. simpl in Hstep.
      simplify_eq.
      rep_copy H. unfold efd_rest, fetch_sibling_children, is_black.
      simpl. repeat xstep. rewrite Hcl. simpl.
      unfold apply_outer_rotation, SizeTree.paint. simpl. repeat xstep.
      rot_at (T BLACK a n x v (T c wa wn wl wv (T BLACK ra rn rl rv rr))) k.
      eexists _, _, _. split; [reflexivity|]. done.
    + simplify_eq. rep_copy H.
      unfold efd_rest, fetch_sibling_children, is_black.
      simpl. repeat xstep. rewrite Hcl. simpl. repeat xstep.
      rewrite Hcr. simpl. unfold SizeTree.paint. simpl. repeat xstep.
      eexists _, _, _. split; [reflexivity|]. split_and!; try done.
      unfold fill. simpl. rep_close.
  - destruct (Abs.color_of wr) eqn:Hcr, (Abs.color_of wl) eqn:Hcl;
      simpl in Hstep.
    + (* both red *)
      destruct wl as [|[] la ln ll lv lr]; try done. simpl in Hstep.
      simplify_eq.
      rep_copy H. unfold efd_rest, fetch_sibling_children, is_black.
      simpl. repeat xstep. rewrite Hcr. simpl.
      unfold apply_outer_rotation, SizeTree.paint. simpl. repeat xstep.
      rot_at (T BLACK a n (T c wa wn (T BLACK la ln ll lv lr) wv wr) v x) k.
      eexists _, _, _. split; [reflexivity|]. done.
    + (* inner red, outer black *)
      destruct wr as [|[] ra rn rl rv rr]; try done. simpl in Hstep.
      simplify_eq.
      rep_copy H. unfold efd_rest, fetch_sibling_children, is_black.
      simpl. repeat xstep. rewrite Hcl. simpl.
      unfold SizeTree.paint. simpl. repeat xstep.
      rot_at (T RED wa wn wl wv (T BLACK ra rn rl rv rr))
        (F LEFT c a n v x :: k).
      destruct s as [rt1 h1]. rep_copy HRep. simpl in *. repeat xstep.
      unfold apply_outer_rotation, SizeTree.paint. simpl. repeat xstep.
      match type of HRep with
      | Rep _ (plug ?W (?G :: ?K)) =>
          rot_at (fill (fpaint BLACK G)
                    (paint_child LEFT BLACK (Abs.paint c W))) K
      end.
      eexists _, _, _. split; [reflexivity|]. done.
    + (* outer red *)
      destruct wl as [|[] la ln ll lv lr]; try done. simpl in Hstep.
      simplify_eq.
      rep_copy H. unfold efd_rest, fetch_sibling_children, is_black.
      simpl. repeat xstep. rewrite Hcr. simpl.
      unfold apply_outer_rotation, SizeTree.paint. simpl. repeat xstep.
      rot_at (T BLACK a n (T c wa wn (T BLACK la ln ll lv lr) wv wr) v x) k.
      eexists _, _, _. split; [reflexivity|]. done.
    + simplify_eq. rep_copy H.
      unfold efd_rest, fetch_sibling_children, is_black.
      simpl. repeat xstep. rewrite Hcr. simpl. repeat xstep.
      rewrite Hcl. simpl. unfold SizeTree.paint. simpl. repeat xstep.
      eexists _, _, _. split; [reflexivity|]. split_and!; try done.
      unfold fill. simpl. rep_close.
Qed.

Lemma efd_red s x d c a n v wa wn wl wv wr k x1 f1 k1 r :
  Rep s (plug x (F d c a n v (T RED wa wn wl wv wr) :: k)) →
  Abs.color_of (child d (T RED wa wn wl wv wr)) = BLACK →
  child d (T RED wa wn wl wv wr) ≠ E →
  fix_sibling true x (F d c a n v (T RED wa wn wl wv wr)) k
    = Some (x1, f1, k1) →
  fix_step true x1 f1 k1 = Some r →
  ∃ s' node' par',
    erase_fixup_direction (ptr_of x) (Some a) d s = Some (node', par', s') ∧
    match r with
    | inl t => Rep s' t ∧ node' = root_ s' ∧ par' = None
    | inr x2 =>
        Rep s' (plug x2 k1) ∧ node' = ptr_of x2 ∧ par' = hole_par k1 ∧
        x2 ≠ E
    end.
Proof.
  intros H Hc Hne Hsib Hstep. destruct s as [rt h].
  unfold fix_sibling in Hsib. destruct d; simpl in Hc, Hne, Hsib.
  - destruct wl as [|[] la ln ll lv lr]; try done. simpl in Hsib.
    simplify_eq.
    rep_copy H. rewrite erase_fixup_direction_eq. simpl. repeat xstep.
    unfold ensure_black_sibling, is_red, SizeTree.paint. simpl.
    repeat xstep.
    rot_at (T RED a n x1 v (T BLACK wa wn (T BLACK la ln ll lv lr) wv wr)) k.
    match type of Hstep with
    | fix_step true ?X ?G ?K = _ =>
        assert (HRep' : Rep s (plug X (G :: K))) by exact HRep
    end.
    destruct (efd_rest_spec _ _ _ _ _ _ _ _ _ _ _ _ _ _ HRep' Hstep)
      as (s' & node' & par' & Hrest & Hpost).
    exists s', node', par'. split; [|done]. rewrite <- Hrest.
    clear HRep'. destruct s as [rt1 h1]. rep_copy HRep. simpl in *. repeat xstep. done.
  - destruct wr as [|[] ra rn rl rv rr]; try done. simpl in Hsib.
    simplify_eq.
    rep_copy H. rewrite erase_fixup_direction_eq. simpl. repeat xstep.
    unfold ensure_black_sibling, is_red, SizeTree.paint. simpl.
    repeat xstep.
    rot_at (T RED a n (T BLACK wa wn wl wv (T BLACK ra rn rl rv rr)) v x1) k.
    match type of Hstep with
    | fix_step true ?X ?G ?K = _ =>
        assert (HRep' : Rep s (plug X (G :: K))) by exact HRep
    end.
    destruct (efd_rest_spec _ _ _ _ _ _ _ _ _ _ _ _ _ _ HRep' Hstep)
      as (s' & node' & par' & Hrest & Hpost).
    exists s', node', par'. split; [|done]. rewrite <- Hrest.
    clear HRep'. destruct s as [rt1 h1]. rep_copy HRep. simpl in *. repeat xstep. done.
Qed.

Lemma efd_black s x d c a n v wa wn wl wv wr k r :
  Rep s (plug x (F d c a n v (T BLACK wa wn wl wv wr) :: k)) →
  fix_step true x (F d c a n v (T BLACK wa wn wl wv wr)) k = Some r →
  ∃ s' node' par',
    erase_fixup_direction (ptr_of x) (Some a) d s = Some (node', par', s') ∧
    match r with
    | inl t => Rep s' t ∧ node' = root_ s' ∧ par' = None
    | inr x2 =>
        Rep s' (plug x2 k) ∧ node' = ptr_of x2 ∧ par' = hole_par k ∧ x2 ≠ E
    end.
Proof.
  intros H Hstep.
  destruct (efd_rest_spec _ _ _ _ _ _ _ _ _ _ _ _ _ _ H Hstep)
    as (s' & node' & par' & Hrest & Hpost).
  exists s', node', par'. split; [|done]. rewrite <- Hrest.
  destruct s as [rt h]. rep_copy H. rewrite erase_fixup_direction_eq.
  destruct d; simpl; repeat xstep.
  all: unfold ensure_black_sibling, is_red; simpl; repeat xstep; done.
Qed.

Lemma sz_erase_fixup_S fuel node par s :
  erase_fixup (S fuel) node par s =
  continue ←
    (if bool_decide (node = root_ s) then Some false
     else is_black s node);
  if (continue : bool) then
    is_left ←
      (if is_nil par then Some false
       else pl ← left_child s par; Some (bool_decide (node = pl)));
    '(node, par, s) ←
      erase_fixup_direction node par
        (if (is_left : bool) then LEFT else RIGHT) s;
    erase_fixup fuel node par s
  else SizeTree.paint node BLACK s.
Proof. reflexivity. Qed.

Lemma sz_paint_hole_spec s x k :
  Rep s (plug x k) →
  ∃ s', SizeTree.paint (ptr_of x) BLACK s = Some s' ∧
        Rep s' (plug (Abs.paint BLACK x) k).
Proof.
  intros H. destruct s as [rt h]. destruct x as [|c a n l v r].
  - simpl. eauto.
  - rep_open H. unfold SizeTree.paint. simpl. repeat prim_step.
    eexists; split; [done|]. rep_close.
Qed.

(** The iteration that leaves the loop. *)
Lemma sz_erase_fixup_stop s x k fuel par :
  Rep s (plug x k) → (k = [] ∨ Abs.color_of x = RED) →
  ∃ s', erase_fixup (S fuel) (ptr_of x) par s = Some s' ∧
        Rep s' (plug (Abs.paint BLACK x) k).
Proof.
  intros H Hor. rewrite sz_erase_fixup_S.
  destruct (sz_paint_hole_spec _ _ _ H) as (s' & Hset & HR).
  exists s'. split; [|done]. rewrite <- Hset.
  pose proof H as (Hroot & Hwf & Hrep).
  destruct k as [|f k].
  - rewrite bool_decide_eq_true_2 by done. done.
  - destruct Hor as [|Hc]; [done|].
    rewrite bool_decide_eq_false_2
      by (rewrite Hroot; by apply hole_not_root).
    apply rep_plug in Hrep as [Hx _].
    unfold is_black. rewrite (sz_color_of_rep _ _ _ Hx), Hc. done.
Qed.

(** [erase_fixup] carries out [erase_fix]. *)
Lemma sz_erase_fixup_spec k : ∀ x s fuel h,
  Rep s (plug x k) → ctxrb k (S h) → rbt (Abs.paint BLACK x) → bh x = h →
  length k < fuel →
  ∃ s' t', erase_fix true k x = Some t' ∧
           erase_fixup fuel (ptr_of x) (hole_par k) s = Some s' ∧ Rep s' t'.
Proof.
  induction k as [|f k' IH]; intros x s fuel h H Hk Hrx Hh Hfuel;
    (destruct fuel as [|fuel]; [simpl in Hfuel; lia|]).
  { destruct (sz_erase_fixup_stop _ _ _ fuel None H) as (s' & Hfix & HR);
      [by left|].
    exists s', (Abs.paint BLACK x). done. }
  destruct fuel as [|fuel]; [simpl in Hfuel; lia|].
  cbn [erase_fix]. case_decide as Hcx.
  { destruct (sz_erase_fixup_stop _ _ _ (S fuel) (hole_par (f :: k')) H)
      as (s' & Hfix & HR); [by right|].
    exists s', (plug (Abs.paint BLACK x) (f :: k')). done. }
  apply color_not_red in Hcx. rewrite paint_black_id in Hrx by done.
  pose proof H as (Hroot & Hwf & Hrep).
  apply rep_plug in Hrep as [Hrx' Hrk].
  rewrite sz_erase_fixup_S.
  rewrite bool_decide_eq_false_2 by (rewrite Hroot; by apply hole_not_root).
  unfold is_black at 1. rewrite (sz_color_of_rep _ _ _ Hrx'), Hcx.
  destruct f as [d c a n v w]. destruct Hk as (Hw & Hwh & Hred & Hk').
  cbn [fsib fc] in *.
  destruct (bh_pos_node _ _ Hwh) as (wc & wa & wn & wl & wv & wr & ->).
  destruct Hrk as (Ha & Hrw & Hrk). unfold frame_node in Ha.
  cbn [fdir fc fa fn fv fsib hole_par] in Ha.
  assert (ptr_of x ≠ Some wa) as Hxw.
  { apply wf_plug in Hwf as (_ & _ & Hd). simpl in Hd.
    destruct x; [done|]. simpl in *. intros [= ->]. set_solver. }
  assert (∀ fu r s1 node1 par1 kk,
    match r with
    | inl t => Rep s1 t ∧ node1 = root_ s1 ∧ par1 = None
    | inr x2 =>
        Rep s1 (plug x2 kk) ∧ node1 = ptr_of x2 ∧ par1 = hole_par kk ∧
        x2 ≠ E
    end →
    (∀ x2, r = inr x2 → Abs.color_of x2 = RED) →
    ∃ s' t',
      match r with
      | inl t => Some (Abs.paint BLACK t)
      | inr x2 =>
          if decide (Abs.color_of x2 = RED)
          then Some (plug (Abs.paint BLACK x2) kk)
          else None
      end = Some t' ∧
      erase_fixup (S fu) node1 par1 s1 = Some s' ∧ Rep s' t') as Hlast.
  { intros fu r s1 node1 par1 kk Hpost Hc2. destruct r as [t|x2].
    - destruct Hpost as (HR & -> & ->). pose proof HR as (Hroot1 & _).
      rewrite Hroot1.
      destruct (sz_erase_fixup_stop _ t [] fu None HR) as (s' & Hfix & HR');
        [by left|].
      eauto.
    - destruct Hpost as (HR & -> & -> & Hne). rewrite decide_True by eauto.
      destruct (sz_erase_fixup_stop _ _ _ fu (hole_par kk) HR)
        as (s' & Hfix & HR'); [right; eauto|].
      eauto. }
  assert (∃ pl, left_child s (Some a) = Some pl ∧
                bool_decide (ptr_of x = pl) =
                match d with LEFT => true | RIGHT => false end) as Hdir.
  { destruct s as [rt hp]. destruct d; simpl in Ha.
    - eexists. split; [by erewrite sz_left_child_heap by eassumption|].
      by rewrite bool_decide_eq_true_2.
    - eexists. split; [by erewrite sz_left_child_heap by eassumption|].
      by rewrite bool_decide_eq_false_2. }
  destruct Hdir as (pl & Hpl & Hdir).
  cbn [mbind option_bind].
  rewrite (bool_decide_eq_true_2 (BLACK = BLACK)) by done.
  cbn [hole_par fa is_nil mbind option_bind]. rewrite Hpl.
  cbn [mbind option_bind]. rewrite Hdir.
  replace (if match d with LEFT => true | RIGHT => false end
           then LEFT else RIGHT) with d by (by destruct d).
  clear Hdir Hpl pl. cbn [fsib]. case_decide as Hcw.
  - (* red sibling *)
    simpl in Hcw. subst wc.
    destruct c; [by destruct (Hred eq_refl)|]. clear Hred.
    simpl in Hwh, Hk'. destruct Hw as (Hwl & Hwr & Hwb & Hwc).
    destruct (Hwc eq_refl) as [Hcl Hcr]. clear Hwc.
    assert (bh wr = S h) as Hbr by lia. rewrite Nat.add_0_r in Hwh.
    destruct (bh_pos_node _ _ Hwh) as (lc & la & ln & ll & lv & lr & ->).
    destruct (bh_pos_node _ _ Hbr) as (rc & ra & rn & rl & rv & rr & ->).
    simpl in Hcl, Hcr. subst lc rc.
    destruct (fix_sibling true x _ k') as [[[x1 f1] k1]|] eqn:Hsib;
      [|by destruct d].
    assert (x1 = x ∧ ∃ r, fix_step true x1 f1 k1 = Some r ∧
            ∀ x2, r = inr x2 → Abs.color_of x2 = RED) as (-> & r & Hstep & Hr).
    { destruct d; unfold fix_sibling in Hsib; simpl in Hsib;
        injection Hsib as Hx1 Hf1 Hk1; subst x1 f1 k1.
      all: split; [done|].
      all: match goal with
           | |- ∃ r, fix_step true ?X ?G ?K = _ ∧ _ =>
               destruct (fix_step_ok true X G K h) as (r & Hstep & Hr)
           end; simpl; auto.
      all: try (exists r; split; [exact Hstep|]; intros x2 ->; apply Hr).
      all: rewrite ctxrb_up; rb_tac; ctx_eq. }
    cbn [mbind option_bind]. rewrite Hstep. cbn [mbind option_bind].
    destruct (efd_red _ _ _ _ _ _ _ _ _ _ _ _ _ _ _ _ _ H
                ltac:(by destruct d) ltac:(by destruct d) Hsib Hstep)
      as (s1 & node1 & par1 & Hl & Hpost).
    rewrite Hl. cbn [mbind option_bind].
    apply (Hlast fuel r s1 node1 par1 _ Hpost Hr).
  - (* black sibling *)
    destruct wc; [done|]. clear Hcw.
    destruct (fix_step_ok true x (F d c a n v (T BLACK wa wn wl wv wr)) k' h)
      as (r & Hstep & Hr); auto.
    { intros Hf. by destruct (Hred Hf). }
    rewrite Hstep. cbn [mbind option_bind].
    destruct (efd_black _ _ _ _ _ _ _ _ _ _ _ _ _ _ H Hstep)
      as (s1 & node1 & par1 & Hl & Hpost).
    rewrite Hl. cbn [mbind option_bind].
    destruct r as [t|x2].
    + apply (Hlast fuel (inl t) s1 node1 par1 [] Hpost). done.
    + destruct Hpost as (HR & -> & -> & Hne).
      destruct Hr as (Hrb & Hbh & Hc2 & _ & _).
      apply (IH x2 s1 (S fuel) (h + blk c)); auto.
      simpl in Hfuel |- *. lia.
Qed.

End SizeRep6.

Module SizeRep7.
Import SizeTree SizeRep SizeRep1 SizeRep2 SizeRep3 SizeRep4 SizeRep5 SizeRep6.
Local Arguments plug : simpl never.
Local Arguments fuel_of : simpl never.

Ltac bind_some := cbn [mbind option_bind].

Lemma sz_paint_dom p c s s' : SizeTree.paint p c s = Some s' → same_dom s s'.
Proof. unfold SizeTree.paint. intros H. dom_tac. Qed.

Lemma erase_fixup_direction_dom node par d s node' par' s' :
  erase_fixup_direction node par d s = Some (node', par', s') →
  same_dom s s'.
Proof.
  unfold erase_fixup_direction, ensure_black_sibling, apply_outer_rotation.
  intros H. repeat dom_step.
  all: repeat match goal with
         | H : rotate _ _ _ = _ |- _ => apply rotate_dom in H
         | H : SizeTree.paint _ _ _ = _ |- _ => apply sz_paint_dom in H
         end.
  all: dom_tac.
Qed.

Lemma sz_erase_fixup_dom fuel : ∀ node par s s',
  erase_fixup fuel node par s = Some s' → same_dom s s'.
Proof.
  induction fuel as [|fuel IH]; intros node par s s' H; [done|].
  rewrite sz_erase_fixup_S in H. repeat dom_step.
  all: repeat match goal with
         | H : erase_fixup_direction _ _ _ _ = _ |- _ =>
             apply erase_fixup_direction_dom in H
         | H : erase_fixup _ _ _ _ = _ |- _ => apply IH in H
         | H : SizeTree.paint _ _ _ = _ |- _ => apply sz_paint_dom in H
         end.
  all: dom_tac.
Qed.

Lemma sz_erase_absent s t v :
  Inv s t → bst t → v ∉ elements t → erase v s = Some (false, s).
Proof.
  intros HI Hs Hv. pose proof (sz_Inv_fuel _ _ HI) as Hf.
  destruct HI as [HR Hdom]. destruct HR as (Hroot & Hwf & Hrep).
  unfold erase, locate.
  destruct (descend v t []) as [t0 k] eqn:Hd.
  rewrite Hroot.
  pose proof (sz_locate_loop_spec s v t [] _ t0 k Hrep Hd Hf) as Hloc.
  cbn [hole_par go_top] in Hloc. rewrite Hloc. simpl.
  destruct t0; [done|]. exfalso. apply Hv.
  by apply (descend_mem _ _ _ _ Hs Hd).
Qed.

Lemma sz_erase_present s t v :
  Inv s t → rbtree t → bst t → v ∈ elements t →
  ∃ s' t', erase v s = Some (true, s') ∧
           erase_tree true v t = Some t' ∧ Inv s' t'.
Proof.
  intros HI Hrb Hs Hv. pose proof (sz_Inv_fuel _ _ HI) as Hf.
  destruct HI as [HR Hdom].
  destruct (descend v t []) as [z k] eqn:Hd.
  pose proof (descend_plug _ _ _ _ _ Hd) as Hp.
  change (plug t []) with t in Hp.
  pose proof (proj2 (descend_mem _ _ _ _ Hs Hd) Hv) as Hz.
  destruct (descend_found _ _ _ _ _ Hd) as [->|(c & a & n & l & r & ->)];
    [done|]. clear Hz.
  pose proof HR as (Hroot & Hwf & Hrep).
  pose proof (sz_locate_loop_spec s v t [] _ _ k Hrep Hd Hf) as Hloc.
  cbn [hole_par go_top locate_result] in Hloc.
  assert (locate s v = Some (mkLocate (Some a) true false)) as Hlocate
    by (unfold locate; rewrite Hroot; exact Hloc).
  rewrite <- Hp in Hrb, HR, Hwf, Hdom.
  destruct (detach_ok true _ _ _ _ _ _ _ Hrb)
    as (x & kx & rc & Hdet & Hrem & Hr & Hb).
  destruct (sz_detach_spec _ _ _ _ _ _ _ _ _ _ _ HR Hdet)
    as (s1 & Hdt & HR1).
  pose proof (detach_node_dom _ _ _ _ Hdt) as Hdom1.
  destruct Hrem as (_ & Haddrs & Hwf').
  destruct (Hwf' Hwf) as [Hwfx Hax].
  destruct (sz_delete_node_spec s1 a x kx HR1 Hax) as (s2 & Hdel & HR2 & Hh2).
  { apply elem_of_dom. rewrite Hdom1, Hdom, Haddrs. set_solver. }
  assert (dom (heap s2) = addrs (plug x kx)) as Hdom2.
  { rewrite Hh2, dom_delete_L, Hdom1, Hdom, Haddrs. set_solver. }
  assert (∃ s3 t', erase_tree true v t = Some t' ∧
            (if decide (rc = BLACK) then
               erase_fixup (fuel_of s2) (ptr_of x) (hole_par kx) s2
             else Some s2) = Some s3 ∧ Inv s3 t')
    as (s3 & t' & Het & Hfix & HI3).
  { unfold erase_tree. rewrite Hd, Hdet. simpl. destruct rc.
    - rewrite !decide_False by done. exists s2, (plug x kx). split_and!; auto.
      by split.
    - rewrite !decide_True by done. destruct (Hb eq_refl) as [Hk Hx].
      destruct (sz_erase_fixup_spec kx x s2 (fuel_of s2) (bh x))
        as (s3 & t' & Hef & Hfix & HR3); auto.
      { pose proof (height_plug kx x). pose proof (sz_Rep_fuel _ _ HR2). lia. }
      destruct (erase_fix_ok true kx x (bh x)) as (t'' & Hef' & Hrb'' & Hsame);
        auto.
      rewrite Hef in Hef'. simplify_eq.
      exists s3, t''. split_and!; auto. split; [done|].
      apply sz_erase_fixup_dom in Hfix. unfold same_dom in Hfix.
      rewrite Hfix, Hdom2. symmetry. apply Hsame. }
  exists s3, t'. split_and!; [|done|done].
  unfold erase. rewrite Hlocate. bind_some.
  cbn [lr_exists lr_parent negb]. rewrite Hdt. bind_some.
  rewrite Hdel. bind_some.
  cbn [removed_color fixup fixup_parent]. rewrite Hfix. done.
Qed.

End SizeRep7.

(** ** The cached sizes of the augmented tree *)

Lemma lsized_lsized_off a t : lsized t → lsized_off a t.
Proof. induction t; simpl; intros; [done|]. naive_solver. Qed.

Lemma lsized_off_out a t : a ∉ addrs t → lsized_off a t → lsized t.
Proof.
  induction t as [|c b n l IHl v r IHr]; simpl; [done|].
  intros Ha ([Hin|Hn] & Hl & Hr); [done|].
  split_and!; [done|apply IHl|apply IHr]; auto; set_solver.
Qed.

Lemma n_of_paint c t : n_of (paint c t) = n_of t.
Proof. by destruct t. Qed.

Lemma lsized_paint c t : lsized (paint c t) ↔ lsized t.
Proof. by destruct t. Qed.

Lemma lsized_off_paint a c t : lsized_off a (paint c t) ↔ lsized_off a t.
Proof. by destruct t. Qed.

Lemma map_fsib_up aug k n : fsib <$> up aug k n = fsib <$> k.
Proof. revert n. induction k as [|f k IH]; intros n; simpl; by rewrite ?IH. Qed.

Lemma sized_k_map k k' : fsib <$> k = fsib <$> k' → sized_k k → sized_k k'.
Proof.
  unfold sized_k. rewrite <- !(Forall_fmap fsib lsized). by intros ->.
Qed.

Lemma sized_k_up k n : sized_k (up true k n) ↔ sized_k k.
Proof.
  split; apply sized_k_map; by rewrite map_fsib_up.
Qed.

Lemma sized_off_k_up a k n : sized_off_k a (up true k n) ↔ sized_off_k a k.
Proof.
  unfold sized_off_k.
  rewrite <- !(Forall_fmap fsib (lsized_off a)), map_fsib_up. done.
Qed.

Lemma lsized_plug k : ∀ t, lsized (plug t k) → lsized t ∧ sized_k k.
Proof.
  induction k as [|f k IH]; intros t H; simpl in *.
  - split; [done|constructor].
  - apply IH in H as [Hf Hk].
    destruct f as [[] c a n v w]; unfold fill in Hf; simpl in Hf;
      destruct Hf as (_ & ? & ?); (split; [done|by constructor]).
Qed.

Lemma lsized_plug_up k : ∀ t n,
  n = n_of t → lsized t → sized_k k → lsized (plug t (up true k n)).
Proof.
  induction k as [|f k IH]; intros t n -> Ht Hk; simpl; [done|].
  apply Forall_cons in Hk as [Hf Hk].
  apply IH; [|by destruct f as [[] ?????]; unfold fill; simpl|done].
  by destruct f as [[] ?????].
Qed.

(** The subtree at the hole may be replaced by one of the same size. *)
Lemma lsized_replace k : ∀ t t',
  lsized (plug t k) → lsized t' → n_of t' = n_of t → lsized (plug t' k).
Proof.
  induction k as [|f k IH]; intros t t' H Ht' Hn; simpl in *; [done|].
  apply (IH (fill f t)); [done| |by destruct f as [[] ?????]].
  apply lsized_plug in H as [Hf _].
  destruct f as [[] c a n v w]; unfold fill in *; simpl in *; rewrite Hn;
    naive_solver.
Qed.

Lemma lsized_off_plug a k : ∀ t,
  a ∈ addrs t →
  lsized_off a (plug t k) ↔ lsized_off a t ∧ sized_off_k a k.
Proof.
  unfold sized_off_k.
  induction k as [|f k IH]; intros t Ha; simpl.
  - rewrite Forall_nil. tauto.
  - rewrite Forall_cons, IH
      by (destruct f as [[] ?????]; unfold fill; simpl; set_solver).
    destruct f as [[] c b n v w]; unfold fill; simpl;
      (split; [intros ((_ & ? & ?) & ?)|intros (? & ? & ?)]);
      split_and!; auto; left; set_solver.
Qed.

Lemma lsized_off_rot a d t t' :
  rot true d t = Some t' → lsized_off a t → lsized_off a t'.
Proof.
  destruct d, t as [|c b n [|c1 a1 n1 l1 v1 r1] v [|c2 a2 n2 l2 v2 r2]];
    simpl; intros; simplify_eq; simpl in *; naive_solver.
Qed.

Lemma lsized_rot d t t' : rot true d t = Some t' → lsized t → lsized t'.
Proof.
  destruct d, t as [|c b n [|c1 a1 n1 l1 v1 r1] v [|c2 a2 n2 l2 v2 r2]];
    simpl; intros; simplify_eq; simpl in *; naive_solver.
Qed.

(** *** Insertion *)

Lemma insert_fix_sized a k : ∀ t t',
  a ∈ addrs t → lsized_off a t → sized_off_k a k →
  insert_fix true k t = Some t' → lsized_off a t'.
Proof.
  induction k as [|f1|f1 f2 k2 IH] using ctx_ind2; intros t t' Ha Ht Hk Hfix.
  - simpl in Hfix. simplify_eq. by apply lsized_off_paint.
  - simpl in Hfix. case_decide; [|done]. simplify_eq.
    by apply (lsized_off_plug a [f1]).
  - cbn [insert_fix] in Hfix. case_decide as Hf1.
    { simplify_eq. by apply (lsized_off_plug a (f1 :: f2 :: k2)). }
    pose proof Hk as Hk0.
    apply Forall_cons in Hk as [Hw1 Hk]. apply Forall_cons in Hk as [Hw2 Hk].
    destruct t as [|c b n l v r]; [set_solver|].
    assert (insert_fix true k2
              (fill (fsibling (paint BLACK (fsib f2)) (fpaint RED f2))
                 (fill (fpaint BLACK f1) (T c b n l v r))) = Some t' ∨
            rebalance true (T c b n l v r) f1 f2 k2 = Some t') as [H|H].
    { destruct (fsib f2) as [|[] ua un ul uv ur]; auto. }
    + apply IH in H; [done| | |done].
      * clear -Ha. destruct f1 as [[] ?????], f2 as [[] ?????];
          unfold fill; simpl in *; set_solver.
      * apply (lsized_off_paint a BLACK) in Hw2.
        pose proof Ht as (Hn & Hl & Hr).
        destruct f1 as [[] c1 a1 n1 v1 w1], f2 as [[] c2 a2 n2 v2 w2];
          unfold fill; simpl in *; split_and!; auto; left; clear -Ha;
          set_solver.
    + clear Hfix IH Hk0.
      destruct f1 as [[] c1 a1 n1 v1 w1], f2 as [[] c2 a2 n2 v2 w2];
        unfold rebalance in H; simpl in H; simplify_eq; simpl in *.
      all: apply lsized_off_plug;
        [clear -Ha; simpl; set_solver
        |split; [|by rewrite ?sized_off_k_up]].
      all: simpl; destruct Ht as (_ & ? & ?); split_and!; auto.
      all: try (left; clear -Ha; set_solver).
Qed.

Lemma insert_tree_sized v a t t1 :
  lsized t → insert_tree true v a t = Some t1 → lsized_off a t1.
Proof.
  intros Ht Hins. unfold insert_tree in Hins.
  destruct (descend v t []) as [t0 k] eqn:Hd.
  pose proof (descend_plug _ _ _ _ _ Hd) as Hp. simpl in Hp.
  destruct t0; [|done]. subst t. apply lsized_plug in Ht as [_ Hk].
  eapply insert_fix_sized; [| | |exact Hins].
  - simpl. set_solver.
  - simpl. split_and!; auto.
  - eapply Forall_impl; [exact Hk|]. intros f. apply lsized_lsized_off.
Qed.

Lemma lsized_n_of_resize t : n_of (resize true (resize true t)) = n_of (resize true t).
Proof. by destruct t. Qed.

Lemma fix_sizes_sized a t1 t' :
  wf t1 → a ∈ addrs t1 → lsized_off a t1 →
  fix_sizes true a t1 = Some t' → lsized t'.
Proof.
  intros Hwf Ha Hs Hfix. unfold fix_sizes in Hfix.
  destruct (find_z_some a t1 [] Ha) as (ta & ka & Hf & Hp & Hpt).
  rewrite app_nil_r in Hf. rewrite Hf in Hfix. simpl in Hfix. simplify_eq.
  destruct ta as [|c b n l v r]; [done|]. simpl in Hpt. simplify_eq.
  apply wf_plug in Hwf as (Hwt & Hwk & Hd).
  apply lsized_off_plug in Hs as [Ht Hk]; [|simpl; set_solver].
  destruct Ht as (_ & Hl & Hr). destruct Hwt as (Hal & Har & _).
  apply lsized_plug_up; [done| |].
  - simpl. split_and!; [done|by apply (lsized_off_out a)..].
  - clear -Hk Hd Hwk. simpl in Hd.
    induction ka as [|f k IH]; [constructor|].
    apply Forall_cons in Hk as [Hf Hk]. simpl in Hd, Hwk.
    constructor; [|apply IH; first [done|tauto|set_solver]].
    apply (lsized_off_out a); [set_solver|done].
Qed.

Lemma fix_sizes_ok a t1 :
  a ∈ addrs t1 → rbtree t1 →
  ∃ t', fix_sizes true a t1 = Some t' ∧ rbtree t' ∧ same t1 t'.
Proof.
  intros Ha Hrb. unfold fix_sizes.
  destruct (find_z_some a t1 [] Ha) as (ta & ka & Hf & Hp & Hpt).
  rewrite app_nil_r in Hf. rewrite Hf. simpl. eexists; split; [done|].
  subst t1. destruct ta as [|c b n l v r]; [done|].
  apply unplug_rb in Hrb as (Hk & Ht & Htop). split.
  - eapply plug_rb; [by apply ctxrb_up|done|done|].
    intros Hc. apply top_black_up. by apply Htop.
  - eapply same_trans; [|apply same_up].
    apply same_plug. by split_and!.
Qed.

(** The cache of a tree is the number of its nodes. *)
Lemma lsized_count t : lsized t → n_of t = wrap_size (Z.of_nat (count t)).
Proof.
  induction t as [|c a n l IHl v r IHr]; simpl; [done|].
  intros (-> & Hl & Hr). rewrite IHl, IHr by done. unfold wrap_size.
  rewrite Nat2Z.inj_succ, Nat2Z.inj_add.
  rewrite <- Z.add_mod by done. rewrite Zplus_mod_idemp_l. f_equal; lia.
Qed.

(** *** Deletion *)

Lemma detach_sized c a n l v r k x kx rc :
  lsized (plug (T c a n l v r) k) →
  detach true (T c a n l v r) k = Some (x, kx, rc) → lsized (plug x kx).
Proof.
  intros H Hdet. apply lsized_plug in H as [(_ & Hl & Hr) Hk].
  destruct l as [|lc la ln ll lv lr].
  { simpl in Hdet. simplify_eq. by apply lsized_plug_up. }
  destruct r as [|rc' ra rn rl rv rr].
  { simpl in Hdet. simplify_eq. by apply lsized_plug_up. }
  cbn [detach] in Hdet.
  destruct (leftmost (T rc' ra rn rl rv rr) []) as [y ky] eqn:Hlm.
  destruct (leftmost_spec (T rc' ra rn rl rv rr) [] ltac:(done))
    as (yc & ya & yn & yv & yr & ky' & Hlm' & Hp & _).
  rewrite Hlm in Hlm'. rewrite app_nil_r in Hlm'. simplify_eq.
  rewrite <- Hp in Hr. apply lsized_plug in Hr as [(_ & _ & Hyr) Hky].
  rewrite plug_app. cbn [plug]. unfold fill at 1. cbn [fdir fc fa fn fv fsib].
  apply lsized_plug_up; [done| |done].
  split_and!; [done|done|]. by apply lsized_plug_up.
Qed.

Lemma fix_sibling_sized x f k x1 f1 k1 :
  lsized (plug x (f :: k)) → fix_sibling true x f k = Some (x1, f1, k1) →
  lsized (plug x1 (f1 :: k1)).
Proof.
  intros H Hsib. apply lsized_plug in H as [Hx Hk].
  apply Forall_cons in Hk as [Hw Hk].
  destruct f as [[] c a n v [|wc wa wn wl wv wr]];
    unfold fix_sibling in Hsib; simpl in Hsib; simplify_eq.
  all: simpl in *; unfold fill; simpl.
  all: apply lsized_plug_up; [done| |done].
  all: simpl; naive_solver.
Qed.

Lemma fix_step_sized x f k r :
  lsized (plug x (f :: k)) → fix_step true x f k = Some r →
  match r with
  | inl t => lsized t
  | inr x2 => lsized (plug x2 k)
  end.
Proof.
  intros H Hstep. pose proof H as H0. pose proof H as H00.
  apply lsized_plug in H as [Hx Hk].
  apply Forall_cons in Hk as [Hw Hk]. change (lsized (plug (fill f x) k)) in H0.
  destruct f as [d c a n v [|wc wa wn wl wv wr]].
  { destruct d; unfold fix_step in Hstep; simpl in Hstep; simplify_eq;
      exact H0. }
  destruct Hw as (Hwn & Hwl & Hwr).
  unfold fix_step in Hstep. cbn [fdir fsib] in Hstep.
  destruct d; cbn [child opposite] in Hstep.
  - destruct (Abs.color_of wl) eqn:Hcl, (Abs.color_of wr) eqn:Hcr;
      simpl in Hstep.
    + destruct wr as [|[] ra rn rl rv rr]; try done. simpl in Hstep.
      simplify_eq. apply lsized_plug_up; [done| |done].
      simpl in *. naive_solver.
    + destruct wl as [|[] la ln ll lv lr]; try done. simpl in Hstep.
      simplify_eq. apply lsized_plug_up; [done| |by apply sized_k_up].
      simpl in *. naive_solver.
    + destruct wr as [|[] ra rn rl rv rr]; try done. simpl in Hstep.
      simplify_eq. apply lsized_plug_up; [done| |done].
      simpl in *. naive_solver.
    + simplify_eq.
      apply lsized_plug in H0 as [(Hn & _) _].
      eapply (lsized_replace k (fill _ x)); [exact H00| |done].
      unfold fill; simpl in *; done.
  - destruct (Abs.color_of wr) eqn:Hcr, (Abs.color_of wl) eqn:Hcl;
      simpl in Hstep.
    + destruct wl as [|[] la ln ll lv lr]; try done. simpl in Hstep.
      simplify_eq. apply lsized_plug_up; [done| |done].
      simpl in *. naive_solver.
    + destruct wr as [|[] ra rn rl rv rr]; try done. simpl in Hstep.
      simplify_eq. apply lsized_plug_up; [done| |by apply sized_k_up].
      simpl in *. naive_solver.
    + destruct wl as [|[] la ln ll lv lr]; try done. simpl in Hstep.
      simplify_eq. apply lsized_plug_up; [done| |done].
      simpl in *. naive_solver.
    + simplify_eq.
      apply lsized_plug in H0 as [(Hn & _) _].
      eapply (lsized_replace k (fill _ x)); [exact H00| |done].
      unfold fill; simpl in *; done.
Qed.

Lemma erase_fix_sized k : ∀ x t',
  lsized (plug x k) → erase_fix true k x = Some t' → lsized t'.
Proof.
  induction k as [|f k IH]; intros x t' H Hfix.
  - simpl in Hfix. simplify_eq. by apply lsized_paint.
  - cbn [erase_fix] in Hfix. case_decide.
    { simplify_eq. eapply lsized_replace; [exact H| |apply n_of_paint].
      apply lsized_paint. by apply lsized_plug in H as [? _]. }
    case_decide.
    + destruct (fix_sibling true x f k) as [[[x1 f1] k1]|] eqn:Hsib; [|done].
      pose proof (fix_sibling_sized _ _ _ _ _ _ H Hsib) as Hs1.
      simpl in Hfix.
      destruct (fix_step true x1 f1 k1) as [r|] eqn:Hstep; [|done].
      pose proof (fix_step_sized _ _ _ _ Hs1 Hstep) as Hs2.
      simpl in Hfix. destruct r as [t|x2].
      * simplify_eq. by apply lsized_paint.
      * case_decide; [|done]. simplify_eq.
        eapply lsized_replace; [exact Hs2| |apply n_of_paint].
        apply lsized_paint. by apply lsized_plug in Hs2 as [? _].
    + destruct (fix_step true x f k) as [r|] eqn:Hstep; [|done].
      pose proof (fix_step_sized _ _ _ _ H Hstep) as Hs2.
      simpl in Hfix. destruct r as [t|x2].
      * simplify_eq. by apply lsized_paint.
      * by apply (IH x2).
Qed.

Lemma erase_tree_sized v t t' :
  lsized t → erase_tree true v t = Some t' → lsized t'.
Proof.
  intros H Her. unfold erase_tree in Her.
  destruct (descend v t []) as [z k] eqn:Hd.
  pose proof (descend_plug _ _ _ _ _ Hd) as Hp. simpl in Hp.
  destruct z as [|c a n l w r]; [done|]. rewrite <- Hp in H.
  destruct (detach true (T c a n l w r) k) as [[[x kx] rc]|] eqn:Hdet;
    [|done].
  pose proof (detach_sized _ _ _ _ _ _ _ _ _ _ H Hdet) as H1.
  simpl in Her. case_decide; [|by simplify_eq].
  by apply (erase_fix_sized kx x).
Qed.

Lemma climb_none k : ∀ x, climb x k = None → rights k = [].
Proof.
  induction k as [|[[] c a n v w] k IH]; intros x H; simpl in *; try done.
  by apply IH in H.
Qed.

Lemma climb_some k : ∀ x z k',
  climb x k = Some (z, k') →
  ∃ c a n l v r, z = T c a n l v r ∧ plug z k' = plug x k ∧
                 rights k = v :: elements r ++ rights k' ∧
                 length k' < length k.
Proof.
  induction k as [|[[] c a n v w] k IH]; intros x z k' H; simpl in *;
    try done.
  - simplify_eq. unfold fill. simpl. eexists _, _, _, _, _, _.
    split_and!; try done. lia.
  - apply IH in H as (c' & a' & n' & l' & v' & r' & -> & Hp & Hr & Hl).
    eexists _, _, _, _, _, _. split_and!; try done. lia.
Qed.

Lemma leftmost_rights t k :
  t ≠ E →
  ∃ yc ya yn yv yr ky,
    leftmost t k = (T yc ya yn E yv yr, ky) ∧
    plug (T yc ya yn E yv yr) ky = plug t k ∧
    elements t ++ rights k = yv :: elements yr ++ rights ky.
Proof.
  intros Hne.
  destruct (leftmost_spec t k Hne) as (yc & ya & yn & yv & yr & ky & Hl & Hp & Hlf).
  exists yc, ya, yn, yv, yr, (ky ++ k). split_and!; [done| |].
  - by rewrite plug_app, Hp.
  - rewrite <- Hp, elements_plug, Hlf, rights_app. simpl.
    by rewrite <- app_assoc.
Qed.

Module SizeTop.
Import SizeTree SizeRep SizeRep1 SizeRep2 SizeRep3 SizeRep4 SizeRep5 SizeRep6 SizeRep7.
Local Arguments plug : simpl never.
Local Arguments fuel_of : simpl never.

Lemma next_loop_spec s k : ∀ x fuel,
  Rep s (plug x k) → x ≠ E → length k < fuel →
  next_loop fuel s (ptr_of x) (hole_par k)
  = Some (match climb x k with Some (z, _) => ptr_of z | None => None end).
Proof.
  induction k as [|f k IH]; intros x fuel H Hx Hf;
    (destruct fuel as [|fuel]; [simpl in Hf; lia|]); [done|].
  pose proof H as (Hroot & Hwf & Hrep).
  apply rep_plug in Hrep as [Hrx (Ha & Hw & Hk)].
  cbn [next_loop hole_par is_nil].
  erewrite sz_right_child_heap by eassumption.
  cbn [mbind option_bind].
  destruct f as [[] c a n v w]; unfold frame_node in *;
    cbn [fdir fc fa fn fv fsib mk base right_ left_ parent_ climb] in *.
  - rewrite decide_False; [by rewrite ptr_of_fill|].
    apply wf_plug in Hwf as (_ & _ & Hd). simpl in Hd.
    destruct x as [|xc xa xn xl xv xr]; [done|].
    destruct w; [done|]. simpl in *. intros [= ->]. set_solver.
  - rewrite decide_True by done.
    erewrite sz_parent_heap by eassumption. cbn [mbind option_bind].
    apply (IH (T c a n w v x)); [exact H|done|simpl in Hf; lia].
Qed.

Lemma next_spec s c a n l v r k :
  Rep s (plug (T c a n l v r) k) →
  next s (Some a)
  = Some (match succ_pos (T c a n l v r) k with
          | Some (z, _) => ptr_of z
          | None => None
          end).
Proof.
  intros H. pose proof H as (Hroot & Hwf & Hrep).
  apply rep_plug in Hrep as [(Ha & Hl & Hr) Hk].
  unfold next. cbn [is_nil].
  erewrite sz_right_child_heap by eassumption.
  cbn [mbind option_bind mk base right_].
  destruct r as [|rc ra rn rl rv rr].
  - cbn [ptr_of is_nil negb succ_pos].
    erewrite sz_parent_heap by eassumption. cbn [mbind option_bind].
    apply (next_loop_spec s k (T c a n l v E)); [done|done|].
    pose proof (height_plug k (T c a n l v E)).
    pose proof (sz_Rep_fuel _ _ H). simpl in *. lia.
  - cbn [ptr_of is_nil negb succ_pos].
    rewrite (sz_minimum_spec s (T rc ra rn rl rv rr) (Some a)
               (F RIGHT c a n v l :: k)); [|done|done|].
    + by destruct (leftmost _ _).
    + apply wf_plug in Hwf as ((_ & _ & _ & _ & Hwr) & _).
      pose proof (sz_rep_t_fuel _ _ _ Hr Hwr). lia.
Qed.

Lemma succ_pos_spec c a n l v r k :
  match succ_pos (T c a n l v r) k with
  | None => elements r ++ rights k = []
  | Some (z, k') =>
      ∃ c' a' n' l' v' r',
        z = T c' a' n' l' v' r' ∧
        plug z k' = plug (T c a n l v r) k ∧
        elements r ++ rights k = v' :: elements r' ++ rights k'
  end.
Proof.
  destruct r as [|rc ra rn rl rv rr]; cbn [succ_pos].
  - destruct (climb _ k) as [[z k']|] eqn:Hc.
    + apply climb_some in Hc as (c' & a' & n' & l' & v' & r' & -> & Hp & Hr & _).
      eexists _, _, _, _, _, _. done.
    + by apply climb_none in Hc.
  - destruct (leftmost_rights (T rc ra rn rl rv rr)
                (F RIGHT c a n v l :: k)) as
      (yc & ya & yn & yv & yr & ky & -> & Hp & He); [done|].
    eexists _, _, _, _, _, _. split_and!; [done|exact Hp|exact He].
Qed.

Lemma iterate_spec s : ∀ fuel c a n l v r k,
  Rep s (plug (T c a n l v r) k) →
  S (length (elements r ++ rights k)) < fuel →
  iterate fuel s (mkIterator (Some a)) = Some (v :: elements r ++ rights k).
Proof.
  induction fuel as [|fuel IH]; intros c a n l v r k H Hf; [lia|].
  pose proof H as (_ & _ & Hrep).
  apply rep_plug in Hrep as [(Ha & _) _].
  cbn [iterate current_ end_]. rewrite bool_decide_eq_false_2 by done.
  unfold deref, incr. cbn [current_ is_nil negb assert mbind option_bind].
  erewrite sz_value_heap by eassumption. cbn [mbind option_bind mk value_].
  rewrite (next_spec _ _ _ _ _ _ _ _ H). cbn [mbind option_bind].
  pose proof (succ_pos_spec c a n l v r k) as Hs.
  destruct (succ_pos _ k) as [[z k']|].
  - destruct Hs as (c' & a' & n' & l' & v' & r' & -> & Hp & He).
    rewrite <- Hp in H. cbn [ptr_of].
    rewrite (IH _ _ _ _ _ _ _ H) by (rewrite He in Hf; simpl in Hf; lia).
    cbn [mbind option_bind]. by rewrite He.
  - rewrite Hs in *. destruct fuel; [simpl in Hf; lia|]. done.
Qed.

(** Iterating from [begin()] to [end()] yields the values in order. *)
Lemma traverse_rep s t : Rep s t → traverse s = Some (elements t).
Proof.
  intros H. pose proof H as (Hroot & Hwf & Hrep).
  pose proof (sz_Rep_dom _ _ H) as Hd. apply subseteq_size in Hd.
  rewrite (count_addrs t Hwf), size_dom, count_elements in Hd.
  unfold traverse, begin. rewrite Hroot.
  destruct t as [|c a n l v r]; [done|].
  cbn [ptr_of is_nil negb].
  change (Some a) with (ptr_of (T c a n l v r)).
  rewrite (sz_minimum_spec s _ None []); [|done|done|].
  2:{ pose proof (sz_Rep_fuel _ _ H). lia. }
  destruct (leftmost_rights (T c a n l v r) []) as
    (yc & ya & yn & yv & yr & ky & -> & Hp & He); [done|].
  cbn [mbind option_bind fst ptr_of].
  change (plug (T c a n l v r) []) with (T c a n l v r) in Hp.
  rewrite <- Hp in H. cbn [rights] in He. rewrite app_nil_r in He.
  rewrite (iterate_spec _ _ _ _ _ _ _ _ _ H).
  - by rewrite He.
  - rewrite He in Hd. simpl in Hd. unfold fuel_of. lia.
Qed.

End SizeTop.

Lemma count_plug k : ∀ t, count t ≤ count (plug t k).
Proof.
  induction k as [|f k IH]; intros t; simpl; [done|].
  etrans; [|apply IH]. destruct f as [[] ?????]; unfold fill; simpl; lia.
Qed.

Lemma cmp_count_app cmp v l1 l2 :
  cmp_count cmp v (l1 ++ l2) = cmp_count cmp v l1 + cmp_count cmp v l2.
Proof. unfold cmp_count. by rewrite filter_app, length_app. Qed.

Lemma cmp_count_node cmp v l1 w l2 :
  downward cmp → StronglySorted Z.lt (l1 ++ w :: l2) →
  cmp_count cmp v (l1 ++ w :: l2) =
  if cmp w v then length l1 + 1 + cmp_count cmp v l2
  else cmp_count cmp v l1.
Proof.
  intros Hd Hs. apply sorted_mid in Hs as (_ & H1 & H2).
  rewrite cmp_count_app. unfold cmp_count at 2.
  rewrite filter_cons. destruct (cmp w v) eqn:Hc.
  - rewrite decide_True by done. unfold cmp_count at 1.
    rewrite filter_all; [simpl; fold (cmp_count cmp v l2); lia|].
    eapply Forall_impl; [exact H1|]. intros x Hx. by apply (Hd x w).
  - rewrite decide_False by done.
    fold (cmp_count cmp v l2). unfold cmp_count at 2.
    rewrite filter_none; [simpl; lia|].
    eapply Forall_impl; [exact H2|]. intros x Hx Hcx.
    rewrite (Hd w x v Hx Hcx) in Hc. done.
Qed.

Lemma downward_lower : downward SizeTree.compare_lower_bound.
Proof.
  intros x y v Hxy. unfold SizeTree.compare_lower_bound.
  rewrite !Z.ltb_lt. lia.
Qed.

Lemma downward_upper : downward SizeTree.compare_upper_bound.
Proof.
  intros x y v Hxy. unfold SizeTree.compare_upper_bound.
  rewrite !Z.leb_le. lia.
Qed.

Lemma cmp_count_lower v l :
  cmp_count SizeTree.compare_lower_bound v l = lt_count v l.
Proof.
  unfold cmp_count, lt_count. f_equal. apply filter_agree. intros x _.
  unfold SizeTree.compare_lower_bound. by rewrite Z.ltb_lt.
Qed.

Lemma cmp_count_upper v l :
  cmp_count SizeTree.compare_upper_bound v l = le_count v l.
Proof.
  unfold cmp_count, le_count. f_equal. apply filter_agree. intros x _.
  unfold SizeTree.compare_upper_bound. by rewrite Z.leb_le.
Qed.

Lemma lt_le_count lo hi l : (lo ≤ hi)%Z → lt_count lo l ≤ le_count hi l.
Proof.
  intros Hle. unfold lt_count, le_count.
  induction l as [|x l IH]; [done|]. rewrite !filter_cons.
  repeat case_decide; simpl; lia.
Qed.

(** The closed range. *)
Lemma le_lt_count_range lo hi l :
  (lo ≤ hi)%Z →
  le_count hi l =
  lt_count lo l + length (filter (λ x, (lo ≤ x ≤ hi)%Z) l).
Proof.
  intros Hle. unfold lt_count, le_count.
  induction l as [|x l IH]; [done|]. rewrite !filter_cons.
  repeat case_decide; simpl; lia.
Qed.

Lemma count_filter_le {A} (P : A → Prop) `{∀ x, Decision (P x)} (l : list A) :
  length (filter P l) ≤ length l.
Proof.
  induction l as [|x l IH]; [done|]. rewrite filter_cons.
  case_decide; simpl; lia.
Qed.

Module SizeQuery.
Import SizeTree SizeRep SizeRep1 SizeRep2 SizeRep3 SizeRep4 SizeRep5 SizeRep6 SizeRep7.
Import SizeTop.
Local Arguments plug : simpl never.
Local Arguments fuel_of : simpl never.

Lemma sz_size_rep s t :
  Rep s t → lsized t →
  size s = Some (wrap_size (Z.of_nat (length (elements t)))).
Proof.
  intros (Hroot & _ & Hrep) Hs. unfold size.
  rewrite Hroot, (node_size_rep _ _ _ Hrep), (lsized_count _ Hs).
  by rewrite count_elements.
Qed.

Lemma rank_comp_loop_rep s v cmp t : ∀ par fuel res,
  downward cmp →
  rep_t mk (heap s) par t → lsized t → bst t → height t < fuel →
  wrap_size res = res →
  rank_comp_loop fuel s v cmp (ptr_of t) res
  = Some (wrap_size (res + Z.of_nat (cmp_count cmp v (elements t)))).
Proof.
  intros par fuel res Hdw. revert par fuel res.
  induction t as [|c a n l IHl w r IHr];
    intros par fuel res Hrep Hsz Hs Hf Hres;
    (destruct fuel as [|fuel]; [lia|]).
  { cbn. by rewrite Z.add_0_r, Hres. }
  destruct Hrep as (Ha & Hl & Hr). simpl in Hf.
  destruct Hsz as (Hn & Hsl & Hsr).
  unfold bst in Hs. cbn [elements] in Hs. pose proof Hs as Hs0.
  apply sorted_mid in Hs0 as (Hs0 & _ & _).
  apply StronglySorted_app in Hs0 as (_ & Hbl & Hbr).
  cbn [rank_comp_loop ptr_of is_nil elements].
  erewrite sz_value_heap by eassumption. cbn [mbind option_bind value_ mk].
  rewrite (cmp_count_node _ _ _ _ _ Hdw Hs).
  destruct (cmp w v).
  - erewrite sz_left_child_heap by eassumption.
    cbn [mbind option_bind base left_ right_ mk].
    rewrite (node_size_rep _ _ _ Hl). cbn [mbind option_bind].
    erewrite sz_right_child_heap by eassumption.
    cbn [mbind option_bind base left_ right_ mk].
    rewrite (IHr (Some a)) by (done || lia || apply wrap_size_idem).
    rewrite (lsized_count _ Hsl), count_elements. f_equal.
    rewrite wrap_size_add_l, (wrap_size_add_l (Z.of_nat _) 1).
    rewrite <- Z.add_assoc, (Z.add_comm res), <- Z.add_assoc, wrap_size_add_l.
    f_equal. lia.
  - erewrite sz_left_child_heap by eassumption.
    cbn [mbind option_bind base left_ right_ mk].
    by rewrite (IHl (Some a)) by (done || lia).
Qed.

Lemma rank_comp_bound_rep s t v cmp :
  downward cmp → Rep s t → lsized t → bst t →
  rank_comp_bound s v cmp
  = Some (wrap_size (Z.of_nat (cmp_count cmp v (elements t)))).
Proof.
  intros Hdw H Hsz Hs. pose proof (sz_Rep_fuel _ _ H) as Hf.
  destruct H as (Hroot & _ & Hrep). unfold rank_comp_bound.
  rewrite Hroot.
  by rewrite (rank_comp_loop_rep s v cmp t None _ 0%Z Hdw Hrep Hsz Hs Hf).
Qed.

(** The two ranks of [distance], and its result: the number of stored
    values in the closed range. *)
Lemma distance_ranks_rep s t first second :
  Rep s t → lsized t → bst t →
  distance_ranks s first second
  = Some (wrap_size (Z.of_nat (lt_count first (elements t))),
          wrap_size (Z.of_nat (le_count second (elements t)))).
Proof.
  intros H Hsz Hs. unfold distance_ranks.
  rewrite (rank_comp_bound_rep _ _ _ _ downward_lower H Hsz Hs).
  rewrite (rank_comp_bound_rep _ _ _ _ downward_upper H Hsz Hs).
  cbn [mbind option_bind]. by rewrite cmp_count_lower, cmp_count_upper.
Qed.

Lemma sz_distance_rep s t first second :
  Rep s t → lsized t → bst t →
  (Z.of_nat (length (elements t)) < 2 ^ 64)%Z →
  distance s first second
  = Some (if (second <? first)%Z then 0%Z
          else Z.of_nat (length (filter (λ x, (first ≤ x ≤ second)%Z)
                                   (elements t)))).
Proof.
  intros H Hsz Hs Hlen. unfold distance.
  destruct (second <? first)%Z eqn:Hlt; [done|]. apply Z.ltb_ge in Hlt.
  rewrite (distance_ranks_rep _ _ _ _ H Hsz Hs). cbn [mbind option_bind].
  pose proof (count_filter_le (λ x, (x < first)%Z) (elements t)).
  pose proof (count_filter_le (λ x, (x ≤ second)%Z) (elements t)).
  pose proof (lt_le_count first second (elements t) Hlt).
  pose proof (le_lt_count_range first second (elements t) Hlt) as Hr.
  rewrite (wrap_size_small (Z.of_nat (lt_count _ _)))
    by (unfold lt_count; lia).
  rewrite (wrap_size_small (Z.of_nat (le_count _ _)))
    by (unfold le_count; lia).
  unfold lt_count, le_count in *.
  rewrite (proj2 (Z.leb_le _ _)) by lia. cbn [assert mbind option_bind].
  rewrite wrap_size_small by lia. f_equal. lia.
Qed.

End SizeQuery.

Module SizeGood.
Import SizeTree SizeRep SizeRep1 SizeRep2 SizeRep3 SizeRep4 SizeRep5 SizeRep6 SizeRep7.
Import SizeTop SizeQuery.
Local Arguments plug : simpl never.
Local Arguments fuel_of : simpl never.

Lemma sz_Good_empty : Good empty_tree E.
Proof.
  split_and!; [|done|constructor|done].
  split; [by repeat split|]. simpl. apply dom_empty_L.
Qed.

Lemma sz_Good_insert s t v :
  Good s t →
  ∃ b s' t', insert v s = Some (b, s') ∧ Good s' t' ∧
    (v ∈ elements t → b = false ∧ s' = s) ∧
    (v ∉ elements t → b = true ∧
       (∀ x, x ∈ elements t' ↔ x = v ∨ x ∈ elements t) ∧
       length (elements t') = S (length (elements t))).
Proof.
  intros (HI & Hrb & Hs & Hsz).
  destruct (decide (v ∈ elements t)) as [Hv|Hv].
  - exists false, s, t. split_and!; try done.
    by apply (sz_insert_present s t).
  - destruct (sz_insert_absent s t v HI Hrb Hs Hv)
      as (s' & t1 & t' & Hins & Hit & Hfs & HI').
    destruct (insert_tree_ok true v (fresh (dom (heap s))) t)
      as (t1' & Hit' & Hrb1 & Hwf1 & Hs1 & Ha1 & Hel & Hlen); auto.
    { apply HI. }
    { destruct HI as [_ <-]. apply is_fresh. }
    rewrite Hit in Hit'. simplify_eq.
    assert (fresh (dom (heap s)) ∈ addrs t1') as Hin
      by (rewrite Ha1; set_solver).
    destruct (fix_sizes_ok _ _ Hin Hrb1) as (t2 & Hfs' & Hrb2 & Hsame).
    rewrite Hfs in Hfs'. simplify_eq.
    destruct Hsame as (He2 & _ & _).
    exists true, s', t2. split; [done|]. split; [|split; [done|]].
    + split_and!; [done|done|unfold bst; by rewrite He2|].
      eapply fix_sizes_sized; [exact Hwf1|exact Hin| |exact Hfs].
      by eapply insert_tree_sized.
    + intros _. rewrite He2. done.
Qed.

Lemma sz_Good_erase s t v :
  Good s t →
  ∃ b s' t', erase v s = Some (b, s') ∧ Good s' t' ∧
    (v ∉ elements t → b = false ∧ s' = s) ∧
    (v ∈ elements t → b = true ∧
       (∀ x, x ∈ elements t' ↔ x ∈ elements t ∧ x ≠ v) ∧
       S (length (elements t')) = length (elements t)).
Proof.
  intros (HI & Hrb & Hs & Hsz).
  destruct (decide (v ∈ elements t)) as [Hv|Hv].
  - destruct (sz_erase_present s t v HI Hrb Hs Hv)
      as (s' & t' & Her & Het & HI').
    destruct (erase_tree_ok true v t Hrb Hs Hv)
      as (t'' & z & k & a & _ & _ & Het' & Hrb' & (l1 & l2 & He & He') & _).
    rewrite Het in Het'. simplify_eq.
    pose proof (erase_tree_sized _ _ _ Hsz Het) as Hsz'.
    unfold bst in Hs. rewrite He in Hs.
    destruct (sorted_remove _ _ _ Hs) as (Hs' & Hnv & Hel).
    exists true, s', t''. split; [done|]. split; [|split; [done|]].
    + split_and!; [done|done| |done]. unfold bst. by rewrite He'.
    + intros _. split_and!; [done| |].
      * rewrite He, He'. done.
      * rewrite He, He', !length_app. simpl. lia.
  - exists false, s, t. split_and!; try done.
    by apply (sz_erase_absent s t).
Qed.

Lemma sz_Good_run ops : ∀ s t,
  Good s t →
  ∃ s' t', run ops s = Some s' ∧ Good s' t' ∧
           length (elements t') ≤ length (elements t) + length ops.
Proof.
  induction ops as [|o ops IH]; intros s t HG; cbn [run].
  { exists s, t. split_and!; [done|done|simpl; lia]. }
  destruct o as [v|v]; cbn [apply_op].
  - destruct (sz_Good_insert s t v HG) as (b & s' & t' & -> & HG' & Hp & Ha).
    cbn [mbind option_bind].
    destruct (IH s' t' HG') as (s2 & t2 & Hr & HG2 & Hl).
    exists s2, t2. split_and!; [done|done|]. simpl.
    destruct (decide (v ∈ elements t)) as [Hv|Hv].
    + destruct (Hp Hv) as [_ ->].
      destruct HG as [[HR _] _], HG' as [[HR' _] _].
      assert (elements t' = elements t) as He.
      { pose proof (traverse_rep _ _ HR) as H1.
        pose proof (traverse_rep _ _ HR') as H2. congruence. }
      rewrite He in Hl. lia.
    + destruct (Ha Hv) as (_ & _ & Hlen). lia.
  - destruct (sz_Good_erase s t v HG) as (b & s' & t' & -> & HG' & Ha & Hp).
    cbn [mbind option_bind].
    destruct (IH s' t' HG') as (s2 & t2 & Hr & HG2 & Hl).
    exists s2, t2. split_and!; [done|done|]. simpl.
    destruct (decide (v ∈ elements t)) as [Hv|Hv].
    + destruct (Hp Hv) as (_ & _ & Hlen). lia.
    + destruct (Ha Hv) as [_ ->].
      destruct HG as [[HR _] _], HG' as [[HR' _] _].
      assert (elements t' = elements t) as He.
      { pose proof (traverse_rep _ _ HR) as H1.
        pose proof (traverse_rep _ _ HR') as H2. congruence. }
      rewrite He in Hl. lia.
Qed.

Lemma sz_run_empty_good ops s :
  run ops empty_tree = Some s →
  ∃ t, Good s t ∧ length (elements t) ≤ length ops.
Proof.
  intros H.
  destruct (sz_Good_run ops _ _ sz_Good_empty) as (s' & t & Hr & HG & Hl).
  rewrite H in Hr. simplify_eq. eauto.
Qed.

(** Every node of the heap is a node of the tree. *)
Lemma node_at s t a nd :
  Inv s t → heap s !! a = Some nd →
  ∃ c n l v r k,
    plug (T c a n l v r) k = t ∧
    nd = mk c (ptr_of l) (ptr_of r) (hole_par k) n v.
Proof.
  intros [(Hroot & Hwf & Hrep) Hdom] Ha.
  assert (a ∈ addrs t) as Hin by (rewrite <- Hdom; apply elem_of_dom; eauto).
  destruct (find_z_some a t [] Hin) as (ta & ka & _ & Hp & Hpt).
  destruct ta as [|c b n l v r]; [done|]. simpl in Hpt. simplify_eq.
  apply rep_plug in Hrep as [(Hb & _) _].
  exists c, n, l, v, r, ka. split; [done|]. congruence.
Qed.

(** The cached size of every node is computed from the caches of the
    children; it is the number of nodes below, as long as that fits the
    type. *)
Lemma sizes_heap s t a nd :
  Inv s t → lsized t → heap s !! a = Some nd →
  ∃ nl nr,
    node_size s (left_ (base nd)) = Some nl ∧
    node_size s (right_ (base nd)) = Some nr ∧
    subtree_size_ (base nd) = wrap_size (wrap_size (nl + nr) + 1) ∧
    ((Z.of_nat (length (elements t)) < 2 ^ 64)%Z →
     subtree_size_ (base nd) = (1 + nl + nr)%Z).
Proof.
  intros HI Hsz Ha.
  destruct (node_at _ _ _ _ HI Ha) as (c & n & l & v & r & k & Hp & ->).
  destruct HI as [(Hroot & Hwf & Hrep) Hdom]. rewrite <- Hp in Hrep, Hsz.
  apply rep_plug in Hrep as [(_ & Hl & Hr) _].
  apply lsized_plug in Hsz as [(Hn & Hsl & Hsr) _].
  exists (n_of l), (n_of r). cbn [mk base left_ right_ subtree_size_].
  split_and!; [by eapply node_size_rep|by eapply node_size_rep|exact Hn|].
  intros Hlen. rewrite Hn. simpl.
  rewrite (lsized_count _ Hsl), (lsized_count _ Hsr).
  pose proof (count_plug k (T c a n l v r)) as Hc.
  rewrite Hp, (count_elements t) in Hc. simpl in Hc.
  rewrite (wrap_size_small (Z.of_nat (count l))) by lia.
  rewrite (wrap_size_small (Z.of_nat (count r))) by lia.
  rewrite (wrap_size_small (Z.of_nat (count l) + Z.of_nat (count r))) by lia.
  rewrite wrap_size_small by lia. lia.
Qed.

Lemma sz_reachable_pos s t p :
  Rep s t → reachable s p → ∃ t0 k, plug t0 k = t ∧ ptr_of t0 = p.
Proof.
  intros H Hp. pose proof H as (Hroot & _ & Hrep).
  induction Hp as [|p q Hp IH Hne Hq|p q Hp IH Hne Hq].
  - exists t, []. done.
  - destruct IH as (t0 & k & Hpl & <-).
    destruct t0 as [|c a n l v r]; [done|].
    rewrite <- Hpl in Hrep. apply rep_plug in Hrep as [(Ha & _) _].
    simpl in Hq. erewrite sz_left_child_heap in Hq by eassumption.
    simpl in Hq. simplify_eq.
    exists l, (F LEFT c a n v r :: k). done.
  - destruct IH as (t0 & k & Hpl & <-).
    destruct t0 as [|c a n l v r]; [done|].
    rewrite <- Hpl in Hrep. apply rep_plug in Hrep as [(Ha & _) _].
    simpl in Hq. erewrite sz_right_child_heap in Hq by eassumption.
    simpl in Hq. simplify_eq.
    exists r, (F RIGHT c a n v l :: k). done.
Qed.

Lemma sz_links_rep s t p :
  Rep s t → reachable s p → p ≠ None →
  (∀ q, left_child s p = Some q → q ≠ None → parent s q = Some p) ∧
  (∀ q, right_child s p = Some q → q ≠ None → parent s q = Some p) ∧
  (parent s p = Some None ↔ p = root_ s).
Proof.
  intros H Hp Hne.
  destruct (sz_reachable_pos _ _ _ H Hp) as (t0 & k & Hpl & <-).
  destruct H as (Hroot & Hwf & Hrep). rewrite <- Hpl in Hrep, Hroot, Hwf.
  destruct t0 as [|c a n l v r]; [done|].
  apply rep_plug in Hrep as [(Ha & Hl & Hr) _]. simpl.
  erewrite sz_left_child_heap, sz_right_child_heap, sz_parent_heap
    by eassumption.
  simpl. split_and!.
  - intros q [= <-] Hq. destruct l; [done|]. destruct Hl as [Hla _].
    simpl. by erewrite sz_parent_heap by eassumption.
  - intros q [= <-] Hq. destruct r; [done|]. destruct Hr as [Hra _].
    simpl. by erewrite sz_parent_heap by eassumption.
  - rewrite Hroot. destruct k as [|f k]; [done|]. split.
    + by intros [= ?].
    + intros Heq. exfalso. by apply (hole_not_root _ _ _ Hwf).
Qed.

End SizeGood.

(** Every node of a tree is at a position of the tree. *)
Lemma nodes_pos a w t :
  (a, w) ∈ nodes t → ∃ c n l r k, plug (T c a n l w r) k = t.
Proof.
  induction t as [|c b n l IHl v r IHr]; simpl.
  { intros H. by apply elem_of_nil in H. }
  rewrite elem_of_app, elem_of_cons. intros [H|[H|H]].
  - destruct (IHl H) as (c' & n' & l' & r' & k & Hp).
    exists c', n', l', r', (k ++ [F LEFT c b n v r]).
    by rewrite plug_app, Hp.
  - simplify_eq. by exists c, n, l, r, [].
  - destruct (IHr H) as (c' & n' & l' & r' & k & Hp).
    exists c', n', l', r', (k ++ [F RIGHT c b n v l]).
    by rewrite plug_app, Hp.
Qed.

(** The suffix of a sorted list from the first element that a downward
    closed predicate rejects. *)
Lemma filter_suffix (P : Z → Prop) `{∀ x, Decision (P x)} (p q : list Z) w :
  Forall (λ x, ¬ P x) p → P w → Forall P q →
  filter P (p ++ w :: q) = w :: q.
Proof.
  intros Hp Hw Hq.
  rewrite filter_app, filter_cons, decide_True by done.
  by rewrite (filter_none _ _ Hp), (filter_all _ _ Hq).
Qed.

Module SizeMore.
Import SizeTree SizeRep SizeRep1 SizeRep2 SizeRep3 SizeRep4 SizeRep5 SizeRep6 SizeRep7.
Import SizeTop SizeQuery SizeGood.
Local Arguments plug : simpl never.
Local Arguments fuel_of : simpl never.

(** On a red-black subtree [validate_subtree] succeeds and reports the
    black height, counted with the null leaves, in [int] arithmetic. *)
Lemma sz_validate_rbt s t : ∀ par fuel,
  rep_t mk (heap s) par t → rbt t → height t < fuel →
  validate_subtree fuel s (ptr_of t)
  = Some (true, wrap_int (1 + Z.of_nat (bh t))).
Proof.
  induction t as [|c a n l IHl v r IHr]; intros par fuel Hrep Hrb Hf;
    (destruct fuel as [|fuel]; [lia|]); [done|].
  destruct Hrep as (Ha & Hl & Hr). destruct Hrb as (Hbl & Hbr & Hbh & Hc).
  cbn [validate_subtree ptr_of is_nil].
  erewrite sz_left_child_heap, sz_right_child_heap, sz_color_heap
    by eassumption.
  cbn [mbind option_bind base color_ left_ right_ mk].
  pose proof (sz_color_of_rep _ _ _ Hl) as Hcl.
  pose proof (sz_color_of_rep _ _ _ Hr) as Hcr.
  unfold SizeTree.color_of in Hcl, Hcr. rewrite Hcl, Hcr.
  cbn [mbind option_bind].
  assert (bool_decide (c = RED) &&
          (negb (is_nil (ptr_of l)) && bool_decide (Abs.color_of l = RED)
           || negb (is_nil (ptr_of r)) && bool_decide (Abs.color_of r = RED))
          = false) as ->.
  { destruct c; [|done]. destruct (Hc eq_refl) as [-> ->].
    simpl. by rewrite !andb_false_r. }
  simpl in Hf.
  rewrite (IHl (Some a)) by (done || lia). cbn [mbind option_bind negb].
  rewrite (IHr (Some a)) by (done || lia). cbn [mbind option_bind negb].
  rewrite Hbh, bool_decide_eq_true_2 by done. cbn [negb].
  rewrite wrap_int_add. do 3 f_equal.
  destruct c; cbn [bh blk];
    [rewrite decide_False by done|rewrite decide_True by done]; lia.
Qed.

Lemma sz_is_valid_rep s t : Rep s t → rbtree t → is_valid s = Some true.
Proof.
  intros H [Hc Hrb]. pose proof (sz_Rep_fuel _ _ H) as Hf.
  destruct H as (Hroot & Hwf & Hrep). unfold is_valid. rewrite Hroot.
  destruct t as [|c a n l v r]; [done|].
  simpl in Hc. subst c.
  pose proof (sz_validate_rbt s _ None _ Hrep Hrb Hf) as Hv.
  destruct Hrep as (Ha & _). cbn [ptr_of is_nil] in *.
  erewrite sz_color_heap by eassumption. cbn [mbind option_bind].
  rewrite Hv. done.
Qed.

(** [bound_node] follows the candidates [lb] and [ub]. *)
Lemma lower_bound_loop_rep s v t : ∀ par fuel c,
  rep_t mk (heap s) par t → height t < fuel →
  bound_node_loop fuel s v (λ target candidate, (target <=? candidate)%Z)
    (ptr_of t) (fst <$> c)
  = Some (fst <$> lb v t c).
Proof.
  induction t as [|c0 a n l IHl w r IHr]; intros par fuel c Hrep Hf;
    (destruct fuel as [|fuel]; [lia|]); [done|].
  destruct Hrep as (Ha & Hl & Hr). simpl in Hf.
  cbn [bound_node_loop ptr_of is_nil lb].
  erewrite sz_value_heap by eassumption. cbn [mbind option_bind value_ mk].
  destruct (Z.leb_spec v w), (Z.ltb_spec w v); try lia.
  - erewrite sz_left_child_heap by eassumption.
    cbn [mbind option_bind base left_ right_ mk].
    apply (IHl (Some a) fuel (Some (a, w))); [done|lia].
  - erewrite sz_right_child_heap by eassumption.
    cbn [mbind option_bind base left_ right_ mk].
    apply (IHr (Some a)); [done|lia].
Qed.

Lemma upper_bound_loop_rep s v t : ∀ par fuel c,
  rep_t mk (heap s) par t → height t < fuel →
  bound_node_loop fuel s v (λ target candidate, (target <? candidate)%Z)
    (ptr_of t) (fst <$> c)
  = Some (fst <$> ub v t c).
Proof.
  induction t as [|c0 a n l IHl w r IHr]; intros par fuel c Hrep Hf;
    (destruct fuel as [|fuel]; [lia|]); [done|].
  destruct Hrep as (Ha & Hl & Hr). simpl in Hf.
  cbn [bound_node_loop ptr_of is_nil ub].
  erewrite sz_value_heap by eassumption. cbn [mbind option_bind value_ mk].
  destruct (v <? w)%Z.
  - erewrite sz_left_child_heap by eassumption.
    cbn [mbind option_bind base left_ right_ mk].
    apply (IHl (Some a) fuel (Some (a, w))); [done|lia].
  - erewrite sz_right_child_heap by eassumption.
    cbn [mbind option_bind base left_ right_ mk].
    apply (IHr (Some a)); [done|lia].
Qed.

(** The values from a node to the end. *)
Lemma traverse_from_node s t a w :
  Rep s t → (a, w) ∈ nodes t →
  ∃ p q, elements t = p ++ w :: q ∧
         traverse_from s (mkIterator (Some a)) = Some (w :: q).
Proof.
  intros H Hin. destruct (nodes_pos _ _ _ Hin) as (c & n & l & r & k & Hp).
  pose proof H as (_ & Hwf & _).
  pose proof (sz_Rep_dom _ _ H) as Hd. apply subseteq_size in Hd.
  rewrite (count_addrs t Hwf), size_dom, count_elements in Hd.
  rewrite <- Hp in H.
  exists (lefts k ++ elements l), (elements r ++ rights k). split.
  - rewrite <- Hp, elements_plug. simpl. by rewrite <- !app_assoc.
  - unfold traverse_from. apply (iterate_spec _ _ _ _ _ _ _ _ _ H).
    rewrite <- Hp, elements_plug in Hd. simpl in Hd.
    repeat (rewrite length_app in Hd; simpl in Hd).
    rewrite length_app. unfold fuel_of. lia.
Qed.

Lemma traverse_from_end s : traverse_from s (end_ s) = Some [].
Proof. done. Qed.

Lemma lower_bound_rep s t v :
  Rep s t → bst t →
  ∃ it, lower_bound s v = Some it ∧
        traverse_from s it = Some (filter (λ x, (v ≤ x)%Z) (elements t)).
Proof.
  intros H Hs. pose proof (sz_Rep_fuel _ _ H) as Hf.
  pose proof H as (Hroot & Hwf & Hrep).
  unfold lower_bound, lower_bound_node, bound_node. rewrite Hroot.
  pose proof (lower_bound_loop_rep s v t None _ None Hrep Hf) as Hloop.
  cbn [fmap option_fmap option_map] in Hloop. rewrite Hloop.
  destruct (lb_spec v t None Hs) as [[-> Hall]|(a & w & -> & Hin & Hv & Hmin)].
  - eexists. split; [done|]. cbn.
    rewrite filter_none; [done|]. eapply Forall_impl; [exact Hall|].
    intros x Hx. simpl in Hx. lia.
  - eexists. split; [done|]. cbn [fmap option_fmap option_map fst].
    destruct (traverse_from_node s t a w H Hin) as (p & q & He & ->).
    f_equal. rewrite He. unfold bst in Hs. rewrite He in Hs.
    pose proof (sorted_parts _ _ _ Hs) as [H1 H2].
    symmetry. apply filter_suffix; [|done|].
    + apply Forall_forall. intros x Hx.
      assert (x < w)%Z as Hxw by (rewrite Forall_forall in H1; auto).
      assert (x < v)%Z; [|lia]. apply Hmin; [|done].
      rewrite He, elem_of_app. auto.
    + eapply Forall_impl; [exact H2|]. intros x Hx. simpl in Hx. lia.
Qed.

Lemma upper_bound_rep s t v :
  Rep s t → bst t →
  ∃ it, upper_bound s v = Some it ∧
        traverse_from s it = Some (filter (λ x, (v < x)%Z) (elements t)).
Proof.
  intros H Hs. pose proof (sz_Rep_fuel _ _ H) as Hf.
  pose proof H as (Hroot & Hwf & Hrep).
  unfold upper_bound, upper_bound_node, bound_node. rewrite Hroot.
  pose proof (upper_bound_loop_rep s v t None _ None Hrep Hf) as Hloop.
  cbn [fmap option_fmap option_map] in Hloop. rewrite Hloop.
  destruct (ub_spec v t None Hs) as [[-> Hall]|(a & w & -> & Hin & Hv & Hmin)].
  - eexists. split; [done|]. cbn.
    rewrite filter_none; [done|]. eapply Forall_impl; [exact Hall|].
    intros x Hx. simpl in Hx. lia.
  - eexists. split; [done|]. cbn [fmap option_fmap option_map fst].
    destruct (traverse_from_node s t a w H Hin) as (p & q & He & ->).
    f_equal. rewrite He. unfold bst in Hs. rewrite He in Hs.
    pose proof (sorted_parts _ _ _ Hs) as [H1 H2].
    symmetry. apply filter_suffix; [|done|].
    + apply Forall_forall. intros x Hx.
      assert (x < w)%Z as Hxw by (rewrite Forall_forall in H1; auto).
      assert (x ≤ v)%Z; [|lia]. apply Hmin; [|done].
      rewrite He, elem_of_app. auto.
    + eapply Forall_impl; [exact H2|]. intros x Hx. simpl in Hx. lia.
Qed.

End SizeMore.

(** ** Walking backwards *)

Lemma rightmost_spec t : ∀ k, t ≠ E →
  ∃ yc ya yn yl yv ky,
    rightmost t k = (T yc ya yn yl yv E, ky ++ k) ∧
    plug (T yc ya yn yl yv E) ky = t ∧ rights ky = [].
Proof.
  induction t as [|c a n l _ v r IHr]; intros k Hne; [done|].
  destruct r as [|rc ra rn rl rv rr].
  - exists c, a, n, l, v, []. done.
  - destruct (IHr (F RIGHT c a n v l :: k)) as
      (yc & ya & yn & yl & yv & ky & Hl & Hp & Hrt); [done|].
    exists yc, ya, yn, yl, yv, (ky ++ [F RIGHT c a n v l]).
    split_and!.
    + rewrite <- app_assoc. exact Hl.
    + rewrite plug_app, Hp. done.
    + rewrite rights_app, Hrt. done.
Qed.

Lemma rightmost_lefts t k :
  t ≠ E →
  ∃ yc ya yn yl yv ky,
    rightmost t k = (T yc ya yn yl yv E, ky) ∧
    plug (T yc ya yn yl yv E) ky = plug t k ∧
    lefts k ++ elements t = (lefts ky ++ elements yl) ++ [yv].
Proof.
  intros Hne.
  destruct (rightmost_spec t k Hne)
    as (yc & ya & yn & yl & yv & ky & Hl & Hp & Hrt).
  exists yc, ya, yn, yl, yv, (ky ++ k). split_and!; [done| |].
  - by rewrite plug_app, Hp.
  - rewrite <- Hp, elements_plug, Hrt, lefts_app. simpl.
    by rewrite app_nil_r, <- !app_assoc.
Qed.

Lemma climb_left_none k : ∀ x, climb_left x k = None → lefts k = [].
Proof.
  induction k as [|[[] c a n v w] k IH]; intros x H; simpl in *; try done.
  apply IH in H. by rewrite H.
Qed.

Lemma climb_left_some k : ∀ x z k',
  climb_left x k = Some (z, k') →
  ∃ c a n l v r, z = T c a n l v r ∧ plug z k' = plug x k ∧
                 lefts k = (lefts k' ++ elements l) ++ [v].
Proof.
  induction k as [|[[] c a n v w] k IH]; intros x z k' H; simpl in *;
    try done.
  - apply IH in H as (c' & a' & n' & l' & v' & r' & -> & Hp & Hr).
    eexists _, _, _, _, _, _. split_and!; try done.
    by rewrite app_nil_r.
  - simplify_eq. unfold fill. simpl. eexists _, _, _, _, _, _.
    split_and!; try done. by rewrite <- app_assoc.
Qed.

Lemma pred_pos_spec c a n l v r k :
  match pred_pos (T c a n l v r) k with
  | None => lefts k ++ elements l = []
  | Some (z, k') =>
      ∃ c' a' n' l' v' r',
        z = T c' a' n' l' v' r' ∧
        plug z k' = plug (T c a n l v r) k ∧
        lefts k ++ elements l = (lefts k' ++ elements l') ++ [v']
  end.
Proof.
  destruct l as [|lc la ln ll lv lr]; cbn [pred_pos].
  - destruct (climb_left _ k) as [[z k']|] eqn:Hc.
    + apply climb_left_some in Hc
        as (c' & a' & n' & l' & v' & r' & -> & Hp & Hr).
      eexists _, _, _, _, _, _. split_and!; [done|done|].
      by rewrite app_nil_r.
    + apply climb_left_none in Hc. by rewrite Hc.
  - destruct (rightmost_lefts (T lc la ln ll lv lr)
                (F LEFT c a n v r :: k)) as
      (yc & ya & yn & yl & yv & ky & -> & Hp & He); [done|].
    eexists _, _, _, _, _, _. split_and!; [done|exact Hp|].
    simpl in He. by rewrite app_nil_r in He.
Qed.

(** A position with nothing before it is the leftmost one. *)
Lemma leftmost_plug k : ∀ z k0,
  lefts k = [] → z ≠ E → leftmost (plug z k) k0 = leftmost z (k ++ k0).
Proof.
  induction k as [|f k IH]; intros z k0 Hl Hz; [done|].
  destruct f as [[] c a n v w]; simpl in Hl;
    apply app_eq_nil in Hl as [Hl Hf]; [|by destruct (elements w)].
  simpl. rewrite IH by done. unfold fill. simpl.
  destruct z; done.
Qed.

Lemma leftmost_first c a n v r k :
  lefts k = [] →
  leftmost (plug (T c a n E v r) k) [] = (T c a n E v r, k).
Proof.
  intros Hl. rewrite leftmost_plug by done. simpl. by rewrite app_nil_r.
Qed.

Module SizeBack.
Import SizeTree SizeRep SizeRep1 SizeRep2 SizeRep3 SizeRep4 SizeRep5 SizeRep6 SizeRep7.
Import SizeTop SizeQuery SizeGood SizeMore.
Local Arguments plug : simpl never.
Local Arguments fuel_of : simpl never.

Lemma sz_maximum_spec s t : ∀ par k fuel,
  rep_t mk (heap s) par t → t ≠ E → height t ≤ fuel →
  maximum fuel s (ptr_of t) = Some (ptr_of (rightmost t k).1).
Proof.
  induction t as [|c a n l _ v r IHr]; intros par k fuel Hrep Hne Hf; [done|].
  destruct fuel as [|fuel]; [simpl in Hf; lia|].
  destruct Hrep as (Ha & Hl & Hr). simpl.
  erewrite sz_right_child_heap by eassumption. simpl.
  destruct r as [|rc ra rn rl rv rr]; [done|].
  apply (IHr (Some a)); [done|done|simpl in *; lia].
Qed.

Lemma prev_loop_spec s k : ∀ x fuel,
  Rep s (plug x k) → x ≠ E → length k < fuel →
  prev_loop fuel s (ptr_of x) (hole_par k)
  = Some (match climb_left x k with Some (z, _) => ptr_of z | None => None end).
Proof.
  induction k as [|f k IH]; intros x fuel H Hx Hf;
    (destruct fuel as [|fuel]; [simpl in Hf; lia|]); [done|].
  pose proof H as (Hroot & Hwf & Hrep).
  apply rep_plug in Hrep as [Hrx (Ha & Hw & Hk)].
  cbn [prev_loop hole_par is_nil].
  erewrite sz_left_child_heap by eassumption.
  cbn [mbind option_bind].
  destruct f as [[] c a n v w]; unfold frame_node in *;
    cbn [fdir fc fa fn fv fsib mk base right_ left_ parent_ climb_left] in *.
  - rewrite decide_True by done.
    erewrite sz_parent_heap by eassumption. cbn [mbind option_bind].
    apply (IH (T c a n x v w)); [exact H|done|simpl in Hf; lia].
  - rewrite decide_False; [by rewrite ptr_of_fill|].
    apply wf_plug in Hwf as (_ & _ & Hd). simpl in Hd.
    destruct x as [|xc xa xn xl xv xr]; [done|].
    destruct w; [done|]. simpl in *. intros [= ->]. set_solver.
Qed.

Lemma prev_spec s c a n l v r k :
  Rep s (plug (T c a n l v r) k) →
  prev s (Some a)
  = Some (match pred_pos (T c a n l v r) k with
          | Some (z, _) => ptr_of z
          | None => None
          end).
Proof.
  intros H. pose proof H as (Hroot & Hwf & Hrep).
  apply rep_plug in Hrep as [(Ha & Hl & Hr) Hk].
  unfold prev. cbn [is_nil].
  erewrite sz_left_child_heap by eassumption.
  cbn [mbind option_bind mk base left_].
  destruct l as [|lc la ln ll lv lr].
  - cbn [ptr_of is_nil negb pred_pos].
    erewrite sz_parent_heap by eassumption. cbn [mbind option_bind].
    apply (prev_loop_spec s k (T c a n E v r)); [done|done|].
    pose proof (height_plug k (T c a n E v r)).
    pose proof (sz_Rep_fuel _ _ H). simpl in *. lia.
  - cbn [ptr_of is_nil negb pred_pos].
    rewrite (sz_maximum_spec s (T lc la ln ll lv lr) (Some a)
               (F LEFT c a n v r :: k)); [|done|done|].
    + by destruct (rightmost _ _).
    + apply wf_plug in Hwf as ((_ & _ & _ & Hwl & _) & _).
      pose proof (sz_rep_t_fuel _ _ _ Hl Hwl). lia.
Qed.

Lemma node_value_eq s c a n l v r k c' n' l' v' r' k' :
  Rep s (plug (T c a n l v r) k) → Rep s (plug (T c' a n' l' v' r') k') →
  v = v'.
Proof.
  intros (_ & _ & H1) (_ & _ & H2).
  apply rep_plug in H1 as [(Ha1 & _) _].
  apply rep_plug in H2 as [(Ha2 & _) _].
  rewrite Ha1 in Ha2. by injection Ha2.
Qed.

(** Stepping back from the position [(T c a n l v r, k)] down to the
    first node collects the values before it, last first. *)
Lemma iterate_back_spec s t first : ∀ fuel c a n l v r k,
  Rep s t → bst t → plug (T c a n l v r) k = t →
  first = mkIterator (ptr_of (leftmost t []).1) →
  length (lefts k ++ elements l) < fuel →
  iterate_back fuel s first (mkIterator (Some a))
  = Some (reverse (lefts k ++ elements l)).
Proof.
  induction fuel as [|fuel IH]; intros c a n l v r k H Hbst Hp Hfirst Hf;
    [lia|].
  cbn [iterate_back current_].
  pose proof (pred_pos_spec c a n l v r k) as Hs.
  pose proof H as HR. rewrite <- Hp in HR.
  assert (t ≠ E) as Hne.
  { intros ->. pose proof (count_plug k (T c a n l v r)) as Hc.
    rewrite Hp in Hc. simpl in Hc. lia. }
  destruct (leftmost_rights t [] Hne)
    as (yc & ya & yn & yv & yr & ky & Hlm & Hpl & Hel).
  change (plug t []) with t in Hpl. cbn [rights] in Hel.
  rewrite app_nil_r in Hel.
  assert (current_ first = Some ya) as Hcf by (by rewrite Hfirst, Hlm).
  rewrite Hcf.
  assert (elements t = (lefts k ++ elements l) ++ v :: elements r ++ rights k)
    as E1.
  { rewrite <- Hp, elements_plug. simpl. by rewrite <- !app_assoc. }
  destruct (pred_pos _ k) as [[z k']|] eqn:Hpred.
  - destruct Hs as (c' & a' & n' & l' & v' & r' & -> & Hp' & He).
    rewrite bool_decide_eq_false_2.
    2:{ intros [= <-]. pose proof H as HR2. rewrite <- Hpl in HR2.
        pose proof (node_value_eq _ _ _ _ _ _ _ _ _ _ _ _ _ _ HR HR2) as Hv.
        subst yv. apply sorted_NoDup in Hbst. rewrite E1, He in Hbst, Hel.
        destruct (lefts k' ++ elements l') as [|x0 xs]; simpl in Hel, Hbst;
          simplify_eq; apply NoDup_cons in Hbst as [Hnin _]; apply Hnin;
          set_solver. }
    unfold decr. cbn [current_ is_nil].
    rewrite (prev_spec _ _ _ _ _ _ _ _ HR), Hpred.
    cbn [ptr_of is_nil negb assert mbind option_bind].
    pose proof HR as HR'. rewrite <- Hp' in HR'.
    pose proof HR' as (_ & _ & Hrep').
    apply rep_plug in Hrep' as [(Ha' & _) _].
    unfold deref. cbn [current_ is_nil negb assert mbind option_bind].
    erewrite sz_value_heap by eassumption.
    cbn [mbind option_bind mk value_].
    rewrite (IH c' a' n' l' v' r' k' H Hbst) by
      (first [by rewrite Hp', Hp|done|rewrite He, length_app in Hf; simpl in Hf; lia]).
    cbn [mbind option_bind]. by rewrite He, reverse_snoc.
  - apply app_eq_nil in Hs as [Hk Hl]. rewrite Hk, Hl.
    assert (l = E) as -> by (destruct l; [done|by destruct (elements l1)]).
    rewrite <- Hp, (leftmost_first _ _ _ _ _ _ Hk) in Hlm. simplify_eq.
    by rewrite bool_decide_eq_true_2.
Qed.

Lemma iterate_back_S fuel s first it :
  iterate_back (S fuel) s first it =
  if bool_decide (current_ it = current_ first) then Some []
  else
    it ← decr s it;
    v ← deref s it;
    rest ← iterate_back fuel s first it;
    Some (v :: rest).
Proof. done. Qed.

(** Walking from [end()] back to [begin()] yields the values in
    decreasing order. *)
Lemma traverse_back_rep s t :
  Rep s t → bst t → traverse_back s = Some (reverse (elements t)).
Proof.
  intros H Hbst. pose proof H as (Hroot & Hwf & Hrep).
  pose proof (sz_Rep_dom _ _ H) as Hd. apply subseteq_size in Hd.
  rewrite (count_addrs t Hwf), size_dom, count_elements in Hd.
  unfold traverse_back, begin. rewrite Hroot.
  change (fuel_of s) with (S (S (base.size (heap s)))).
  destruct t as [|c a n l v r]; [done|].
  cbn [ptr_of is_nil negb].
  change (Some a) with (ptr_of (T c a n l v r)).
  rewrite (sz_minimum_spec s _ None []); [|done|done|].
  2:{ pose proof (sz_Rep_fuel _ _ H). unfold fuel_of in *. lia. }
  cbn [mbind option_bind]. rewrite iterate_back_S.
  unfold end_ at 1. cbn [current_].
  destruct (leftmost_rights (T c a n l v r) []) as
    (yc & ya & yn & yv & yr & ky & Hlm & Hp & He); [done|].
  rewrite Hlm. cbn [fst ptr_of].
  rewrite bool_decide_eq_false_2 by done.
  unfold decr, end_. cbn [current_ is_nil]. rewrite Hroot.
  rewrite (sz_maximum_spec s _ None []); [|done|done|].
  2:{ pose proof (sz_Rep_fuel _ _ H). unfold fuel_of in *. lia. }
  destruct (rightmost_lefts (T c a n l v r) []) as
    (zc & za & zn & zl & zv & kz & Hrm & Hpz & Hez); [done|].
  rewrite Hrm. cbn [fst ptr_of is_nil negb assert mbind option_bind].
  change (plug (T c a n l v r) []) with (T c a n l v r) in Hpz.
  pose proof H as HRz. rewrite <- Hpz in HRz.
  pose proof HRz as (_ & _ & Hrepz).
  apply rep_plug in Hrepz as [(Haz & _) _].
  unfold deref. cbn [current_ is_nil negb assert mbind option_bind].
  erewrite sz_value_heap by eassumption.
  cbn [mbind option_bind mk value_ lefts] in *.
  rewrite (iterate_back_spec s (T c a n l v r) _ _ zc za zn zl zv E kz H Hbst Hpz).
  - cbn [mbind option_bind]. cbn [lefts app] in Hez. rewrite Hez.
    by rewrite reverse_snoc.
  - by rewrite Hlm.
  - cbn [lefts app] in Hez. rewrite Hez, length_app in Hd. simpl in Hd. lia.
Qed.

End SizeBack.

(** ** Freeing the nodes *)

Lemma addrs_forest_cons_ne t ts :
  addrs_forest (cons_ne t ts) = addrs t ∪ addrs_forest ts.
Proof. destruct t; simpl; set_solver. Qed.

Lemma count_forest_cons_ne t ts :
  count_forest (cons_ne t ts) = count t + count_forest ts.
Proof. by destruct t. Qed.

Lemma wf_forest_cons_ne t ts :
  wf t → addrs t ## addrs_forest ts → wf_forest ts → wf_forest (cons_ne t ts).
Proof. destruct t; simpl; auto. Qed.

Lemma Forall_cons_ne (P : tree → Prop) t ts :
  (t ≠ E → P t) → Forall P ts → Forall P (cons_ne t ts).
Proof. destruct t; simpl; auto. Qed.

Lemma ptr_of_cons_ne t (ts : list tree) :
  ptr_of <$> cons_ne t ts =
  if negb (is_nil (ptr_of t)) then ptr_of t :: (ptr_of <$> ts)
  else ptr_of <$> ts.
Proof. by destruct t. Qed.

Module NilClear.
Import NilTree NilRep NilRep1 NilRep2 NilRep3 NilRep5 NilRep6.
Local Arguments plug : simpl never.
Local Arguments fuel_of : simpl never.

Lemma clear_spec t : ∀ s par fuel,
  rep_t mk (heap s) par t → wf t → height t < fuel →
  ∃ s', clear fuel (ptr_of t) s = Some s' ∧
        nil_ s' = nil_ s ∧ root_ s' = root_ s ∧
        dom (heap s') = dom (heap s) ∖ addrs t ∧
        ∀ b, b ∉ addrs t → heap s' !! b = heap s !! b.
Proof.
  induction t as [|c a n l IHl v r IHr]; intros s par fuel Hrep Hwf Hf;
    (destruct fuel as [|fuel]; [lia|]).
  { exists s. simpl. split_and!; try done. set_solver. }
  destruct Hrep as (Ha & Hl & Hr).
  destruct Hwf as (Hal & Har & Hlr & Hwl & Hwr). simpl in Hf.
  cbn [clear ptr_of is_nil].
  erewrite left_child_heap by eassumption.
  cbn [mbind option_bind mk base left_].
  destruct (IHl s (Some a) fuel Hl Hwl ltac:(lia))
    as (s1 & -> & Hn1 & Hr1 & Hd1 & Hf1).
  cbn [mbind option_bind].
  assert (heap s1 !! a = Some (mk c (ptr_of l) (ptr_of r) par n v)) as Ha1
    by (rewrite Hf1 by done; done).
  erewrite right_child_heap by eassumption.
  cbn [mbind option_bind mk base right_].
  assert (rep_t mk (heap s1) (Some a) r) as Hr'.
  { eapply rep_t_agree; [|exact Hr]. intros b Hb. apply Hf1. set_solver. }
  destruct (IHr s1 (Some a) fuel Hr' Hwr ltac:(lia))
    as (s2 & -> & Hn2 & Hr2 & Hd2 & Hf2).
  cbn [mbind option_bind].
  assert (heap s2 !! a = Some (mk c (ptr_of l) (ptr_of r) par n v)) as Ha2
    by (rewrite Hf2 by done; done).
  unfold delete_node. rewrite Ha2. cbn [mbind option_bind].
  eexists. split; [done|]. cbn [nil_ root_ heap]. split_and!.
  - congruence.
  - congruence.
  - rewrite dom_delete_L, Hd2, Hd1. simpl. set_solver.
  - intros b Hb. simpl in Hb.
    rewrite lookup_delete_ne by set_solver.
    rewrite Hf2, Hf1 by set_solver. done.
Qed.

(** The destructor frees every node. *)
Lemma destroy_spec s t :
  Inv s t →
  ∃ s', destroy s = Some s' ∧ heap s' = ∅ ∧ root_ s' = nil.
Proof.
  intros [H Hdom]. pose proof (Rep_fuel _ _ H) as Hf.
  destruct H as (Hroot & Hwf & Hrep & _). unfold destroy. rewrite Hroot.
  destruct (clear_spec t s None _ Hrep Hwf Hf) as (s' & -> & _ & _ & Hd & _).
  cbn [mbind option_bind]. eexists. split; [done|]. split; [|done].
  simpl. apply dom_empty_inv_L. rewrite Hd, Hdom. set_solver.
Qed.

End NilClear.

Module SizeClear.
Import SizeTree SizeRep SizeRep1 SizeRep3.
Local Arguments plug : simpl never.
Local Arguments fuel_of : simpl never.

Lemma clear_loop_spec : ∀ fuel ts s,
  Forall (λ t, t ≠ E ∧ ∃ par, rep_t mk (heap s) par t) ts →
  wf_forest ts → count_forest ts < fuel →
  ∃ s', clear_loop fuel (ptr_of <$> ts) s = Some s' ∧
        root_ s' = root_ s ∧
        dom (heap s') = dom (heap s) ∖ addrs_forest ts.
Proof.
  induction fuel as [|fuel IH]; intros ts s Hts Hwf Hf; [lia|].
  destruct ts as [|t ts].
  { exists s. simpl. split_and!; try done. set_solver. }
  apply Forall_cons in Hts as [[Hne (par & Hrep)] Hts].
  destruct t as [|c a n l v r]; [done|].
  destruct Hrep as (Ha & Hl & Hr).
  destruct Hwf as ((Hal & Har & Hlr & Hwl & Hwr) & Hdis & Hwf).
  simpl in Hf, Hdis.
  cbn [clear_loop fmap list_fmap ptr_of].
  erewrite sz_left_child_heap by eassumption.
  cbn [mbind option_bind mk base left_].
  erewrite sz_right_child_heap by eassumption.
  cbn [mbind option_bind mk base right_].
  unfold delete_node. rewrite Ha. cbn [mbind option_bind].
  rewrite <- (ptr_of_cons_ne l ts), <- (ptr_of_cons_ne r (cons_ne l ts)).
  destruct (IH (cons_ne r (cons_ne l ts))
              (mkTree (root_ s) (delete a (heap s))))
    as (s' & -> & Hroot & Hd).
  - apply Forall_cons_ne; [|apply Forall_cons_ne].
    + intros Hne'. split; [done|]. exists (Some a). simpl.
      by apply rep_t_delete_ne.
    + intros Hne'. split; [done|]. exists (Some a). simpl.
      by apply rep_t_delete_ne.
    + clear -Hts Hdis Hwf. induction ts as [|t ts IHts]; [constructor|].
      apply Forall_cons in Hts as [[Hne (par & Hrep)] Hts].
      simpl in Hdis, Hwf. constructor.
      * split; [done|]. exists par. simpl. apply rep_t_delete_ne; [|done].
        set_solver.
      * apply IHts; [done|set_solver|tauto].
  - apply wf_forest_cons_ne; [done| |apply wf_forest_cons_ne; [done| |done]].
    + rewrite addrs_forest_cons_ne. set_solver.
    + set_solver.
  - rewrite !count_forest_cons_ne. lia.
  - exists s'. split; [done|]. split; [done|].
    rewrite Hd, !addrs_forest_cons_ne. simpl. rewrite dom_delete_L.
    set_solver.
Qed.

(** The destructor frees every node. *)
Lemma sz_destroy_spec s t :
  Inv s t → ∃ s', destroy s = Some s' ∧ heap s' = ∅.
Proof.
  intros [H Hdom]. pose proof H as (Hroot & Hwf & Hrep).
  pose proof (sz_Rep_dom _ _ H) as Hd. apply subseteq_size in Hd.
  rewrite (count_addrs t Hwf), size_dom in Hd.
  unfold destroy, clear. rewrite Hroot.
  destruct t as [|c a n l v r].
  { exists s. split; [done|]. apply dom_empty_inv_L. by rewrite Hdom. }
  cbn [ptr_of is_nil].
  destruct (clear_loop_spec (fuel_of s) [T c a n l v r] s)
    as (s' & Hcl & _ & Hd').
  - constructor; [|constructor]. split; [done|]. by exists None.
  - split; [exact Hwf|]. simpl. split; [set_solver|done].
  - simpl in *. unfold fuel_of. lia.
  - exists s'. split; [exact Hcl|]. apply dom_empty_inv_L.
    rewrite Hd', Hdom. simpl. set_solver.
Qed.

End SizeClear.

(** * The states that sequences of calls reach *)

Lemma set_of_insert (l l' : list Z) (v : Z) :
  (∀ x, x ∈ l' ↔ x = v ∨ x ∈ l) →
  list_to_set l' =@{gset Z} {[v]} ∪ list_to_set l.
Proof. intros H. apply set_eq. intros x. set_solver. Qed.

Lemma set_of_erase (l l' : list Z) (v : Z) :
  (∀ x, x ∈ l' ↔ x ∈ l ∧ x ≠ v) →
  list_to_set l' =@{gset Z} list_to_set l ∖ {[v]}.
Proof. intros H. apply set_eq. intros x. set_solver. Qed.

Lemma set_of_present (l : list Z) (v : Z) :
  v ∈ l → list_to_set l =@{gset Z} {[v]} ∪ list_to_set l.
Proof. intros H. apply set_eq. intros x. set_solver. Qed.

Lemma set_of_absent (l : list Z) (v : Z) :
  v ∉ l → list_to_set l =@{gset Z} list_to_set l ∖ {[v]}.
Proof. intros H. apply set_eq. intros x. set_solver. Qed.

Lemma keys_of_size ops keys :
  keys_of ops keys → size (live ops ∅) = length keys.
Proof.
  intros [Hs <-]. apply size_list_to_set. by apply sorted_NoDup.
Qed.

Lemma keys_of_elem ops keys x : keys_of ops keys → x ∈ keys ↔ x ∈ live ops ∅.
Proof. intros [_ <-]. by rewrite elem_of_list_to_set. Qed.

Lemma live_inserts keys : ∀ (X : gset Z) x,
  x ∈ live (Insert <$> keys) X ↔ x ∈ keys ∨ x ∈ X.
Proof.
  induction keys as [|key keys IH]; intros X x; simpl; [set_solver|].
  rewrite IH. set_solver.
Qed.

(** In a sorted list a value sits at the index that counts the smaller
    values. *)
Lemma sorted_index (l : list Z) (v : Z) :
  StronglySorted Z.lt l → v ∈ l → l !! lt_count v l = Some v.
Proof.
  intros Hs Hv. apply list_elem_of_split in Hv as (l1 & l2 & ->).
  rewrite (lt_count_mid _ _ _ Hs). by apply list_lookup_middle.
Qed.

(** The half-open range. *)
Lemma lt_lt_count_range lo hi l :
  (lo ≤ hi)%Z →
  lt_count hi l =
  lt_count lo l + length (filter (λ x, (lo ≤ x < hi)%Z) l).
Proof.
  intros Hle. unfold lt_count.
  induction l as [|x l IH]; [done|]. rewrite !filter_cons.
  repeat case_decide; simpl; lia.
Qed.

Lemma lt_count_mono lo hi l : (hi ≤ lo)%Z → lt_count hi l ≤ lt_count lo l.
Proof.
  intros Hle. unfold lt_count.
  induction l as [|x l IH]; [done|]. rewrite !filter_cons.
  repeat case_decide; simpl; lia.
Qed.

Lemma filter_range_empty lo hi (l : list Z) :
  (hi ≤ lo)%Z → filter (λ x, (lo ≤ x < hi)%Z) l = [].
Proof.
  intros Hle. apply filter_none. apply Forall_forall. intros x _. lia.
Qed.

Module NilLive.
Import NilTree NilRep NilRep1 NilRep5 NilTop NilValid NilQuery.

Lemma Good_contents s t : Good s t → contents s = elements t.
Proof. intros [[HR _] _]. by apply contents_rep. Qed.

Lemma Good_run_live ops : ∀ s t,
  Good s t →
  ∃ s' t', run ops s = Some s' ∧ Good s' t' ∧
    list_to_set (elements t') =@{gset Z} live ops (list_to_set (elements t)) ∧
    length (elements t') ≤ length (elements t) + length ops.
Proof.
  induction ops as [|o ops IH]; intros s t HG; cbn [run live].
  { exists s, t. split_and!; [done|done|done|simpl; lia]. }
  destruct o as [v|v]; cbn [apply_op].
  - destruct (Good_insert s t v HG) as (b & s' & t' & -> & HG' & Hp & Ha).
    cbn [mbind option_bind].
    destruct (IH s' t' HG') as (s2 & t2 & Hr & HG2 & Hset & Hl).
    exists s2, t2. split; [done|]. split; [done|].
    destruct (decide (v ∈ elements t)) as [Hv|Hv].
    + destruct (Hp Hv) as [_ ->].
      assert (elements t' = elements t) as He
        by (rewrite <- (Good_contents _ _ HG), <- (Good_contents _ _ HG'); done).
      rewrite He in Hset, Hl. rewrite <- set_of_present by done.
      split; [done|]. simpl. lia.
    + destruct (Ha Hv) as (_ & Hel & Hlen).
      rewrite <- (set_of_insert _ _ _ Hel).
      split; [done|]. simpl. lia.
  - destruct (Good_erase s t v HG) as (b & s' & t' & -> & HG' & Ha & Hp).
    cbn [mbind option_bind].
    destruct (IH s' t' HG') as (s2 & t2 & Hr & HG2 & Hset & Hl).
    exists s2, t2. split; [done|]. split; [done|].
    destruct (decide (v ∈ elements t)) as [Hv|Hv].
    + destruct (Hp Hv) as (_ & Hel & Hlen).
      rewrite <- (set_of_erase _ _ _ Hel).
      split; [done|]. simpl. lia.
    + destruct (Ha Hv) as [_ ->].
      assert (elements t' = elements t) as He
        by (rewrite <- (Good_contents _ _ HG), <- (Good_contents _ _ HG'); done).
      rewrite He in Hset, Hl. rewrite <- set_of_absent by done.
      split; [done|]. simpl. lia.
Qed.

(** Every sequence of calls runs to a state that holds the values the
    sequence leaves. *)
Lemma run_state ops :
  ∃ s t, run ops empty_tree = Some s ∧ Good s t ∧
         keys_of ops (elements t) ∧ contents s = elements t ∧
         length (elements t) ≤ length ops.
Proof.
  destruct (Good_run_live ops _ _ Good_empty) as (s & t & Hr & HG & Hset & Hl).
  exists s, t. split_and!; try done.
  - split; [apply HG|]. rewrite Hset. done.
  - by apply Good_contents.
Qed.

End NilLive.

Module SizeLive.
Import SizeTree SizeRep SizeRep1 SizeRep3 SizeTop SizeQuery SizeGood.

Lemma sz_Good_traverse s t : Good s t → traverse s = Some (elements t).
Proof. intros [[HR _] _]. by apply traverse_rep. Qed.

Lemma sz_Good_run_live ops : ∀ s t,
  Good s t →
  ∃ s' t', run ops s = Some s' ∧ Good s' t' ∧
    list_to_set (elements t') =@{gset Z} live ops (list_to_set (elements t)) ∧
    length (elements t') ≤ length (elements t) + length ops.
Proof.
  induction ops as [|o ops IH]; intros s t HG; cbn [run live].
  { exists s, t. split_and!; [done|done|done|simpl; lia]. }
  destruct o as [v|v]; cbn [apply_op].
  - destruct (sz_Good_insert s t v HG) as (b & s' & t' & -> & HG' & Hp & Ha).
    cbn [mbind option_bind].
    destruct (IH s' t' HG') as (s2 & t2 & Hr & HG2 & Hset & Hl).
    exists s2, t2. split; [done|]. split; [done|].
    destruct (decide (v ∈ elements t)) as [Hv|Hv].
    + destruct (Hp Hv) as [_ ->].
      assert (elements t' = elements t) as He.
      { pose proof (sz_Good_traverse _ _ HG).
        pose proof (sz_Good_traverse _ _ HG'). congruence. }
      rewrite He in Hset, Hl. rewrite <- set_of_present by done.
      split; [done|]. simpl. lia.
    + destruct (Ha Hv) as (_ & Hel & Hlen).
      rewrite <- (set_of_insert _ _ _ Hel).
      split; [done|]. simpl. lia.
  - destruct (sz_Good_erase s t v HG) as (b & s' & t' & -> & HG' & Ha & Hp).
    cbn [mbind option_bind].
    destruct (IH s' t' HG') as (s2 & t2 & Hr & HG2 & Hset & Hl).
    exists s2, t2. split; [done|]. split; [done|].
    destruct (decide (v ∈ elements t)) as [Hv|Hv].
    + destruct (Hp Hv) as (_ & Hel & Hlen).
      rewrite <- (set_of_erase _ _ _ Hel).
      split; [done|]. simpl. lia.
    + destruct (Ha Hv) as [_ ->].
      assert (elements t' = elements t) as He.
      { pose proof (sz_Good_traverse _ _ HG).
        pose proof (sz_Good_traverse _ _ HG'). congruence. }
      rewrite He in Hset, Hl. rewrite <- set_of_absent by done.
      split; [done|]. simpl. lia.
Qed.

Lemma sz_run_state ops :
  ∃ s t, run ops empty_tree = Some s ∧ Good s t ∧
         keys_of ops (elements t) ∧ traverse s = Some (elements t) ∧
         length (elements t) ≤ length ops.
Proof.
  destruct (sz_Good_run_live ops _ _ sz_Good_empty)
    as (s & t & Hr & HG & Hset & Hl).
  exists s, t. split_and!; try done.
  - split; [apply HG|]. rewrite Hset. done.
  - by apply sz_Good_traverse.
Qed.

End SizeLive.

(** ** Sorted lists of keys *)

(** A strictly increasing list is determined by its set of elements. *)
Lemma sorted_set_eq (l1 l2 : list Z) :
  StronglySorted Z.lt l1 → StronglySorted Z.lt l2 →
  list_to_set l1 =@{gset Z} list_to_set l2 → l1 = l2.
Proof.
  intros H1 H2 Heq.
  apply (StronglySorted_unique_strong Z.lt); [intros; lia|done|done|].
  apply NoDup_Permutation; [by apply sorted_NoDup..|].
  intros x. rewrite <- !(elem_of_list_to_set (C := gset Z)). by rewrite Heq.
Qed.

Lemma keys_of_unique ops k1 k2 : keys_of ops k1 → keys_of ops k2 → k1 = k2.
Proof. intros [H1 E1] [H2 E2]. apply sorted_set_eq; congruence. Qed.

Lemma count_eq_stored v (l : list Z) :
  StronglySorted Z.lt l →
  length (filter (λ x, (v ≤ x ≤ v)%Z) l) = if bool_decide (v ∈ l) then 1 else 0.
Proof.
  induction 1 as [|x l Hs IH Hx]; [done|].
  rewrite filter_cons. rewrite Forall_forall in Hx.
  destruct (decide (x = v)) as [->|Hne].
  - rewrite decide_True by lia. simpl. rewrite IH.
    rewrite (bool_decide_eq_true_2 (v ∈ v :: l)) by left.
    rewrite bool_decide_eq_false_2; [done|]. intros Hin. apply Hx in Hin. lia.
  - rewrite decide_False by lia. rewrite IH.
    rewrite (bool_decide_ext (v ∈ x :: l) (v ∈ l)); [done|].
    rewrite elem_of_cons. naive_solver.
Qed.

(** A stored value counts once more in the upper rank than in the lower
    rank. *)
Lemma le_lt_count_stored v (l : list Z) :
  StronglySorted Z.lt l →
  le_count v l = lt_count v l + (if bool_decide (v ∈ l) then 1 else 0).
Proof.
  intros Hs. rewrite (le_lt_count_range v v l) by lia.
  by rewrite count_eq_stored.
Qed.

(** ** Balance *)

Lemma rbt_height t : rbt t → height t + blk (color_of t) ≤ 2 * bh t + 1.
Proof.
  induction t as [|c a n l IHl v r IHr]; simpl; [lia|].
  intros (Hl & Hr & Hb & Hc). specialize (IHl Hl). specialize (IHr Hr).
  destruct c; simpl.
  - destruct (Hc eq_refl) as [Hcl Hcr]. rewrite Hcl in IHl. rewrite Hcr in IHr.
    simpl in *. lia.
  - lia.
Qed.

Lemma rbt_count t : rbt t → 2 ^ bh t ≤ count t + 1.
Proof.
  induction t as [|c a n l IHl v r IHr]; simpl; [lia|].
  intros (Hl & Hr & Hb & _). specialize (IHl Hl). specialize (IHr Hr).
  rewrite <- Hb in IHr.
  assert (2 ^ (bh l + blk c) ≤ 2 * 2 ^ bh l); [|lia].
  destruct c; simpl; rewrite ?Nat.add_0_r, ?Nat.add_1_r, ?Nat.pow_succ_r'; lia.
Qed.

(** The height of a red-black tree is at most twice the logarithm of
    its number of nodes. *)
Lemma rbtree_height t : rbtree t → height t ≤ 2 * Nat.log2 (count t + 1).
Proof.
  intros [Hc Hrb]. pose proof (rbt_height t Hrb) as Hh.
  pose proof (rbt_count t Hrb) as Hn. rewrite Hc in Hh. simpl in Hh.
  apply Nat.log2_le_pow2 in Hn; lia.
Qed.

(** ** Nodes of the heap *)

Lemma nodes_plug x k : ∀ t, x ∈ nodes t → x ∈ nodes (plug t k).
Proof.
  induction k as [|f k IH]; intros t Hx; [done|]. simpl. apply IH.
  unfold fill. destruct (fdir f); simpl; set_solver.
Qed.

Module NilMore.
Import NilTree NilRep NilRep1 NilRep2 NilRep3 NilRep4 NilRep5 NilRep6 NilRep7 NilRep8 NilRep9 NilTop NilQuery NilLive.
Local Arguments plug : simpl never.
Local Arguments fuel_of : simpl never.

(** Every node of the heap is a node of the tree. *)
Lemma heap_nodes s t a nd :
  Inv s t → heap s !! a = Some nd → (a, value_ nd) ∈ nodes t.
Proof.
  intros [(Hroot & Hwf & Hrep & _) Hdom] Ha.
  assert (a ∈ addrs t) as Hin by (rewrite <- Hdom; apply elem_of_dom; eauto).
  destruct (find_z_some a t [] Hin) as (ta & ka & _ & Hp & Hpt).
  destruct ta as [|c b n l v r]; [done|]. simpl in Hpt. simplify_eq.
  apply rep_plug in Hrep as [(Hb & _) _].
  rewrite Ha in Hb. simplify_eq. simpl.
  apply nodes_plug. simpl. set_solver.
Qed.

(** The search walks a path of the tree, of at most twice the logarithm
    of the number of nodes. *)
Lemma locate_fuel s t v fuel :
  Rep s t → height t < fuel →
  locate_loop fuel s v (root_ s) nil false = locate s v.
Proof.
  intros H Hf. pose proof (Rep_fuel _ _ H) as Hf'.
  destruct H as (Hroot & Hwf & Hrep & _). unfold locate.
  destruct (descend v t []) as [t0 k] eqn:Hd. rewrite Hroot.
  pose proof (locate_loop_spec s v t [] _ t0 k Hrep Hd Hf) as Hloc.
  pose proof (locate_loop_spec s v t [] _ t0 k Hrep Hd Hf') as Hloc'.
  cbn [hole_par go_top] in Hloc, Hloc'. unfold nil.
  by rewrite Hloc, Hloc'.
Qed.

End NilMore.

Module SizeMore2.
Import SizeTree SizeRep SizeRep1 SizeRep2 SizeRep3 SizeRep4 SizeRep5 SizeRep6 SizeRep7.
Import SizeTop SizeQuery SizeGood SizeLive.
Local Arguments plug : simpl never.
Local Arguments fuel_of : simpl never.

Lemma sz_locate_rep s t v :
  Rep s t → bst t →
  ∃ r, locate s v = Some r ∧ lr_exists r = bool_decide (v ∈ elements t).
Proof.
  intros H Hs. pose proof (sz_Rep_fuel _ _ H) as Hf.
  destruct H as (Hroot & Hwf & Hrep). unfold locate.
  destruct (descend v t []) as [t0 k] eqn:Hd. rewrite Hroot.
  pose proof (sz_locate_loop_spec s v t [] _ t0 k Hrep Hd Hf) as Hloc.
  cbn [hole_par go_top] in Hloc. rewrite Hloc.
  eexists; split; [done|].
  pose proof (descend_mem _ _ _ _ Hs Hd) as Hm.
  destruct t0; simpl.
  - rewrite bool_decide_eq_false_2; [done|]. intros Hv. by apply Hm in Hv.
  - rewrite bool_decide_eq_true_2; [done|]. by apply Hm.
Qed.

Lemma sz_locate_fuel s t v fuel :
  Rep s t → height t < fuel →
  locate_loop fuel s v (root_ s) None false = locate s v.
Proof.
  intros H Hf. pose proof (sz_Rep_fuel _ _ H) as Hf'.
  destruct H as (Hroot & Hwf & Hrep). unfold locate.
  destruct (descend v t []) as [t0 k] eqn:Hd. rewrite Hroot.
  pose proof (sz_locate_loop_spec s v t [] _ t0 k Hrep Hd Hf) as Hloc.
  pose proof (sz_locate_loop_spec s v t [] _ t0 k Hrep Hd Hf') as Hloc'.
  cbn [hole_par go_top] in Hloc, Hloc'.
  by rewrite Hloc, Hloc'.
Qed.

Lemma sz_distance_from_root_rep s t v :
  Rep s t → lsized t → bst t →
  distance_from_root s v =
  Some (if bool_decide (v ∈ elements t)
        then wrap_size (Z.of_nat (lt_count v (elements t)))
        else SIZE_MAX).
Proof.
  intros H Hsz Hs. unfold distance_from_root.
  destruct (sz_locate_rep s t v H Hs) as (r1 & -> & He1).
  cbn [mbind option_bind]. rewrite He1.
  rewrite (rank_comp_bound_rep _ _ _ _ downward_lower H Hsz Hs).
  rewrite cmp_count_lower.
  by destruct (bool_decide (v ∈ elements t)).
Qed.

End SizeMore2.

(** * The claims of the specification *)

(** C1: after every sequence of [insert] and [erase] calls on the empty
    sentinel tree, [is_valid] returns true, and the heap reached is the
    layout of a red-black tree: the root is black, no red node has a red
    child, and at every node the two subtrees have the same black
    height. *)
Theorem C1_is_valid_after_operations (ops : list Op) :
  ∃ s t, NilRep.run ops NilTree.empty_tree = Some s ∧
         NilTree.is_valid s = Some true ∧
         NilRep.Rep s t ∧ color_of t = BLACK ∧ rbt t.
Proof.
  destruct (NilLive.run_state ops) as (s & t & Hr & HG & _).
  destruct HG as ([HR _] & Hrb & _).
  exists s, t. split_and!; [done| |done|apply Hrb..].
  by apply (NilValid.is_valid_rep s t).
Qed.

(** C2: on the sample input the interpreter prints [2 0 3]; on the input
    of the test [HandlesDescendingBoundsAndInclusiveLeft] it prints
    [0 0 0 0 0 0 0 1 0 2], where that test expects
    [0 0 0 0 0 0 0 2 0 3]: a stored left bound is not counted. *)
Theorem C2_cli_outputs :
  Cli.run_cli CliSpec.sample_input
  = Some (Cli.mkOutcome 0 ("2 0 3" +:+ Cli.newline) "") ∧
  Cli.run_cli CliSpec.descending_input
  = Some (Cli.mkOutcome 0 ("0 0 0 0 0 0 0 1 0 2" +:+ Cli.newline) "").
Proof. split; rewrite CliFacts.run_cli_spec; vm_compute; reflexivity. Qed.

(** C3 as stated fails on both trees, after the single call
    [insert(10)]: the sentinel tree answers [distance(5, 20)] with
    [SIZE_MAX] where the two upper ranks differ by 1, and the augmented
    tree answers [distance(10, 20)] with 1 where the two upper ranks are
    equal. *)
Lemma C3_counterexample :
  (∃ s, NilRep.run [Insert 10] NilTree.empty_tree = Some s ∧
        NilTree.distance s 5 20 = Some SIZE_MAX ∧
        NilTree.rank_upper_bound s 20 = Some 1%Z ∧
        NilTree.rank_upper_bound s 5 = Some 0%Z) ∧
  (∃ s, SizeRep.run [Insert 10] SizeTree.empty_tree = Some s ∧
        SizeTree.distance s 10 20 = Some 1%Z ∧
        SizeTree.rank_comp_bound s 20 SizeTree.compare_upper_bound
        = Some 1%Z ∧
        SizeTree.rank_comp_bound s 10 SizeTree.compare_upper_bound
        = Some 1%Z).
Proof. split; eexists; (split; [vm_compute; reflexivity|]); by vm_compute. Qed.

(** C3, amended: after a sequence of fewer than 2^64 calls, [distance]
    of the sentinel tree is [SIZE_MAX] unless both arguments are stored,
    and then the number of stored values in [[lo, hi)]; [distance] of the
    augmented tree is the number of stored values in [[lo, hi]]; both
    are 0 when [hi < lo] (both arguments stored, for the sentinel
    tree). *)
Theorem C3_distance_counts (ops : list Op) (lo hi : Z) :
  (Z.of_nat (length ops) < 2 ^ 64)%Z →
  (∃ s keys, NilRep.run ops NilTree.empty_tree = Some s ∧
     keys_of ops keys ∧ NilRep.contents s = keys ∧
     NilTree.distance s lo hi =
     Some (if bool_decide (lo ∈ keys) && bool_decide (hi ∈ keys)
           then Z.of_nat (length (filter (λ x, (lo ≤ x < hi)%Z) keys))
           else SIZE_MAX)) ∧
  (∃ s keys, SizeRep.run ops SizeTree.empty_tree = Some s ∧
     keys_of ops keys ∧ SizeRep.traverse s = Some keys ∧
     SizeTree.distance s lo hi =
     Some (Z.of_nat (length (filter (λ x, (lo ≤ x ≤ hi)%Z) keys)))).
Proof.
  intros Hlen. split.
  - destruct (NilLive.run_state ops) as (s & t & Hr & HG & Hk & Hc & Hl).
    exists s, (elements t). split_and!; try done.
    destruct HG as ([HR _] & _ & Hs).
    rewrite (NilQuery.distance_rep s t lo hi HR Hs).
    destruct (_ && _); [|done]. f_equal. cbn zeta.
    pose proof (count_filter_le (λ x, (x < lo)%Z) (elements t)).
    pose proof (count_filter_le (λ x, (x < hi)%Z) (elements t)).
    rewrite !wrap_size_small by (unfold lt_count; lia).
    destruct (decide (lo ≤ hi)%Z) as [Hle|Hle].
    + pose proof (lt_lt_count_range lo hi (elements t) Hle) as Heq.
      unfold lt_count in *. case_match eqn:Hcmp.
      * apply Z.leb_le in Hcmp. f_equal. lia.
      * rewrite wrap_size_small; lia.
    + rewrite filter_range_empty by lia.
      pose proof (lt_count_mono lo hi (elements t) ltac:(lia)).
      rewrite (proj2 (Z.leb_le _ _)) by lia. done.
  - destruct (SizeLive.sz_run_state ops) as (s & t & Hr & HG & Hk & Hc & Hl).
    exists s, (elements t). split_and!; try done.
    destruct HG as ([HR _] & _ & Hs & Hsz).
    rewrite (SizeQuery.sz_distance_rep s t lo hi HR Hsz Hs) by lia.
    case_match; [|done]. apply Z.ltb_lt in H. f_equal.
    rewrite filter_none; [done|]. apply Forall_forall. intros x _. lia.
Qed.

Lemma C3_distance_counts_witness :
  (Z.of_nat (length [Insert 10; Insert 20; Insert 30; Erase 20]) < 2 ^ 64)%Z ∧
  (∃ s keys,
     NilRep.run [Insert 10; Insert 20; Insert 30; Erase 20] NilTree.empty_tree
     = Some s ∧
     keys_of [Insert 10; Insert 20; Insert 30; Erase 20] keys ∧
     NilRep.contents s = keys ∧
     NilTree.distance s 10 30 =
     Some (if bool_decide (10%Z ∈ keys) && bool_decide (30%Z ∈ keys)
           then Z.of_nat (length (filter (λ x, (10 ≤ x < 30)%Z) keys))
           else SIZE_MAX)) ∧
  (∃ s keys,
     SizeRep.run [Insert 10; Insert 20; Insert 30; Erase 20]
       SizeTree.empty_tree = Some s ∧
     keys_of [Insert 10; Insert 20; Insert 30; Erase 20] keys ∧
     SizeRep.traverse s = Some keys ∧
     SizeTree.distance s 10 30 =
     Some (Z.of_nat (length (filter (λ x, (10 ≤ x ≤ 30)%Z) keys)))).
Proof.
  split; [reflexivity|].
  apply (C3_distance_counts [Insert 10; Insert 20; Insert 30; Erase 20] 10 30).
  reflexivity.
Defined.

(** C4: after a sequence of fewer than 2^64 calls on the sentinel tree,
    [rank_lower_bound(v)] is the number of stored values below [v], which
    is the index of [v] in the increasing list of the stored values when
    [v] is stored, and [rank_upper_bound(v)] is the number of stored
    values that are at most [v]. *)
Theorem C4_ranks (ops : list Op) (v : Z) :
  (Z.of_nat (length ops) < 2 ^ 64)%Z →
  ∃ s keys, NilRep.run ops NilTree.empty_tree = Some s ∧
    keys_of ops keys ∧ NilRep.contents s = keys ∧
    NilTree.rank_lower_bound s v = Some (Z.of_nat (lt_count v keys)) ∧
    NilTree.rank_upper_bound s v = Some (Z.of_nat (le_count v keys)) ∧
    (v ∈ keys → keys !! lt_count v keys = Some v).
Proof.
  intros Hlen.
  destruct (NilLive.run_state ops) as (s & t & Hr & HG & Hk & Hc & Hl).
  exists s, (elements t). split_and!; try done.
  - destruct HG as ([HR _] & _ & Hs).
    rewrite (NilQuery.rank_lower_bound_rep s t v HR Hs). f_equal.
    pose proof (count_filter_le (λ x, (x < v)%Z) (elements t)).
    apply wrap_size_small. unfold lt_count. lia.
  - destruct HG as ([HR _] & _ & Hs).
    rewrite (NilQuery.rank_upper_bound_rep s t v HR Hs). f_equal.
    pose proof (count_filter_le (λ x, (x ≤ v)%Z) (elements t)).
    apply wrap_size_small. unfold le_count. lia.
  - apply sorted_index. apply Hk.
Qed.

Lemma C4_ranks_witness :
  (Z.of_nat (length [Insert 10; Insert 20; Insert 30; Erase 20]) < 2 ^ 64)%Z ∧
  ∃ s keys,
    NilRep.run [Insert 10; Insert 20; Insert 30; Erase 20] NilTree.empty_tree
    = Some s ∧
    keys_of [Insert 10; Insert 20; Insert 30; Erase 20] keys ∧
    NilRep.contents s = keys ∧
    NilTree.rank_lower_bound s 30 = Some (Z.of_nat (lt_count 30 keys)) ∧
    NilTree.rank_upper_bound s 30 = Some (Z.of_nat (le_count 30 keys)) ∧
    (30%Z ∈ keys → keys !! lt_count 30 keys = Some 30%Z).
Proof.
  split; [reflexivity|].
  apply (C4_ranks [Insert 10; Insert 20; Insert 30; Erase 20] 30).
  reflexivity.
Defined.

(** C5: after a sequence of fewer than 2^64 calls on the augmented tree,
    the cached size of every node is 1 plus the sizes of its two
    children, an absent child counting 0, and [size] is the number of
    values the sequence leaves in the tree. *)
Theorem C5_cached_sizes (ops : list Op) :
  (Z.of_nat (length ops) < 2 ^ 64)%Z →
  ∃ s, SizeRep.run ops SizeTree.empty_tree = Some s ∧
    (∀ a nd, SizeTree.heap s !! a = Some nd →
       ∃ nl nr,
         SizeTree.node_size s (SizeTree.left_ (SizeTree.base nd)) = Some nl ∧
         SizeTree.node_size s (SizeTree.right_ (SizeTree.base nd)) = Some nr ∧
         SizeTree.subtree_size_ (SizeTree.base nd) = (1 + nl + nr)%Z) ∧
    SizeTree.size s = Some (Z.of_nat (size (live ops ∅))).
Proof.
  intros Hlen.
  destruct (SizeLive.sz_run_state ops) as (s & t & Hr & HG & Hk & Hc & Hl).
  destruct HG as (HI & _ & Hs & Hsz).
  exists s. split_and!; [done| |].
  - intros a nd Ha.
    destruct (SizeGood.sizes_heap s t a nd HI Hsz Ha)
      as (nl & nr & Hnl & Hnr & _ & Hn).
    exists nl, nr. split_and!; [done|done|]. apply Hn. lia.
  - destruct HI as [HR _].
    rewrite (SizeQuery.sz_size_rep s t HR Hsz), (keys_of_size _ _ Hk).
    f_equal. apply wrap_size_small. lia.
Qed.

Lemma C5_cached_sizes_witness :
  (Z.of_nat (length [Insert 10; Insert 20; Insert 30; Erase 20]) < 2 ^ 64)%Z ∧
  ∃ s,
    SizeRep.run [Insert 10; Insert 20; Insert 30; Erase 20]
      SizeTree.empty_tree = Some s ∧
    (∀ a nd, SizeTree.heap s !! a = Some nd →
       ∃ nl nr,
         SizeTree.node_size s (SizeTree.left_ (SizeTree.base nd)) = Some nl ∧
         SizeTree.node_size s (SizeTree.right_ (SizeTree.base nd)) = Some nr ∧
         SizeTree.subtree_size_ (SizeTree.base nd) = (1 + nl + nr)%Z) ∧
    SizeTree.size s =
    Some (Z.of_nat
            (size (live [Insert 10; Insert 20; Insert 30; Erase 20] ∅))).
Proof.
  split; [reflexivity|].
  apply (C5_cached_sizes [Insert 10; Insert 20; Insert 30; Erase 20]).
  reflexivity.
Defined.

(** C6: in every state that a sequence of calls on the sentinel tree
    reaches, [insert(v)] returns false and changes nothing when [v] is
    stored, and otherwise returns true and adds [v] to the stored
    values; [erase(v)] returns false and changes nothing when [v] is not
    stored, and otherwise returns true and removes [v] and nothing
    else. *)
Theorem C6_insert_erase_results (ops : list Op) (v : Z) :
  ∃ s keys, NilRep.run ops NilTree.empty_tree = Some s ∧
    keys_of ops keys ∧ NilRep.contents s = keys ∧
    (∃ s', NilTree.insert v s = Some (negb (bool_decide (v ∈ keys)), s') ∧
           (v ∈ keys → s' = s) ∧
           (v ∉ keys →
            StronglySorted Z.lt (NilRep.contents s') ∧
            ∀ x, x ∈ NilRep.contents s' ↔ x = v ∨ x ∈ keys)) ∧
    (∃ s', NilTree.erase v s = Some (bool_decide (v ∈ keys), s') ∧
           (v ∉ keys → s' = s) ∧
           (v ∈ keys →
            StronglySorted Z.lt (NilRep.contents s') ∧
            ∀ x, x ∈ NilRep.contents s' ↔ x ∈ keys ∧ x ≠ v)).
Proof.
  destruct (NilLive.run_state ops) as (s & t & Hr & HG & Hk & Hc & Hl).
  exists s, (elements t). split_and!; try done.
  - destruct (NilTop.Good_insert s t v HG) as (b & s' & t' & Hins & HG' & Hp & Ha).
    exists s'. rewrite Hins, (NilLive.Good_contents _ _ HG').
    destruct (decide (v ∈ elements t)) as [Hv|Hv].
    + destruct (Hp Hv) as [-> ->].
      rewrite bool_decide_eq_true_2 by done. done.
    + destruct (Ha Hv) as (-> & Hel & _).
      rewrite bool_decide_eq_false_2 by done.
      split_and!; [done|done|]. intros _. split; [apply HG'|done].
  - destruct (NilTop.Good_erase s t v HG) as (b & s' & t' & Her & HG' & Ha & Hp).
    exists s'. rewrite Her, (NilLive.Good_contents _ _ HG').
    destruct (decide (v ∈ elements t)) as [Hv|Hv].
    + destruct (Hp Hv) as (-> & Hel & _).
      rewrite bool_decide_eq_true_2 by done.
      split_and!; [done|done|]. intros _. split; [apply HG'|done].
    + destruct (Ha Hv) as [-> ->].
      rewrite bool_decide_eq_false_2 by done. done.
Qed.

(** C7: in every state that a sequence of calls on the augmented tree
    reaches, iterating from [begin()] to [end()] yields the stored values
    once each, in strictly increasing order; and [next] of a node is the
    leftmost node of its right subtree when there is one, otherwise the
    nearest ancestor that has the node in its left subtree, and
    [nullptr] when there is no such ancestor. *)
Theorem C7_iteration (ops : list Op) :
  ∃ s t keys, SizeRep.run ops SizeTree.empty_tree = Some s ∧
    SizeRep.Rep s t ∧ keys_of ops keys ∧
    SizeRep.traverse s = Some keys ∧
    ∀ c a n l v r k, plug (T c a n l v r) k = t →
      SizeTree.next s (Some a)
      = Some (match succ_pos (T c a n l v r) k with
              | Some (z, _) => ptr_of z
              | None => None
              end).
Proof.
  destruct (SizeLive.sz_run_state ops) as (s & t & Hr & HG & Hk & Hc & Hl).
  destruct HG as ([HR _] & _).
  exists s, t, (elements t). split_and!; try done.
  intros c a n l v r k Hp. apply SizeTop.next_spec. by rewrite Hp.
Qed.

(** C8: on the tree that the interpreter has built from the keys read so
    far, a query prints [query_count]: 0 when [right ≤ left], also when
    that value is stored, and otherwise the number of stored values [x]
    with [left < x ≤ right]. *)
Theorem C8_query_excludes_left (keys : list Z) (left_bound right_bound : Z)
    (first_output : bool) (out : string) :
  Forall CliSpec.in_int keys →
  ∃ s, NilRep.run (Insert <$> keys) NilTree.empty_tree = Some s ∧
    (∀ x, x ∈ NilRep.contents s ↔ x ∈ keys) ∧
    Cli.handle_query s left_bound right_bound first_output out =
    Some (false,
          (if first_output then out else out +:+ " ") +:+
          pretty (CliSpec.query_count (NilRep.contents s)
                    left_bound right_bound)) ∧
    CliSpec.query_count (NilRep.contents s) left_bound left_bound = 0%Z ∧
    ((left_bound < right_bound)%Z →
     CliSpec.query_count (NilRep.contents s) left_bound right_bound =
     Z.of_nat (length (filter (λ x, (left_bound < x ≤ right_bound)%Z)
                         (NilRep.contents s)))).
Proof.
  intros Hk.
  destruct (CliFacts.run_inserts_good keys _ _ CliFacts.CliGood_empty Hk)
    as (s & t & Hr & HG).
  destruct (NilLive.run_state (Insert <$> keys))
    as (s' & t' & Hr' & HG' & [_ Hset] & Hc & _).
  rewrite Hr in Hr'. simplify_eq.
  exists s'. split; [done|]. split_and!.
  - intros x. rewrite Hc, <- (elem_of_list_to_set (C := gset Z)), Hset.
    rewrite live_inserts. set_solver.
  - rewrite Hc.
    assert (CliSpec.CliGood s' t') as HG2.
    { destruct HG as [Hg Hb]. split; [done|].
      assert (elements t = elements t') as <-; [|done].
      rewrite <- (NilLive.Good_contents _ _ Hg). done. }
    apply (CliFacts.handle_query_good _ _ _ _ _ _ HG2).
  - unfold CliSpec.query_count. by rewrite Z.ltb_irrefl.
  - intros Hlt. unfold CliSpec.query_count.
    by rewrite (proj2 (Z.ltb_lt _ _) Hlt).
Qed.

Lemma C8_query_excludes_left_witness :
  Forall CliSpec.in_int [10; 20]%Z ∧
  ∃ s, NilRep.run (Insert <$> [10; 20]%Z) NilTree.empty_tree = Some s ∧
    (∀ x, x ∈ NilRep.contents s ↔ x ∈ [10; 20]%Z) ∧
    Cli.handle_query s 10 20 true "" =
    Some (false,
          "" +:+ pretty (CliSpec.query_count (NilRep.contents s) 10 20)) ∧
    CliSpec.query_count (NilRep.contents s) 10 10 = 0%Z ∧
    ((10 < 20)%Z →
     CliSpec.query_count (NilRep.contents s) 10 20 =
     Z.of_nat (length (filter (λ x, (10 < x ≤ 20)%Z) (NilRep.contents s)))).
Proof.
  split.
  - repeat (apply Forall_cons; split;
            [unfold CliSpec.in_int, INT_MIN, INT_MAX; lia|]).
    by constructor.
  - apply (C8_query_excludes_left [10; 20]%Z 10 20 true "").
    repeat (apply Forall_cons; split;
            [unfold CliSpec.in_int, INT_MIN, INT_MAX; lia|]).
    by constructor.
Defined.

(** C9: after a sequence of fewer than 2^64 calls on the augmented tree,
    and for [first ≤ second], the rank that [distance] computes for
    [second] with the comparator [≤] is at least the rank it computes for
    [first] with the comparator [<]: the assertion holds and the
    subtraction does not wrap. *)
Theorem C9_distance_assertion (ops : list Op) (first second : Z) :
  (Z.of_nat (length ops) < 2 ^ 64)%Z → (first ≤ second)%Z →
  ∃ s r1 r2, SizeRep.run ops SizeTree.empty_tree = Some s ∧
    SizeTree.rank_comp_bound s first SizeTree.compare_lower_bound = Some r1 ∧
    SizeTree.rank_comp_bound s second SizeTree.compare_upper_bound = Some r2 ∧
    SizeTree.distance_ranks s first second = Some (r1, r2) ∧
    (0 ≤ r1 ≤ r2)%Z ∧
    SizeTree.distance s first second = Some (r2 - r1)%Z.
Proof.
  intros Hlen Hle.
  destruct (SizeLive.sz_run_state ops) as (s & t & Hr & HG & Hk & Hc & Hl).
  destruct HG as ([HR _] & _ & Hs & Hsz).
  pose proof (count_filter_le (λ x, (x < first)%Z) (elements t)) as H1.
  pose proof (count_filter_le (λ x, (x ≤ second)%Z) (elements t)) as H2.
  pose proof (lt_le_count first second (elements t) Hle) as H3.
  exists s, (Z.of_nat (lt_count first (elements t))),
    (Z.of_nat (le_count second (elements t))).
  assert (wrap_size (Z.of_nat (lt_count first (elements t)))
          = Z.of_nat (lt_count first (elements t))) as E1
    by (apply wrap_size_small; unfold lt_count; lia).
  assert (wrap_size (Z.of_nat (le_count second (elements t)))
          = Z.of_nat (le_count second (elements t))) as E2
    by (apply wrap_size_small; unfold le_count; lia).
  split_and!; [done| | | |lia|lia|].
  - rewrite (SizeQuery.rank_comp_bound_rep _ _ _ _ downward_lower HR Hsz Hs).
    by rewrite cmp_count_lower, E1.
  - rewrite (SizeQuery.rank_comp_bound_rep _ _ _ _ downward_upper HR Hsz Hs).
    by rewrite cmp_count_upper, E2.
  - by rewrite (SizeQuery.distance_ranks_rep _ _ _ _ HR Hsz Hs), E1, E2.
  - unfold SizeTree.distance.
    rewrite (proj2 (Z.ltb_ge _ _)) by lia.
    rewrite (SizeQuery.distance_ranks_rep _ _ _ _ HR Hsz Hs), E1, E2.
    cbn [mbind option_bind].
    rewrite (proj2 (Z.leb_le _ _)) by lia. cbn [assert mbind option_bind].
    f_equal. apply wrap_size_small. unfold lt_count, le_count in *. lia.
Qed.

Lemma C9_distance_assertion_witness :
  (Z.of_nat (length [Insert 10; Insert 20; Insert 30; Erase 20]) < 2 ^ 64)%Z ∧
  (10 ≤ 30)%Z ∧
  ∃ s r1 r2,
    SizeRep.run [Insert 10; Insert 20; Insert 30; Erase 20]
      SizeTree.empty_tree = Some s ∧
    SizeTree.rank_comp_bound s 10 SizeTree.compare_lower_bound = Some r1 ∧
    SizeTree.rank_comp_bound s 30 SizeTree.compare_upper_bound = Some r2 ∧
    SizeTree.distance_ranks s 10 30 = Some (r1, r2) ∧
    (0 ≤ r1 ≤ r2)%Z ∧
    SizeTree.distance s 10 30 = Some (r2 - r1)%Z.
Proof.
  split; [reflexivity|]. split; [by vm_compute|].
  apply (C9_distance_assertion [Insert 10; Insert 20; Insert 30; Erase 20]
           10 30).
  - reflexivity.
  - by vm_compute.
Defined.

(** C10: in every state that a sequence of calls reaches, on either
    tree, every node reachable from the root is the parent of each of
    its children, and the root is the one reachable node whose parent
    link is the absent marker. *)
Theorem C10_parent_links (ops : list Op) :
  (∃ s, NilRep.run ops NilTree.empty_tree = Some s ∧
     ∀ p, NilRep.reachable s p → p ≠ NilTree.nil →
       (∀ q, NilTree.left_child s p = Some q → q ≠ NilTree.nil →
             NilTree.parent s q = Some p) ∧
       (∀ q, NilTree.right_child s p = Some q → q ≠ NilTree.nil →
             NilTree.parent s q = Some p) ∧
       (NilTree.parent s p = Some NilTree.nil ↔ p = NilTree.root_ s)) ∧
  (∃ s, SizeRep.run ops SizeTree.empty_tree = Some s ∧
     ∀ p, SizeRep.reachable s p → p ≠ None →
       (∀ q, SizeTree.left_child s p = Some q → q ≠ None →
             SizeTree.parent s q = Some p) ∧
       (∀ q, SizeTree.right_child s p = Some q → q ≠ None →
             SizeTree.parent s q = Some p) ∧
       (SizeTree.parent s p = Some None ↔ p = SizeTree.root_ s)).
Proof.
  split.
  - destruct (NilLive.run_state ops) as (s & t & Hr & HG & _).
    destruct HG as ([HR _] & _).
    exists s. split; [done|]. intros p Hp Hne.
    by apply (NilValid.links_rep s t).
  - destruct (SizeLive.sz_run_state ops) as (s & t & Hr & HG & _).
    destruct HG as ([HR _] & _).
    exists s. split; [done|]. intros p Hp Hne.
    by apply (SizeGood.sz_links_rep s t).
Qed.

(** * Further properties of the two trees and of the interpreter *)

(** X1: after every sequence of calls on the sentinel tree, [size]
    returns the number of values the sequence leaves, modulo 2^64, and
    [empty] tells whether there is none. *)
Theorem X1_sentinel_size_empty (ops : list Op) :
  ∃ s, NilRep.run ops NilTree.empty_tree = Some s ∧
    NilTree.size s = Some (wrap_size (Z.of_nat (size (live ops ∅)))) ∧
    NilTree.empty s = bool_decide (live ops ∅ = ∅).
Proof.
  destruct (NilLive.run_state ops) as (s & t & Hr & HG & Hk & Hc & Hl).
  destruct HG as ([HR _] & _ & Hs).
  exists s. split_and!; [done| |].
  - by rewrite (NilQuery.size_rep s t HR), (keys_of_size _ _ Hk).
  - destruct HR as (Hroot & _). unfold NilTree.empty. rewrite Hroot.
    destruct Hk as [_ Hset]. destruct t as [|c a n l v r]; simpl in *.
    + by rewrite bool_decide_eq_true_2.
    + rewrite bool_decide_eq_false_2; [done|]. intros He.
      rewrite He in Hset. set_solver.
Qed.

(** X2: after every sequence of calls on the sentinel tree,
    [distance_from_root(v)] is [SIZE_MAX] when [v] is not stored, and
    otherwise the number of stored values below [v], modulo 2^64. *)
Theorem X2_sentinel_distance_from_root (ops : list Op) (v : Z) :
  ∃ s keys, NilRep.run ops NilTree.empty_tree = Some s ∧
    keys_of ops keys ∧
    NilTree.distance_from_root s v =
    Some (if bool_decide (v ∈ keys)
          then wrap_size (Z.of_nat (lt_count v keys))
          else SIZE_MAX).
Proof.
  destruct (NilLive.run_state ops) as (s & t & Hr & HG & Hk & Hc & Hl).
  destruct HG as ([HR _] & _ & Hs).
  exists s, (elements t). split_and!; [done|done|].
  by apply NilQuery.distance_from_root_rep.
Qed.

(** X3: after every sequence of calls on the augmented tree,
    [distance_from_root(v)] is [SIZE_MAX] when [v] is not stored, and
    otherwise the number of stored values below [v], modulo 2^64. *)
Theorem X3_sized_distance_from_root (ops : list Op) (v : Z) :
  ∃ s keys, SizeRep.run ops SizeTree.empty_tree = Some s ∧
    keys_of ops keys ∧
    SizeTree.distance_from_root s v =
    Some (if bool_decide (v ∈ keys)
          then wrap_size (Z.of_nat (lt_count v keys))
          else SIZE_MAX).
Proof.
  destruct (SizeLive.sz_run_state ops) as (s & t & Hr & HG & Hk & Hc & Hl).
  destruct HG as ([HR _] & _ & Hs & Hsz).
  exists s, (elements t). split_and!; [done|done|].
  by apply SizeMore2.sz_distance_from_root_rep.
Qed.

(** X4: after every sequence of calls on the sentinel tree,
    [order_statistics] of a node is the number of stored values below
    the value of the node, modulo 2^64. *)
Theorem X4_order_statistics (ops : list Op) :
  ∃ s keys, NilRep.run ops NilTree.empty_tree = Some s ∧
    keys_of ops keys ∧
    ∀ a nd, NilTree.heap s !! a = Some nd →
      NilTree.order_statistics s (Some a) =
      Some (wrap_size (Z.of_nat (lt_count (NilTree.value_ nd) keys))).
Proof.
  destruct (NilLive.run_state ops) as (s & t & Hr & HG & Hk & Hc & Hl).
  destruct HG as (HI & _ & Hs).
  exists s, (elements t). split_and!; [done|done|].
  intros a nd Ha. apply (NilQuery.order_statistics_rep s t); [apply HI|done|].
  by apply (NilMore.heap_nodes s t).
Qed.

(** X5: after every sequence of calls on the sentinel tree, the upper
    rank of [v] is its lower rank, plus 1 when [v] is stored. *)
Theorem X5_rank_upper_lower (ops : list Op) (v : Z) :
  ∃ s keys rl, NilRep.run ops NilTree.empty_tree = Some s ∧
    keys_of ops keys ∧
    NilTree.rank_lower_bound s v = Some rl ∧
    NilTree.rank_upper_bound s v =
    Some (wrap_size (rl + (if bool_decide (v ∈ keys) then 1 else 0))).
Proof.
  destruct (NilLive.run_state ops) as (s & t & Hr & HG & Hk & Hc & Hl).
  destruct HG as ([HR _] & _ & Hs).
  exists s, (elements t). eexists. split_and!; [done|done| |].
  - by apply NilQuery.rank_lower_bound_rep.
  - rewrite (NilQuery.rank_upper_bound_rep s t v HR Hs). f_equal.
    rewrite wrap_size_add_l, (le_lt_count_stored v _ Hs). f_equal.
    destruct (bool_decide (v ∈ elements t)); lia.
Qed.



(** X8: in every state that a sequence of calls on the augmented tree
    reaches, [insert(v)] returns whether [v] was absent and leaves the
    stored values with [v] added; [erase(v)] returns whether [v] was
    stored and leaves the stored values without [v]; a call that returns
    false changes nothing. *)
Theorem X8_sized_insert_erase (ops : list Op) (v : Z) :
  ∃ s keys, SizeRep.run ops SizeTree.empty_tree = Some s ∧
    keys_of ops keys ∧ SizeRep.traverse s = Some keys ∧
    (∃ s' keys',
       SizeTree.insert v s = Some (negb (bool_decide (v ∈ keys)), s') ∧
       (v ∈ keys → s' = s) ∧
       SizeRep.traverse s' = Some keys' ∧ StronglySorted Z.lt keys' ∧
       ∀ x, x ∈ keys' ↔ x = v ∨ x ∈ keys) ∧
    (∃ s' keys',
       SizeTree.erase v s = Some (bool_decide (v ∈ keys), s') ∧
       (v ∉ keys → s' = s) ∧
       SizeRep.traverse s' = Some keys' ∧ StronglySorted Z.lt keys' ∧
       ∀ x, x ∈ keys' ↔ x ∈ keys ∧ x ≠ v).
Proof.
  destruct (SizeLive.sz_run_state ops) as (s & t & Hr & HG & Hk & Hc & Hl).
  exists s, (elements t). split_and!; try done.
  - destruct (SizeGood.sz_Good_insert s t v HG)
      as (b & s' & t' & Hins & HG' & Hp & Ha).
    exists s', (elements t'). rewrite Hins.
    rewrite (SizeLive.sz_Good_traverse _ _ HG').
    destruct (decide (v ∈ elements t)) as [Hv|Hv].
    + destruct (Hp Hv) as [-> ->].
      rewrite bool_decide_eq_true_2 by done.
      assert (elements t' = elements t) as ->.
      { pose proof (SizeLive.sz_Good_traverse _ _ HG'). congruence. }
      split_and!; [done|done|done|apply HG|]. intros x. naive_solver.
    + destruct (Ha Hv) as (-> & Hel & _).
      rewrite bool_decide_eq_false_2 by done.
      split_and!; [done|done|done|apply HG'|done].
  - destruct (SizeGood.sz_Good_erase s t v HG)
      as (b & s' & t' & Her & HG' & Ha & Hp).
    exists s', (elements t'). rewrite Her.
    rewrite (SizeLive.sz_Good_traverse _ _ HG').
    destruct (decide (v ∈ elements t)) as [Hv|Hv].
    + destruct (Hp Hv) as (-> & Hel & _).
      rewrite bool_decide_eq_true_2 by done.
      split_and!; [done|done|done|apply HG'|done].
    + destruct (Ha Hv) as [-> ->].
      rewrite bool_decide_eq_false_2 by done.
      assert (elements t' = elements t) as ->.
      { pose proof (SizeLive.sz_Good_traverse _ _ HG'). congruence. }
      split_and!; [done|done|done|apply HG|]. intros x. naive_solver.
Qed.

(** X9: after every sequence of calls on the augmented tree,
    [is_valid] returns true and [empty] tells whether no value is
    stored. *)
Theorem X9_sized_is_valid (ops : list Op) :
  ∃ s, SizeRep.run ops SizeTree.empty_tree = Some s ∧
    SizeTree.is_valid s = Some true ∧
    SizeTree.empty s = bool_decide (live ops ∅ = ∅).
Proof.
  destruct (SizeLive.sz_run_state ops) as (s & t & Hr & HG & Hk & Hc & Hl).
  destruct HG as ([HR _] & Hrb & Hs & Hsz).
  exists s. split_and!; [done| |].
  - by apply (SizeMore.sz_is_valid_rep s t).
  - destruct HR as (Hroot & _). unfold SizeTree.empty. rewrite Hroot.
    destruct Hk as [_ Hset]. destruct t as [|c a n l v r]; simpl in *.
    + by rewrite bool_decide_eq_true_2.
    + rewrite bool_decide_eq_false_2; [done|]. intros He.
      rewrite He in Hset. set_solver.
Qed.

(** X10: after every sequence of calls on the augmented tree, iterating
    from [lower_bound(v)] to [end()] yields the stored values that are at
    least [v], and from [upper_bound(v)] those above [v], in increasing
    order. *)
Theorem X10_sized_bounds (ops : list Op) (v : Z) :
  ∃ s keys lo hi, SizeRep.run ops SizeTree.empty_tree = Some s ∧
    keys_of ops keys ∧
    SizeTree.lower_bound s v = Some lo ∧
    SizeRep.traverse_from s lo = Some (filter (λ x, (v ≤ x)%Z) keys) ∧
    SizeTree.upper_bound s v = Some hi ∧
    SizeRep.traverse_from s hi = Some (filter (λ x, (v < x)%Z) keys).
Proof.
  destruct (SizeLive.sz_run_state ops) as (s & t & Hr & HG & Hk & Hc & Hl).
  destruct HG as ([HR _] & Hrb & Hs & Hsz).
  destruct (SizeMore.lower_bound_rep s t v HR Hs) as (lo & Hlo & Htl).
  destruct (SizeMore.upper_bound_rep s t v HR Hs) as (hi & Hhi & Hth).
  by exists s, (elements t), lo, hi.
Qed.

(** X11: after every sequence of calls on the augmented tree, stepping
    with [operator--] from [end()] back to [begin()] yields the stored
    values in decreasing order. *)
Theorem X11_sized_reverse_traversal (ops : list Op) :
  ∃ s keys, SizeRep.run ops SizeTree.empty_tree = Some s ∧
    keys_of ops keys ∧
    SizeRep.traverse_back s = Some (reverse keys).
Proof.
  destruct (SizeLive.sz_run_state ops) as (s & t & Hr & HG & Hk & Hc & Hl).
  destruct HG as ([HR _] & Hrb & Hs & Hsz).
  exists s, (elements t). split_and!; [done|done|].
  by apply SizeBack.traverse_back_rep.
Qed.

(** X12: after every sequence of calls, the destructor of either tree
    terminates and frees every node. *)
Theorem X12_destructors_free (ops : list Op) :
  (∃ s s', NilRep.run ops NilTree.empty_tree = Some s ∧
     NilTree.destroy s = Some s' ∧
     NilTree.heap s' = ∅ ∧ NilTree.root_ s' = NilTree.nil) ∧
  (∃ s s', SizeRep.run ops SizeTree.empty_tree = Some s ∧
     SizeTree.destroy s = Some s' ∧ SizeTree.heap s' = ∅).
Proof.
  split.
  - destruct (NilLive.run_state ops) as (s & t & Hr & HG & _).
    destruct HG as (HI & _).
    destruct (NilClear.destroy_spec s t HI) as (s' & Hd & Hh & Hroot).
    by exists s, s'.
  - destruct (SizeLive.sz_run_state ops) as (s & t & Hr & HG & _).
    destruct HG as (HI & _).
    destruct (SizeClear.sz_destroy_spec s t HI) as (s' & Hd & Hh).
    by exists s, s'.
Qed.


(** X14: two sequences of calls that leave the same set of values
    leave the same in-order contents, whatever the shapes of the two
    trees. *)
Theorem X14_contents_by_live_set (ops1 ops2 : list Op) :
  live ops1 ∅ = live ops2 ∅ →
  ∃ s1 s2, NilRep.run ops1 NilTree.empty_tree = Some s1 ∧
    NilRep.run ops2 NilTree.empty_tree = Some s2 ∧
    NilRep.contents s1 = NilRep.contents s2.
Proof.
  intros Hlive.
  destruct (NilLive.run_state ops1) as (s1 & t1 & Hr1 & _ & Hk1 & Hc1 & _).
  destruct (NilLive.run_state ops2) as (s2 & t2 & Hr2 & _ & Hk2 & Hc2 & _).
  exists s1, s2. split_and!; [done|done|].
  rewrite Hc1, Hc2. destruct Hk1 as [Hs1 He1], Hk2 as [Hs2 He2].
  apply sorted_set_eq; congruence.
Qed.

Lemma X14_contents_by_live_set_witness :
  live [Insert 1; Insert 2; Insert 3] ∅
  = live [Insert 3; Insert 4; Insert 2; Erase 4; Insert 1] ∅ ∧
  ∃ s1 s2,
    NilRep.run [Insert 1; Insert 2; Insert 3] NilTree.empty_tree = Some s1 ∧
    NilRep.run [Insert 3; Insert 4; Insert 2; Erase 4; Insert 1]
      NilTree.empty_tree = Some s2 ∧
    NilRep.contents s1 = NilRep.contents s2.
Proof.
  split; [by vm_compute|].
  apply (X14_contents_by_live_set [Insert 1; Insert 2; Insert 3]
           [Insert 3; Insert 4; Insert 2; Erase 4; Insert 1]).
  by vm_compute.
Defined.

(** X15: after the same sequence of calls the two trees agree: on the
    stored values, on [size], on the lower and the upper rank of every
    value and on [distance_from_root]. *)
Theorem X15_trees_agree (ops : list Op) (v : Z) :
  ∃ sa sb keys n rl ru d,
    NilRep.run ops NilTree.empty_tree = Some sa ∧
    SizeRep.run ops SizeTree.empty_tree = Some sb ∧
    NilRep.contents sa = keys ∧ SizeRep.traverse sb = Some keys ∧
    NilTree.size sa = Some n ∧ SizeTree.size sb = Some n ∧
    NilTree.rank_lower_bound sa v = Some rl ∧
    SizeTree.rank_comp_bound sb v SizeTree.compare_lower_bound = Some rl ∧
    NilTree.rank_upper_bound sa v = Some ru ∧
    SizeTree.rank_comp_bound sb v SizeTree.compare_upper_bound = Some ru ∧
    NilTree.distance_from_root sa v = Some d ∧
    SizeTree.distance_from_root sb v = Some d.
Proof.
  destruct (NilLive.run_state ops) as (sa & ta & Hra & HGa & Hka & Hca & _).
  destruct (SizeLive.sz_run_state ops) as (sb & tb & Hrb & HGb & Hkb & Hcb & _).
  pose proof (keys_of_unique _ _ _ Hkb Hka) as He.
  destruct HGa as ([HRa _] & _ & Hsa).
  destruct HGb as ([HRb _] & _ & Hsb & Hszb).
  exists sa, sb, (elements ta). do 4 eexists.
  split_and!; [done|done|done|by rewrite <- He| | | | | | | |].
  - by apply NilQuery.size_rep.
  - by rewrite (SizeQuery.sz_size_rep sb tb HRb Hszb), He.
  - by apply NilQuery.rank_lower_bound_rep.
  - rewrite (SizeQuery.rank_comp_bound_rep _ _ _ _ downward_lower HRb Hszb Hsb).
    by rewrite cmp_count_lower, He.
  - by apply NilQuery.rank_upper_bound_rep.
  - rewrite (SizeQuery.rank_comp_bound_rep _ _ _ _ downward_upper HRb Hszb Hsb).
    by rewrite cmp_count_upper, He.
  - by apply NilQuery.distance_from_root_rep.
  - by rewrite (SizeMore2.sz_distance_from_root_rep sb tb v HRb Hszb Hsb), He.
Qed.

(** X16: after every sequence of calls that leaves [n] values, the
    tree is at most [2 * log2 (n + 1)] nodes high, and the loop of
    [locate] ends within that many iterations and one more, on either
    tree. *)
Theorem X16_logarithmic_search (ops : list Op) (v : Z) :
  (∃ s t r, NilRep.run ops NilTree.empty_tree = Some s ∧
     NilRep.Rep s t ∧
     height t ≤ 2 * Nat.log2 (size (live ops ∅) + 1) ∧
     NilTree.locate s v = Some r ∧
     NilTree.locate_loop (2 * Nat.log2 (size (live ops ∅) + 1) + 1) s v
       (NilTree.root_ s) NilTree.nil false = Some r) ∧
  (∃ s t r, SizeRep.run ops SizeTree.empty_tree = Some s ∧
     SizeRep.Rep s t ∧
     height t ≤ 2 * Nat.log2 (size (live ops ∅) + 1) ∧
     SizeTree.locate s v = Some r ∧
     SizeTree.locate_loop (2 * Nat.log2 (size (live ops ∅) + 1) + 1) s v
       (SizeTree.root_ s) None false = Some r).
Proof.
  split.
  - destruct (NilLive.run_state ops) as (s & t & Hr & HG & Hk & _).
    destruct HG as ([HR _] & Hrb & Hs).
    pose proof (rbtree_height t Hrb) as Hh.
    rewrite count_elements, <- (keys_of_size _ _ Hk) in Hh.
    destruct (NilQuery.locate_rep s t v HR Hs) as (r & Hloc & _).
    exists s, t, r. split_and!; [done|done|done|done|].
    rewrite (NilMore.locate_fuel s t v _ HR); [done|lia].
  - destruct (SizeLive.sz_run_state ops) as (s & t & Hr & HG & Hk & _).
    destruct HG as ([HR _] & Hrb & Hs & _).
    pose proof (rbtree_height t Hrb) as Hh.
    rewrite count_elements, <- (keys_of_size _ _ Hk) in Hh.
    destruct (SizeMore2.sz_locate_rep s t v HR Hs) as (r & Hloc & _).
    exists s, t, r. split_and!; [done|done|done|done|].
    rewrite (SizeMore2.sz_locate_fuel s t v _ HR); [done|lia].
Qed.

(** X17: on the empty tree [erase] returns false and changes nothing,
    [size] and the ranks are 0 and [is_valid] holds; [distance] of the
    sentinel tree is [SIZE_MAX] and that of the augmented tree 0;
    [begin()] is [end()], which is also what the bounds return. *)
Theorem X17_empty_tree (v lo hi : Z) :
  NilTree.erase v NilTree.empty_tree = Some (false, NilTree.empty_tree) ∧
  NilTree.size NilTree.empty_tree = Some 0%Z ∧
  NilTree.is_valid NilTree.empty_tree = Some true ∧
  NilTree.rank_lower_bound NilTree.empty_tree v = Some 0%Z ∧
  NilTree.rank_upper_bound NilTree.empty_tree v = Some 0%Z ∧
  NilTree.distance NilTree.empty_tree lo hi = Some SIZE_MAX ∧
  SizeTree.erase v SizeTree.empty_tree = Some (false, SizeTree.empty_tree) ∧
  SizeTree.size SizeTree.empty_tree = Some 0%Z ∧
  SizeTree.is_valid SizeTree.empty_tree = Some true ∧
  SizeTree.distance SizeTree.empty_tree lo hi = Some 0%Z ∧
  SizeTree.begin SizeTree.empty_tree
  = Some (SizeTree.end_ SizeTree.empty_tree) ∧
  SizeTree.lower_bound SizeTree.empty_tree v
  = Some (SizeTree.end_ SizeTree.empty_tree) ∧
  SizeTree.upper_bound SizeTree.empty_tree v
  = Some (SizeTree.end_ SizeTree.empty_tree).
Proof.
  split_and!; try done.
  unfold SizeTree.distance. by destruct (hi <? lo)%Z.
Qed.

(** X18: in every state that a sequence of calls on the sentinel tree
    reaches, inserting a value that is not stored and erasing it again
    succeeds twice and restores the stored values. *)
Theorem X18_insert_erase_round_trip (ops : list Op) (v : Z) :
  ∃ s keys, NilRep.run ops NilTree.empty_tree = Some s ∧
    keys_of ops keys ∧ NilRep.contents s = keys ∧
    (v ∉ keys →
     ∃ s1 s2, NilTree.insert v s = Some (true, s1) ∧
              NilTree.erase v s1 = Some (true, s2) ∧
              NilRep.contents s2 = keys).
Proof.
  destruct (NilLive.run_state ops) as (s & t & Hr & HG & Hk & Hc & Hl).
  exists s, (elements t). split_and!; try done. intros Hv.
  destruct (NilTop.Good_insert s t v HG) as (b & s1 & t1 & Hins & HG1 & _ & Ha).
  destruct (Ha Hv) as (-> & Hel1 & _).
  destruct (NilTop.Good_erase s1 t1 v HG1) as (b & s2 & t2 & Her & HG2 & _ & Hp).
  destruct Hp as (-> & Hel2 & _); [apply Hel1; by left|].
  exists s1, s2. split_and!; [done|done|].
  rewrite (NilLive.Good_contents _ _ HG2).
  apply sorted_set_eq; [apply HG2|apply HG|].
  apply set_eq. intros x. rewrite !elem_of_list_to_set, Hel2, Hel1.
  split; [naive_solver|]. intros Hx. split; [by right|]. by intros ->.
Qed.
